(** * WideTree (tree.js): a shallow embedding of the tree drawing library

    The JavaScript objects of tree.js are modelled as records living in
    heaps indexed by object identities:
    - [DrawingTreeNode] objects in [nodes],
    - DOM elements in [elems],
    - backing nodes (the objects handed to [BuildTree]) in [backing],
    - viewport objects [{x, y}] in [viewports],
    - callbacks handed to [setImmediate]/[setTimeout] in [tasks].

    Every method becomes a function in a state-and-failure monad; a
    JavaScript exception (a TypeError on [undefined], a DOM exception) is
    [None].  Recursive methods take a fuel argument.  Numbers are exact:
    widths and viewport coordinates are integers ([Z]); pixel offsets that
    involve [NODE_WIDTH / 2] are rationals ([Q]). *)

From Stdlib Require Import ZArith QArith String List Lia.
From stdpp Require Import base option list gmap strings.

Local Open Scope Z_scope.

(** ** Object identities *)

Abbreviation nid := nat (only parsing).   (* DrawingTreeNode objects *)
Abbreviation eid := nat (only parsing).   (* DOM elements *)
Abbreviation bid := nat (only parsing).   (* backing nodes *)
Abbreviation vid := nat (only parsing).   (* viewport objects *)

(** ** Constants (tree.js lines 17-20) *)

Definition NODE_WIDTH : Z := 75.
Definition NODE_MARGIN_X : Z := 10.
Definition NODE_HEIGHT : Z := 80.
Definition NODE_MARGIN_Y : Z := 20.

(** ** Records *)

Inductive Html :=
  | HtmlText (s : string)
  | HtmlNumber (n : nat).

(** A DOM element.  A style value [Some q] stands for the string
    [q ++ "px"], [None] for the empty string.  [listener] is the node
    captured (as [that]) by the click and mousedown handlers. *)
Record Element := {
  className : string;
  innerHTML : Html;
  styleLeft : option Q;
  styleTop : option Q;
  styleWidth : option Q;
  parentNode : option eid;
  childNodes : list eid;
  listener : option nid
}.

(** A backing node: what [getChildren()] returns, what
    [createRepresentation()] produces, and the remembered expansion flag
    written by the library. *)
Record BackingNode := {
  b_children : list bid;
  b_class : string;
  b_html : string;
  drawingTreeNodeIsExpanded : bool
}.

Record DrawingTreeNode := {
  innerNode : bid;
  nodeChildren : list bid;
  parent : option nid;
  children : list nid;
  requiredWidth : Z;
  representation : option eid;
  isExpanded : bool;
  childBar : option eid;
  horizontalBar : option eid;
  parentBar : option eid;
  lastContainer : option eid;
  lastViewport : option vid
}.

Record State := {
  nodes : gmap nid DrawingTreeNode;
  elems : gmap eid Element;
  backing : gmap bid BackingNode;
  viewports : gmap vid (Z * Z);
  tasks : list nid;
  nextNode : nat;
  nextElem : nat;
  nextViewport : nat
}.

(** ** Field updates *)

Definition set_children (v : list nid) (d : DrawingTreeNode) :=
  {| innerNode := innerNode d; nodeChildren := nodeChildren d; parent := parent d;
     children := v; requiredWidth := requiredWidth d;
     representation := representation d; isExpanded := isExpanded d;
     childBar := childBar d; horizontalBar := horizontalBar d;
     parentBar := parentBar d; lastContainer := lastContainer d;
     lastViewport := lastViewport d |}.

Definition set_requiredWidth (v : Z) (d : DrawingTreeNode) :=
  {| innerNode := innerNode d; nodeChildren := nodeChildren d; parent := parent d;
     children := children d; requiredWidth := v;
     representation := representation d; isExpanded := isExpanded d;
     childBar := childBar d; horizontalBar := horizontalBar d;
     parentBar := parentBar d; lastContainer := lastContainer d;
     lastViewport := lastViewport d |}.

Definition set_representation (v : option eid) (d : DrawingTreeNode) :=
  {| innerNode := innerNode d; nodeChildren := nodeChildren d; parent := parent d;
     children := children d; requiredWidth := requiredWidth d;
     representation := v; isExpanded := isExpanded d;
     childBar := childBar d; horizontalBar := horizontalBar d;
     parentBar := parentBar d; lastContainer := lastContainer d;
     lastViewport := lastViewport d |}.

Definition set_isExpanded (v : bool) (d : DrawingTreeNode) :=
  {| innerNode := innerNode d; nodeChildren := nodeChildren d; parent := parent d;
     children := children d; requiredWidth := requiredWidth d;
     representation := representation d; isExpanded := v;
     childBar := childBar d; horizontalBar := horizontalBar d;
     parentBar := parentBar d; lastContainer := lastContainer d;
     lastViewport := lastViewport d |}.

Definition set_childBar (v : option eid) (d : DrawingTreeNode) :=
  {| innerNode := innerNode d; nodeChildren := nodeChildren d; parent := parent d;
     children := children d; requiredWidth := requiredWidth d;
     representation := representation d; isExpanded := isExpanded d;
     childBar := v; horizontalBar := horizontalBar d;
     parentBar := parentBar d; lastContainer := lastContainer d;
     lastViewport := lastViewport d |}.

Definition set_horizontalBar (v : option eid) (d : DrawingTreeNode) :=
  {| innerNode := innerNode d; nodeChildren := nodeChildren d; parent := parent d;
     children := children d; requiredWidth := requiredWidth d;
     representation := representation d; isExpanded := isExpanded d;
     childBar := childBar d; horizontalBar := v;
     parentBar := parentBar d; lastContainer := lastContainer d;
     lastViewport := lastViewport d |}.

Definition set_parentBar (v : option eid) (d : DrawingTreeNode) :=
  {| innerNode := innerNode d; nodeChildren := nodeChildren d; parent := parent d;
     children := children d; requiredWidth := requiredWidth d;
     representation := representation d; isExpanded := isExpanded d;
     childBar := childBar d; horizontalBar := horizontalBar d;
     parentBar := v; lastContainer := lastContainer d;
     lastViewport := lastViewport d |}.

Definition set_last (c : option eid) (v : option vid) (d : DrawingTreeNode) :=
  {| innerNode := innerNode d; nodeChildren := nodeChildren d; parent := parent d;
     children := children d; requiredWidth := requiredWidth d;
     representation := representation d; isExpanded := isExpanded d;
     childBar := childBar d; horizontalBar := horizontalBar d;
     parentBar := parentBar d; lastContainer := c;
     lastViewport := v |}.

Definition set_className (v : string) (e : Element) :=
  {| className := v; innerHTML := innerHTML e; styleLeft := styleLeft e;
     styleTop := styleTop e; styleWidth := styleWidth e;
     parentNode := parentNode e; childNodes := childNodes e;
     listener := listener e |}.

Definition set_innerHTML (v : Html) (e : Element) :=
  {| className := className e; innerHTML := v; styleLeft := styleLeft e;
     styleTop := styleTop e; styleWidth := styleWidth e;
     parentNode := parentNode e; childNodes := childNodes e;
     listener := listener e |}.

Definition set_styleLeft (v : option Q) (e : Element) :=
  {| className := className e; innerHTML := innerHTML e; styleLeft := v;
     styleTop := styleTop e; styleWidth := styleWidth e;
     parentNode := parentNode e; childNodes := childNodes e;
     listener := listener e |}.

Definition set_styleTop (v : option Q) (e : Element) :=
  {| className := className e; innerHTML := innerHTML e; styleLeft := styleLeft e;
     styleTop := v; styleWidth := styleWidth e;
     parentNode := parentNode e; childNodes := childNodes e;
     listener := listener e |}.

Definition set_styleWidth (v : option Q) (e : Element) :=
  {| className := className e; innerHTML := innerHTML e; styleLeft := styleLeft e;
     styleTop := styleTop e; styleWidth := v;
     parentNode := parentNode e; childNodes := childNodes e;
     listener := listener e |}.

Definition set_parentNode (v : option eid) (e : Element) :=
  {| className := className e; innerHTML := innerHTML e; styleLeft := styleLeft e;
     styleTop := styleTop e; styleWidth := styleWidth e;
     parentNode := v; childNodes := childNodes e;
     listener := listener e |}.

Definition set_childNodes (v : list eid) (e : Element) :=
  {| className := className e; innerHTML := innerHTML e; styleLeft := styleLeft e;
     styleTop := styleTop e; styleWidth := styleWidth e;
     parentNode := parentNode e; childNodes := v;
     listener := listener e |}.

Definition set_listener (v : option nid) (e : Element) :=
  {| className := className e; innerHTML := innerHTML e; styleLeft := styleLeft e;
     styleTop := styleTop e; styleWidth := styleWidth e;
     parentNode := parentNode e; childNodes := childNodes e;
     listener := v |}.

Definition set_flag (v : bool) (b : BackingNode) :=
  {| b_children := b_children b; b_class := b_class b; b_html := b_html b;
     drawingTreeNodeIsExpanded := v |}.

Definition with_nodes (m : gmap nid DrawingTreeNode) (s : State) :=
  {| nodes := m; elems := elems s; backing := backing s;
     viewports := viewports s; tasks := tasks s; nextNode := nextNode s;
     nextElem := nextElem s; nextViewport := nextViewport s |}.

Definition with_elems (m : gmap eid Element) (s : State) :=
  {| nodes := nodes s; elems := m; backing := backing s;
     viewports := viewports s; tasks := tasks s; nextNode := nextNode s;
     nextElem := nextElem s; nextViewport := nextViewport s |}.

Definition with_backing (m : gmap bid BackingNode) (s : State) :=
  {| nodes := nodes s; elems := elems s; backing := m;
     viewports := viewports s; tasks := tasks s; nextNode := nextNode s;
     nextElem := nextElem s; nextViewport := nextViewport s |}.

Definition with_viewports (m : gmap vid (Z * Z)) (s : State) :=
  {| nodes := nodes s; elems := elems s; backing := backing s;
     viewports := m; tasks := tasks s; nextNode := nextNode s;
     nextElem := nextElem s; nextViewport := nextViewport s |}.

Definition with_tasks (q : list nid) (s : State) :=
  {| nodes := nodes s; elems := elems s; backing := backing s;
     viewports := viewports s; tasks := q; nextNode := nextNode s;
     nextElem := nextElem s; nextViewport := nextViewport s |}.

(** ** The monad *)

Definition M (A : Type) : Type := State -> option (A * State).

Definition ret {A} (a : A) : M A := fun s => Some (a, s).
Definition fail {A} : M A := fun _ => None.
Definition bind {A B} (c : M A) (k : A -> M B) : M B :=
  fun s => match c s with
           | Some (a, s') => k a s'
           | None => None
           end.

Notation "'let*' x ':=' c 'in' k" := (bind c (fun x => k))
  (at level 10, x name, c at level 100, k at level 200).
Notation "c ';;;' k" := (bind c (fun _ => k))
  (at level 100, k at level 200, right associativity).

Fixpoint forM_ {A} (f : A -> M unit) (l : list A) : M unit :=
  match l with
  | [] => ret tt
  | x :: l' => f x ;;; forM_ f l'
  end.

Fixpoint mapM {A B} (f : A -> M B) (l : list A) : M (list B) :=
  match l with
  | [] => ret []
  | x :: l' => let* y := f x in let* ys := mapM f l' in ret (y :: ys)
  end.

Definition when (b : bool) (c : M unit) : M unit := if b then c else ret tt.

(** ** Heap primitives *)

Definition getNode (n : nid) : M DrawingTreeNode :=
  fun s => match nodes s !! n with Some d => Some (d, s) | None => None end.

Definition modifyNode (n : nid) (f : DrawingTreeNode -> DrawingTreeNode) : M unit :=
  fun s => match nodes s !! n with
           | Some d => Some (tt, with_nodes (<[n := f d]> (nodes s)) s)
           | None => None
           end.

Definition newNode (d : DrawingTreeNode) : M nid :=
  fun s => Some (nextNode s,
    {| nodes := <[nextNode s := d]> (nodes s); elems := elems s;
       backing := backing s; viewports := viewports s; tasks := tasks s;
       nextNode := S (nextNode s); nextElem := nextElem s;
       nextViewport := nextViewport s |}).

Definition getElem (e : eid) : M Element :=
  fun s => match elems s !! e with Some x => Some (x, s) | None => None end.

Definition modifyElem (e : eid) (f : Element -> Element) : M unit :=
  fun s => match elems s !! e with
           | Some x => Some (tt, with_elems (<[e := f x]> (elems s)) s)
           | None => None
           end.

Definition newElem (x : Element) : M eid :=
  fun s => Some (nextElem s,
    {| nodes := nodes s; elems := <[nextElem s := x]> (elems s);
       backing := backing s; viewports := viewports s; tasks := tasks s;
       nextNode := nextNode s; nextElem := S (nextElem s);
       nextViewport := nextViewport s |}).

Definition getBacking (b : bid) : M BackingNode :=
  fun s => match backing s !! b with Some x => Some (x, s) | None => None end.

Definition modifyBacking (b : bid) (f : BackingNode -> BackingNode) : M unit :=
  fun s => match backing s !! b with
           | Some x => Some (tt, with_backing (<[b := f x]> (backing s)) s)
           | None => None
           end.

Definition getViewport (v : vid) : M (Z * Z) :=
  fun s => match viewports s !! v with Some x => Some (x, s) | None => None end.

Definition setViewport (v : vid) (xy : Z * Z) : M unit :=
  fun s => match viewports s !! v with
           | Some _ => Some (tt, with_viewports (<[v := xy]> (viewports s)) s)
           | None => None
           end.

(** The object literal [{x: .., y: ..}]. *)
Definition newViewport (xy : Z * Z) : M vid :=
  fun s => Some (nextViewport s,
    {| nodes := nodes s; elems := elems s; backing := backing s;
       viewports := <[nextViewport s := xy]> (viewports s); tasks := tasks s;
       nextNode := nextNode s; nextElem := nextElem s;
       nextViewport := S (nextViewport s) |}).

(** [window.setImmediate(work)] or [window.setTimeout(work, 0)]: either
    way the callback is queued for a later turn of the event loop.  The
    closure [work] is identified by the node it captured. *)
Definition defer (n : nid) : M unit :=
  fun s => Some (tt, with_tasks (tasks s ++ [n]) s).

(** ** DOM operations *)

(** [document.createElement("div")] *)
Definition blankElement : Element :=
  {| className := ""; innerHTML := HtmlText ""; styleLeft := None;
     styleTop := None; styleWidth := None; parentNode := None;
     childNodes := []; listener := None |}.

Definition createElement : M eid := newElem blankElement.

(** [p.removeChild(e)]: a DOM exception unless [e] is a child of [p]. *)
Definition removeChild (p e : eid) : M unit :=
  let* x := getElem e in
  match parentNode x with
  | Some q =>
      if Nat.eqb q p then
        modifyElem p (fun y => set_childNodes (filter (fun c => c <> e) (childNodes y)) y) ;;;
        modifyElem e (set_parentNode None)
      else fail
  | None => fail
  end.

(** [p.appendChild(e)]: [e] leaves its previous parent, if any, and becomes
    the last child of [p]. *)
Definition appendChild (p e : eid) : M unit :=
  let* x := getElem e in
  match parentNode x with
  | Some q => removeChild q e
  | None => ret tt
  end ;;;
  modifyElem p (fun y => set_childNodes (childNodes y ++ [e]) y) ;;;
  modifyElem e (set_parentNode (Some p)).

(** [if (e.parentNode != container) container.appendChild(e)] *)
Definition attach (container e : eid) : M unit :=
  let* x := getElem e in
  match parentNode x with
  | Some q => if Nat.eqb q container then ret tt else appendChild container e
  | None => appendChild container e
  end.

(** ** tree.js *)

(** lines 38-64 *)
Definition createRepresentation (n : nid) : M unit :=
  let* d := getNode n in
  let* b := getBacking (innerNode d) in
  let* r := newElem {| className := b_class b; innerHTML := HtmlText (b_html b);
                       styleLeft := None; styleTop := None; styleWidth := None;
                       parentNode := None; childNodes := []; listener := None |} in
  modifyNode n (set_representation (Some r)) ;;;
  let* childrenCount := createElement in
  modifyElem childrenCount (set_className "children") ;;;
  let* d := getNode n in
  modifyElem childrenCount (set_innerHTML (HtmlNumber (length (nodeChildren d)))) ;;;
  appendChild r childrenCount ;;;
  modifyElem r (set_listener (Some n)).

(** lines 22-36 and 95-106.  Line 24 keeps the array that [getChildren()]
    returned, without copying it: [nodeChildren] holds the contents of that
    array, and a change that the source makes to the array in place is the
    step [sourceWrites] below. *)
Fixpoint construct (fuel : nat) (node : bid) (parent : option nid) : M nid :=
  match fuel with
  | O => fail
  | S f =>
      let* b := getBacking node in
      let* this := newNode
        {| innerNode := node; nodeChildren := b_children b; parent := parent;
           children := []; requiredWidth := -1; representation := None;
           isExpanded := Nat.eqb (length (b_children b)) 0;
           childBar := None; horizontalBar := None; parentBar := None;
           lastContainer := None; lastViewport := None |} in
      createRepresentation this ;;;
      let* b := getBacking node in
      when (drawingTreeNodeIsExpanded b) (expand f this false) ;;;
      ret this
  end
with expand (fuel : nat) (this : nid) (recurse : bool) : M unit :=
  match fuel with
  | O => fail
  | S f =>
      let* d := getNode this in
      let* cs := mapM (fun x =>
                   let* node := construct f x (Some this) in
                   when recurse (expand f node true) ;;;
                   ret node) (nodeChildren d) in
      modifyNode this (set_children cs) ;;;
      modifyNode this (set_isExpanded true) ;;;
      let* d := getNode this in
      modifyBacking (innerNode d) (set_flag (isExpanded d))
  end.

(** lines 161-186 *)
Definition getChildBar (n : nid) : M eid :=
  let* d := getNode n in
  match childBar d with
  | Some e => ret e
  | None =>
      let* e := createElement in
      modifyNode n (set_childBar (Some e)) ;;;
      modifyElem e (set_className "vertical") ;;;
      ret e
  end.

Definition getHorizontalBar (n : nid) : M eid :=
  let* d := getNode n in
  match horizontalBar d with
  | Some e => ret e
  | None =>
      let* e := createElement in
      modifyNode n (set_horizontalBar (Some e)) ;;;
      modifyElem e (set_className "horizontal") ;;;
      ret e
  end.

Definition getParentBar (n : nid) : M eid :=
  let* d := getNode n in
  match parentBar d with
  | Some e => ret e
  | None =>
      let* e := createElement in
      modifyNode n (set_parentBar (Some e)) ;;;
      modifyElem e (set_className "vertical") ;;;
      ret e
  end.

(** lines 109-113: the local helper of [collapse] *)
Definition remove (e : option eid) : M unit :=
  match e with
  | None => fail
  | Some e =>
      let* x := getElem e in
      match parentNode x with
      | Some p => removeChild p e
      | None => ret tt
      end
  end.

(** lines 108-126 *)
Fixpoint collapse (fuel : nat) (this : nid) (removeSelf : bool) : M unit :=
  match fuel with
  | O => fail
  | S f =>
      when removeSelf
        (let* d := getNode this in
         remove (representation d) ;;;
         let* pb := getParentBar this in
         remove (Some pb)) ;;;
      let* cb := getChildBar this in
      remove (Some cb) ;;;
      let* hb := getHorizontalBar this in
      remove (Some hb) ;;;
      let* d := getNode this in
      forM_ (fun x => collapse f x true) (children d) ;;;
      modifyNode this (set_children []) ;;;
      modifyNode this (set_requiredWidth 0) ;;;
      modifyNode this (fun d => set_isExpanded (Nat.eqb (length (nodeChildren d)) 0) d) ;;;
      let* d := getNode this in
      modifyBacking (innerNode d) (set_flag (isExpanded d))
  end.

(** lines 137-155.  [this.requiredWidth += e] reads the field, evaluates
    [e], then stores the sum. *)
Fixpoint getRequiredWidth (fuel : nat) (this : nid) : M Z :=
  match fuel with
  | O => fail
  | S f =>
      let* d := getNode this in
      when (requiredWidth d =? -1)
        (modifyNode this (set_requiredWidth 0) ;;;
         forM_ (fun c =>
                  let* d := getNode this in
                  let* w := getRequiredWidth f c in
                  modifyNode this (set_requiredWidth (requiredWidth d + w)))
               (children d) ;;;
         let* d := getNode this in
         when (0 <? Z.of_nat (length (children d)))
           (modifyNode this
              (set_requiredWidth
                 (requiredWidth d + NODE_MARGIN_X * (Z.of_nat (length (children d)) - 1)))) ;;;
         let* d := getNode this in
         when (requiredWidth d <? NODE_WIDTH)
           (modifyNode this (set_requiredWidth NODE_WIDTH))) ;;;
      let* d := getNode this in
      ret (requiredWidth d)
  end.

Definition half (z : Z) : Q := (z # 2)%Q.
Definition px (z : Z) : option Q := Some (inject_Z z).
Definition px_plus (z : Z) (q : Q) : option Q := Some (inject_Z z + q)%Q.

Definition nodeClass (expanded : bool) : string :=
  if expanded then "node" else "node collapsed".

(** lines 188-243.  The width of the horizontal bar is stored as it is
    assigned.  With valid width caches it is not negative
    ([draw_places_node]); from a stale cache it can be, and a page ignores
    the assignment of a negative width. *)
Fixpoint draw (fuel : nat) (this : nid) (container : eid) (viewport : vid) : M unit :=
  match fuel with
  | O => fail
  | S f =>
      let* xy := getViewport viewport in
      let* lv := newViewport xy in
      modifyNode this (set_last (Some container) (Some lv)) ;;;
      let* d := getNode this in
      match representation d with
      | None => fail
      | Some element =>
          modifyElem element (set_className (nodeClass (isExpanded d))) ;;;
          let* xy := getViewport viewport in
          modifyElem element (set_styleLeft (px (fst xy))) ;;;
          let* xy := getViewport viewport in
          modifyElem element (set_styleTop (px (snd xy))) ;;;
          attach container element ;;;
          let* d := getNode this in
          let children := children d in
          match children with
          | [] => ret tt
          | first :: _ =>
              let* firstWidth := getRequiredWidth f first in
              let* lastWidth := getRequiredWidth f (List.last children first) in
              let* totalWidth := getRequiredWidth f this in
              let* vertical := getChildBar this in
              let* xy := getViewport viewport in
              modifyElem vertical (set_styleLeft (px_plus (fst xy) (half NODE_WIDTH))) ;;;
              let* xy := getViewport viewport in
              modifyElem vertical (set_styleTop (px (snd xy + NODE_HEIGHT))) ;;;
              attach container vertical ;;;
              let horizontalBarWidth := totalWidth - lastWidth in
              let* horizontal := getHorizontalBar this in
              modifyElem horizontal (set_styleWidth (px horizontalBarWidth)) ;;;
              let* xy := getViewport viewport in
              modifyElem horizontal (set_styleLeft (px_plus (fst xy) (half NODE_WIDTH))) ;;;
              let* xy := getViewport viewport in
              modifyElem horizontal
                (set_styleTop (px_plus (snd xy + NODE_HEIGHT) (half NODE_MARGIN_Y))) ;;;
              attach container horizontal ;;;
              let* xy := getViewport viewport in
              setViewport viewport (fst xy, snd xy + (NODE_HEIGHT + NODE_MARGIN_Y)) ;;;
              forM_ (fun child =>
                       let* requiredWidth := getRequiredWidth f child in
                       let* childVertical := getParentBar child in
                       let* xy := getViewport viewport in
                       modifyElem childVertical
                         (set_styleLeft (px_plus (fst xy) (half NODE_WIDTH))) ;;;
                       let* xy := getViewport viewport in
                       modifyElem childVertical
                         (set_styleTop (px_plus (snd xy) (- half NODE_MARGIN_Y))) ;;;
                       attach container childVertical ;;;
                       let* xy := getViewport viewport in
                       let* v := newViewport xy in
                       draw f child container v ;;;
                       let* xy := getViewport viewport in
                       setViewport viewport (fst xy + (requiredWidth + NODE_MARGIN_X), snd xy))
                    children
          end
      end
  end.

(** lines 157-159.  A node that was never drawn has no [lastViewport], and
    [draw] then fails on [viewport.x]. *)
Definition redraw (fuel : nat) (this : nid) : M unit :=
  let* d := getNode this in
  match lastViewport d, lastContainer d with
  | Some v, Some c => draw fuel this c v
  | _, _ => fail
  end.

(** lines 128-135 *)
Fixpoint invalidate (fuel : nat) (this : nid) : M unit :=
  match fuel with
  | O => fail
  | S f =>
      modifyNode this (set_requiredWidth (-1)) ;;;
      let* d := getNode this in
      match parent d with
      | Some p => invalidate f p
      | None => redraw f this
      end
  end.

(** lines 66-93 *)
Definition updateRepresentation (this : nid) : M unit :=
  let* d := getNode this in
  match representation d with
  | None => ret tt
  | Some r =>
      let* x := getElem r in
      match parentNode x with
      | None => ret tt
      | Some parent =>
          let styles := (className x, styleLeft x, styleTop x) in
          removeChild parent r ;;;
          modifyNode this (set_representation None) ;;;
          createRepresentation this ;;;
          let* d := getNode this in
          match representation d with
          | None => fail
          | Some r' =>
              appendChild parent r' ;;;
              modifyElem r' (set_className (fst (fst styles))) ;;;
              modifyElem r' (set_styleLeft (snd (fst styles))) ;;;
              modifyElem r' (set_styleTop (snd styles))
          end
      end
  end ;;;
  defer this.

(** One later turn of the event loop: the oldest queued [work] closure
    runs [that.children.forEach(x => x.updateRepresentation())]. *)
Definition runTask : M unit :=
  fun s => match tasks s with
           | [] => None
           | n :: q =>
               (let* d := getNode n in
                forM_ updateRepresentation (children d)) (with_tasks q s)
           end.

(** lines 47-58: the click handler registered by [createRepresentation] *)
Definition click (fuel : nat) (that : nid) (ctrlKey : bool) : M unit :=
  let* d := getNode that in
  if negb (isExpanded d) then
    expand fuel that ctrlKey ;;;
    invalidate fuel that
  else if ctrlKey then
    collapse fuel that false ;;;
    invalidate fuel that
  else ret tt.

(** lines 246-257.  [container.innerHTML = ""] detaches every child of the
    container. *)
Definition clearChildren (container : eid) : M unit :=
  let* c := getElem container in
  forM_ (fun e => modifyElem e (set_parentNode None)) (childNodes c) ;;;
  modifyElem container (set_childNodes []).

Definition BuildTree (fuel : nat) (container : eid) (root : bid) : M nid :=
  clearChildren container ;;;
  modifyElem container (set_className "node-container") ;;;
  let* drawingRoot := construct fuel root None in
  let* v := newViewport (0, 0) in
  draw fuel drawingRoot container v ;;;
  ret drawingRoot.

(** ** The data source

    A drawing node keeps the array that [getChildren()] returned (line 24)
    and reads it again in [expand] (line 97), [collapse] (line 124) and
    [createRepresentation] (line 43); tree.js never writes it and never
    copies it.  [nodeChildren] holds the contents of that array.  For a
    source whose [getChildren()] returns the array it keeps for the backing
    node, every drawing node built for the backing node holds that one
    array, and when the source changes it in place (a push, a splice) all
    of them see the change.  [sourceWrites b l] is that step of the source:
    the array of backing node [b] now has the contents [l]. *)
Definition set_nodeChildren (v : list bid) (d : DrawingTreeNode) :=
  {| innerNode := innerNode d; nodeChildren := v; parent := parent d;
     children := children d; requiredWidth := requiredWidth d;
     representation := representation d; isExpanded := isExpanded d;
     childBar := childBar d; horizontalBar := horizontalBar d;
     parentBar := parentBar d; lastContainer := lastContainer d;
     lastViewport := lastViewport d |}.

Definition set_b_children (v : list bid) (b : BackingNode) :=
  {| b_children := v; b_class := b_class b; b_html := b_html b;
     drawingTreeNodeIsExpanded := drawingTreeNodeIsExpanded b |}.

Definition sourceWrites (b : bid) (l : list bid) : M unit :=
  modifyBacking b (set_b_children l) ;;;
  fun s => Some (tt, with_nodes
                       ((fun d => if decide (innerNode d = b) then set_nodeChildren l d else d)
                          <$> nodes s) s).

(** ** Operations as data, and reachable states *)

Inductive Op :=
  | OpBuildTree (container : eid) (root : bid)
  | OpConstruct (node : bid) (parent : option nid)
  | OpExpand (this : nid) (recurse : bool)
  | OpCollapse (this : nid) (removeSelf : bool)
  | OpInvalidate (this : nid)
  | OpGetRequiredWidth (this : nid)
  | OpDraw (this : nid) (container : eid) (viewport : vid)
  | OpRedraw (this : nid)
  | OpUpdateRepresentation (this : nid)
  | OpRunTask
  | OpClick (that : nid) (ctrlKey : bool).

Definition run (fuel : nat) (op : Op) : M unit :=
  match op with
  | OpBuildTree c b => BuildTree fuel c b ;;; ret tt
  | OpConstruct b p => construct fuel b p ;;; ret tt
  | OpExpand n r => expand fuel n r
  | OpCollapse n r => collapse fuel n r
  | OpInvalidate n => invalidate fuel n
  | OpGetRequiredWidth n => getRequiredWidth fuel n ;;; ret tt
  | OpDraw n c v => draw fuel n c v
  | OpRedraw n => redraw fuel n
  | OpUpdateRepresentation n => updateRepresentation n
  | OpRunTask => runTask
  | OpClick n k => click fuel n k
  end.

(** States reachable from a state without any drawing node (arbitrary DOM
    and backing data) by the operations of the library. *)
Inductive reachable : State -> Prop :=
  | reachable_init s : nodes s = ∅ -> reachable s
  | reachable_step s fuel op s' :
      reachable s -> run fuel op s = Some (tt, s') -> reachable s'.

(** * Reasoning principles for the monad *)

Lemma bind_inv {A B} (c : M A) (k : A -> M B) s b s' :
  bind c k s = Some (b, s') ->
  exists a s1, c s = Some (a, s1) /\ k a s1 = Some (b, s').
Proof.
  unfold bind. destruct (c s) as [[a s1]|]; [|discriminate].
  intros H. by exists a, s1.
Qed.

Lemma bind_eq {A B} (c : M A) (k : A -> M B) s a s1 :
  c s = Some (a, s1) -> bind c k s = k a s1.
Proof. unfold bind. by intros ->. Qed.

Lemma getNode_inv n s d s' :
  getNode n s = Some (d, s') -> s' = s /\ nodes s !! n = Some d.
Proof. unfold getNode. destruct (nodes s !! n); naive_solver. Qed.

Lemma modifyNode_inv n f s u s' :
  modifyNode n f s = Some (u, s') ->
  exists d, nodes s !! n = Some d /\ s' = with_nodes (<[n := f d]> (nodes s)) s.
Proof. unfold modifyNode. destruct (nodes s !! n); naive_solver. Qed.

Lemma getElem_inv e s x s' :
  getElem e s = Some (x, s') -> s' = s /\ elems s !! e = Some x.
Proof. unfold getElem. destruct (elems s !! e); naive_solver. Qed.

Lemma modifyElem_inv e f s u s' :
  modifyElem e f s = Some (u, s') ->
  exists x, elems s !! e = Some x /\ s' = with_elems (<[e := f x]> (elems s)) s.
Proof. unfold modifyElem. destruct (elems s !! e); naive_solver. Qed.

Lemma getBacking_inv b s x s' :
  getBacking b s = Some (x, s') -> s' = s /\ backing s !! b = Some x.
Proof. unfold getBacking. destruct (backing s !! b); naive_solver. Qed.

Lemma modifyBacking_inv b f s u s' :
  modifyBacking b f s = Some (u, s') ->
  exists x, backing s !! b = Some x /\ s' = with_backing (<[b := f x]> (backing s)) s.
Proof. unfold modifyBacking. destruct (backing s !! b); naive_solver. Qed.

Lemma getViewport_inv v s x s' :
  getViewport v s = Some (x, s') -> s' = s /\ viewports s !! v = Some x.
Proof. unfold getViewport. destruct (viewports s !! v); naive_solver. Qed.

Lemma setViewport_inv v xy s u s' :
  setViewport v xy s = Some (u, s') ->
  is_Some (viewports s !! v) /\ s' = with_viewports (<[v := xy]> (viewports s)) s.
Proof. unfold setViewport. destruct (viewports s !! v); naive_solver. Qed.

Lemma getNode_eq n s d : nodes s !! n = Some d -> getNode n s = Some (d, s).
Proof. unfold getNode. by intros ->. Qed.

Lemma modifyNode_eq n f s d :
  nodes s !! n = Some d ->
  modifyNode n f s = Some (tt, with_nodes (<[n := f d]> (nodes s)) s).
Proof. unfold modifyNode. by intros ->. Qed.

Lemma getElem_eq e s x : elems s !! e = Some x -> getElem e s = Some (x, s).
Proof. unfold getElem. by intros ->. Qed.

Lemma modifyElem_eq e f s x :
  elems s !! e = Some x ->
  modifyElem e f s = Some (tt, with_elems (<[e := f x]> (elems s)) s).
Proof. unfold modifyElem. by intros ->. Qed.

Lemma getBacking_eq b s x : backing s !! b = Some x -> getBacking b s = Some (x, s).
Proof. unfold getBacking. by intros ->. Qed.

Lemma modifyBacking_eq b f s x :
  backing s !! b = Some x ->
  modifyBacking b f s = Some (tt, with_backing (<[b := f x]> (backing s)) s).
Proof. unfold modifyBacking. by intros ->. Qed.

Lemma getViewport_eq v s x : viewports s !! v = Some x -> getViewport v s = Some (x, s).
Proof. unfold getViewport. by intros ->. Qed.

Lemma setViewport_eq v xy s x :
  viewports s !! v = Some x ->
  setViewport v xy s = Some (tt, with_viewports (<[v := xy]> (viewports s)) s).
Proof. unfold setViewport. by intros ->. Qed.

(** ** Invariants and frames, compositionally

    [sound I R c]: from a state satisfying [I], a run of [c] that returns
    ends in a state satisfying [I] and related to the initial one by [R]. *)

Definition sound (I : State -> Prop) (R : State -> State -> Prop) {A} (c : M A) : Prop :=
  forall s a s', I s -> c s = Some (a, s') -> I s' /\ R s s'.

Section Sound.
Context (I : State -> Prop) (R : State -> State -> Prop).
Context (Rrefl : forall s, R s s).
Context (Rtrans : forall s1 s2 s3, R s1 s2 -> R s2 s3 -> R s1 s3).

Lemma sound_ret {A} (a : A) : sound I R (ret a).
Proof. intros s a' s' HI [= <- <-]. auto. Qed.

Lemma sound_fail {A} : sound I R (@fail A).
Proof. intros s a s' _ [=]. Qed.

Lemma sound_bind {A B} (c : M A) (k : A -> M B) :
  sound I R c -> (forall a, sound I R (k a)) -> sound I R (bind c k).
Proof.
  intros Hc Hk s b s' HI (a & s1 & H1 & H2)%bind_inv.
  destruct (Hc _ _ _ HI H1) as [HI1 HR1].
  destruct (Hk a _ _ _ HI1 H2) as [HI2 HR2]. eauto.
Qed.

Lemma sound_when (b : bool) (c : M unit) : sound I R c -> sound I R (when b c).
Proof. destruct b; simpl; auto using sound_ret. Qed.

Lemma sound_forM_ {A} (f : A -> M unit) (l : list A) :
  (forall x, x ∈ l -> sound I R (f x)) -> sound I R (forM_ f l).
Proof.
  induction l as [|x l IH]; simpl; intros Hf.
  - apply sound_ret.
  - apply sound_bind; [apply Hf; left|intros _].
    apply IH. intros y Hy. apply Hf. by right.
Qed.

Lemma sound_mapM {A B} (f : A -> M B) (l : list A) :
  (forall x, x ∈ l -> sound I R (f x)) -> sound I R (mapM f l).
Proof.
  induction l as [|x l IH]; simpl; intros Hf.
  - apply sound_ret.
  - apply sound_bind; [apply Hf; left|intros y].
    apply sound_bind; [|intros ys; apply sound_ret].
    apply IH. intros z Hz. apply Hf. by right.
Qed.

Lemma sound_getNode n : sound I R (getNode n).
Proof. intros s d s' HI [-> _]%getNode_inv. auto. Qed.

Lemma sound_getElem e : sound I R (getElem e).
Proof. intros s d s' HI [-> _]%getElem_inv. auto. Qed.

Lemma sound_getBacking b : sound I R (getBacking b).
Proof. intros s d s' HI [-> _]%getBacking_inv. auto. Qed.

Lemma sound_getViewport v : sound I R (getViewport v).
Proof. intros s d s' HI [-> _]%getViewport_inv. auto. Qed.
End Sound.

(** Goal-directed decomposition of a [sound] goal: [Hr] and [Ht] are the
    reflexivity and transitivity of the frame, [prim] closes the goals for
    heap primitives and recursive calls. *)
Ltac sound_go Hr Ht prim :=
  repeat first
    [ apply (sound_ret _ _ Hr)
    | apply sound_fail
    | apply (sound_getNode _ _ Hr)
    | apply (sound_getElem _ _ Hr)
    | apply (sound_getBacking _ _ Hr)
    | apply (sound_getViewport _ _ Hr)
    | apply (sound_bind _ _ Ht); [|intros ?]
    | apply (sound_when _ _ Hr)
    | apply (sound_forM_ _ _ Hr Ht); intros ? ?
    | apply (sound_mapM _ _ Hr Ht); intros ? ?
    | progress prim
    | match goal with
      | |- sound _ _ (match ?x with _ => _ end) => destruct x
      end
    | progress cbv beta ].

Ltac unfold_ops :=
  unfold removeChild, appendChild, attach, createRepresentation, createElement,
    getChildBar, getHorizontalBar, getParentBar, remove, redraw,
    updateRepresentation, clearChildren.

(** * The expansion flag (claim C5) *)

Definition flag_ok (d : DrawingTreeNode) : Prop :=
  isExpanded d = false -> nodeChildren d <> [].

Definition all_nodes (P : DrawingTreeNode -> Prop) (s : State) : Prop :=
  forall n d, nodes s !! n = Some d -> P d.

Definition any : State -> State -> Prop := fun _ _ => True.

Section NodeLocal.
Context (P : DrawingTreeNode -> Prop).

Lemma local_modifyNode n f :
  (forall d, P d -> P (f d)) -> sound (all_nodes P) any (modifyNode n f).
Proof.
  intros Hf s u s' HI (d & Hd & ->)%modifyNode_inv. split; [|done].
  intros m dm. simpl. destruct (decide (n = m)) as [->|Hne].
  - rewrite lookup_insert_eq. intros [= <-]. eauto.
  - rewrite lookup_insert_ne by done. apply HI.
Qed.

Lemma local_newNode d : P d -> sound (all_nodes P) any (newNode d).
Proof.
  intros Hd s u s' HI [= <- <-]. split; [|done].
  intros m dm. simpl. destruct (decide (nextNode s = m)) as [->|Hne].
  - rewrite lookup_insert_eq. by intros [= <-].
  - rewrite lookup_insert_ne by done. apply HI.
Qed.

Lemma local_modifyElem e f : sound (all_nodes P) any (modifyElem e f).
Proof. intros s u s' HI (d & Hd & ->)%modifyElem_inv. done. Qed.

Lemma local_newElem x : sound (all_nodes P) any (newElem x).
Proof. intros s u s' HI [= <- <-]. done. Qed.

Lemma local_modifyBacking b f : sound (all_nodes P) any (modifyBacking b f).
Proof. intros s u s' HI (d & Hd & ->)%modifyBacking_inv. done. Qed.

Lemma local_setViewport v xy : sound (all_nodes P) any (setViewport v xy).
Proof. intros s u s' HI (Hd & ->)%setViewport_inv. done. Qed.

Lemma local_newViewport xy : sound (all_nodes P) any (newViewport xy).
Proof. intros s u s' HI [= <- <-]. done. Qed.

Lemma local_defer n : sound (all_nodes P) any (defer n).
Proof. intros s u s' HI [= _ <-]. done. Qed.
End NodeLocal.

Lemma any_refl s : any s s.
Proof. done. Qed.

Lemma any_trans s1 s2 s3 : any s1 s2 -> any s2 s3 -> any s1 s3.
Proof. done. Qed.

Ltac flag_prim :=
  first
    [ apply local_modifyNode; unfold flag_ok; simpl; intros ? ?;
      try match goal with |- context [Nat.eqb ?a ?b] => destruct (Nat.eqb_spec a b) end;
      intros; try done; try (destruct (nodeChildren _); done); tauto
    | apply local_newNode; unfold flag_ok; simpl;
      try match goal with |- context [Nat.eqb ?a ?b] => destruct (Nat.eqb_spec a b) end;
      intros; try done; try (destruct (b_children _); done)
    | apply local_modifyElem | apply local_newElem | apply local_modifyBacking
    | apply local_setViewport | apply local_newViewport | apply local_defer
    | progress unfold_ops
    | solve [auto] ].

Ltac flag_go := sound_go any_refl any_trans flag_prim.

Lemma flag_construct_expand fuel :
  (forall b p, sound (all_nodes flag_ok) any (construct fuel b p)) /\
  (forall n r, sound (all_nodes flag_ok) any (expand fuel n r)).
Proof.
  induction fuel as [|f [IHc IHe]]; (split; [intros b p|intros n r]); simpl;
    try apply sound_fail.
  - flag_go.
  - flag_go.
Qed.

Lemma flag_collapse fuel n r : sound (all_nodes flag_ok) any (collapse fuel n r).
Proof.
  revert n r. induction fuel as [|f IH]; intros n r; simpl; [apply sound_fail|].
  flag_go.
Qed.

Lemma flag_getRequiredWidth fuel n :
  sound (all_nodes flag_ok) any (getRequiredWidth fuel n).
Proof.
  revert n. induction fuel as [|f IH]; intros n; simpl; [apply sound_fail|].
  flag_go.
Qed.

Lemma flag_draw fuel n c v : sound (all_nodes flag_ok) any (draw fuel n c v).
Proof.
  revert n c v. induction fuel as [|f IH]; intros n c v; simpl; [apply sound_fail|].
  pose proof flag_getRequiredWidth. flag_go.
Qed.

Lemma flag_invalidate fuel n : sound (all_nodes flag_ok) any (invalidate fuel n).
Proof.
  revert n. induction fuel as [|f IH]; intros n; simpl; [apply sound_fail|].
  pose proof flag_draw. flag_go.
Qed.

Lemma flag_updateRepresentation n :
  sound (all_nodes flag_ok) any (updateRepresentation n).
Proof. flag_go. Qed.

Lemma flag_run fuel op : sound (all_nodes flag_ok) any (run fuel op).
Proof.
  pose proof (fun f => proj1 (flag_construct_expand f)).
  pose proof (fun f => proj2 (flag_construct_expand f)).
  pose proof flag_collapse. pose proof flag_invalidate.
  pose proof flag_getRequiredWidth. pose proof flag_draw.
  pose proof flag_updateRepresentation.
  destruct op; simpl; try (unfold BuildTree, click; flag_go; fail).
  intros s a s' HI Hrun. unfold runTask in Hrun. destruct (tasks s) as [|t q]; [done|].
    revert Hrun. generalize (with_tasks q s), (HI : all_nodes flag_ok (with_tasks q s)).
    intros s1 HI1 Hrun. revert s1 a s' HI1 Hrun.
    change (sound (all_nodes flag_ok) any
              (let* d := getNode t in forM_ updateRepresentation (children d))).
    flag_go.
Qed.

(** C5: in every reachable state a node's [isExpanded] is false only if its
    snapshot [nodeChildren] is non-empty; a node with an empty snapshot is
    expanded. *)
Theorem expanded_false_only_with_snapshot s n d :
  reachable s -> nodes s !! n = Some d ->
  (isExpanded d = false -> nodeChildren d <> []) /\
  (nodeChildren d = [] -> isExpanded d = true).
Proof.
  intros Hr. assert (all_nodes flag_ok s) as HI.
  { clear n d. induction Hr as [s H0|s fuel op s' _ IH Hrun].
    - intros n d. rewrite H0, lookup_empty. done.
    - by destruct (flag_run fuel op _ _ _ IH Hrun). }
  intros Hn. pose proof (HI _ _ Hn) as Hd. unfold flag_ok in Hd. split; [done|].
  intros Hnil. destruct (isExpanded d); [done|]. by destruct Hd.
Qed.

(** * Well-formed trees of drawing nodes

    Every child list points to existing nodes whose [parent] field points
    back, and a node is always allocated after its parent. *)

Definition node_wf (s : State) (n : nid) (d : DrawingTreeNode) : Prop :=
  (n < nextNode s)%nat /\
  from_option (fun p => (p < n)%nat /\ is_Some (nodes s !! p)) True (parent d) /\
  Forall (fun c => parent <$> nodes s !! c = Some (Some n)) (children d) /\
  NoDup (children d).

Definition tree_wf (s : State) : Prop := map_Forall (node_wf s) (nodes s).

#[export] Instance node_wf_dec s n d : Decision (node_wf s n d).
Proof. unfold node_wf. destruct (parent d); simpl; apply _. Defined.

#[export] Instance tree_wf_dec s : Decision (tree_wf s).
Proof. unfold tree_wf. apply _. Defined.

Lemma tree_wf_child s n d c :
  tree_wf s -> nodes s !! n = Some d -> c ∈ children d ->
  (n < c)%nat /\ exists dc, nodes s !! c = Some dc /\ parent dc = Some n.
Proof.
  intros Hwf Hn Hc. destruct (Hwf _ _ Hn) as (_ & _ & Hch & _).
  rewrite Forall_forall in Hch. specialize (Hch _ Hc).
  destruct (nodes s !! c) as [dc|] eqn:Hdc; simpl in Hch; [|done].
  injection Hch as Hp. split; [|eauto].
  destruct (Hwf _ _ Hdc) as (_ & Hpar & _). rewrite Hp in Hpar. simpl in Hpar. lia.
Qed.

(** ** States that differ only in cached widths *)

Definition same_except_width (s s' : State) : Prop :=
  elems s' = elems s /\ backing s' = backing s /\ viewports s' = viewports s /\
  tasks s' = tasks s /\ nextNode s' = nextNode s /\ nextElem s' = nextElem s /\
  nextViewport s' = nextViewport s /\
  forall m, match nodes s !! m with
            | Some d => exists w, nodes s' !! m = Some (set_requiredWidth w d)
            | None => nodes s' !! m = None
            end.

Lemma set_requiredWidth_id d : set_requiredWidth (requiredWidth d) d = d.
Proof. by destruct d. Qed.

Lemma set_requiredWidth_twice v w d :
  set_requiredWidth v (set_requiredWidth w d) = set_requiredWidth v d.
Proof. done. Qed.

Lemma same_except_width_refl s : same_except_width s s.
Proof.
  repeat split. intros m. destruct (nodes s !! m) as [d|] eqn:E; [|done].
  exists (requiredWidth d). by rewrite set_requiredWidth_id.
Qed.

Lemma same_except_width_trans s1 s2 s3 :
  same_except_width s1 s2 -> same_except_width s2 s3 -> same_except_width s1 s3.
Proof.
  intros (?&?&?&?&?&?&?&H12) (?&?&?&?&?&?&?&H23).
  repeat split; try congruence. intros m. specialize (H12 m). specialize (H23 m).
  destruct (nodes s1 !! m) as [d|].
  - destruct H12 as [w Hw]. rewrite Hw in H23. destruct H23 as [w' Hw']. eauto.
  - by rewrite H12 in H23.
Qed.

Lemma same_except_width_set s n d w :
  nodes s !! n = Some d ->
  same_except_width s (with_nodes (<[n := set_requiredWidth w d]> (nodes s)) s).
Proof.
  intros Hn. repeat split. intros m. simpl. destruct (decide (n = m)) as [->|Hne].
  - rewrite Hn, lookup_insert_eq. eauto.
  - rewrite lookup_insert_ne by done. destruct (nodes s !! m) as [dm|] eqn:E; [|done].
    exists (requiredWidth dm). by rewrite set_requiredWidth_id.
Qed.

Lemma same_except_width_lookup s s' m d :
  same_except_width s s' -> nodes s !! m = Some d ->
  exists w, nodes s' !! m = Some (set_requiredWidth w d).
Proof. intros (_&_&_&_&_&_&_&H) Hm. specialize (H m). by rewrite Hm in H. Qed.

Lemma same_except_width_lookup_inv s s' m d' :
  same_except_width s s' -> nodes s' !! m = Some d' ->
  exists d, nodes s !! m = Some d /\ d' = set_requiredWidth (requiredWidth d') d.
Proof.
  intros (_&_&_&_&_&_&_&H) Hm. specialize (H m).
  destruct (nodes s !! m) as [d|]; [|congruence].
  destruct H as [w Hw]. rewrite Hw in Hm. injection Hm as <-. eauto.
Qed.

Lemma tree_wf_same_except_width s s' :
  same_except_width s s' -> tree_wf s -> tree_wf s'.
Proof.
  intros Hs Hwf n d' Hn.
  destruct (same_except_width_lookup_inv _ _ _ _ Hs Hn) as (d & Hd & ->).
  destruct (Hwf _ _ Hd) as (H1 & H2 & H3 & H4).
  pose proof Hs as (_&_&_&_&HN&_&_&_).
  split; [simpl; lia|]. split; [|split; [|done]]; simpl.
  - destruct (parent d) as [p|]; [|done]. simpl in *. destruct H2 as [? [dp Hp]].
    split; [done|]. destruct (same_except_width_lookup _ _ _ _ Hs Hp) as [w ->]. eauto.
  - eapply Forall_impl; [exact H3|]. intros c Hc. simpl in Hc.
    destruct (nodes s !! c) as [dc|] eqn:E; [|done].
    destruct (same_except_width_lookup _ _ _ _ Hs E) as [w ->]. done.
Qed.

(** * The required width (claim C1) *)

Definition sumZ (l : list Z) : Z := foldr Z.add 0 l.

(** What [getRequiredWidth] guarantees when it returns [w] in state [s']. *)
Definition width_post (s : State) (this : nid) (w : Z) (s' : State) : Prop :=
  same_except_width s s' /\
  (forall m dm, nodes s !! m = Some dm -> requiredWidth dm <> -1 ->
                nodes s' !! m = Some dm) /\
  (forall m, (m < this)%nat -> nodes s' !! m = nodes s !! m) /\
  exists d, nodes s !! this = Some d /\
    nodes s' !! this = Some (set_requiredWidth w d) /\
    w <> -1 /\
    (requiredWidth d = -1 ->
      exists ws,
        Forall2 (fun c wc => exists dc, nodes s' !! c = Some dc /\
                                        requiredWidth dc = wc /\ wc <> -1)
                (children d) ws /\
        w = Z.max NODE_WIDTH
              (sumZ ws + (if children d is [] then 0
                          else NODE_MARGIN_X * (Z.of_nat (length (children d)) - 1)))).

Section WidthLoop.
Context (f : nat) (this : nid) (d0 : DrawingTreeNode).
Context (IH : forall s c, tree_wf s -> is_Some (nodes s !! c) ->
                (nextNode s <= f + c)%nat ->
                exists w s', getRequiredWidth f c s = Some (w, s') /\ width_post s c w s').

Definition width_body (c : nid) : M unit :=
  let* d := getNode this in
  let* w := getRequiredWidth f c in
  modifyNode this (set_requiredWidth (requiredWidth d + w)).

Lemma width_loop cs s acc :
  tree_wf s -> nodes s !! this = Some (set_requiredWidth acc d0) ->
  (forall c, c ∈ cs -> (this < c)%nat /\ is_Some (nodes s !! c)) ->
  (nextNode s <= S f + this)%nat ->
  exists s' ws,
    forM_ width_body cs s = Some (tt, s') /\
    same_except_width s s' /\
    (forall m dm, m <> this -> nodes s !! m = Some dm -> requiredWidth dm <> -1 ->
                  nodes s' !! m = Some dm) /\
    (forall m, (m < this)%nat -> nodes s' !! m = nodes s !! m) /\
    nodes s' !! this = Some (set_requiredWidth (acc + sumZ ws) d0) /\
    Forall2 (fun c wc => exists dc, nodes s' !! c = Some dc /\
                                    requiredWidth dc = wc /\ wc <> -1)
            cs ws.
Proof.
  revert s acc. induction cs as [|c cs IHcs]; intros s acc Hwf Hthis Hcs Hfuel.
  - exists s, []. simpl. rewrite Z.add_0_r. split_and!; auto using same_except_width_refl.
  - destruct (Hcs c) as [Hlt Hc]; [left|].
    destruct (IH s c Hwf Hc) as (w & s1 & Hrun & Hsame & Hclean & Hbelow & dc & Hdc & Hdc' & Hw & _);
      [lia|].
    assert (nodes s1 !! this = Some (set_requiredWidth acc d0)) as Hthis1.
    { rewrite Hbelow by done. done. }
    set (s2 := with_nodes (<[this := set_requiredWidth (acc + w) d0]> (nodes s1)) s1).
    assert (same_except_width s s2) as Hsame2.
    { eapply same_except_width_trans; [exact Hsame|].
      apply (same_except_width_set s1 this _ (acc + w) Hthis1). }
    destruct (IHcs s2 (acc + w)) as (s' & ws & Hrun' & Hsame' & Hclean' & Hbelow' & Hthis' & Hws).
    + by eapply tree_wf_same_except_width.
    + simpl. by rewrite lookup_insert_eq.
    + intros c' Hc'. destruct (Hcs c') as [? [dc' Hdc'']]; [by right|]. split; [done|].
      destruct (same_except_width_lookup _ _ _ _ Hsame2 Hdc'') as [? ->]. eauto.
    + destruct Hsame as (_&_&_&_&HN&_). simpl. lia.
    + exists s', (w :: ws). split_and!.
      * simpl. unfold width_body, bind.
        rewrite (getNode_eq _ _ _ Hthis), Hrun, (modifyNode_eq _ _ _ _ Hthis1).
        exact Hrun'.
      * by eapply same_except_width_trans.
      * intros m dm Hne Hm Hcl. apply Hclean'; [done| |done].
        simpl. rewrite lookup_insert_ne by done. by apply Hclean.
      * intros m Hm. rewrite Hbelow' by done. simpl.
        rewrite lookup_insert_ne by lia. apply Hbelow. lia.
      * rewrite Hthis'. simpl. do 2 f_equal. lia.
      * constructor; [|done]. exists (set_requiredWidth w dc). split; [|done].
        apply Hclean'; [lia| |done]. simpl. rewrite lookup_insert_ne by lia. done.
Qed.
End WidthLoop.

Lemma Forall2_impl_elem {A B} (P Q : A -> B -> Prop) l k :
  Forall2 P l k -> (forall x y, x ∈ l -> P x y -> Q x y) -> Forall2 Q l k.
Proof.
  induction 1 as [|x y l k Hxy _ IH]; intros HPQ; constructor.
  - apply HPQ; [left|done].
  - apply IH. intros x' y' Hx'. apply HPQ. by right.
Qed.

Lemma with_nodes_insert_id s n d :
  nodes s !! n = Some d -> with_nodes (<[n := d]> (nodes s)) s = s.
Proof. intros H. destruct s; unfold with_nodes; simpl in *. f_equal. by apply insert_id. Qed.

Lemma with_elems_insert_id s e x :
  elems s !! e = Some x -> with_elems (<[e := x]> (elems s)) s = s.
Proof. intros H. destruct s; unfold with_elems; simpl in *. f_equal. by apply insert_id. Qed.

Lemma getRequiredWidth_unfold f this :
  getRequiredWidth (S f) this =
  (let* d := getNode this in
   when (requiredWidth d =? -1)
     (modifyNode this (set_requiredWidth 0) ;;;
      forM_ (width_body f this) (children d) ;;;
      let* d := getNode this in
      when (0 <? Z.of_nat (length (children d)))
        (modifyNode this
           (set_requiredWidth
              (requiredWidth d + NODE_MARGIN_X * (Z.of_nat (length (children d)) - 1)))) ;;;
      let* d := getNode this in
      when (requiredWidth d <? NODE_WIDTH)
        (modifyNode this (set_requiredWidth NODE_WIDTH))) ;;;
   let* d := getNode this in
   ret (requiredWidth d)).
Proof. reflexivity. Qed.

(** On a clean node the cached value is returned and nothing changes. *)
Lemma getRequiredWidth_clean f this s d :
  nodes s !! this = Some d -> requiredWidth d <> -1 ->
  getRequiredWidth (S f) this s = Some (requiredWidth d, s).
Proof.
  intros Hd Hclean. rewrite getRequiredWidth_unfold.
  rewrite (bind_eq _ _ _ _ _ (getNode_eq _ _ _ Hd)).
  destruct (Z.eqb_spec (requiredWidth d) (-1)) as [|_]; [done|]. simpl.
  unfold bind, ret. by rewrite (getNode_eq _ _ _ Hd).
Qed.

Lemma getRequiredWidth_total f :
  forall s this, tree_wf s -> is_Some (nodes s !! this) ->
    (nextNode s <= f + this)%nat ->
    exists w s', getRequiredWidth f this s = Some (w, s') /\ width_post s this w s'.
Proof.
  induction f as [|f IH]; intros s this Hwf [d Hd] Hfuel.
  { destruct (Hwf _ _ Hd) as [? _]. lia. }
  destruct (Z.eqb_spec (requiredWidth d) (-1)) as [Hdirty|Hclean]; cycle 1.
  { exists (requiredWidth d), s. split; [by apply getRequiredWidth_clean|].
    split_and!; auto using same_except_width_refl.
    exists d. rewrite set_requiredWidth_id. split_and!; done. }
  set (s0 := with_nodes (<[this := set_requiredWidth 0 d]> (nodes s)) s).
  assert (same_except_width s s0) as Hs0 by by apply same_except_width_set.
  assert (nodes s0 !! this = Some (set_requiredWidth 0 d)) as Hthis0
    by (simpl; by rewrite lookup_insert_eq).
  destruct (width_loop f this d IH (children d) s0 0)
    as (s1 & ws & Hloop & Hs1 & Hclean1 & Hbelow1 & Hthis1 & Hws);
    [by eapply tree_wf_same_except_width|done| |simpl; lia|].
  { intros c Hc. destruct (tree_wf_child _ _ _ _ Hwf Hd Hc) as [? (dc & Hdc & _)].
    split; [done|]. destruct (same_except_width_lookup _ _ _ _ Hs0 Hdc) as [? ->]. eauto. }
  rewrite Z.add_0_l in Hthis1.
  set (m := if children d is [] then 0
            else NODE_MARGIN_X * (Z.of_nat (length (children d)) - 1)).
  set (s2 := with_nodes (<[this := set_requiredWidth (sumZ ws + m) d]> (nodes s1)) s1).
  set (w := Z.max NODE_WIDTH (sumZ ws + m)).
  set (s3 := with_nodes (<[this := set_requiredWidth w d]> (nodes s2)) s2).
  assert (nodes s2 !! this = Some (set_requiredWidth (sumZ ws + m) d)) as Hthis2
    by (simpl; by rewrite lookup_insert_eq).
  assert (nodes s3 !! this = Some (set_requiredWidth w d)) as Hthis3
    by (simpl; by rewrite lookup_insert_eq).
  assert (same_except_width s s3) as Hs3.
  { eapply same_except_width_trans; [exact Hs0|].
    eapply same_except_width_trans; [exact Hs1|].
    eapply same_except_width_trans; [exact (same_except_width_set s1 this _ (sumZ ws + m) Hthis1)|].
    exact (same_except_width_set s2 this _ w Hthis2). }
  exists w, s3. split.
  - rewrite getRequiredWidth_unfold.
    rewrite (bind_eq _ _ _ _ _ (getNode_eq _ _ _ Hd)).
    assert (when (requiredWidth d =? -1)
              (modifyNode this (set_requiredWidth 0);;;
               forM_ (width_body f this) (children d);;;
               (let* d1 := getNode this in
                when (0 <? Z.of_nat (length (children d1)))
                  (modifyNode this
                     (set_requiredWidth
                        (requiredWidth d1 +
                         NODE_MARGIN_X * (Z.of_nat (length (children d1)) - 1))));;;
                (let* d2 := getNode this in
                 when (requiredWidth d2 <? NODE_WIDTH)
                   (modifyNode this (set_requiredWidth NODE_WIDTH))))) s
            = Some (tt, s3)) as Hwhen.
    { rewrite Hdirty. simpl.
      rewrite (bind_eq _ _ _ _ _ (modifyNode_eq _ _ _ _ Hd)). fold s0.
      rewrite (bind_eq _ _ _ _ _ Hloop).
      rewrite (bind_eq _ _ _ _ _ (getNode_eq _ _ _ Hthis1)). simpl children.
      assert (when (0 <? Z.of_nat (length (children d)))
                (modifyNode this
                   (set_requiredWidth
                      (requiredWidth (set_requiredWidth (sumZ ws) d) +
                       NODE_MARGIN_X * (Z.of_nat (length (children d)) - 1)))) s1
              = Some (tt, s2)) as Hmargin.
      { unfold s2, m. destruct (children d) as [|c cs] eqn:Hcs.
        - unfold length, Z.of_nat, Z.ltb, Z.compare, when, ret. rewrite Z.add_0_r.
          by rewrite (with_nodes_insert_id _ _ _ Hthis1).
        - simpl length. destruct (Z.ltb_spec 0 (Z.of_nat (S (length cs)))); [|lia].
          simpl when. by rewrite (modifyNode_eq _ _ _ _ Hthis1). }
      rewrite (bind_eq _ _ _ _ _ Hmargin).
      rewrite (bind_eq _ _ _ _ _ (getNode_eq _ _ _ Hthis2)). simpl requiredWidth.
      unfold s3, w. destruct (Z.ltb_spec (sumZ ws + m) NODE_WIDTH).
      - simpl. rewrite (modifyNode_eq _ _ _ _ Hthis2). rewrite Z.max_l by lia. done.
      - unfold when, ret. rewrite Z.max_r by done.
        by rewrite (with_nodes_insert_id _ _ _ Hthis2). }
    rewrite (bind_eq _ _ _ _ _ Hwhen).
    by rewrite (bind_eq _ _ _ _ _ (getNode_eq _ _ _ Hthis3)).
  - split; [done|]. split_and!.
    + intros k dk Hk Hcl. assert (k <> this) as Hne by (intros ->; congruence).
      simpl. rewrite !lookup_insert_ne by done. apply Hclean1; [done| |done].
      simpl. by rewrite lookup_insert_ne.
    + intros k Hk. simpl. rewrite !lookup_insert_ne by lia.
      rewrite Hbelow1 by done. simpl. by rewrite lookup_insert_ne by lia.
    + exists d. split_and!; [done|done|unfold w, NODE_WIDTH; lia|].
      intros _. exists ws. split; [|done].
      eapply Forall2_impl_elem; [exact Hws|]. intros c wc Hc (dc & Hdc & Hwc).
      destruct (tree_wf_child _ _ _ _ Hwf Hd Hc) as [Hlt _].
      exists dc. split; [|done]. simpl. by rewrite !lookup_insert_ne by lia.
Qed.

(** C1: on a node whose cached width is dirty, [getRequiredWidth] returns
    [NODE_WIDTH] when there are no children and otherwise the maximum of
    [NODE_WIDTH] and the sum of the children's required widths plus
    [NODE_MARGIN_X] for each gap between them; the result is cached, so the
    next call returns it without further work.  [ws] lists the widths that
    [getRequiredWidth] reports for the children. *)
Theorem getRequiredWidth_dirty s this d fuel :
  tree_wf s -> nodes s !! this = Some d -> requiredWidth d = -1 ->
  (nextNode s <= fuel + this)%nat ->
  exists ws s',
    let w := if children d is [] then NODE_WIDTH
             else Z.max NODE_WIDTH
                    (sumZ ws + (Z.of_nat (length (children d)) - 1) * NODE_MARGIN_X) in
    getRequiredWidth fuel this s = Some (w, s') /\
    Forall2 (fun c wc => getRequiredWidth 1 c s' = Some (wc, s')) (children d) ws /\
    nodes s' !! this = Some (set_requiredWidth w d) /\
    getRequiredWidth 1 this s' = Some (w, s').
Proof.
  intros Hwf Hd Hdirty Hfuel.
  destruct (getRequiredWidth_total fuel s this Hwf (mk_is_Some _ _ Hd) Hfuel)
    as (w & s' & Hrun & _ & _ & _ & d' & Hd' & Hcached & Hw & Hform).
  rewrite Hd in Hd'. injection Hd' as <-.
  destruct (Hform Hdirty) as (ws & Hws & ->). exists ws, s'.
  assert ((if children d is [] then NODE_WIDTH
           else Z.max NODE_WIDTH
                  (sumZ ws + (Z.of_nat (length (children d)) - 1) * NODE_MARGIN_X))
          = Z.max NODE_WIDTH
              (sumZ ws + (if children d is [] then 0
                          else NODE_MARGIN_X * (Z.of_nat (length (children d)) - 1)))) as ->.
  { destruct (children d) as [|c cs].
    - apply Forall2_nil_inv_l in Hws as ->. done.
    - f_equal. lia. }
  split_and!; [done| |done|].
  - eapply Forall2_impl; [exact Hws|]. intros c wc (dc & Hdc & <- & Hne).
    by apply (getRequiredWidth_clean 0).
  - rewrite (getRequiredWidth_clean 0 this s' _ Hcached); [done|]. simpl. done.
Qed.

(** * Invalidation (claim C2) *)

(** [parent_chain s n l r]: following [parent] links from [n] visits exactly
    the nodes [l] (starting with [n]) and ends at [r], which has no parent. *)
Inductive parent_chain (s : State) : nat -> list nat -> nat -> Prop :=
  | chain_root n d :
      nodes s !! n = Some d -> parent d = None -> parent_chain s n [n] n
  | chain_step n d p l r :
      nodes s !! n = Some d -> parent d = Some p -> parent_chain s p l r ->
      parent_chain s n (n :: l) r.

(** The state in which the cached width of every node of [l] is dirty and
    nothing else has changed. *)
Definition markDirty (l : list nat) (s : State) : State :=
  with_nodes (foldl (fun m a => alter (set_requiredWidth (-1)) a m) (nodes s) l) s.

Lemma parent_chain_functional s n l r l' r' :
  parent_chain s n l r -> parent_chain s n l' r' -> l' = l /\ r' = r.
Proof.
  intros H. revert l' r'. induction H as [n d Hn Hp|n d p l r Hn Hp _ IH];
    intros l' r' H'; inversion H'; simplify_eq; [done|].
  destruct (IH _ _ ltac:(eassumption)) as [-> ->]. done.
Qed.

Lemma parent_chain_same_parents s s' n l r :
  (forall m, parent <$> nodes s' !! m = parent <$> nodes s !! m) ->
  parent_chain s n l r -> parent_chain s' n l r.
Proof.
  intros Hsame. induction 1 as [n d Hn Hp|n d p l r Hn Hp _ IH].
  - specialize (Hsame n). rewrite Hn in Hsame.
    destruct (nodes s' !! n) as [d'|] eqn:E; [|done]. simpl in Hsame.
    apply (chain_root _ _ d'); [done|congruence].
  - specialize (Hsame n). rewrite Hn in Hsame.
    destruct (nodes s' !! n) as [d'|] eqn:E; [|done]. simpl in Hsame.
    apply (chain_step _ _ d' p); [done|congruence|done].
Qed.

Lemma parent_chain_exists s n :
  tree_wf s -> is_Some (nodes s !! n) -> exists l r, parent_chain s n l r.
Proof.
  intros Hwf. induction (lt_wf n) as [n _ IH]. intros [d Hd].
  destruct (parent d) as [p|] eqn:Hp.
  - destruct (Hwf _ _ Hd) as (_ & Hpar & _). rewrite Hp in Hpar. simpl in Hpar.
    destruct Hpar as [Hlt Hex]. destruct (IH p Hlt Hex) as (l & r & Hl).
    exists (n :: l), r. by eapply chain_step.
  - exists [n], n. by eapply chain_root.
Qed.

Lemma markDirty_cons s n d l :
  nodes s !! n = Some d ->
  markDirty (n :: l) s =
  markDirty l (with_nodes (<[n := set_requiredWidth (-1) d]> (nodes s)) s).
Proof.
  intros Hn. unfold markDirty, with_nodes. simpl. f_equal. f_equal.
  apply map_eq. intros m. rewrite lookup_alter. case_decide as E.
  - subst. by rewrite Hn, lookup_insert_eq.
  - by rewrite lookup_insert_ne.
Qed.

Lemma markDirty_lookup l s a :
  nodes (markDirty l s) !! a =
  if decide (a ∈ l) then set_requiredWidth (-1) <$> nodes s !! a else nodes s !! a.
Proof.
  unfold markDirty. simpl. generalize (nodes s). induction l as [|b l IH]; intros m; simpl.
  - done.
  - rewrite IH. rewrite lookup_alter.
    destruct (decide (a ∈ l)) as [Hl|Hl], (decide (a ∈ b :: l)) as [Hbl|Hbl],
      (decide (b = a)) as [Hb|Hb]; subst; try done;
      try (exfalso; apply Hbl; by (left || right)).
    + destruct (m !! a); done.
    + apply elem_of_cons in Hbl as [?|?]; done.
Qed.

Lemma invalidate_chain s n l r f :
  parent_chain s n l r ->
  invalidate (length l + f) n s = redraw f r (markDirty l s).
Proof.
  intros H. revert n s H. induction l as [|a l IH]; intros n s H; [inversion H|].
  assert (exists d, nodes s !! a = Some d /\ n = a) as (d & Hn & ->)
    by (inversion H; subst; eauto).
  set (s1 := with_nodes (<[a := set_requiredWidth (-1) d]> (nodes s)) s).
  assert (getNode a s1 = Some (set_requiredWidth (-1) d, s1)) as Hget.
  { apply getNode_eq. simpl. by rewrite lookup_insert_eq. }
  simpl. rewrite (bind_eq _ _ _ _ _ (modifyNode_eq _ _ _ _ Hn)). fold s1.
  rewrite (bind_eq _ _ _ _ _ Hget).
  change (parent (set_requiredWidth (-1) d)) with (parent d).
  rewrite (markDirty_cons _ _ _ _ Hn). fold s1.
  destruct (parent d) as [p|] eqn:Hp.
  - assert (parent_chain s p l r) as Hrest by (inversion H; simplify_eq; done).
    apply IH. eapply parent_chain_same_parents; [|exact Hrest].
    intros m. simpl. destruct (decide (a = m)) as [->|Hne].
    + by rewrite lookup_insert_eq, Hn.
    + by rewrite lookup_insert_ne.
  - assert (l = [] /\ r = a) as [-> ->] by (inversion H; simplify_eq; done).
    done.
Qed.

(** C2: in a well-formed tree, [invalidate] on any node [n] follows the
    parent links of [n] up to the one ancestor [r] without a parent and is
    exactly one [redraw] at [r], run in the state where [n] and all its
    ancestors have a dirty cached width and everything else is unchanged. *)
Theorem invalidate_redraws_root_once s n :
  tree_wf s -> is_Some (nodes s !! n) ->
  exists l r,
    parent_chain s n l r /\
    (forall l' r', parent_chain s n l' r' -> l' = l /\ r' = r) /\
    (forall f, invalidate (length l + f) n s = redraw f r (markDirty l s)) /\
    (forall a, a ∈ l ->
       exists d, nodes s !! a = Some d /\
                 nodes (markDirty l s) !! a = Some (set_requiredWidth (-1) d)) /\
    (forall a, a ∉ l -> nodes (markDirty l s) !! a = nodes s !! a) /\
    elems (markDirty l s) = elems s.
Proof.
  intros Hwf Hn. destruct (parent_chain_exists s n Hwf Hn) as (l & r & Hl).
  exists l, r. split_and!; [done| | | | |done].
  - intros l' r'. by apply parent_chain_functional.
  - intros f. by apply invalidate_chain.
  - intros a Ha. rewrite markDirty_lookup. rewrite decide_True by done.
    assert (is_Some (nodes s !! a)) as [d Hd].
    { clear -Hl Ha. induction Hl as [n d Hn Hp|n d p l r Hn Hp _ IH].
      - apply list_elem_of_singleton in Ha as ->. eauto.
      - apply elem_of_cons in Ha as [->|Ha]; eauto. }
    exists d. by rewrite Hd.
  - intros a Ha. rewrite markDirty_lookup. by rewrite decide_False.
Qed.

(** * Concrete trees *)

Module Examples.

Definition leafData : BackingNode :=
  {| b_children := []; b_class := "item"; b_html := "leaf";
     drawingTreeNodeIsExpanded := false |}.

Definition innerData (cs : list nat) : BackingNode :=
  {| b_children := cs; b_class := "item"; b_html := "inner";
     drawingTreeNodeIsExpanded := false |}.

(** A page with one container element (element 0) and a backing hierarchy
    0 -> {1, 2}, 2 -> {3}. *)
Definition page : State :=
  {| nodes := ∅;
     elems := {[ 0%nat := blankElement ]};
     backing := {[ 0%nat := innerData [1%nat; 2%nat]; 1%nat := leafData;
                   2%nat := innerData [3%nat]; 3%nat := leafData ]};
     viewports := ∅; tasks := [];
     nextNode := 0; nextElem := 1; nextViewport := 0 |}.

Definition after (fuel : nat) (op : Op) (s : State) : State :=
  match run fuel op s with
  | Some (_, s') => s'
  | None => s
  end.

(** [BuildTree(container, root)] *)
Definition built : State := Eval vm_compute in after 4 (OpBuildTree 0 0) page.
(** then [root.expand()], as a click on the root does *)
Definition expanded : State := Eval vm_compute in after 4 (OpExpand 0 false) built.
(** then [root.invalidate()]: the tree is drawn with both children *)
Definition drawn : State := Eval vm_compute in after 4 (OpInvalidate 0) expanded.
(** then [root.collapse(false)] *)
Definition collapsed : State := Eval vm_compute in after 4 (OpCollapse 0 false) drawn.

Lemma reachable_built : reachable built.
Proof.
  apply (reachable_step page 4 (OpBuildTree 0 0)); [by apply reachable_init|].
  vm_compute. reflexivity.
Defined.

Lemma reachable_expanded : reachable expanded.
Proof.
  apply (reachable_step built 4 (OpExpand 0 false)); [apply reachable_built|].
  vm_compute. reflexivity.
Defined.

Lemma reachable_drawn : reachable drawn.
Proof.
  apply (reachable_step expanded 4 (OpInvalidate 0)); [apply reachable_expanded|].
  vm_compute. reflexivity.
Defined.

Lemma reachable_collapsed : reachable collapsed.
Proof.
  apply (reachable_step drawn 4 (OpCollapse 0 false)); [apply reachable_drawn|].
  vm_compute. reflexivity.
Defined.

Lemma tree_wf_expanded : tree_wf expanded.
Proof. apply (bool_decide_eq_true_1 (tree_wf expanded)). vm_compute. reflexivity. Defined.

Lemma tree_wf_drawn : tree_wf drawn.
Proof. apply (bool_decide_eq_true_1 (tree_wf drawn)). vm_compute. reflexivity. Defined.

End Examples.

Lemma expanded_false_only_with_snapshot_witness :
  (isExpanded (set_requiredWidth 0 (set_isExpanded false
     {| innerNode := 0; nodeChildren := [1%nat; 2%nat]; parent := None; children := [];
        requiredWidth := 160; representation := Some 1%nat; isExpanded := true;
        childBar := Some 7%nat; horizontalBar := Some 8%nat; parentBar := None;
        lastContainer := Some 0%nat; lastViewport := Some 2%nat |})) = false ->
   [1%nat; 2%nat] <> []) /\
  ([1%nat; 2%nat] = [] -> false = true).
Proof.
  exact (expanded_false_only_with_snapshot Examples.collapsed 0 _
           Examples.reachable_collapsed eq_refl).
Defined.

Lemma getRequiredWidth_dirty_witness :
  exists ws s',
    getRequiredWidth 4 0 Examples.expanded
      = Some (Z.max NODE_WIDTH (sumZ ws + (2 - 1) * NODE_MARGIN_X), s') /\
    Forall2 (fun c wc => getRequiredWidth 1 c s' = Some (wc, s')) [1%nat; 2%nat] ws /\
    nodes s' !! 0%nat =
      Some (set_requiredWidth (Z.max NODE_WIDTH (sumZ ws + (2 - 1) * NODE_MARGIN_X))
              {| innerNode := 0; nodeChildren := [1%nat; 2%nat]; parent := None;
                 children := [1%nat; 2%nat]; requiredWidth := -1;
                 representation := Some 1%nat; isExpanded := true;
                 childBar := None; horizontalBar := None; parentBar := None;
                 lastContainer := Some 0%nat; lastViewport := Some 1%nat |}) /\
    getRequiredWidth 1 0 s'
      = Some (Z.max NODE_WIDTH (sumZ ws + (2 - 1) * NODE_MARGIN_X), s').
Proof.
  apply (getRequiredWidth_dirty Examples.expanded 0 _ 4 Examples.tree_wf_expanded eq_refl eq_refl).
  simpl. lia.
Defined.

Lemma invalidate_redraws_root_once_witness :
  exists l r,
    parent_chain Examples.drawn 2 l r /\
    (forall l' r', parent_chain Examples.drawn 2 l' r' -> l' = l /\ r' = r) /\
    (forall f, invalidate (length l + f) 2 Examples.drawn
               = redraw f r (markDirty l Examples.drawn)) /\
    (forall a, a ∈ l ->
       exists d, nodes Examples.drawn !! a = Some d /\
                 nodes (markDirty l Examples.drawn) !! a = Some (set_requiredWidth (-1) d)) /\
    (forall a, a ∉ l -> nodes (markDirty l Examples.drawn) !! a = nodes Examples.drawn !! a) /\
    elems (markDirty l Examples.drawn) = elems Examples.drawn.
Proof.
  apply (invalidate_redraws_root_once Examples.drawn 2 Examples.tree_wf_drawn).
  vm_compute. eauto.
Defined.

(** C4 (a defect of [collapse]): [collapse] stores 0 in [requiredWidth], not the
    dirty sentinel -1, so the next [getRequiredWidth] returns the stored 0
    instead of recomputing; recomputing from the empty child list, as it
    does once the node is marked dirty, gives [NODE_WIDTH]. *)
Theorem collapse_stores_zero_not_dirty :
  collapse 4 0 false Examples.drawn = Some (tt, Examples.collapsed) /\
  (children <$> nodes Examples.collapsed !! 0%nat) = Some [] /\
  (requiredWidth <$> nodes Examples.collapsed !! 0%nat) = Some 0 /\
  getRequiredWidth 4 0 Examples.collapsed = Some (0, Examples.collapsed) /\
  fst <$> getRequiredWidth 4 0 (markDirty [0%nat] Examples.collapsed) = Some NODE_WIDTH.
Proof. split_and!; vm_compute; reflexivity. Qed.

(** * Symbolic execution *)

Ltac solve_lookup :=
  simpl;
  repeat first
    [ rewrite lookup_insert_eq
    | rewrite lookup_insert_ne by (first [lia | congruence | done]) ];
  first [eassumption | reflexivity].

Lemma bind_assoc {A B C} (c : M A) (k : A -> M B) (k' : B -> M C) s :
  bind (bind c k) k' s = bind c (fun a => bind (k a) k') s.
Proof. unfold bind. destruct (c s) as [[a s1]|]; done. Qed.

(** One step of a computation whose head is a heap primitive. *)
Ltac mstep :=
  repeat rewrite bind_assoc;
  lazymatch goal with
  | |- context [bind (getNode ?n) ?k ?s] =>
      erewrite (bind_eq (getNode n) k s); [|apply getNode_eq; solve_lookup]
  | |- context [bind (modifyNode ?n ?f) ?k ?s] =>
      erewrite (bind_eq (modifyNode n f) k s); [|apply modifyNode_eq; solve_lookup]
  | |- context [bind (getElem ?n) ?k ?s] =>
      erewrite (bind_eq (getElem n) k s); [|apply getElem_eq; solve_lookup]
  | |- context [bind (modifyElem ?n ?f) ?k ?s] =>
      erewrite (bind_eq (modifyElem n f) k s); [|apply modifyElem_eq; solve_lookup]
  | |- context [bind (getBacking ?n) ?k ?s] =>
      erewrite (bind_eq (getBacking n) k s); [|apply getBacking_eq; solve_lookup]
  | |- context [bind (modifyBacking ?n ?f) ?k ?s] =>
      erewrite (bind_eq (modifyBacking n f) k s); [|apply modifyBacking_eq; solve_lookup]
  | |- context [bind (getViewport ?n) ?k ?s] =>
      erewrite (bind_eq (getViewport n) k s); [|apply getViewport_eq; solve_lookup]
  | |- context [bind (setViewport ?n ?f) ?k ?s] =>
      erewrite (bind_eq (setViewport n f) k s); [|apply setViewport_eq; solve_lookup]
  | |- context [bind (newElem ?x) ?k ?s] =>
      rewrite (bind_eq (newElem x) k s _ _ eq_refl)
  | |- context [bind (newNode ?x) ?k ?s] =>
      rewrite (bind_eq (newNode x) k s _ _ eq_refl)
  | |- context [bind (newViewport ?x) ?k ?s] =>
      rewrite (bind_eq (newViewport x) k s _ _ eq_refl)
  | |- context [bind (ret ?x) ?k ?s] =>
      rewrite (bind_eq (ret x) k s _ _ eq_refl)
  end; cbv beta;
  unfold with_nodes, with_elems, with_backing, with_viewports, with_tasks; simpl;
  rewrite ?insert_insert_eq.

(** The last step of a computation. *)
Ltac mlast :=
  repeat rewrite bind_assoc;
  first
    [ erewrite modifyElem_eq by solve_lookup
    | erewrite modifyNode_eq by solve_lookup
    | erewrite modifyBacking_eq by solve_lookup
    | erewrite setViewport_eq by solve_lookup
    | erewrite getNode_eq by solve_lookup ];
  unfold with_nodes, with_elems, with_backing, with_viewports, with_tasks; simpl;
  rewrite ?insert_insert_eq.

(** * The DOM *)

Definition elem_wf (s : State) (e : nat) (x : Element) : Prop :=
  (e < nextElem s)%nat /\
  from_option (fun p => p <> e /\ is_Some (elems s !! p)) True (parentNode x).

Definition dom_wf (s : State) : Prop := map_Forall (elem_wf s) (elems s).

#[export] Instance elem_wf_dec s e x : Decision (elem_wf s e x).
Proof. unfold elem_wf. destruct (parentNode x); simpl; apply _. Defined.

#[export] Instance dom_wf_dec s : Decision (dom_wf s).
Proof. unfold dom_wf. apply _. Defined.

Lemma dom_wf_parent s e x p :
  dom_wf s -> elems s !! e = Some x -> parentNode x = Some p ->
  (e < nextElem s)%nat /\ p <> e /\ (p < nextElem s)%nat /\ is_Some (elems s !! p).
Proof.
  intros Hwf He Hp. destruct (Hwf _ _ He) as [Hlt Hpar]. rewrite Hp in Hpar.
  simpl in Hpar. destruct Hpar as [Hne [y Hy]]. destruct (Hwf _ _ Hy) as [? _]. eauto.
Qed.

Lemma dom_wf_fresh s e : dom_wf s -> (nextElem s <= e)%nat -> elems s !! e = None.
Proof.
  intros Hwf Hle. destruct (elems s !! e) as [x|] eqn:E; [|done].
  destruct (Hwf _ _ E). lia.
Qed.

(** * Refreshing a representation (claim C9) *)

(** C9: when the representation [r] of a node is attached to [p],
    [updateRepresentation] detaches [r], creates a new element [r'] from the
    backing node's content, attaches it to [p] and gives it the class, left
    and top of [r].  The children are not refreshed in this call: no other
    node and no element besides [r], [p] and the new ones changes; one
    callback is queued, and running it later is what refreshes the
    children. *)
Theorem updateRepresentation_swaps s this d r x p b :
  dom_wf s -> nodes s !! this = Some d -> representation d = Some r ->
  elems s !! r = Some x -> parentNode x = Some p ->
  backing s !! innerNode d = Some b ->
  exists s' r' x' y',
    updateRepresentation this s = Some (tt, s') /\
    elems s !! r' = None /\
    nodes s' !! this = Some (set_representation (Some r') d) /\
    elems s' !! r' = Some x' /\
    innerHTML x' = HtmlText (b_html b) /\ listener x' = Some this /\
    className x' = className x /\ styleLeft x' = styleLeft x /\
    styleTop x' = styleTop x /\ parentNode x' = Some p /\
    elems s' !! r = Some (set_parentNode None x) /\
    elems s' !! p = Some y' /\ (r ∉ childNodes y') /\ (r' ∈ childNodes y') /\
    tasks s' = tasks s ++ [this] /\
    (forall c, c <> this -> nodes s' !! c = nodes s !! c) /\
    (forall e, (e < nextElem s)%nat -> e <> r -> e <> p -> elems s' !! e = elems s !! e) /\
    (tasks s = [] ->
     runTask s' = forM_ updateRepresentation (children d) (with_tasks [] s')).
Proof.
  intros Hwf Hd Hr Hx Hp Hb.
  destruct (dom_wf_parent _ _ _ _ Hwf Hx Hp) as (Hrlt & Hne & Hplt & [y Hy]).
  eexists _, (nextElem s), _, _. split.
  unfold updateRepresentation.
  mstep. rewrite Hr. mstep. rewrite Hp.
    unfold removeChild. mstep. rewrite Hp, Nat.eqb_refl.
    mstep. mstep. mstep. unfold createRepresentation.
    mstep. mstep. mstep. mstep. unfold createElement. mstep. mstep. mstep. mstep.
    unfold appendChild. mstep. mstep. mstep. mstep. mstep. mstep. mstep. mstep. mstep. mstep. mstep.
    mstep. mstep. reflexivity.
  - assert (elems s !! nextElem s = None) as Hfresh by (by apply dom_wf_fresh).
    assert (elems s !! S (nextElem s) = None) as Hfresh' by (apply dom_wf_fresh; [done|lia]).
    unfold with_tasks; simpl. split; [done|]. split; [solve_lookup|].
    split; [solve_lookup|]. simpl. split_and!; try done.
    + solve_lookup.
    + solve_lookup.
    + simpl. rewrite elem_of_app, list_elem_of_filter, list_elem_of_singleton. intros [[? _]|?]; [done|lia].
    + simpl. rewrite elem_of_app, list_elem_of_singleton. by right.
    + intros c Hc. by rewrite lookup_insert_ne.
    + intros e H1 H2 H3. rewrite !lookup_insert_ne by lia. done.
    + intros Ht. unfold runTask. simpl. rewrite Ht. simpl.
      unfold with_tasks. simpl. mstep. done.
Qed.

Lemma dom_wf_drawn : dom_wf Examples.drawn.
Proof. apply (bool_decide_eq_true_1 (dom_wf Examples.drawn)). vm_compute. reflexivity. Defined.

Lemma updateRepresentation_swaps_witness :
  exists s', updateRepresentation 1 Examples.drawn = Some (tt, s') /\
             tasks s' = [1%nat].
Proof.
  destruct (updateRepresentation_swaps Examples.drawn 1 _ 3 _ 0 _
              dom_wf_drawn eq_refl eq_refl eq_refl eq_refl eq_refl)
    as (s' & r' & x' & y' & H & H').
  exists s'. split; [exact H|]. apply H'.
Defined.

(** * Building nodes: [construct] and [expand] (claims C6 and C8) *)

(** Identities handed out so far lie below the allocation counters. *)
Definition ids_fresh (s : State) : Prop :=
  map_Forall (fun n _ => (n < nextNode s)%nat) (nodes s) /\
  map_Forall (fun e _ => (e < nextElem s)%nat) (elems s).

#[export] Instance ids_fresh_dec s : Decision (ids_fresh s).
Proof. unfold ids_fresh. apply _. Defined.

(** The backing hierarchy is closed and acyclic: [rank] decreases from a
    backing node to its children. *)
Definition backing_ranked (rank : nat -> nat) (s : State) : Prop :=
  map_Forall (fun b x =>
    Forall (fun c => (rank c < rank b)%nat /\ is_Some (backing s !! c)) (b_children x))
    (backing s).

#[export] Instance backing_ranked_dec rank s : Decision (backing_ranked rank s).
Proof. unfold backing_ranked. apply _. Defined.

(** A node as [construct] leaves it: no connector yet, and a
    representation created after state [s]. *)
Definition fresh_node (s : State) (d : DrawingTreeNode) : Prop :=
  childBar d = None /\ horizontalBar d = None /\ parentBar d = None /\
  exists r, representation d = Some r /\ (nextElem s <= r)%nat.

Definition same_identity (d d' : DrawingTreeNode) : Prop :=
  innerNode d' = innerNode d /\ nodeChildren d' = nodeChildren d /\
  parent d' = parent d /\ representation d' = representation d /\
  childBar d' = childBar d /\ horizontalBar d' = horizontalBar d /\
  parentBar d' = parentBar d.

(** What [construct] and [expand] may change. *)
Record grows (s s' : State) : Prop := {
  grows_nextNode : (nextNode s <= nextNode s')%nat;
  grows_nextElem : (nextElem s <= nextElem s')%nat;
  grows_elems : forall e x, elems s !! e = Some x -> elems s' !! e = Some x;
  grows_backing : forall b,
    match backing s !! b with
    | Some x => exists fl, backing s' !! b = Some (set_flag fl x)
    | None => backing s' !! b = None
    end;
  grows_nodes : forall m d, nodes s !! m = Some d ->
    exists d', nodes s' !! m = Some d' /\ same_identity d d';
  grows_new : forall m d, nodes s' !! m = Some d -> (nextNode s <= m)%nat ->
    fresh_node s d;
  grows_absent : forall m, (m < nextNode s)%nat -> nodes s !! m = None ->
    nodes s' !! m = None;
  grows_viewports : viewports s' = viewports s;
  grows_tasks : tasks s' = tasks s
}.

Lemma set_flag_id x : set_flag (drawingTreeNodeIsExpanded x) x = x.
Proof. by destruct x. Qed.

Lemma same_identity_refl d : same_identity d d.
Proof. by repeat split. Qed.

Lemma same_identity_trans d1 d2 d3 :
  same_identity d1 d2 -> same_identity d2 d3 -> same_identity d1 d3.
Proof. unfold same_identity. intuition congruence. Qed.

Lemma grows_refl s : ids_fresh s -> grows s s.
Proof.
  intros [HN HE]. split; try done.
  - intros b. destruct (backing s !! b) as [x|] eqn:E; [|done].
    exists (drawingTreeNodeIsExpanded x). by rewrite set_flag_id.
  - intros m d Hm. eauto using same_identity_refl.
  - intros m d Hm Hle. specialize (HN _ _ Hm). simpl in HN. lia.
Qed.

Lemma backing_ranked_grows rank s s' :
  backing_ranked rank s -> grows s s' -> backing_ranked rank s'.
Proof.
  intros Hr Hg b x' Hb. pose proof (grows_backing _ _ Hg b) as Hb0.
  destruct (backing s !! b) as [x|] eqn:E; [|congruence].
  destruct Hb0 as [fl Hfl]. rewrite Hfl in Hb. injection Hb as <-. simpl.
  eapply Forall_impl; [exact (Hr _ _ E)|]. intros c [Hlt [y Hy]]. split; [done|].
  pose proof (grows_backing _ _ Hg c) as Hc. rewrite Hy in Hc. destruct Hc as [? ->]. eauto.
Qed.

Lemma grows_trans s1 s2 s3 :
  ids_fresh s2 -> grows s1 s2 -> grows s2 s3 -> grows s1 s3.
Proof.
  intros [HN2 _] H12 H23. split.
  - pose proof (grows_nextNode _ _ H12). pose proof (grows_nextNode _ _ H23). lia.
  - pose proof (grows_nextElem _ _ H12). pose proof (grows_nextElem _ _ H23). lia.
  - intros e x He. eapply grows_elems; [exact H23|]. by eapply grows_elems.
  - intros b. pose proof (grows_backing _ _ H12 b) as Hb1.
    pose proof (grows_backing _ _ H23 b) as Hb2.
    destruct (backing s1 !! b) as [x|].
    + destruct Hb1 as [fl Hfl]. rewrite Hfl in Hb2. destruct Hb2 as [fl' Hfl']. eauto.
    + by rewrite Hb1 in Hb2.
  - intros m d Hm. destruct (grows_nodes _ _ H12 _ _ Hm) as (d2 & Hd2 & Hid2).
    destruct (grows_nodes _ _ H23 _ _ Hd2) as (d3 & Hd3 & Hid3).
    eauto using same_identity_trans.
  - intros m d Hm Hle. destruct (decide (nextNode s2 <= m)%nat) as [Hge|Hlt].
    + destruct (grows_new _ _ H23 _ _ Hm Hge) as (?&?&?&r&?&?).
      pose proof (grows_nextElem _ _ H12). repeat split; try done. exists r. split; [done|lia].
    + destruct (nodes s2 !! m) as [d2|] eqn:E2.
      * destruct (grows_nodes _ _ H23 _ _ E2) as (d3 & Hd3 & Hid3).
        rewrite Hm in Hd3. injection Hd3 as <-.
        destruct (grows_new _ _ H12 _ _ E2 Hle) as (?&?&?&r&?&?).
        destruct Hid3 as (?&?&?&?&?&?&?). repeat split; try congruence.
        exists r. split; [congruence|done].
      * rewrite (grows_absent _ _ H23 m) in Hm; [done|lia|done].
  - intros m Hlt Hm. pose proof (grows_nextNode _ _ H12).
    eapply grows_absent; [exact H23|lia|]. by eapply grows_absent.
  - rewrite (grows_viewports _ _ H23). apply (grows_viewports _ _ H12).
  - rewrite (grows_tasks _ _ H23). apply (grows_tasks _ _ H12).
Qed.

Lemma createRepresentation_new s n d b :
  ids_fresh s -> nodes s !! n = Some d -> backing s !! innerNode d = Some b ->
  exists s',
    createRepresentation n s = Some (tt, s') /\
    nodes s' = <[n := set_representation (Some (nextElem s)) d]> (nodes s) /\
    nextElem s' = S (S (nextElem s)) /\ nextNode s' = nextNode s /\
    (forall e x, elems s !! e = Some x -> elems s' !! e = Some x) /\
    map_Forall (fun e _ => (e < nextElem s')%nat) (elems s') /\
    backing s' = backing s /\ viewports s' = viewports s /\ tasks s' = tasks s.
Proof.
  intros [HN HE] Hd Hb. eexists. split.
  - unfold createRepresentation, createElement, appendChild.
    do 12 mstep. mlast. reflexivity.
  - simpl. split_and!; try done.
    + intros e x He. specialize (HE _ _ He). simpl in HE.
      rewrite !lookup_insert_ne by lia. done.
    + intros e x. rewrite !lookup_insert. repeat case_decide; try (intros _; lia).
      intros He. specialize (HE _ _ He). simpl in HE. lia.
Qed.


Definition expand_body (f : nat) (this : nat) (recurse : bool) (x : nat) : M nat :=
  let* node := construct f x (Some this) in
  when recurse (expand f node true) ;;;
  ret node.

Lemma construct_unfold f node parent :
  construct (S f) node parent =
  (let* b := getBacking node in
   let* this := newNode
     {| innerNode := node; nodeChildren := b_children b; parent := parent;
        children := []; requiredWidth := -1; representation := None;
        isExpanded := Nat.eqb (length (b_children b)) 0;
        childBar := None; horizontalBar := None; parentBar := None;
        lastContainer := None; lastViewport := None |} in
   createRepresentation this ;;;
   let* b := getBacking node in
   when (drawingTreeNodeIsExpanded b) (expand f this false) ;;;
   ret this).
Proof. reflexivity. Qed.

Lemma expand_unfold f this recurse :
  expand (S f) this recurse =
  (let* d := getNode this in
   let* cs := mapM (expand_body f this recurse) (nodeChildren d) in
   modifyNode this (set_children cs) ;;;
   modifyNode this (set_isExpanded true) ;;;
   let* d := getNode this in
   modifyBacking (innerNode d) (set_flag (isExpanded d))).
Proof. reflexivity. Qed.

Section Build.
Context (rank : nat -> nat).

Definition construct_ok (f : nat) : Prop :=
  forall s b x p, ids_fresh s -> backing_ranked rank s -> backing s !! b = Some x ->
    (2 * rank b + 2 <= f)%nat ->
    exists s' dn,
      construct f b p s = Some (nextNode s, s') /\
      ids_fresh s' /\ grows s s' /\
      (forall m, (m < nextNode s)%nat -> nodes s' !! m = nodes s !! m) /\
      nodes s' !! nextNode s = Some dn /\
      innerNode dn = b /\ parent dn = p /\ nodeChildren dn = b_children x.

Definition expand_ok (f : nat) : Prop :=
  forall s this d r, ids_fresh s -> backing_ranked rank s -> nodes s !! this = Some d ->
    (1 <= f)%nat -> is_Some (backing s !! innerNode d) ->
    Forall (fun x => is_Some (backing s !! x) /\ (2 * rank x + 3 <= f)%nat) (nodeChildren d) ->
    exists s' cs,
      expand f this r s = Some (tt, s') /\
      ids_fresh s' /\ grows s s' /\
      (forall m, (m < nextNode s)%nat -> m <> this -> nodes s' !! m = nodes s !! m) /\
      nodes s' !! this = Some (set_isExpanded true (set_children cs d)) /\
      Forall2 (fun c x => (nextNode s <= c)%nat /\
                 exists dc, nodes s' !! c = Some dc /\ innerNode dc = x /\
                            parent dc = Some this) cs (nodeChildren d).

Lemma expand_loop f this r xs :
  construct_ok f -> expand_ok f ->
  forall s, ids_fresh s -> backing_ranked rank s ->
    Forall (fun x => is_Some (backing s !! x) /\ (2 * rank x + 3 <= S f)%nat) xs ->
    exists s' cs,
      mapM (expand_body f this r) xs s = Some (cs, s') /\
      ids_fresh s' /\ grows s s' /\
      (forall m, (m < nextNode s)%nat -> nodes s' !! m = nodes s !! m) /\
      Forall2 (fun c x => (nextNode s <= c)%nat /\
                 exists dc, nodes s' !! c = Some dc /\ innerNode dc = x /\
                            parent dc = Some this) cs xs.
Proof.
  intros Hc He. induction xs as [|x xs IH]; intros s Hfresh Hrank Hxs.
  - exists s, []. simpl. split_and!; auto using grows_refl.
  - apply Forall_cons in Hxs as [[[bx Hbx] Hfuel] Hxs].
    destruct (Hc s x bx (Some this) Hfresh Hrank Hbx ltac:(lia))
      as (s1 & dn & Hrun1 & Hfresh1 & Hg1 & Hold1 & Hdn & Hin & Hpar & Hnc).
    assert (backing_ranked rank s1) as Hrank1 by by eapply backing_ranked_grows.
    assert (exists s2 dn', when r (expand f (nextNode s) true) s1 = Some (tt, s2) /\
              ids_fresh s2 /\ grows s1 s2 /\
              (forall m, (m < nextNode s)%nat -> nodes s2 !! m = nodes s1 !! m) /\
              nodes s2 !! nextNode s = Some dn' /\ innerNode dn' = x /\
              parent dn' = Some this)
      as (s2 & dn' & Hrun2 & Hfresh2 & Hg2 & Hold2 & Hdn' & Hin' & Hpar').
    { destruct r; simpl.
      - destruct (He s1 (nextNode s) dn true Hfresh1 Hrank1 Hdn)
          as (s2 & cs' & Hrun2 & Hfresh2 & Hg2 & Hold2 & Hdn2 & _).
        + lia.
        + rewrite Hin. pose proof (grows_backing _ _ Hg1 x) as Hb. rewrite Hbx in Hb.
          destruct Hb as [? ->]. eauto.
        + rewrite Hnc. eapply Forall_impl; [exact (Hrank _ _ Hbx)|].
          intros y [Hlt [by' Hy]]. split; [|lia].
          pose proof (grows_backing _ _ Hg1 y) as Hb. rewrite Hy in Hb.
          destruct Hb as [? ->]. eauto.
        + exists s2, (set_isExpanded true (set_children cs' dn)). split_and!; try done.
          intros m Hm. apply Hold2; [|lia]. pose proof (grows_nextNode _ _ Hg1). lia.
      - exists s1, dn. split_and!; auto using grows_refl. }
    assert (grows s s2) as Hg12 by exact (grows_trans _ _ _ Hfresh1 Hg1 Hg2).
    destruct (IH s2 Hfresh2) as (s' & cs & Hrun' & Hfresh' & Hg' & Hold' & Hcs).
    { eapply backing_ranked_grows; [exact Hrank|done]. }
    { eapply Forall_impl; [exact Hxs|]. intros y [[by' Hy] ?]. split; [|done].
      pose proof (grows_backing _ _ Hg12 y) as Hb. rewrite Hy in Hb.
      destruct Hb as [? ->]. eauto. }
    assert (nextNode s < nextNode s2)%nat as Hlt.
    { destruct Hfresh2 as [HN _]. apply (HN _ _ Hdn'). }
    exists s', (nextNode s :: cs). split_and!.
    + simpl. unfold expand_body at 1. rewrite !bind_assoc.
      rewrite (bind_eq _ _ _ _ _ Hrun1). rewrite bind_assoc.
      rewrite (bind_eq _ _ _ _ _ Hrun2).
      rewrite (bind_eq (ret (nextNode s)) _ _ _ _ eq_refl).
      by rewrite (bind_eq _ _ _ _ _ Hrun').
    + done.
    + exact (grows_trans _ _ _ Hfresh2 Hg12 Hg').
    + intros m Hm. rewrite Hold' by lia. rewrite Hold2 by done. by apply Hold1.
    + constructor.
      * split; [done|]. exists dn'. split_and!; try done. by rewrite Hold'.
      * eapply Forall2_impl; [exact Hcs|]. intros c y [Hle Hdc]. split; [lia|done].
Qed.

Definition alloc_node (d : DrawingTreeNode) (s : State) : State :=
  {| nodes := <[nextNode s := d]> (nodes s); elems := elems s;
     backing := backing s; viewports := viewports s; tasks := tasks s;
     nextNode := S (nextNode s); nextElem := nextElem s;
     nextViewport := nextViewport s |}.

Lemma construct_prefix s d0 x :
  ids_fresh s -> backing s !! innerNode d0 = Some x ->
  childBar d0 = None -> horizontalBar d0 = None -> parentBar d0 = None ->
  exists s2,
    newNode d0 s = Some (nextNode s, alloc_node d0 s) /\
    createRepresentation (nextNode s) (alloc_node d0 s) = Some (tt, s2) /\
    ids_fresh s2 /\ grows s s2 /\ backing s2 = backing s /\
    (forall m, (m < nextNode s)%nat -> nodes s2 !! m = nodes s !! m) /\
    nodes s2 !! nextNode s = Some (set_representation (Some (nextElem s)) d0).
Proof.
  intros Hfresh Hb Hcb Hhb Hpb. pose proof Hfresh as [HN HE].
  set (s1 := alloc_node d0 s).
  assert (ids_fresh s1) as Hfresh1.
  { split; [|done]. intros m d. simpl. rewrite lookup_insert. case_decide; [intros _; lia|].
    intros Hm. specialize (HN _ _ Hm). simpl in HN. lia. }
  destruct (createRepresentation_new s1 (nextNode s) d0 x Hfresh1)
    as (s2 & Hrun & Hnodes & HnE & HnN & Helems & HE2 & Hback & Hview & Htasks).
  { simpl. by rewrite lookup_insert_eq. }
  { done. }
  simpl in *. rewrite insert_insert_eq in Hnodes.
  exists s2. split_and!.
  - done.
  - done.
  - split; [|done]. intros m d. rewrite Hnodes, HnN, lookup_insert.
    case_decide; [intros _; lia|]. intros Hm. specialize (HN _ _ Hm). simpl in HN. lia.
  - split.
    + lia.
    + lia.
    + done.
    + intros b. rewrite Hback. destruct (backing s !! b) as [y|]; [|done].
      exists (drawingTreeNodeIsExpanded y). by rewrite set_flag_id.
    + intros m d Hm. specialize (HN _ _ Hm). simpl in HN.
      rewrite Hnodes, lookup_insert_ne by lia. eauto using same_identity_refl.
    + intros m d. rewrite Hnodes, lookup_insert. case_decide.
      * intros [= <-] _. repeat split; try done. exists (nextElem s). done.
      * intros Hm Hle. specialize (HN _ _ Hm). simpl in HN. lia.
    + intros m Hlt Hm. by rewrite Hnodes, lookup_insert_ne by lia.
    + done.
    + done.
  - done.
  - intros m Hm. by rewrite Hnodes, lookup_insert_ne by lia.
  - by rewrite Hnodes, lookup_insert_eq.
Qed.

Lemma expand_finish s this d cs y :
  ids_fresh s -> nodes s !! this = Some d -> backing s !! innerNode d = Some y ->
  exists s',
    (modifyNode this (set_children cs) ;;;
     modifyNode this (set_isExpanded true) ;;;
     let* d := getNode this in
     modifyBacking (innerNode d) (set_flag (isExpanded d))) s = Some (tt, s') /\
    ids_fresh s' /\ grows s s' /\
    nodes s' = <[this := set_isExpanded true (set_children cs d)]> (nodes s).
Proof.
  intros Hfresh Hd Hy. pose proof Hfresh as [HN HE]. eexists. split.
  - do 3 mstep. mlast. reflexivity.
  - simpl. split_and!; [| |done].
    + split; [|done]. intros m dm. simpl. rewrite lookup_insert. case_decide.
      * subst. intros _. apply (HN _ _ Hd).
      * apply HN.
    + split; simpl; try done.
      * intros b. rewrite lookup_insert. case_decide.
        -- subst. rewrite Hy. eauto.
        -- destruct (backing s !! b) as [z|]; [|done].
           exists (drawingTreeNodeIsExpanded z). by rewrite set_flag_id.
      * intros m dm Hm. rewrite lookup_insert. case_decide.
        -- subst. rewrite Hd in Hm. injection Hm as <-. eexists. split; [done|].
           by repeat split.
        -- eauto using same_identity_refl.
      * intros m dm. rewrite lookup_insert. case_decide.
        -- subst. intros _ Hle. specialize (HN _ _ Hd). simpl in HN. lia.
        -- intros Hm Hle. specialize (HN _ _ Hm). simpl in HN. lia.
      * intros m Hlt Hm. rewrite lookup_insert_ne; [done|]. intros ->. congruence.
Qed.

Lemma build_ok f : construct_ok f /\ expand_ok f.
Proof.
  induction f as [|f [IHc IHe]].
  { split.
    - intros s b x p _ _ _ Hf. lia.
    - intros s this d r _ _ _ Hf. lia. }
  split.
  - intros s b x p Hfresh Hrank Hb Hfuel.
    set (d0 := {| innerNode := b; nodeChildren := b_children x; parent := p;
                  children := []; requiredWidth := -1; representation := None;
                  isExpanded := Nat.eqb (length (b_children x)) 0;
                  childBar := None; horizontalBar := None; parentBar := None;
                  lastContainer := None; lastViewport := None |}).
    destruct (construct_prefix s d0 x Hfresh Hb eq_refl eq_refl eq_refl)
      as (s2 & Hrun1 & Hrun2 & Hfresh2 & Hg2 & Hback2 & Hold2 & Hnew2).
    assert (backing_ranked rank s2) as Hrank2 by by eapply backing_ranked_grows.
    set (d2 := set_representation (Some (nextElem s)) d0) in *.
    assert (exists s3 d3, when (drawingTreeNodeIsExpanded x) (expand f (nextNode s) false) s2
                          = Some (tt, s3) /\
              ids_fresh s3 /\ grows s2 s3 /\
              (forall m, (m < nextNode s)%nat -> nodes s3 !! m = nodes s2 !! m) /\
              nodes s3 !! nextNode s = Some d3 /\ same_identity d2 d3)
      as (s3 & d3 & Hrun3 & Hfresh3 & Hg3 & Hold3 & Hnew3 & Hid3).
    { destruct (drawingTreeNodeIsExpanded x); simpl.
      - destruct (IHe s2 (nextNode s) d2 false Hfresh2 Hrank2 Hnew2)
          as (s3 & cs & Hrun3 & Hfresh3 & Hg3 & Hold3 & Hnew3 & _).
        + lia.
        + simpl. rewrite Hback2. eauto.
        + simpl. eapply Forall_impl; [exact (Hrank _ _ Hb)|].
          intros c [Hlt Hc]. rewrite Hback2. split; [done|lia].
        + exists s3, (set_isExpanded true (set_children cs d2)). split_and!; try done.
          intros m Hm. apply Hold3; [|lia]. pose proof (grows_nextNode _ _ Hg2). lia.
      - exists s2, d2. split_and!; auto using grows_refl, same_identity_refl. }
    exists s3, d3. split_and!.
    + rewrite construct_unfold. rewrite (bind_eq _ _ _ _ _ (getBacking_eq _ _ _ Hb)).
      fold d0. rewrite (bind_eq _ _ _ _ _ Hrun1). rewrite (bind_eq _ _ _ _ _ Hrun2).
      rewrite (bind_eq _ _ _ _ _ (getBacking_eq _ s2 x ltac:(by rewrite Hback2))).
      by rewrite (bind_eq _ _ _ _ _ Hrun3).
    + done.
    + exact (grows_trans _ _ _ Hfresh2 Hg2 Hg3).
    + intros m Hm. rewrite Hold3 by done. by apply Hold2.
    + done.
    + by destruct Hid3 as (-> & _).
    + by destruct Hid3 as (_ & _ & -> & _).
    + by destruct Hid3 as (_ & -> & _).
  - intros s this d r Hfresh Hrank Hd _ [y Hy] Hxs.
    destruct (expand_loop f this r (nodeChildren d) IHc IHe s Hfresh Hrank Hxs)
      as (s1 & cs & Hrun1 & Hfresh1 & Hg1 & Hold1 & Hcs).
    assert (this < nextNode s)%nat as Hlt by (destruct Hfresh as [HN _]; apply (HN _ _ Hd)).
    assert (nodes s1 !! this = Some d) as Hd1 by (by rewrite Hold1).
    pose proof (grows_backing _ _ Hg1 (innerNode d)) as Hb. rewrite Hy in Hb.
    destruct Hb as [fl Hfl].
    destruct (expand_finish s1 this d cs _ Hfresh1 Hd1 Hfl)
      as (s2 & Hrun2 & Hfresh2 & Hg2 & Hnodes2).
    exists s2, cs. split_and!.
    + rewrite expand_unfold. rewrite (bind_eq _ _ _ _ _ (getNode_eq _ _ _ Hd)).
      by rewrite (bind_eq _ _ _ _ _ Hrun1).
    + done.
    + exact (grows_trans _ _ _ Hfresh1 Hg1 Hg2).
    + intros m Hm Hne. rewrite Hnodes2, lookup_insert_ne by done. by apply Hold1.
    + by rewrite Hnodes2, lookup_insert_eq.
    + eapply Forall2_impl; [exact Hcs|]. intros c z [Hle (dc & Hdc & ? & ?)].
      split; [done|]. exists dc. rewrite Hnodes2, lookup_insert_ne by lia. done.
Qed.
End Build.

(** * Collapsing (claims C4 and C6) *)

(** Every handle stored in a node refers to an element of the DOM, every
    node has a representation, and its backing node exists. *)
Definition handle_ok (s : State) (o : option nat) : Prop :=
  from_option (fun e => is_Some (elems s !! e)) True o.

Definition node_refs_ok (s : State) (d : DrawingTreeNode) : Prop :=
  is_Some (representation d) /\ handle_ok s (representation d) /\
  handle_ok s (childBar d) /\ handle_ok s (horizontalBar d) /\
  handle_ok s (parentBar d) /\ is_Some (backing s !! innerNode d).

Definition refs_ok (s : State) : Prop := map_Forall (fun _ d => node_refs_ok s d) (nodes s).

#[export] Instance handle_ok_dec s o : Decision (handle_ok s o).
Proof. destruct o; simpl; apply _. Defined.

#[export] Instance refs_ok_dec s : Decision (refs_ok s).
Proof. unfold refs_ok, node_refs_ok. apply _. Defined.

Lemma handle_ok_mono s s' o :
  (forall e, is_Some (elems s !! e) -> is_Some (elems s' !! e)) ->
  handle_ok s o -> handle_ok s' o.
Proof. intros H. destruct o; simpl; auto. Qed.

(** What [collapse] may change: no node appears or disappears, a node
    keeps its identity, parent and representation, its child list stays or
    becomes empty; elements are only added; backing nodes change in their
    flag only. *)
Record collapses (s s' : State) : Prop := {
  collapses_nextNode : nextNode s' = nextNode s;
  collapses_nextElem : (nextElem s <= nextElem s')%nat;
  collapses_nodes : forall m,
    match nodes s !! m with
    | Some d => exists d', nodes s' !! m = Some d' /\
        innerNode d' = innerNode d /\ nodeChildren d' = nodeChildren d /\
        parent d' = parent d /\ representation d' = representation d /\
        (children d' = children d \/ children d' = [])
    | None => nodes s' !! m = None
    end;
  collapses_elems : forall e, is_Some (elems s !! e) -> is_Some (elems s' !! e);
  collapses_backing : forall b,
    match backing s !! b with
    | Some x => exists fl, backing s' !! b = Some (set_flag fl x)
    | None => backing s' !! b = None
    end
}.

Lemma collapses_refl s : collapses s s.
Proof.
  split; try done.
  - intros m. destruct (nodes s !! m) as [d|]; eauto 10.
  - intros b. destruct (backing s !! b) as [x|] eqn:E; [|done].
    exists (drawingTreeNodeIsExpanded x). by rewrite set_flag_id.
Qed.

Lemma collapses_trans s1 s2 s3 : collapses s1 s2 -> collapses s2 s3 -> collapses s1 s3.
Proof.
  intros H12 H23. split.
  - rewrite (collapses_nextNode _ _ H23). apply (collapses_nextNode _ _ H12).
  - pose proof (collapses_nextElem _ _ H12). pose proof (collapses_nextElem _ _ H23). lia.
  - intros m. pose proof (collapses_nodes _ _ H12 m) as Hm1.
    pose proof (collapses_nodes _ _ H23 m) as Hm2.
    destruct (nodes s1 !! m) as [d|].
    + destruct Hm1 as (d2 & Hd2 & ? & ? & ? & ? & Hc2). rewrite Hd2 in Hm2.
      destruct Hm2 as (d3 & Hd3 & ? & ? & ? & ? & Hc3). exists d3.
      split_and!; try congruence. destruct Hc3 as [->| ->]; auto.
    + by rewrite Hm1 in Hm2.
  - intros e He. eapply collapses_elems; [exact H23|]. by eapply collapses_elems.
  - intros b. pose proof (collapses_backing _ _ H12 b) as Hb1.
    pose proof (collapses_backing _ _ H23 b) as Hb2.
    destruct (backing s1 !! b) as [x|].
    + destruct Hb1 as [fl Hfl]. rewrite Hfl in Hb2. destruct Hb2 as [fl' Hfl']. eauto.
    + by rewrite Hb1 in Hb2.
Qed.

Lemma collapses_lookup s s' m d :
  collapses s s' -> nodes s !! m = Some d ->
  exists d', nodes s' !! m = Some d' /\
    innerNode d' = innerNode d /\ nodeChildren d' = nodeChildren d /\
    parent d' = parent d /\ representation d' = representation d /\
    (children d' = children d \/ children d' = []).
Proof. intros H Hm. pose proof (collapses_nodes _ _ H m) as Hm'. by rewrite Hm in Hm'. Qed.

Lemma collapses_lookup_inv s s' m d' :
  collapses s s' -> nodes s' !! m = Some d' ->
  exists d, nodes s !! m = Some d /\
    innerNode d' = innerNode d /\ nodeChildren d' = nodeChildren d /\
    parent d' = parent d /\ representation d' = representation d /\
    (children d' = children d \/ children d' = []).
Proof.
  intros H Hm. pose proof (collapses_nodes _ _ H m) as Hm'.
  destruct (nodes s !! m) as [d|]; [|congruence].
  destruct Hm' as (d2 & Hd2 & Hrest). exists d. split; [done|]. congruence.
Qed.

Lemma tree_wf_collapses s s' : collapses s s' -> tree_wf s -> tree_wf s'.
Proof.
  intros Hc Hwf n d' Hn.
  destruct (collapses_lookup_inv _ _ _ _ Hc Hn) as (d & Hd & _ & _ & Hp & _ & Hch).
  destruct (Hwf _ _ Hd) as (H1 & H2 & H3 & H4).
  split; [rewrite (collapses_nextNode _ _ Hc); done|]. split; [|split].
  - rewrite Hp. destruct (parent d) as [p|]; [|done]. simpl in *.
    destruct H2 as [? [dp Hdp]]. split; [done|].
    destruct (collapses_lookup _ _ _ _ Hc Hdp) as (? & -> & _). eauto.
  - destruct Hch as [-> | ->]; [|constructor].
    eapply Forall_impl; [exact H3|]. intros c Hcp. simpl in Hcp.
    destruct (nodes s !! c) as [dc|] eqn:E; [|done].
    destruct (collapses_lookup _ _ _ _ Hc E) as (dc' & -> & _ & _ & Hp' & _). simpl in *.
    congruence.
  - destruct Hch as [-> | ->]; [done|constructor].
Qed.

(** Steps that only touch the DOM. *)
Definition dom_step (s s' : State) : Prop :=
  nodes s' = nodes s /\ backing s' = backing s /\ nextNode s' = nextNode s /\
  nextElem s' = nextElem s /\
  forall k, is_Some (elems s' !! k) <-> is_Some (elems s !! k).

Lemma dom_step_collapses s s' : dom_step s s' -> collapses s s'.
Proof.
  intros (Hn & Hb & HN & HE & Hk). split.
  - done.
  - lia.
  - intros m. rewrite Hn. destruct (nodes s !! m); eauto 10.
  - intros e. by rewrite Hk.
  - intros b. rewrite Hb. destruct (backing s !! b) as [x|]; [|done].
    exists (drawingTreeNodeIsExpanded x). by rewrite set_flag_id.
Qed.

Lemma refs_ok_dom_step s s' : dom_step s s' -> refs_ok s -> refs_ok s'.
Proof.
  intros (Hn & Hb & HN & HE & Hk) Hok n d. rewrite Hn. intros Hd.
  destruct (Hok _ _ Hd) as (Hr & Hr' & Hcb & Hhb & Hpb & Hback).
  assert (forall e, is_Some (elems s !! e) -> is_Some (elems s' !! e)) as Hmono
    by (intros e; by rewrite Hk).
  split_and!; eauto using handle_ok_mono. by rewrite Hb.
Qed.

Lemma remove_ok s e :
  dom_wf s -> is_Some (elems s !! e) ->
  exists s', remove (Some e) s = Some (tt, s') /\ dom_wf s' /\ dom_step s s'.
Proof.
  intros Hwf [x Hx]. destruct (parentNode x) as [p|] eqn:Hp.
  - destruct (dom_wf_parent _ _ _ _ Hwf Hx Hp) as (Helt & Hne & Hplt & [y Hy]).
    eexists. split; [|split].
    + unfold remove. mstep. rewrite Hp. unfold removeChild. mstep.
      rewrite Hp, Nat.eqb_refl. mstep. mlast. reflexivity.
    + intros k z. simpl. rewrite !lookup_insert. unfold elem_wf. simpl.
      repeat case_decide; subst.
      * intros [= <-]. done.
      * intros [= <-]. simpl. destruct (Hwf _ _ Hy) as [? Hpar]. split; [done|].
        destruct (parentNode y) as [q|]; [|done]. simpl in *.
        destruct Hpar as [? Hq]. split; [done|]. rewrite !lookup_insert.
        repeat case_decide; eauto.
      * intros Hk. destruct (Hwf _ _ Hk) as [? Hpar]. split; [done|].
        destruct (parentNode z) as [q|]; [|done]. simpl in *.
        destruct Hpar as [? Hq]. split; [done|]. rewrite !lookup_insert.
        repeat case_decide; eauto.
    + split_and!; try done. intros k. simpl. rewrite !lookup_insert.
      repeat case_decide; subst; split; eauto.
  - exists s. split; [|split].
    + unfold remove. mstep. by rewrite Hp.
    + done.
    + by split_and!.
Qed.

Definition bar_post (s : State) (n : nat) (e : nat) (s' : State) : Prop :=
  dom_wf s' /\ refs_ok s' /\ is_Some (elems s' !! e) /\ collapses s s'.

Ltac bar_ok_tac Hbar :=
  match goal with
  | Hwf : dom_wf ?s, Hok : refs_ok ?s, Hd : nodes ?s !! ?n = Some ?d |- _ =>
    destruct (Hok _ _ Hd) as (Hr & Hr' & Hcb & Hhb & Hpb & Hback);
    match type of Hbar with
    | ?bar = Some ?e =>
        exists e, s; split; [mstep; rewrite Hbar; reflexivity|];
        rewrite Hbar in *; split_and!; auto using collapses_refl
    | ?bar = None =>
        assert (elems s !! nextElem s = None) as Hfresh by (by apply dom_wf_fresh);
        eexists _, _; split;
          [mstep; rewrite Hbar; unfold createElement; do 3 mstep; reflexivity|];
        split_and!;
          [ intros k z; simpl; rewrite lookup_insert; unfold elem_wf; simpl; case_decide;
            [ intros [= <-]; simpl; split; [lia|done]
            | intros Hk; destruct (Hwf _ _ Hk) as [? Hpar]; split; [lia|];
              destruct (parentNode z) as [q|]; [|done]; simpl in *;
              destruct Hpar as [? Hq]; split; [done|];
              rewrite lookup_insert; case_decide; eauto ]
          | intros k z; simpl; rewrite lookup_insert; case_decide;
            [ intros [= <-]; unfold node_refs_ok; simpl;
              split_and!; try done;
              first [ by rewrite lookup_insert_eq
                    | eapply handle_ok_mono; [|eassumption]; simpl; intros ?;
                      rewrite lookup_insert; case_decide; eauto ]
            | intros Hk; destruct (Hok _ _ Hk) as (?&?&?&?&?&?);
              unfold node_refs_ok; split_and!; try done;
              (eapply handle_ok_mono; [|eassumption]; simpl; intros ?;
               rewrite lookup_insert; case_decide; eauto) ]
          | simpl; by rewrite lookup_insert_eq
          | split; simpl;
            [ done | lia
            | intros m; rewrite lookup_insert; case_decide;
              [ subst; rewrite Hd; eexists; split; [done|]; simpl; auto 10
              | destruct (nodes s !! m); eauto 10 ]
            | intros k; rewrite lookup_insert; case_decide; eauto
            | intros b; destruct (backing s !! b) as [x|]; [|done];
              exists (drawingTreeNodeIsExpanded x); by rewrite set_flag_id ] ]
    end
  end.

Lemma getChildBar_ok s n d :
  dom_wf s -> refs_ok s -> nodes s !! n = Some d ->
  exists e s', getChildBar n s = Some (e, s') /\ bar_post s n e s'.
Proof.
  intros Hwf Hok Hd. unfold getChildBar, bar_post.
  destruct (childBar d) as [e|] eqn:Hbar; bar_ok_tac Hbar.
Qed.

Lemma getHorizontalBar_ok s n d :
  dom_wf s -> refs_ok s -> nodes s !! n = Some d ->
  exists e s', getHorizontalBar n s = Some (e, s') /\ bar_post s n e s'.
Proof.
  intros Hwf Hok Hd. unfold getHorizontalBar, bar_post.
  destruct (horizontalBar d) as [e|] eqn:Hbar; bar_ok_tac Hbar.
Qed.

Lemma getParentBar_ok s n d :
  dom_wf s -> refs_ok s -> nodes s !! n = Some d ->
  exists e s', getParentBar n s = Some (e, s') /\ bar_post s n e s'.
Proof.
  intros Hwf Hok Hd. unfold getParentBar, bar_post.
  destruct (parentBar d) as [e|] eqn:Hbar; bar_ok_tac Hbar.
Qed.

Lemma remove_bar_ok (getBar : nat -> M nat) s n d :
  (forall s n d, dom_wf s -> refs_ok s -> nodes s !! n = Some d ->
     exists e s', getBar n s = Some (e, s') /\ bar_post s n e s') ->
  dom_wf s -> refs_ok s -> nodes s !! n = Some d ->
  exists e s1 s', getBar n s = Some (e, s1) /\ remove (Some e) s1 = Some (tt, s') /\
                  dom_wf s' /\ refs_ok s' /\ collapses s s'.
Proof.
  intros Hget Hwf Hok Hd.
  destruct (Hget s n d Hwf Hok Hd) as (e & s1 & Hrun1 & Hwf1 & Hok1 & He & Hc1).
  destruct (remove_ok s1 e Hwf1 He) as (s2 & Hrun2 & Hwf2 & Hstep).
  exists e, s1, s2. split_and!; try done.
  - by eapply refs_ok_dom_step.
  - eapply collapses_trans; [exact Hc1|]. by apply dom_step_collapses.
Qed.

Lemma remove_self_ok s n d :
  dom_wf s -> refs_ok s -> nodes s !! n = Some d ->
  exists s', (let* d := getNode n in
              remove (representation d) ;;;
              let* pb := getParentBar n in
              remove (Some pb)) s = Some (tt, s') /\
             dom_wf s' /\ refs_ok s' /\ collapses s s'.
Proof.
  intros Hwf Hok Hd. destruct (Hok _ _ Hd) as ([r Hr] & Hr' & _).
  rewrite Hr in Hr'. simpl in Hr'.
  destruct (remove_ok s r Hwf Hr') as (s1 & Hrun1 & Hwf1 & Hstep1).
  assert (refs_ok s1) as Hok1 by by eapply refs_ok_dom_step.
  assert (nodes s1 !! n = Some d) as Hd1 by (destruct Hstep1 as (-> & _); done).
  destruct (remove_bar_ok getParentBar s1 n d getParentBar_ok Hwf1 Hok1 Hd1)
    as (pb & s1' & s2 & Hrun2 & Hrun2' & Hwf2 & Hok2 & Hc2).
  exists s2. split_and!; try done.
  - rewrite (bind_eq _ _ _ _ _ (getNode_eq _ _ _ Hd)). rewrite Hr.
    rewrite (bind_eq _ _ _ _ _ Hrun1). by rewrite (bind_eq _ _ _ _ _ Hrun2).
  - eapply collapses_trans; [|exact Hc2]. by apply dom_step_collapses.
Qed.

Lemma collapse_finish s this d :
  dom_wf s -> refs_ok s -> nodes s !! this = Some d ->
  exists s',
    (modifyNode this (set_children []) ;;;
     modifyNode this (set_requiredWidth 0) ;;;
     modifyNode this (fun d => set_isExpanded (Nat.eqb (length (nodeChildren d)) 0) d) ;;;
     let* d := getNode this in
     modifyBacking (innerNode d) (set_flag (isExpanded d))) s = Some (tt, s') /\
    dom_wf s' /\ refs_ok s' /\ collapses s s' /\
    nodes s' !! this =
      Some (set_isExpanded (Nat.eqb (length (nodeChildren d)) 0)
              (set_requiredWidth 0 (set_children [] d))).
Proof.
  intros Hwf Hok Hd. destruct (Hok _ _ Hd) as (Hr & Hr' & Hcb & Hhb & Hpb & [x Hx]).
  eexists. split; [do 4 mstep; mlast; reflexivity|]. simpl. split_and!.
  - done.
  - intros k z. simpl. rewrite lookup_insert. unfold node_refs_ok. simpl. case_decide.
    + intros [= <-]. simpl. split_and!; try done.
      rewrite lookup_insert. case_decide; eauto.
    + intros Hk. destruct (Hok _ _ Hk) as (?&?&?&?&?&?). split_and!; try done.
      rewrite lookup_insert. case_decide; eauto.
  - split; simpl; try done.
    + intros m. rewrite lookup_insert. case_decide.
      * subst. rewrite Hd. eexists. split; [done|]. simpl. auto 10.
      * destruct (nodes s !! m); eauto 10.
    + intros b. rewrite lookup_insert. case_decide.
      * subst. rewrite Hx. eauto.
      * destruct (backing s !! b) as [y|]; [|done].
        exists (drawingTreeNodeIsExpanded y). by rewrite set_flag_id.
  - by rewrite lookup_insert_eq.
Qed.

Lemma collapse_ok f :
  forall s this removeSelf d,
    tree_wf s -> dom_wf s -> refs_ok s -> nodes s !! this = Some d ->
    (nextNode s <= f + this)%nat ->
    exists s' d',
      collapse f this removeSelf s = Some (tt, s') /\
      dom_wf s' /\ refs_ok s' /\ collapses s s' /\
      nodes s' !! this = Some d' /\ children d' = [] /\ requiredWidth d' = 0 /\
      isExpanded d' = Nat.eqb (length (nodeChildren d)) 0.
Proof.
  induction f as [|f IH]; intros s this removeSelf d Htree Hwf Hok Hd Hfuel.
  { destruct (Htree _ _ Hd) as [? _]. lia. }
  (* removeSelf *)
  assert (exists s1, when removeSelf
            (let* d := getNode this in
             remove (representation d) ;;;
             let* pb := getParentBar this in
             remove (Some pb)) s = Some (tt, s1) /\
          dom_wf s1 /\ refs_ok s1 /\ collapses s s1)
    as (s1 & Hrun1 & Hwf1 & Hok1 & Hc1).
  { destruct removeSelf; simpl.
    - by eapply remove_self_ok.
    - exists s. auto using collapses_refl. }
  destruct (collapses_lookup _ _ _ _ Hc1 Hd) as (d1 & Hd1 & _).
  destruct (remove_bar_ok getChildBar s1 this d1 getChildBar_ok Hwf1 Hok1 Hd1)
    as (cb & s1' & s2 & Hrun2 & Hrun2' & Hwf2 & Hok2 & Hc2).
  destruct (collapses_lookup _ _ _ _ Hc2 Hd1) as (d2 & Hd2 & _).
  destruct (remove_bar_ok getHorizontalBar s2 this d2 getHorizontalBar_ok Hwf2 Hok2 Hd2)
    as (hb & s2' & s3 & Hrun3 & Hrun3' & Hwf3 & Hok3 & Hc3).
  destruct (collapses_lookup _ _ _ _ Hc3 Hd2) as (d3 & Hd3 & _).
  assert (collapses s s3) as Hc03.
  { eapply collapses_trans; [exact Hc1|]. eapply collapses_trans; [exact Hc2|done]. }
  assert (tree_wf s3) as Htree3 by by eapply tree_wf_collapses.
  (* the children *)
  assert (forall cs s, tree_wf s -> dom_wf s -> refs_ok s ->
            (forall c, c ∈ cs -> is_Some (nodes s !! c) /\ (nextNode s <= f + c)%nat) ->
            exists s', forM_ (fun x => collapse f x true) cs s = Some (tt, s') /\
                       dom_wf s' /\ refs_ok s' /\ collapses s s') as Hloop.
  { clear -IH. induction cs as [|c cs IHcs]; intros s Htree Hwf Hok Hcs.
    - exists s. simpl. auto using collapses_refl.
    - destruct (Hcs c) as [[dc Hdc] Hfuel]; [left|].
      destruct (IH s c true dc Htree Hwf Hok Hdc Hfuel)
        as (s1 & d' & Hrun1 & Hwf1 & Hok1 & Hc1 & _).
      destruct (IHcs s1) as (s2 & Hrun2 & Hwf2 & Hok2 & Hc2); try done.
      + by eapply tree_wf_collapses.
      + intros c' Hc'. destruct (Hcs c') as [[dc' Hdc'] ?]; [by right|].
        destruct (collapses_lookup _ _ _ _ Hc1 Hdc') as (? & -> & _).
        rewrite (collapses_nextNode _ _ Hc1). eauto.
      + exists s2. split_and!; try done.
        * simpl. by rewrite (bind_eq _ _ _ _ _ Hrun1).
        * by eapply collapses_trans. }
  destruct (Hloop (children d3) s3 Htree3 Hwf3 Hok3) as (s4 & Hrun4 & Hwf4 & Hok4 & Hc4).
  { intros c Hc. destruct (tree_wf_child _ _ _ _ Htree3 Hd3 Hc) as [Hlt (dc & Hdc & _)].
    rewrite (collapses_nextNode _ _ Hc03). split; [eauto|lia]. }
  destruct (collapses_lookup _ _ _ _ Hc4 Hd3) as (d4 & Hd4 & _).
  destruct (collapse_finish s4 this d4 Hwf4 Hok4 Hd4) as (s5 & Hrun5 & Hwf5 & Hok5 & Hc5 & Hd5).
  eexists s5, _. split_and!; try done.
  - simpl. rewrite (bind_eq _ _ _ _ _ Hrun1). rewrite (bind_eq _ _ _ _ _ Hrun2).
    rewrite (bind_eq _ _ _ _ _ Hrun2'). rewrite (bind_eq _ _ _ _ _ Hrun3).
    rewrite (bind_eq _ _ _ _ _ Hrun3'). rewrite (bind_eq _ _ _ _ _ (getNode_eq _ _ _ Hd3)).
    rewrite (bind_eq _ _ _ _ _ Hrun4). exact Hrun5.
  - eapply collapses_trans; [exact Hc03|]. by eapply collapses_trans.
  - simpl. f_equal.
    assert (collapses s s4) as Hc04 by (by eapply collapses_trans).
    destruct (collapses_lookup _ _ _ _ Hc04 Hd) as (d4' & Hd4' & _ & Hnc & _).
    congruence.
Qed.

Lemma backing_ranked_collapses rank s s' :
  backing_ranked rank s -> collapses s s' -> backing_ranked rank s'.
Proof.
  intros Hr Hg b x' Hb. pose proof (collapses_backing _ _ Hg b) as Hb0.
  destruct (backing s !! b) as [x|] eqn:E; [|congruence].
  destruct Hb0 as [fl Hfl]. rewrite Hfl in Hb. injection Hb as <-. simpl.
  eapply Forall_impl; [exact (Hr _ _ E)|]. intros c [Hlt [y Hy]]. split; [done|].
  pose proof (collapses_backing _ _ Hg c) as Hc. rewrite Hy in Hc. destruct Hc as [? ->]. eauto.
Qed.

Lemma ids_fresh_wf s : tree_wf s -> dom_wf s -> ids_fresh s.
Proof.
  intros Ht Hd. split.
  - intros n d Hn. by destruct (Ht _ _ Hn).
  - intros e x He. by destruct (Hd _ _ He).
Qed.

Lemma ids_fresh_node s n : ids_fresh s -> (nextNode s <= n)%nat -> nodes s !! n = None.
Proof.
  intros [HN _] Hle. destruct (nodes s !! n) as [d|] eqn:E; [|done].
  specialize (HN _ _ E). simpl in HN. lia.
Qed.

Lemma ids_fresh_elem s e : ids_fresh s -> (nextElem s <= e)%nat -> elems s !! e = None.
Proof.
  intros [_ HE] Hle. destruct (elems s !! e) as [d|] eqn:E; [|done].
  specialize (HE _ _ E). simpl in HE. lia.
Qed.

(** A child as [expand] has just built it from the snapshot entry [x]:
    a node that did not exist in [s], with a representation element that
    did not exist in [s] and no connector yet. *)
Definition fresh_child (s s' : State) (this : nat) (c x : nat) : Prop :=
  nodes s !! c = None /\
  exists dc e, nodes s' !! c = Some dc /\ innerNode dc = x /\ parent dc = Some this /\
    representation dc = Some e /\ elems s !! e = None /\
    childBar dc = None /\ horizontalBar dc = None /\ parentBar dc = None.

Lemma Forall2_left {A B} (P : A -> B -> Prop) (Q : A -> Prop) l k :
  Forall2 P l k -> (forall x y, P x y -> Q x) -> Forall Q l.
Proof. induction 1; intros HPQ; constructor; eauto. Qed.

Lemma expand_children rank s this d r f :
  ids_fresh s -> backing_ranked rank s -> nodes s !! this = Some d ->
  is_Some (backing s !! innerNode d) ->
  Forall (fun x => is_Some (backing s !! x) /\ (2 * rank x + 3 <= f)%nat) (nodeChildren d) ->
  (1 <= f)%nat ->
  exists s' cs,
    expand f this r s = Some (tt, s') /\
    grows s s' /\
    nodes s' !! this = Some (set_isExpanded true (set_children cs d)) /\
    Forall2 (fresh_child s s' this) cs (nodeChildren d) /\
    (forall m, m <> this -> is_Some (nodes s !! m) -> nodes s' !! m = nodes s !! m).
Proof.
  intros Hfresh Hrank Hd Hb Hxs Hf.
  destruct (proj2 (build_ok rank f) s this d r Hfresh Hrank Hd Hf Hb Hxs)
    as (s' & cs & Hrun & Hfresh' & Hg & Hold & Hnew & Hcs).
  exists s', cs. split_and!; try done.
  - eapply Forall2_impl; [exact Hcs|]. intros c x [Hle (dc & Hdc & Hin & Hpar)].
    split; [by apply ids_fresh_node|].
    destruct (grows_new _ _ Hg _ _ Hdc Hle) as (? & ? & ? & e & He & Hle').
    exists dc, e. split_and!; try done. by apply ids_fresh_elem.
  - intros m Hne [dm Hm]. apply Hold; [|done]. destruct Hfresh as [HN _]. apply (HN _ _ Hm).
Qed.

(** C6, amended: [collapse] followed by [expand] gives the node one child
    per entry of the array it holds in [nodeChildren], as that array is at
    the time of the calls (whatever [getChildren()] of the backing node
    would answer now: the source is not asked again), backed by those
    backing nodes in the same order; each child is a node that did not
    exist before, its representation is an element that did not exist
    before, and it has no connector yet, so that the first use of one
    creates a new element. *)
Theorem collapse_then_expand rank s this d removeSelf recurse f :
  tree_wf s -> dom_wf s -> refs_ok s -> backing_ranked rank s ->
  nodes s !! this = Some d ->
  Forall (fun x => is_Some (backing s !! x) /\ (2 * rank x + 3 <= f)%nat) (nodeChildren d) ->
  (1 <= f)%nat -> (nextNode s <= f + this)%nat ->
  exists s1 s2 cs d2,
    collapse f this removeSelf s = Some (tt, s1) /\
    expand f this recurse s1 = Some (tt, s2) /\
    nodes s2 !! this = Some d2 /\ children d2 = cs /\ isExpanded d2 = true /\
    length cs = length (nodeChildren d) /\
    Forall2 (fresh_child s s2 this) cs (nodeChildren d) /\
    Forall (fun c => exists s3, getParentBar c s2 = Some (nextElem s2, s3) /\
                                elems s !! nextElem s2 = None) cs.
Proof.
  intros Htree Hwf Hok Hrank Hd Hxs Hf Hfuel.
  destruct (collapse_ok f s this removeSelf d Htree Hwf Hok Hd Hfuel)
    as (s1 & d1 & Hrun1 & Hwf1 & Hok1 & Hc1 & Hd1 & Hch1 & _).
  assert (tree_wf s1) as Htree1 by by eapply tree_wf_collapses.
  assert (ids_fresh s1) as Hfresh1 by by apply ids_fresh_wf.
  assert (ids_fresh s) as Hfresh by by apply ids_fresh_wf.
  destruct (collapses_lookup _ _ _ _ Hc1 Hd) as (d1' & Hd1' & Hin & Hnc & _).
  rewrite Hd1 in Hd1'. injection Hd1' as <-.
  assert (is_Some (backing s1 !! innerNode d1)) as Hb1.
  { by destruct (Hok1 _ _ Hd1) as (_ & _ & _ & _ & _ & ?). }
  destruct (expand_children rank s1 this d1 recurse f Hfresh1) as (s2 & cs & Hrun2 & Hg & Hd2 & Hcs & _);
    try done.
  { by eapply backing_ranked_collapses. }
  { rewrite Hnc. eapply Forall_impl; [exact Hxs|]. intros x [[bx Hbx] ?]. split; [|done].
    pose proof (collapses_backing _ _ Hc1 x) as Hx. rewrite Hbx in Hx.
    destruct Hx as [? ->]. eauto. }
  assert (forall e, elems s1 !! e = None -> elems s !! e = None) as Hnone.
  { intros e He. destruct (elems s !! e) as [x|] eqn:E; [|done].
    destruct (collapses_elems _ _ Hc1 e) as [? ?]; [eauto|congruence]. }
  exists s1, s2, cs, (set_isExpanded true (set_children cs d1)). split_and!; try done.
  - rewrite <- Hnc. by eapply Forall2_length.
  - rewrite <- Hnc. eapply Forall2_impl; [exact Hcs|].
    intros c x (Hc & dc & e & Hdc & ? & ? & ? & He & ? & ? & ?). split.
    + pose proof (collapses_nodes _ _ Hc1 c) as Hn. destruct (nodes s !! c); [|done].
      destruct Hn as (? & ? & _). congruence.
    + exists dc, e. split_and!; auto.
  - eapply Forall2_left; [exact Hcs|].
    intros c x (_ & dc & e & Hdc & _ & _ & _ & _ & _ & _ & Hpb).
    eexists. split.
    + unfold getParentBar. mstep. rewrite Hpb. unfold createElement. do 3 mstep. reflexivity.
    + apply ids_fresh_elem; [done|]. pose proof (collapses_nextElem _ _ Hc1).
      pose proof (grows_nextElem _ _ Hg). lia.
Qed.

(** The tree of [Examples.drawn] after the data source changed its mind:
    for backing node 0, [getChildren()] now answers a new array with the
    single child 3; the array that the root holds is as it was. *)
Definition changedSource : State :=
  with_backing (<[0%nat := Examples.innerData [3%nat]]> (backing Examples.drawn))
               Examples.drawn.

Definition exampleRank (b : nat) : nat :=
  match b with
  | 0%nat => 2%nat
  | 2%nat => 1%nat
  | _ => 0%nat
  end.

Ltac by_compute :=
  match goal with
  | |- ?P => apply (bool_decide_eq_true_1 P); vm_compute; reflexivity
  end.

Lemma collapse_then_expand_witness :
  exists s1 s2 cs,
    collapse 5 0 false changedSource = Some (tt, s1) /\
    expand 5 0 false s1 = Some (tt, s2) /\
    Forall2 (fresh_child changedSource s2 0) cs [1%nat; 2%nat].
Proof.
  assert (tree_wf changedSource) as H1
    by by_compute.
  assert (dom_wf changedSource) as H2
    by by_compute.
  assert (refs_ok changedSource) as H3
    by by_compute.
  assert (backing_ranked exampleRank changedSource) as H4
    by by_compute.
  assert (Forall (fun x => is_Some (backing changedSource !! x) /\
                           (2 * exampleRank x + 3 <= 5)%nat) [1%nat; 2%nat]) as H5
    by by_compute.
  assert (1 <= 5)%nat as H6 by lia.
  assert (nextNode changedSource <= 5 + 0)%nat as H7 by by_compute.
  destruct (collapse_then_expand exampleRank changedSource 0 _ false false 5
              H1 H2 H3 H4 eq_refl H5 H6 H7)
    as (s1 & s2 & cs & d2 & Hrun1 & Hrun2 & _ & _ & _ & _ & Hcs & _).
  exists s1, s2, cs. split; [exact Hrun1|]. split; [exact Hrun2|exact Hcs].
Defined.

(** * Drawing (claims C7 and C10) *)

Inductive Role := RRepresentation | RChildBar | RHorizontalBar | RParentBar.

Definition roles : list Role := [RRepresentation; RChildBar; RHorizontalBar; RParentBar].

#[export] Instance Role_eq_dec : EqDecision Role.
Proof. solve_decision. Defined.

Definition handle (d : DrawingTreeNode) (r : Role) : option nat :=
  match r with
  | RRepresentation => representation d
  | RChildBar => childBar d
  | RHorizontalBar => horizontalBar d
  | RParentBar => parentBar d
  end.

(** No element is the handle of two nodes or of one node in two roles, no
    handle is the container, and handles and the container have been
    allocated. *)
Definition owner_ok (s : State) (container : nat) (n1 : nat) (d1 : DrawingTreeNode) : Prop :=
  Forall (fun r1 =>
    from_option (fun e =>
      e <> container /\ (e < nextElem s)%nat /\
      map_Forall (fun n2 d2 =>
        Forall (fun r2 => handle d2 r2 = Some e -> n1 = n2 /\ r1 = r2) roles) (nodes s))
      True (handle d1 r1)) roles.

Definition handles_ok (s : State) (container : nat) : Prop :=
  (container < nextElem s)%nat /\ map_Forall (owner_ok s container) (nodes s).

#[export] Instance owner_ok_dec s c n d : Decision (owner_ok s c n d).
Proof.
  unfold owner_ok. apply Forall_dec. intros r. destruct (handle d r); simpl; apply _.
Defined.

#[export] Instance handles_ok_dec s c : Decision (handles_ok s c).
Proof. unfold handles_ok. apply _. Defined.

Lemma elem_of_roles r : r ∈ roles.
Proof. destruct r; unfold roles; set_solver. Qed.

Lemma handles_ok_inv s c n d r e :
  handles_ok s c -> nodes s !! n = Some d -> handle d r = Some e ->
  e <> c /\ (e < nextElem s)%nat /\
  forall n' d' r', nodes s !! n' = Some d' -> handle d' r' = Some e -> n = n' /\ r = r'.
Proof.
  intros [_ H] Hn Hr. specialize (H _ _ Hn). unfold owner_ok in H.
  rewrite Forall_forall in H. specialize (H r (elem_of_roles r)). rewrite Hr in H.
  simpl in H. destruct H as (? & ? & H). split_and!; try done.
  intros n' d' r' Hn' Hr'. specialize (H _ _ Hn'). simpl in H.
  rewrite Forall_forall in H. by apply (H r' (elem_of_roles r')).
Qed.

Lemma handles_ok_intro s c :
  (c < nextElem s)%nat ->
  (forall n d r e, nodes s !! n = Some d -> handle d r = Some e ->
     e <> c /\ (e < nextElem s)%nat /\
     forall n' d' r', nodes s !! n' = Some d' -> handle d' r' = Some e -> n = n' /\ r = r') ->
  handles_ok s c.
Proof.
  intros Hc H. split; [done|]. intros n d Hn. unfold owner_ok.
  apply Forall_forall. intros r _. destruct (handle d r) as [e|] eqn:Hr; [|done]. simpl.
  destruct (H _ _ _ _ Hn Hr) as (? & ? & Hinj). split_and!; try done.
  intros n' d' Hn'. simpl. apply Forall_forall. intros r' _ Hr'. eauto.
Qed.

(** [below s a d]: node [d] is [a] or reaches [a] through parent links. *)
Inductive below (s : State) (a : nat) : nat -> Prop :=
  | below_refl : below s a a
  | below_step d x p :
      nodes s !! d = Some x -> parent x = Some p -> below s a p -> below s a d.

Lemma below_le s a d : tree_wf s -> below s a d -> (a <= d)%nat.
Proof.
  intros Hwf. induction 1 as [|d x p Hd Hp _ IH]; [done|].
  destruct (Hwf _ _ Hd) as (_ & Hpar & _). rewrite Hp in Hpar. simpl in Hpar. lia.
Qed.

Lemma below_trans s a b d : below s a b -> below s b d -> below s a d.
Proof. intros Hab. induction 1; [done|]. by eapply below_step. Qed.

Lemma below_linear s a b d : below s a d -> below s b d -> below s a b \/ below s b a.
Proof.
  induction 1 as [|d x p Hd Hp Ha IH]; intros Hb; [by right|].
  inversion Hb as [|d' x' p' Hd' Hp' Hb']; subst.
  - left. by eapply below_step.
  - rewrite Hd in Hd'. injection Hd' as <-. rewrite Hp in Hp'. injection Hp' as <-. auto.
Qed.

Lemma below_child s n d c :
  tree_wf s -> nodes s !! n = Some d -> c ∈ children d -> below s n c.
Proof.
  intros Hwf Hn Hc. destruct (tree_wf_child _ _ _ _ Hwf Hn Hc) as [_ (dc & Hdc & Hp)].
  eapply below_step; [done|done|constructor].
Qed.

Lemma siblings_disjoint s n d c1 c2 m :
  tree_wf s -> nodes s !! n = Some d -> c1 ∈ children d -> c2 ∈ children d ->
  c1 <> c2 -> below s c1 m -> below s c2 m -> False.
Proof.
  intros Hwf Hn H1 H2 Hne Hb1 Hb2.
  destruct (tree_wf_child _ _ _ _ Hwf Hn H1) as [Hlt1 (d1 & Hd1 & Hp1)].
  destruct (tree_wf_child _ _ _ _ Hwf Hn H2) as [Hlt2 (d2 & Hd2 & Hp2)].
  destruct (below_linear _ _ _ _ Hb1 Hb2) as [H|H].
  - inversion H as [|? x p Hx Hp Hb]; subst; [done|].
    rewrite Hd2 in Hx. injection Hx as <-. rewrite Hp2 in Hp. injection Hp as <-.
    pose proof (below_le _ _ _ Hwf Hb). lia.
  - inversion H as [|? x p Hx Hp Hb]; subst; [done|].
    rewrite Hd1 in Hx. injection Hx as <-. rewrite Hp1 in Hp. injection Hp as <-.
    pose proof (below_le _ _ _ Hwf Hb). lia.
Qed.

(** The part of a node that [draw] and [getRequiredWidth] never change. *)
Definition skeleton (d : DrawingTreeNode) :=
  (innerNode d, nodeChildren d, parent d, children d, representation d, isExpanded d).

(** The part of an element that [draw] sets. *)
Definition visual (x : Element) :=
  (className x, styleLeft x, styleTop x, styleWidth x, parentNode x).

(** What a drawing step may change: it may write to the viewport objects
    [V] and to the handles [(m, r)] in [T] (the element that node [m] holds
    in role [r]), and only a node with a handle in [T] may change, in its
    cached width if it was dirty, in connectors it did not have yet, and in
    the recorded container and viewport. *)
Record draws (T : nat -> Role -> Prop) (V : nat -> Prop) (s s' : State) : Prop := {
  draws_nextNode : nextNode s' = nextNode s;
  draws_nextElem : (nextElem s <= nextElem s')%nat;
  draws_nextViewport : (nextViewport s <= nextViewport s')%nat;
  draws_nodes : forall m,
    match nodes s !! m with
    | Some d => exists d', nodes s' !! m = Some d' /\ skeleton d' = skeleton d /\
        (forall r e, handle d r = Some e -> handle d' r = Some e) /\
        (forall r e, handle d' r = Some e ->
           handle d r = Some e \/ (nextElem s <= e < nextElem s')%nat) /\
        (requiredWidth d <> -1 -> requiredWidth d' = requiredWidth d) /\
        ((forall r, ~ T m r) -> d' = d)
    | None => nodes s' !! m = None
    end;
  draws_elems : forall e, (e < nextElem s)%nat ->
    (forall m d r, T m r -> nodes s !! m = Some d -> handle d r <> Some e) ->
    visual <$> elems s' !! e = visual <$> elems s !! e;
  draws_viewports : forall v, (v < nextViewport s)%nat -> ~ V v ->
    viewports s' !! v = viewports s !! v
}.

Lemma draws_lookup T V s s' m d :
  draws T V s s' -> nodes s !! m = Some d ->
  exists d', nodes s' !! m = Some d' /\ skeleton d' = skeleton d /\
    (forall r e, handle d r = Some e -> handle d' r = Some e) /\
    (forall r e, handle d' r = Some e ->
       handle d r = Some e \/ (nextElem s <= e < nextElem s')%nat) /\
    (requiredWidth d <> -1 -> requiredWidth d' = requiredWidth d) /\
    ((forall r, ~ T m r) -> d' = d).
Proof. intros H Hm. pose proof (draws_nodes _ _ _ _ H m) as Hm'. by rewrite Hm in Hm'. Qed.

Lemma draws_lookup_inv T V s s' m d' :
  draws T V s s' -> nodes s' !! m = Some d' ->
  exists d, nodes s !! m = Some d /\ skeleton d' = skeleton d /\
    (forall r e, handle d r = Some e -> handle d' r = Some e) /\
    (forall r e, handle d' r = Some e ->
       handle d r = Some e \/ (nextElem s <= e < nextElem s')%nat) /\
    (requiredWidth d <> -1 -> requiredWidth d' = requiredWidth d) /\
    ((forall r, ~ T m r) -> d' = d).
Proof.
  intros H Hm. pose proof (draws_nodes _ _ _ _ H m) as Hm'.
  destruct (nodes s !! m) as [d|]; [|congruence].
  destruct Hm' as (d2 & Hd2 & Hrest). rewrite Hm in Hd2. injection Hd2 as <-. eauto.
Qed.

Lemma draws_refl T V s : draws T V s s.
Proof.
  split; try done. intros m. destruct (nodes s !! m) as [d|]; [|done].
  exists d. split_and!; auto.
Qed.

Lemma draws_mono (T T' : nat -> Role -> Prop) (V V' : nat -> Prop) s s' :
  (forall m r, T m r -> T' m r) -> (forall v, V v -> V' v) ->
  draws T V s s' -> draws T' V' s s'.
Proof.
  intros HT HV H. split; try apply H.
  - intros m. pose proof (draws_nodes _ _ _ _ H m) as Hm.
    destruct (nodes s !! m) as [d|]; [|done].
    destruct Hm as (d' & ? & ? & ? & ? & ? & Hsame). exists d'. split_and!; auto.
    intros Hno. apply Hsame. intros r Hr. by apply (Hno r), HT.
  - intros e He Hno. apply (draws_elems _ _ _ _ H); [done|]. intros m d r Hm. apply Hno. auto.
  - intros v Hv Hno. apply (draws_viewports _ _ _ _ H); [done|]. intros ?. apply Hno. auto.
Qed.

Lemma draws_trans T V s1 s2 s3 : draws T V s1 s2 -> draws T V s2 s3 -> draws T V s1 s3.
Proof.
  intros H12 H23. split.
  - rewrite (draws_nextNode _ _ _ _ H23). apply (draws_nextNode _ _ _ _ H12).
  - pose proof (draws_nextElem _ _ _ _ H12). pose proof (draws_nextElem _ _ _ _ H23). lia.
  - pose proof (draws_nextViewport _ _ _ _ H12).
    pose proof (draws_nextViewport _ _ _ _ H23). lia.
  - intros m. pose proof (draws_nodes _ _ _ _ H12 m) as Hm1.
    destruct (nodes s1 !! m) as [d|] eqn:E.
    + destruct Hm1 as (d2 & Hd2 & Hsk2 & Hmono2 & Hnew2 & Hrw2 & Hsame2).
      destruct (draws_lookup _ _ _ _ _ _ H23 Hd2)
        as (d3 & Hd3 & Hsk3 & Hmono3 & Hnew3 & Hrw3 & Hsame3).
      pose proof (draws_nextElem _ _ _ _ H12). pose proof (draws_nextElem _ _ _ _ H23).
      exists d3. split_and!; [done|congruence|auto| | |].
      * intros r e He. destruct (Hnew3 _ _ He) as [He2|?]; [|right; lia].
        destruct (Hnew2 _ _ He2) as [?|?]; [by left|right; lia].
      * intros Hcl. rewrite Hrw3; [auto|]. rewrite Hrw2; done.
      * intros Hno. rewrite (Hsame3 Hno). auto.
    + pose proof (draws_nodes _ _ _ _ H23 m) as Hm2. by rewrite Hm1 in Hm2.
  - intros e He Hno. pose proof (draws_nextElem _ _ _ _ H12).
    rewrite (draws_elems _ _ _ _ H23); [by apply (draws_elems _ _ _ _ H12)|lia|].
    intros m d2 r HN Hd2 Hr.
    destruct (draws_lookup_inv _ _ _ _ _ _ H12 Hd2) as (d & Hd & _ & _ & Hnew & _).
    destruct (Hnew _ _ Hr) as [Hr1|?]; [|lia]. by eapply Hno.
  - intros v Hv Hno. pose proof (draws_nextViewport _ _ _ _ H12).
    rewrite (draws_viewports _ _ _ _ H23) by (done || lia).
    by apply (draws_viewports _ _ _ _ H12).
Qed.

Lemma draws_below T V s s' a d : draws T V s s' -> below s a d <-> below s' a d.
Proof.
  intros H. split.
  - induction 1 as [|d x p Hd Hp _ IH]; [constructor|].
    destruct (draws_lookup _ _ _ _ _ _ H Hd) as (x' & Hx' & Hsk & _).
    eapply below_step; [exact Hx'| |exact IH]. unfold skeleton in Hsk. congruence.
  - induction 1 as [|d x p Hd Hp _ IH]; [constructor|].
    destruct (draws_lookup_inv _ _ _ _ _ _ H Hd) as (x' & Hx' & Hsk & _).
    eapply below_step; [exact Hx'| |exact IH]. unfold skeleton in Hsk. congruence.
Qed.

Lemma tree_wf_draws T V s s' : draws T V s s' -> tree_wf s -> tree_wf s'.
Proof.
  intros Hc Hwf n d' Hn.
  destruct (draws_lookup_inv _ _ _ _ _ _ Hc Hn) as (d & Hd & Hsk & _).
  destruct (Hwf _ _ Hd) as (H1 & H2 & H3 & H4).
  assert (parent d' = parent d /\ children d' = children d) as [Hp Hch]
    by (unfold skeleton in Hsk; split; congruence).
  split; [rewrite (draws_nextNode _ _ _ _ Hc); done|]. rewrite Hp, Hch. split; [|split; [|done]].
  - destruct (parent d) as [p|]; [|done]. simpl in *.
    destruct H2 as [? [dp Hdp]]. split; [done|].
    destruct (draws_lookup _ _ _ _ _ _ Hc Hdp) as (? & -> & _). eauto.
  - eapply Forall_impl; [exact H3|]. intros c Hcp. simpl in Hcp.
    destruct (nodes s !! c) as [dc|] eqn:E; [|done].
    destruct (draws_lookup _ _ _ _ _ _ Hc E) as (dc' & -> & Hsk' & _). simpl in *.
    unfold skeleton in Hsk'. congruence.
Qed.

Definition draw_inv (s : State) (container : nat) : Prop :=
  tree_wf s /\ handles_ok s container.

Lemma draw_inv_same_handles T V s s' c :
  draws T V s s' ->
  (forall m d d', nodes s !! m = Some d -> nodes s' !! m = Some d' ->
                  forall r, handle d' r = handle d r) ->
  draw_inv s c -> draw_inv s' c.
Proof.
  intros Hd Hsame [Htree Hok]. split; [by eapply tree_wf_draws|].
  pose proof (draws_nextElem _ _ _ _ Hd) as HE. destruct Hok as [Hc Hok'].
  apply handles_ok_intro; [lia|]. intros n d' r e Hn Hr.
  destruct (draws_lookup_inv _ _ _ _ _ _ Hd Hn) as (d & Hdn & _).
  rewrite (Hsame _ _ _ Hdn Hn) in Hr.
  destruct (handles_ok_inv s c n d r e (conj Hc Hok') Hdn Hr) as (? & ? & Hinj).
  split_and!; [done|lia|]. intros n2 d2' r2 Hn2 Hr2.
  destruct (draws_lookup_inv _ _ _ _ _ _ Hd Hn2) as (d2 & Hdn2 & _).
  rewrite (Hsame _ _ _ Hdn2 Hn2) in Hr2. eauto.
Qed.

Definition is_handle_of (T : nat -> Role -> Prop) (s : State) (e : nat) : Prop :=
  exists m d r, T m r /\ nodes s !! m = Some d /\ handle d r = Some e.

Lemma draws_modifyNode T V s n d f :
  nodes s !! n = Some d -> skeleton (f d) = skeleton d ->
  (forall r, handle (f d) r = handle d r) ->
  (requiredWidth d <> -1 -> requiredWidth (f d) = requiredWidth d) ->
  (exists r, T n r) \/ f d = d ->
  draws T V s (with_nodes (<[n := f d]> (nodes s)) s).
Proof.
  intros Hn Hsk Hh Hrw HT. split; simpl; try done.
  intros m. destruct (decide (n = m)) as [<-|Hne].
  - rewrite Hn, lookup_insert_eq. exists (f d). split_and!; try done.
    + intros r e. by rewrite Hh.
    + intros r e. rewrite Hh. auto.
    + intros Hno. destruct HT as [[r Hr]|?]; [|done]. by destruct (Hno r).
  - rewrite lookup_insert_ne by done. destruct (nodes s !! m) as [dm|]; [|done].
    exists dm. split_and!; auto.
Qed.

Lemma draws_modifyElem T V s e x f :
  elems s !! e = Some x -> visual (f x) = visual x \/ is_handle_of T s e ->
  draws T V s (with_elems (<[e := f x]> (elems s)) s).
Proof.
  intros He Hcase. split; simpl; try done.
  - intros m. destruct (nodes s !! m) as [dm|]; [|done]. exists dm. split_and!; auto.
  - intros e' _ Hno. destruct (decide (e = e')) as [<-|Hne].
    + rewrite lookup_insert_eq, He. simpl. destruct Hcase as [->|(m & d & r & HN & Hm & Hr)];
        [done|]. by destruct (Hno m d r).
    + by rewrite lookup_insert_ne.
Qed.

Lemma draws_newViewport T V s xy :
  draws T V s
    {| nodes := nodes s; elems := elems s; backing := backing s;
       viewports := <[nextViewport s := xy]> (viewports s); tasks := tasks s;
       nextNode := nextNode s; nextElem := nextElem s;
       nextViewport := S (nextViewport s) |}.
Proof.
  split; simpl; try done; try lia.
  - intros m. destruct (nodes s !! m) as [dm|]; [|done]. exists dm. split_and!; auto.
  - intros v Hv _. rewrite lookup_insert_ne by lia. done.
Qed.

Lemma draws_setViewport T (V : nat -> Prop) s v xy :
  V v -> draws T V s (with_viewports (<[v := xy]> (viewports s)) s).
Proof.
  intros HV. split; simpl; try done.
  - intros m. destruct (nodes s !! m) as [dm|]; [|done]. exists dm. split_and!; auto.
  - intros v' _ Hno. rewrite lookup_insert_ne; [done|]. intros ->. done.
Qed.

(** Steps that change elements only. *)
Definition elems_only (s s' : State) : Prop :=
  nodes s' = nodes s /\ backing s' = backing s /\ viewports s' = viewports s /\
  tasks s' = tasks s /\ nextNode s' = nextNode s /\ nextElem s' = nextElem s /\
  nextViewport s' = nextViewport s.

Lemma elems_only_refl s : elems_only s s.
Proof. by repeat split. Qed.

Lemma elems_only_trans s1 s2 s3 : elems_only s1 s2 -> elems_only s2 s3 -> elems_only s1 s3.
Proof. unfold elems_only. intuition congruence. Qed.

Lemma is_handle_of_elems_only N s s' e :
  elems_only s s' -> is_handle_of N s e -> is_handle_of N s' e.
Proof. intros (Hn & _) (m & d & r & ? & ? & ?). exists m, d, r. by rewrite Hn. Qed.

Definition look (x : Element) := (className x, styleLeft x, styleTop x, styleWidth x).

(** The effect of a DOM step on the element [e] it is about: every other
    element keeps what [draw] looks at; [e] keeps its class and styles. *)
Definition moves (T : nat -> Role -> Prop) (V : nat -> Prop) (e : nat) (s s' : State) : Prop :=
  draws T V s s' /\ elems_only s s' /\
  exists x x', elems s !! e = Some x /\ elems s' !! e = Some x' /\ look x' = look x.

Lemma moves_trans N V e s1 s2 s3 : moves N V e s1 s2 -> moves N V e s2 s3 -> moves N V e s1 s3.
Proof.
  intros (Hd1 & Ho1 & x1 & x2 & Hx1 & Hx2 & Hl1) (Hd2 & Ho2 & x2' & x3 & Hx2' & Hx3 & Hl2).
  split_and!; [by eapply draws_trans|by eapply elems_only_trans|].
  exists x1, x3. split_and!; try done. rewrite Hx2 in Hx2'. injection Hx2' as <-. congruence.
Qed.

Lemma moves_refl N V e s x : elems s !! e = Some x -> moves N V e s s.
Proof. intros Hx. split_and!; [apply draws_refl|apply elems_only_refl|]. eauto. Qed.

Lemma modifyElem_moves N V e k f s s' :
  modifyElem k f s = Some (tt, s') -> is_Some (elems s !! e) ->
  (forall x, look (f x) = look x) ->
  (forall x, parentNode (f x) = parentNode x) \/ (k = e /\ is_handle_of N s e) ->
  moves N V e s s'.
Proof.
  intros (y & Hy & ->)%modifyElem_inv [x Hx] Hlook Hcase. split_and!.
  - apply draws_modifyElem; [done|]. destruct Hcase as [Hp|[-> ?]]; [left|by right].
    unfold visual. specialize (Hlook y). unfold look in Hlook. rewrite Hp. congruence.
  - done.
  - simpl. destruct (decide (k = e)) as [->|Hne].
    + rewrite lookup_insert_eq. rewrite Hy in Hx. injection Hx as <-. eauto.
    + rewrite lookup_insert_ne by done. eauto.
Qed.

Lemma removeChild_moves N V q e s s' :
  removeChild q e s = Some (tt, s') -> is_handle_of N s e -> moves N V e s s'.
Proof.
  intros Hrun Hh. unfold removeChild in Hrun.
  apply bind_inv in Hrun as (x & s0 & [-> Hx]%getElem_inv & Hrun).
  destruct (parentNode x) as [q'|]; [|done]. destruct (Nat.eqb q' q); [|done].
  apply bind_inv in Hrun as ([] & s1 & Hrun1 & Hrun2).
  assert (moves N V e s s1) as H1.
  { eapply modifyElem_moves; [exact Hrun1|eauto|done|]. left. done. }
  eapply moves_trans; [exact H1|].
  destruct H1 as (_ & Ho & _ & x1 & _ & Hx1 & _).
  eapply modifyElem_moves; [exact Hrun2|eauto|done|]. right. split; [done|].
  by eapply is_handle_of_elems_only.
Qed.

Lemma appendChild_moves N V c e s s' :
  appendChild c e s = Some (tt, s') -> e <> c -> is_handle_of N s e ->
  moves N V e s s' /\ exists x', elems s' !! e = Some x' /\ parentNode x' = Some c.
Proof.
  intros Hrun Hne Hh. unfold appendChild in Hrun.
  apply bind_inv in Hrun as (x & s0 & [-> Hx]%getElem_inv & Hrun).
  apply bind_inv in Hrun as ([] & s1 & Hrun1 & Hrun).
  assert (moves N V e s s1) as H1.
  { destruct (parentNode x) as [q|].
    - by eapply removeChild_moves.
    - injection Hrun1 as <-. by eapply moves_refl. }
  apply bind_inv in Hrun as ([] & s2 & Hrun2 & Hrun3).
  assert (moves N V e s1 s2) as H2.
  { destruct H1 as (_ & _ & _ & x1 & _ & Hx1 & _).
    eapply modifyElem_moves; [exact Hrun2|eauto|done|]. by left. }
  assert (moves N V e s2 s') as H3.
  { destruct H2 as (_ & Ho2 & _ & x2 & _ & Hx2 & _). destruct H1 as (_ & Ho1 & _).
    eapply modifyElem_moves; [exact Hrun3|eauto|done|]. right. split; [done|].
    eapply is_handle_of_elems_only; [|exact Hh]. by eapply elems_only_trans. }
  split; [eapply moves_trans; [exact H1|]; by eapply moves_trans|].
  apply modifyElem_inv in Hrun3 as (x2 & Hx2 & ->). simpl. rewrite lookup_insert_eq. eauto.
Qed.

(** [attach] puts [e] under the container and changes nothing else that
    [draw] looks at. *)
Lemma attach_moves N V c e s s' :
  attach c e s = Some (tt, s') -> e <> c -> is_handle_of N s e ->
  moves N V e s s' /\ exists x', elems s' !! e = Some x' /\ parentNode x' = Some c.
Proof.
  intros Hrun Hne Hh. unfold attach in Hrun.
  apply bind_inv in Hrun as (x & s0 & [-> Hx]%getElem_inv & Hrun).
  destruct (parentNode x) as [q|] eqn:Hq.
  - destruct (Nat.eqb_spec q c) as [->|Hqc].
    + injection Hrun as <-. split; [by eapply moves_refl|eauto].
    + by eapply appendChild_moves.
  - by eapply appendChild_moves.
Qed.

(** Already attached: nothing happens. *)
Lemma attach_attached c e s x :
  elems s !! e = Some x -> parentNode x = Some c -> attach c e s = Some (tt, s).
Proof.
  intros Hx Hp. unfold attach. rewrite (bind_eq _ _ _ _ _ (getElem_eq _ _ _ Hx)).
  by rewrite Hp, Nat.eqb_refl.
Qed.

Lemma draws_of_widths (T : nat -> Role -> Prop) (V : nat -> Prop) s s' :
  same_except_width s s' ->
  (forall k, (forall r, ~ T k r) -> nodes s' !! k = nodes s !! k) ->
  (forall m dm, nodes s !! m = Some dm -> requiredWidth dm <> -1 ->
                nodes s' !! m = Some dm) ->
  draws T V s s'.
Proof.
  intros Hs Hframe Hclean. pose proof Hs as (He & Hb & Hv & Ht & HN & HE & HV & Hn).
  split; try (rewrite ?HN, ?HE, ?HV; done).
  - intros m. specialize (Hn m). destruct (nodes s !! m) as [d|] eqn:E; [|done].
    destruct Hn as [w Hw]. exists (set_requiredWidth w d). split_and!; auto.
    + intros Hcl. specialize (Hclean _ _ E Hcl). rewrite Hw in Hclean. congruence.
    + intros Hno. specialize (Hframe _ Hno). rewrite Hw, E in Hframe. congruence.
  - intros e _ _. by rewrite He.
  - intros v _ _. by rewrite Hv.
Qed.

Lemma handles_same_except_width s s' m d d' :
  same_except_width s s' -> nodes s !! m = Some d -> nodes s' !! m = Some d' ->
  forall r, handle d' r = handle d r.
Proof.
  intros Hs Hd Hd' r. destruct (same_except_width_lookup _ _ _ _ Hs Hd) as [w Hw].
  rewrite Hw in Hd'. injection Hd' as <-. by destruct r.
Qed.

Lemma below_same_except_width s s' a b :
  same_except_width s s' -> below s a b <-> below s' a b.
Proof.
  intros Hs. split.
  - induction 1 as [|d x p Hd Hp _ IH]; [constructor|].
    destruct (same_except_width_lookup _ _ _ _ Hs Hd) as [w Hw].
    eapply below_step; [exact Hw|done|exact IH].
  - induction 1 as [|d x p Hd Hp _ IH]; [constructor|].
    destruct (same_except_width_lookup_inv _ _ _ _ Hs Hd) as (x' & Hx' & Hx).
    eapply below_step; [exact Hx'| |exact IH]. rewrite Hx in Hp. done.
Qed.

(** A clean cache entry is never written. *)
Lemma getRequiredWidth_keeps_clean f :
  forall s n w s', getRequiredWidth f n s = Some (w, s') ->
    forall m dm, nodes s !! m = Some dm -> requiredWidth dm <> -1 ->
                 nodes s' !! m = Some dm.
Proof.
  induction f as [|f IH]; intros s n w s' Hrun m dm Hm Hcl; [done|].
  rewrite getRequiredWidth_unfold in Hrun.
  apply bind_inv in Hrun as (d & s0 & [-> Hd]%getNode_inv & Hrun).
  apply bind_inv in Hrun as ([] & s4 & Hwhen & Hrun).
  apply bind_inv in Hrun as (d4 & s5 & [-> Hd4]%getNode_inv & [= <- <-]).
  destruct (Z.eqb_spec (requiredWidth d) (-1)) as [Hdirty|Hclean]; simpl in Hwhen; cycle 1.
  { by injection Hwhen as <-. }
  assert (m <> n) as Hne by (intros ->; congruence).
  assert (forall sa sb v, nodes sa !! m = Some dm ->
            modifyNode n (set_requiredWidth v) sa = Some (tt, sb) ->
            nodes sb !! m = Some dm) as Hset.
  { intros sa sb v Hsa (da & Hda & ->)%modifyNode_inv. simpl. by rewrite lookup_insert_ne. }
  apply bind_inv in Hwhen as ([] & s1 & Hmod1 & Hwhen).
  pose proof (Hset _ _ _ Hm Hmod1) as Hm1.
  apply bind_inv in Hwhen as ([] & s2 & Hloop & Hwhen).
  assert (nodes s2 !! m = Some dm) as Hm2.
  { clear -Hloop Hm1 IH Hcl Hne Hset. revert s1 Hloop Hm1.
    induction (children d) as [|c cs IHcs]; intros s1 Hloop Hm1; simpl in Hloop.
    - by injection Hloop as <-.
    - apply bind_inv in Hloop as ([] & s3 & Hbody & Hloop). unfold width_body in Hbody.
      apply bind_inv in Hbody as (d' & s0 & [-> Hd']%getNode_inv & Hbody).
      apply bind_inv in Hbody as (w & s1' & Hw & Hbody).
      eapply IHcs; [exact Hloop|]. eapply Hset; [|exact Hbody]. by eapply IH. }
  apply bind_inv in Hwhen as (d2 & s2' & [-> Hd2]%getNode_inv & Hwhen).
  apply bind_inv in Hwhen as ([] & s3 & Hmargin & Hwhen).
  assert (nodes s3 !! m = Some dm) as Hm3.
  { destruct (0 <? Z.of_nat (length (children d2))); simpl in Hmargin.
    - by eapply Hset.
    - by injection Hmargin as <-. }
  apply bind_inv in Hwhen as (d3 & s3' & [-> Hd3]%getNode_inv & Hfloor).
  destruct (requiredWidth d3 <? NODE_WIDTH); simpl in Hfloor.
  - by eapply Hset.
  - by injection Hfloor as <-.
Qed.

Section WidthFrame.
Context (f : nat) (this : nat).
Context (IH : forall s n w s', getRequiredWidth f n s = Some (w, s') -> tree_wf s ->
                same_except_width s s' /\
                (forall k, ~ below s n k -> nodes s' !! k = nodes s !! k)).

Lemma width_loop_frame cs s s' :
  forM_ (width_body f this) cs s = Some (tt, s') -> tree_wf s ->
  (forall c, c ∈ cs -> below s this c) ->
  same_except_width s s' /\
  (forall k, ~ below s this k -> nodes s' !! k = nodes s !! k).
Proof.
  revert s. induction cs as [|c cs IHcs]; intros s Hrun Hwf Hcs; simpl in Hrun.
  - injection Hrun as <-. split; [apply same_except_width_refl|done].
  - apply bind_inv in Hrun as ([] & s3 & Hbody & Hrun). unfold width_body in Hbody.
    apply bind_inv in Hbody as (d & s0 & [-> Hd]%getNode_inv & Hbody).
    apply bind_inv in Hbody as (w & s1 & Hw & Hbody).
    apply modifyNode_inv in Hbody as (d1 & Hd1 & ->).
    destruct (IH _ _ _ _ Hw Hwf) as [Hs1 Hf1].
    set (s2 := with_nodes _ s1) in *.
    assert (same_except_width s s2) as Hs2.
    { eapply same_except_width_trans; [exact Hs1|]. by apply same_except_width_set. }
    assert (forall a b, below s a b <-> below s2 a b) as Hbelow
      by (intros a b; by apply below_same_except_width).
    destruct (IHcs s2 Hrun) as [Hs3 Hf3].
    + by eapply tree_wf_same_except_width.
    + intros c' Hc'. apply Hbelow. apply Hcs. by right.
    + split; [by eapply same_except_width_trans|].
      intros k Hk. rewrite Hf3 by (by rewrite <- Hbelow).
      unfold s2. simpl. rewrite lookup_insert_ne by (intros <-; apply Hk; constructor).
      apply Hf1. intros Hck. apply Hk. eapply below_trans; [|exact Hck]. apply Hcs. by left.
Qed.
End WidthFrame.

Lemma getRequiredWidth_frame f :
  forall s n w s', getRequiredWidth f n s = Some (w, s') -> tree_wf s ->
    same_except_width s s' /\
    (forall k, ~ below s n k -> nodes s' !! k = nodes s !! k).
Proof.
  induction f as [|f IH]; intros s n w s' Hrun Hwf; [done|].
  rewrite getRequiredWidth_unfold in Hrun.
  apply bind_inv in Hrun as (d & s0 & [-> Hd]%getNode_inv & Hrun).
  apply bind_inv in Hrun as ([] & s4 & Hwhen & Hrun).
  apply bind_inv in Hrun as (d4 & s5 & [-> Hd4]%getNode_inv & [= <- <-]).
  destruct (requiredWidth d =? -1); simpl in Hwhen; cycle 1.
  { injection Hwhen as <-. split; [apply same_except_width_refl|done]. }
  apply bind_inv in Hwhen as ([] & s1 & (d0 & Hd0 & ->)%modifyNode_inv & Hwhen).
  rewrite Hd in Hd0. injection Hd0 as <-.
  set (s1 := with_nodes _ s) in *.
  assert (same_except_width s s1) as Hs1 by by apply same_except_width_set.
  assert (forall a b, below s a b <-> below s1 a b) as Hbelow
    by (intros a b; by apply below_same_except_width).
  apply bind_inv in Hwhen as ([] & s2 & Hloop & Hwhen).
  destruct (width_loop_frame f n IH _ _ _ Hloop) as [Hs2 Hf2].
  { by eapply tree_wf_same_except_width. }
  { intros c Hc. apply Hbelow. by eapply below_child. }
  assert (forall sa sb v, (exists da, nodes sa !! n = Some da) ->
            same_except_width s sa ->
            (forall k, ~ below s n k -> nodes sa !! k = nodes s !! k) ->
            modifyNode n (set_requiredWidth v) sa = Some (tt, sb) ->
            same_except_width s sb /\
            (forall k, ~ below s n k -> nodes sb !! k = nodes s !! k)) as Hset.
  { intros sa sb v [da Hda] Hsa Hfa (da' & Hda' & ->)%modifyNode_inv.
    rewrite Hda in Hda'. injection Hda' as <-. split.
    - eapply same_except_width_trans; [exact Hsa|]. by apply same_except_width_set.
    - intros k Hk. simpl. rewrite lookup_insert_ne by (intros <-; apply Hk; constructor).
      by apply Hfa. }
  assert (same_except_width s s2 /\
          (forall k, ~ below s n k -> nodes s2 !! k = nodes s !! k)) as [Hs2' Hf2'].
  { split; [by eapply same_except_width_trans|].
    intros k Hk. rewrite Hf2 by (by rewrite <- Hbelow). simpl.
    rewrite lookup_insert_ne; [done|]. intros <-. apply Hk. constructor. }
  apply bind_inv in Hwhen as (d2 & s2' & [-> Hd2]%getNode_inv & Hwhen).
  apply bind_inv in Hwhen as ([] & s3 & Hmargin & Hwhen).
  assert (same_except_width s s3 /\
          (forall k, ~ below s n k -> nodes s3 !! k = nodes s !! k)) as [Hs3 Hf3].
  { destruct (0 <? Z.of_nat (length (children d2))); simpl in Hmargin.
    - eapply Hset; [| | |exact Hmargin]; eauto.
    - by injection Hmargin as <-. }
  apply bind_inv in Hwhen as (d3 & s3' & [-> Hd3]%getNode_inv & Hfloor).
  destruct (requiredWidth d3 <? NODE_WIDTH); simpl in Hfloor.
  - eapply Hset; [| | |exact Hfloor]; eauto.
  - by injection Hfloor as <-.
Qed.

(** The value returned is the one left in the cache, and it is not the
    dirty sentinel. *)
Lemma getRequiredWidth_result f s n w s' :
  getRequiredWidth f n s = Some (w, s') ->
  exists d', nodes s' !! n = Some d' /\ requiredWidth d' = w /\ w <> -1.
Proof.
  destruct f as [|f]; [done|]. intros Hrun. rewrite getRequiredWidth_unfold in Hrun.
  apply bind_inv in Hrun as (d & s0 & [-> Hd]%getNode_inv & Hrun).
  apply bind_inv in Hrun as ([] & s4 & Hwhen & Hrun).
  apply bind_inv in Hrun as (d4 & s5 & [-> Hd4]%getNode_inv & [= <- <-]).
  exists d4. split; [done|]. split; [done|].
  destruct (Z.eqb_spec (requiredWidth d) (-1)) as [Hdirty|Hclean]; simpl in Hwhen; cycle 1.
  { injection Hwhen as <-. congruence. }
  apply bind_inv in Hwhen as ([] & s1 & _ & Hwhen).
  apply bind_inv in Hwhen as ([] & s2 & _ & Hwhen).
  apply bind_inv in Hwhen as (d2 & s2' & _ & Hwhen).
  apply bind_inv in Hwhen as ([] & s3 & _ & Hwhen).
  apply bind_inv in Hwhen as (d3 & s3' & [-> Hd3]%getNode_inv & Hfloor).
  destruct (Z.ltb_spec (requiredWidth d3) NODE_WIDTH); simpl in Hfloor.
  - apply modifyNode_inv in Hfloor as (d3' & Hd3' & ->). simpl in Hd4.
    rewrite lookup_insert_eq in Hd4. injection Hd4 as <-. done.
  - injection Hfloor as <-. rewrite Hd3 in Hd4. injection Hd4 as <-.
    unfold NODE_WIDTH in *. lia.
Qed.

(** [getRequiredWidth] as a drawing step on the subtree of [n]. *)
Lemma getRequiredWidth_draws (T : nat -> Role -> Prop) V c f s n w s' :
  getRequiredWidth f n s = Some (w, s') -> draw_inv s c ->
  (forall m, below s n m -> exists r, T m r) ->
  draw_inv s' c /\ draws T V s s' /\ same_except_width s s' /\
  exists d', nodes s' !! n = Some d' /\ requiredWidth d' = w /\ w <> -1.
Proof.
  intros Hrun Hinv HT. pose proof Hinv as [Htree Hok].
  destruct (getRequiredWidth_frame _ _ _ _ _ Hrun Htree) as [Hs Hframe].
  assert (draws T V s s') as Hd.
  { apply draws_of_widths; [done| |by eapply getRequiredWidth_keeps_clean].
    intros k Hk. apply Hframe. intros Hb. destruct (HT _ Hb) as [r Hr]. by apply (Hk r). }
  split_and!; [|done|done|by eapply getRequiredWidth_result].
  eapply draw_inv_same_handles; [exact Hd| |done].
  intros m d d' Hm Hm'. by eapply handles_same_except_width.
Qed.

Lemma handles_ok_new_bar s s' c n d d' r0 :
  handles_ok s c -> nodes s !! n = Some d -> handle d r0 = None ->
  handle d' r0 = Some (nextElem s) -> (forall r, r <> r0 -> handle d' r = handle d r) ->
  nodes s' = <[n := d']> (nodes s) -> nextElem s' = S (nextElem s) ->
  handles_ok s' c.
Proof.
  intros Hok Hn Hnone Hnew Hold Hnodes HE. pose proof Hok as [Hc _].
  assert (forall n1 d1 r1 e, nodes s' !! n1 = Some d1 -> handle d1 r1 = Some e ->
            (n1 = n /\ r1 = r0 /\ e = nextElem s) \/
            (exists d0, nodes s !! n1 = Some d0 /\ handle d0 r1 = Some e /\
                        (n1, r1) <> (n, r0))) as Hcases.
  { intros n1 d1 r1 e. rewrite Hnodes, lookup_insert. case_decide as Hn1.
    - subst n1. intros [= <-] Hr1. destruct (decide (r1 = r0)) as [->|Hr].
      + left. rewrite Hnew in Hr1. by injection Hr1 as <-.
      + right. exists d. rewrite Hold in Hr1 by done. split_and!; try done. congruence.
    - intros Hd1 Hr1. right. exists d1. split_and!; try done. congruence. }
  apply handles_ok_intro; [lia|]. intros n1 d1 r1 e Hn1 Hr1.
  destruct (Hcases _ _ _ _ Hn1 Hr1) as [(-> & -> & ->)|(d0 & Hd0 & Hr0 & Hne)].
  - split_and!; [lia|lia|]. intros n2 d2 r2 Hn2 Hr2.
    destruct (Hcases _ _ _ _ Hn2 Hr2) as [(-> & -> & _)|(d0 & Hd0 & Hr0 & _)]; [done|].
    destruct (handles_ok_inv _ _ _ _ _ _ Hok Hd0 Hr0) as (_ & ? & _). lia.
  - destruct (handles_ok_inv _ _ _ _ _ _ Hok Hd0 Hr0) as (? & ? & Hinj).
    split_and!; [done|lia|]. intros n2 d2 r2 Hn2 Hr2.
    destruct (Hcases _ _ _ _ Hn2 Hr2) as [(-> & -> & ->)|(d0' & Hd0' & Hr0' & _)]; [lia|].
    eauto.
Qed.

Definition bar_drawn (T : nat -> Role -> Prop) (V : nat -> Prop) (c : nat) (r0 : Role)
    (s : State) (n e : nat) (s' : State) : Prop :=
  draw_inv s' c /\ draws T V s s' /\
  viewports s' = viewports s /\ nextViewport s' = nextViewport s /\
  (forall k, (k < nextElem s)%nat -> elems s' !! k = elems s !! k) /\
  exists d d', nodes s !! n = Some d /\ nodes s' = <[n := d']> (nodes s) /\
    handle d' r0 = Some e /\ (forall r, r <> r0 -> handle d' r = handle d r) /\
    skeleton d' = skeleton d /\ requiredWidth d' = requiredWidth d /\
    lastContainer d' = lastContainer d /\ lastViewport d' = lastViewport d.

(** The three connector getters are one function up to the field. *)
Definition getBar (get : DrawingTreeNode -> option nat)
    (set : option nat -> DrawingTreeNode -> DrawingTreeNode) (cls : string) (n : nat) : M nat :=
  let* d := getNode n in
  match get d with
  | Some e => ret e
  | None =>
      let* e := createElement in
      modifyNode n (set (Some e)) ;;;
      modifyElem e (set_className cls) ;;;
      ret e
  end.

Definition bar_field (r0 : Role) (get : DrawingTreeNode -> option nat)
    (set : option nat -> DrawingTreeNode -> DrawingTreeNode) : Prop :=
  (forall d, get d = handle d r0) /\
  (forall v d, handle (set v d) r0 = v /\
     (forall r, r <> r0 -> handle (set v d) r = handle d r) /\
     skeleton (set v d) = skeleton d /\ requiredWidth (set v d) = requiredWidth d /\
     lastContainer (set v d) = lastContainer d /\ lastViewport (set v d) = lastViewport d).

Lemma getBar_draws r0 get set cls (T : nat -> Role -> Prop) V c s n e s' :
  bar_field r0 get set ->
  getBar get set cls n s = Some (e, s') -> draw_inv s c -> T n r0 ->
  bar_drawn T V c r0 s n e s'.
Proof.
  intros [Hget Hset] Hrun [Htree Hok] HN. unfold getBar, createElement in Hrun.
  apply bind_inv in Hrun as (d & s0 & [-> Hd]%getNode_inv & Hrun).
  rewrite Hget in Hrun. destruct (handle d r0) as [e0|] eqn:Hbar.
  - injection Hrun as <- <-. split_and!; try done; [apply draws_refl|].
    exists d, d. rewrite insert_id by done. split_and!; done.
  - apply bind_inv in Hrun as (e1 & s1 & [= <- <-] & Hrun).
    apply bind_inv in Hrun as ([] & s2 & (d1 & Hd1 & ->)%modifyNode_inv & Hrun).
    apply bind_inv in Hrun as ([] & s3 & (x & Hx & ->)%modifyElem_inv & [= <- <-]).
    simpl in Hd1. rewrite Hd in Hd1. injection Hd1 as <-.
    destruct (Hset (Some (nextElem s)) d) as (Hnew & Hold & Hsk & Hrw & Hlc & Hlv).
    match goal with |- bar_drawn _ _ _ _ _ _ _ ?sf => set (sf' := sf) end.
    assert (draws T V s sf') as Hdraws.
    { split; simpl; try done; try lia.
      - intros m. destruct (decide (n = m)) as [<-|Hne].
        + rewrite Hd, lookup_insert_eq. eexists. split; [done|].
          split_and!; [done| | |done|].
          * intros r e' Hr. rewrite Hold; [done|]. intros ->. congruence.
          * intros r e' Hr. destruct (decide (r = r0)) as [->|Hne].
            -- right. rewrite Hnew in Hr. injection Hr as <-. lia.
            -- left. by rewrite <- Hold.
          * intros Hno. by destruct (Hno r0).
        + rewrite lookup_insert_ne by done. destruct (nodes s !! m) as [dm|]; [|done].
          exists dm. split_and!; auto.
      - intros k Hk _. by rewrite !lookup_insert_ne by lia. }
    split_and!; try done.
    + split; [by eapply tree_wf_draws|].
      by eapply (handles_ok_new_bar s sf' c n d _ r0 Hok Hd Hbar).
    + intros k Hk. simpl. by rewrite !lookup_insert_ne by lia.
    + eexists d, _. split_and!; done.
Qed.

Lemma childBar_field : bar_field RChildBar childBar set_childBar.
Proof. split; [done|]. intros v d. split_and!; try done. intros r Hr. by destruct r. Qed.

Lemma horizontalBar_field : bar_field RHorizontalBar horizontalBar set_horizontalBar.
Proof. split; [done|]. intros v d. split_and!; try done. intros r Hr. by destruct r. Qed.

Lemma parentBar_field : bar_field RParentBar parentBar set_parentBar.
Proof. split; [done|]. intros v d. split_and!; try done. intros r Hr. by destruct r. Qed.

Lemma getChildBar_draws (T : nat -> Role -> Prop) V c s n e s' :
  getChildBar n s = Some (e, s') -> draw_inv s c -> T n RChildBar ->
  bar_drawn T V c RChildBar s n e s'.
Proof. apply (getBar_draws _ _ _ "vertical"), childBar_field. Qed.

Lemma getHorizontalBar_draws (T : nat -> Role -> Prop) V c s n e s' :
  getHorizontalBar n s = Some (e, s') -> draw_inv s c -> T n RHorizontalBar ->
  bar_drawn T V c RHorizontalBar s n e s'.
Proof. apply (getBar_draws _ _ _ "horizontal"), horizontalBar_field. Qed.

Lemma getParentBar_draws (T : nat -> Role -> Prop) V c s n e s' :
  getParentBar n s = Some (e, s') -> draw_inv s c -> T n RParentBar ->
  bar_drawn T V c RParentBar s n e s'.
Proof. apply (getBar_draws _ _ _ "vertical"), parentBar_field. Qed.

(** ** What "drawn at an origin" means *)

Definition Look : Type := string * option Q * option Q * option Q * option nat.

(** Element [e] exists and what [draw] sets on it satisfies [P]. *)
Definition shows (s : State) (e : nat) (P : Look -> Prop) : Prop :=
  exists el, elems s !! e = Some el /\ P (visual el).

Definition rep_look (cls : string) (x y : Z) (c : nat) : Look -> Prop :=
  fun '(cl, l, t, _, p) => cl = cls /\ l = px x /\ t = px y /\ p = Some c.

Definition bar_look (l t : option Q) (c : nat) : Look -> Prop :=
  fun '(_, l', t', _, p) => l' = l /\ t' = t /\ p = Some c.

Definition hbar_look (w l t : option Q) (c : nat) : Look -> Prop :=
  fun '(_, l', t', w', p) => w' = w /\ l' = l /\ t' = t /\ p = Some c.

Fixpoint drawnChildren (D : nat -> Z -> Z -> Prop) (s : State) (c : nat)
    (cs : list nat) (x y : Z) : Prop :=
  match cs with
  | [] => True
  | ch :: rest =>
      exists dc pb,
        nodes s !! ch = Some dc /\ requiredWidth dc <> -1 /\ parentBar dc = Some pb /\
        shows s pb (bar_look (px_plus x (half NODE_WIDTH))
                             (px_plus y (- half NODE_MARGIN_Y)) c) /\
        D ch x y /\
        drawnChildren D s c rest (x + (requiredWidth dc + NODE_MARGIN_X)) y
  end.

(** [Drawn f s c n x y]: in state [s] the subtree of [n] (of height below
    [f]) is laid out in container [c] with origin [(x, y)], as [draw]
    leaves it: every element it positions is attached to [c] with the
    class and position [draw] gives it, and every width it reads is
    cached. *)
Fixpoint Drawn (f : nat) (s : State) (c n : nat) (x y : Z) : Prop :=
  match f with
  | O => False
  | S f' =>
      exists d e,
        nodes s !! n = Some d /\ representation d = Some e /\
        shows s e (rep_look (nodeClass (isExpanded d)) x y c) /\
        match children d with
        | [] => True
        | first :: _ =>
            requiredWidth d <> -1 /\
            exists dl vb hb,
              nodes s !! List.last (children d) first = Some dl /\
              childBar d = Some vb /\
              shows s vb (bar_look (px_plus x (half NODE_WIDTH)) (px (y + NODE_HEIGHT)) c) /\
              horizontalBar d = Some hb /\
              shows s hb (hbar_look (px (requiredWidth d - requiredWidth dl))
                                    (px_plus x (half NODE_WIDTH))
                                    (px_plus (y + NODE_HEIGHT) (half NODE_MARGIN_Y)) c) /\
              drawnChildren (Drawn f' s c) s c (children d) x
                            (y + (NODE_HEIGHT + NODE_MARGIN_Y))
        end
  end.

Lemma shows_visual s s' e P :
  visual <$> elems s' !! e = visual <$> elems s !! e -> shows s e P -> shows s' e P.
Proof.
  intros Hv (el & Hel & HP). rewrite Hel in Hv. simpl in Hv.
  destruct (elems s' !! e) as [el'|] eqn:E; simpl in Hv; [|done].
  assert (visual el' = visual el) as Hv' by congruence.
  exists el'. split; [done|]. by rewrite Hv'.
Qed.

Lemma last_elem_of {A} (l : list A) (x : A) : l <> [] -> List.last l x ∈ l.
Proof.
  induction l as [|a [|b l] IH]; intros Hne; [done|left|].
  right. apply IH. done.
Qed.

Lemma Drawn_frame f :
  forall s s' c n x y, tree_wf s -> Drawn f s c n x y ->
    (forall m, below s n m -> nodes s' !! m = nodes s !! m) ->
    (forall m d r e, below s n m -> nodes s !! m = Some d -> handle d r = Some e ->
       visual <$> elems s' !! e = visual <$> elems s !! e) ->
    Drawn f s' c n x y.
Proof.
  induction f as [|f IH]; intros s s' c n x y Hwf HD Hnodes Helems; [done|].
  destruct HD as (d & e & Hd & Hr & He & Hch).
  exists d, e. split_and!.
  - rewrite Hnodes; [done|constructor].
  - done.
  - eapply shows_visual; [|exact He]. apply (Helems n d RRepresentation); [constructor|done|done].
  - destruct (children d) as [|first rest] eqn:Hcs; [done|].
    destruct Hch as (Hrw & dl & vb & hb & Hdl & Hvb & Hvb' & Hhb & Hhb' & Hkids).
    split; [done|]. exists dl, vb, hb. split_and!; try done.
    + rewrite Hnodes; [done|]. eapply below_child; [done|done|].
      rewrite Hcs. by apply last_elem_of.
    + eapply shows_visual; [|exact Hvb']. apply (Helems n d RChildBar); [constructor|done|done].
    + eapply shows_visual; [|exact Hhb'].
      apply (Helems n d RHorizontalBar); [constructor|done|done].
    + assert (forall ch, ch ∈ first :: rest -> below s n ch) as Hbelow.
      { intros ch Hch. eapply below_child; [done|done|]. by rewrite Hcs. }
      clear Hcs Hdl. revert Hbelow Hkids.
      generalize (y + (NODE_HEIGHT + NODE_MARGIN_Y)). generalize x.
      induction (first :: rest) as [|ch cs IHcs]; intros x' y' Hbelow Hkids; [done|].
      destruct Hkids as (dc & pb & Hdc & Hrwc & Hpb & Hpb' & Hdrawn & Hrest).
      assert (below s n ch) as Hbch by (apply Hbelow; left).
      exists dc, pb. split_and!; try done.
      * by rewrite Hnodes.
      * eapply shows_visual; [|exact Hpb']. by apply (Helems ch dc RParentBar).
      * eapply IH; [done|exact Hdrawn| |].
        -- intros m Hm. apply Hnodes. by eapply below_trans.
        -- intros m dm r em Hm. apply Helems. by eapply below_trans.
      * apply IHcs; [|done]. intros ch' Hch'. apply Hbelow. by right.
Qed.

(** A drawing step on handles outside the subtree of [n] leaves [n] drawn. *)
Lemma Drawn_draws f T V s s' c n x y :
  draw_inv s c -> draws T V s s' -> (forall m r, below s n m -> ~ T m r) ->
  Drawn f s c n x y -> Drawn f s' c n x y.
Proof.
  intros [Hwf Hok] Hd HT HD. eapply Drawn_frame; [done|exact HD| |].
  - intros m Hm. destruct (nodes s !! m) as [dm|] eqn:E.
    + destruct (draws_lookup _ _ _ _ _ _ Hd E) as (dm' & -> & _ & _ & _ & _ & Hsame).
      f_equal. apply Hsame. intros r. by apply HT.
    + pose proof (draws_nodes _ _ _ _ Hd m) as Hm'. by rewrite E in Hm'.
  - intros m dm r e Hm Hdm Hr.
    destruct (handles_ok_inv _ _ _ _ _ _ Hok Hdm Hr) as (_ & Hlt & Hinj).
    apply (draws_elems _ _ _ _ Hd); [done|]. intros m' d' r' HT' Hd' Hr'.
    destruct (Hinj _ _ _ Hd' Hr') as [<- <-]. by apply (HT m r).
Qed.

(** An element held outside [T] keeps what [draw] looks at. *)
Lemma shows_draws T V s s' c m d r e P :
  draw_inv s c -> draws T V s s' -> nodes s !! m = Some d -> handle d r = Some e ->
  ~ T m r -> shows s e P -> shows s' e P.
Proof.
  intros [Hwf Hok] Hd Hm Hr HT. apply shows_visual.
  destruct (handles_ok_inv _ _ _ _ _ _ Hok Hm Hr) as (_ & Hlt & Hinj).
  apply (draws_elems _ _ _ _ Hd); [done|]. intros m' d' r' HT' Hd' Hr'.
  destruct (Hinj _ _ _ Hd' Hr') as [<- <-]. done.
Qed.

Lemma draw_inv_same_nodes s s' c :
  nodes s' = nodes s -> nextNode s' = nextNode s -> nextElem s' = nextElem s ->
  draw_inv s c -> draw_inv s' c.
Proof.
  intros Hn HN HE [Hwf [Hc Hok]]. split.
  - intros n d. rewrite Hn. intros Hd. destruct (Hwf _ _ Hd) as (?&?&?&?).
    unfold node_wf. rewrite HN, Hn. done.
  - split; [lia|]. intros n d. rewrite Hn. intros Hd. specialize (Hok _ _ Hd).
    unfold owner_ok in *. rewrite HE, Hn. done.
Qed.

Lemma draw_inv_elems_only s s' c : elems_only s s' -> draw_inv s c -> draw_inv s' c.
Proof. intros (Hn & _ & _ & _ & HN & HE & _). by apply draw_inv_same_nodes. Qed.

Lemma style_step (T : nat -> Role -> Prop) V c s e f s' m d r :
  modifyElem e f s = Some (tt, s') -> draw_inv s c ->
  nodes s !! m = Some d -> handle d r = Some e -> T m r ->
  draw_inv s' c /\ draws T V s s' /\ elems_only s s' /\
  exists el, elems s !! e = Some el /\ elems s' !! e = Some (f el).
Proof.
  intros (el & Hel & ->)%modifyElem_inv Hinv Hm Hr HT.
  assert (elems_only s (with_elems (<[e:=f el]> (elems s)) s)) as Ho by done.
  split_and!; [by eapply draw_inv_elems_only| |done|].
  - apply draws_modifyElem; [done|]. right. by exists m, d, r.
  - exists el. simpl. by rewrite lookup_insert_eq.
Qed.

Lemma attach_step (T : nat -> Role -> Prop) V c s e s' m d r :
  attach c e s = Some (tt, s') -> draw_inv s c ->
  nodes s !! m = Some d -> handle d r = Some e -> T m r ->
  draw_inv s' c /\ draws T V s s' /\ elems_only s s' /\
  exists el el', elems s !! e = Some el /\ elems s' !! e = Some el' /\
    look el' = look el /\ parentNode el' = Some c.
Proof.
  intros Hrun Hinv Hm Hr HT. pose proof Hinv as [_ Hok].
  destruct (handles_ok_inv _ _ _ _ _ _ Hok Hm Hr) as (Hne & _).
  destruct (attach_moves T V c e s s' Hrun Hne) as [(Hd & Ho & el & el' & Hel & Hel' & Hl) Hp].
  { by exists m, d, r. }
  split_and!; [by eapply draw_inv_elems_only|done|done|].
  destruct Hp as (el'' & Hel'' & Hp). rewrite Hel' in Hel''. injection Hel'' as <-.
  by exists el, el'.
Qed.

Definition subtree (s : State) (n : nat) : nat -> Role -> Prop :=
  fun m r => below s n m /\ ~ (m = n /\ r = RParentBar).

Definition vp_or_fresh (s : State) (vp : nat) : nat -> Prop :=
  fun w => w = vp \/ (nextViewport s <= w)%nat.

Definition widths (s : State) (cs : list nat) : Z :=
  sumZ (map (fun ch => from_option requiredWidth 0 (nodes s !! ch) + NODE_MARGIN_X) cs).

(** What one call of [draw] establishes. *)
Definition draw_post (f : nat) (s : State) (n c vp : nat) (x y : Z) (s' : State) : Prop :=
  draw_inv s' c /\
  draws (subtree s n) (vp_or_fresh s vp) s s' /\
  Drawn f s' c n x y /\
  viewports s' !! nextViewport s = Some (x, y) /\
  (nextViewport s < nextViewport s')%nat /\
  exists d d',
    nodes s !! n = Some d /\ nodes s' !! n = Some d' /\
    lastContainer d' = Some c /\ lastViewport d' = Some (nextViewport s) /\
    viewports s' !! vp =
      Some (if children d is [] then (x, y)
            else (x + widths s' (children d), y + (NODE_HEIGHT + NODE_MARGIN_Y))).

Definition draw_child (f : nat) (container viewport child : nat) : M unit :=
  let* requiredWidth := getRequiredWidth f child in
  let* childVertical := getParentBar child in
  let* xy := getViewport viewport in
  modifyElem childVertical (set_styleLeft (px_plus (fst xy) (half NODE_WIDTH))) ;;;
  let* xy := getViewport viewport in
  modifyElem childVertical (set_styleTop (px_plus (snd xy) (- half NODE_MARGIN_Y))) ;;;
  attach container childVertical ;;;
  let* xy := getViewport viewport in
  let* v := newViewport xy in
  draw f child container v ;;;
  let* xy := getViewport viewport in
  setViewport viewport (fst xy + (requiredWidth + NODE_MARGIN_X), snd xy).

Definition child_post (f : nat) (s : State) (ch c vp : nat) (x y : Z) (s' : State) : Prop :=
  draw_inv s' c /\
  draws (fun m _ => below s ch m) (vp_or_fresh s vp) s s' /\
  exists dc pb,
    nodes s' !! ch = Some dc /\ requiredWidth dc <> -1 /\ parentBar dc = Some pb /\
    shows s' pb (bar_look (px_plus x (half NODE_WIDTH)) (px_plus y (- half NODE_MARGIN_Y)) c) /\
    Drawn f s' c ch x y /\
    viewports s' !! vp = Some (x + (requiredWidth dc + NODE_MARGIN_X), y).

Section DrawStep.
Context (f : nat).
Context (IH : forall s n c vp x y s',
  draw f n c vp s = Some (tt, s') -> draw_inv s c ->
  viewports s !! vp = Some (x, y) -> (vp < nextViewport s)%nat ->
  draw_post f s n c vp x y s').

Lemma draw_child_spec s ch c vp x y s' :
  draw_child f c vp ch s = Some (tt, s') -> draw_inv s c ->
  viewports s !! vp = Some (x, y) -> (vp < nextViewport s)%nat ->
  child_post f s ch c vp x y s'.
Proof.
  intros Hrun Hinv Hvp Hlt. unfold draw_child in Hrun.
  set (T := fun m (_ : Role) => below s ch m).
  set (V := vp_or_fresh s vp).
  (* the width of the child *)
  apply bind_inv in Hrun as (w & s1 & Hw & Hrun).
  destruct (getRequiredWidth_draws T V c _ _ _ _ _ Hw Hinv)
    as (Hinv1 & Hd1 & Hs1 & d1 & Hch1 & Hrw1 & Hw1).
  { intros m Hm. by exists RParentBar. }
  (* its parent bar *)
  apply bind_inv in Hrun as (pb & s2 & Hpb & Hrun).
  destruct (getParentBar_draws T V c _ _ _ _ Hpb Hinv1)
    as (Hinv2 & Hd2 & Hv2 & HnV2 & _ & d1' & d2 & Hch1' & Hn2 & Hpb2 & _ & Hsk2 & Hrw2 & _).
  { constructor. }
  rewrite Hch1 in Hch1'. injection Hch1' as <-.
  assert (nodes s2 !! ch = Some d2) as Hch2 by (by rewrite Hn2, lookup_insert_eq).
  assert (viewports s2 !! vp = Some (x, y)) as Hvp2.
  { rewrite Hv2. destruct Hs1 as (_ & _ & -> & _). done. }
  apply bind_inv in Hrun as (xy & s2' & [-> Hxy]%getViewport_inv & Hrun).
  rewrite Hvp2 in Hxy. injection Hxy as <-.
  apply bind_inv in Hrun as ([] & s3 & Hleft & Hrun).
  destruct (style_step T V c _ _ _ _ ch d2 RParentBar Hleft Hinv2 Hch2 Hpb2)
    as (Hinv3 & Hd3 & Ho3 & el2 & Hel2 & Hel3); [constructor|].
  pose proof Ho3 as (Hn3 & _ & Hv3 & _ & _ & _ & HnV3).
  apply bind_inv in Hrun as (xy & s3' & [-> Hxy]%getViewport_inv & Hrun).
  rewrite Hv3, Hvp2 in Hxy. injection Hxy as <-.
  apply bind_inv in Hrun as ([] & s4 & Htop & Hrun).
  destruct (style_step T V c _ _ _ _ ch d2 RParentBar Htop Hinv3)
    as (Hinv4 & Hd4 & Ho4 & el3 & Hel3' & Hel4); [by rewrite Hn3|done|constructor|].
  rewrite Hel3 in Hel3'. injection Hel3' as <-.
  pose proof Ho4 as (Hn4 & _ & Hv4 & _ & _ & _ & HnV4).
  apply bind_inv in Hrun as ([] & s5 & Hatt & Hrun).
  destruct (attach_step T V c _ _ _ ch d2 RParentBar Hatt Hinv4)
    as (Hinv5 & Hd5 & Ho5 & el4 & el5 & Hel4' & Hel5 & Hlook5 & Hpar5);
    [by rewrite Hn4, Hn3|done|constructor|].
  rewrite Hel4 in Hel4'. injection Hel4' as <-.
  pose proof Ho5 as (Hn5 & _ & Hv5 & _ & _ & _ & HnV5).
  assert (viewports s5 !! vp = Some (x, y)) as Hvp5 by (by rewrite Hv5, Hv4, Hv3).
  assert (nodes s5 !! ch = Some d2) as Hch5 by (by rewrite Hn5, Hn4, Hn3).
  assert (shows s5 pb (bar_look (px_plus x (half NODE_WIDTH))
                                (px_plus y (- half NODE_MARGIN_Y)) c)) as Hshow5.
  { exists el5. split; [done|]. unfold look in Hlook5. simpl in Hlook5.
    injection Hlook5 as _ Hl Ht _. unfold bar_look, visual. by rewrite Hl, Ht, Hpar5. }
  assert (draws T V s s5) as Hd05.
  { eapply draws_trans; [exact Hd1|]. eapply draws_trans; [exact Hd2|].
    eapply draws_trans; [exact Hd3|]. eapply draws_trans; [exact Hd4|exact Hd5]. }
  (* the child itself *)
  apply bind_inv in Hrun as (xy & s5' & [-> Hxy]%getViewport_inv & Hrun).
  rewrite Hvp5 in Hxy. injection Hxy as <-.
  apply bind_inv in Hrun as (v & s6 & [= <- <-] & Hrun).
  set (s6 := {| nodes := nodes s5 |}) in *.
  assert (draws T V s5 s6) as Hd6 by apply draws_newViewport.
  assert (draw_inv s6 c) as Hinv6 by (by apply (draw_inv_same_nodes s5)).
  apply bind_inv in Hrun as ([] & s7 & Hdraw & Hrun).
  destruct (IH s6 ch c (nextViewport s5) x y s7 Hdraw Hinv6)
    as (Hinv7 & Hd7 & HD7 & _ & _ & d6 & d7 & Hch6 & Hch7 & _ & _ & _).
  { simpl. by rewrite lookup_insert_eq. }
  { simpl. lia. }
  pose proof (draws_trans _ _ _ _ _ Hd05 Hd6) as Hd06.
  assert (draws T V s6 s7) as Hd7'.
  { eapply draws_mono; [| |exact Hd7].
    - intros m r [Hm _]. unfold T. by apply (draws_below _ _ _ _ ch m Hd06).
    - intros w' [->|Hw']; right.
      + apply (draws_nextViewport _ _ _ _ Hd05).
      + pose proof (draws_nextViewport _ _ _ _ Hd06). lia. }
  assert (viewports s7 !! vp = Some (x, y)) as Hvp7.
  { pose proof (draws_nextViewport _ _ _ _ Hd05) as HnV.
    rewrite (draws_viewports _ _ _ _ Hd7); [simpl; by rewrite lookup_insert_ne by lia| |].
    - simpl. lia.
    - intros [->|Hge]; simpl in *; lia. }
  apply bind_inv in Hrun as (xy & s7' & [-> Hxy]%getViewport_inv & Hrun).
  rewrite Hvp7 in Hxy. injection Hxy as <-. simpl in Hrun.
  apply setViewport_inv in Hrun as [_ ->].
  assert (nodes s6 !! ch = Some d2) as Hch6' by done.
  rewrite Hch6' in Hch6. injection Hch6 as <-.
  destruct (draws_lookup _ _ _ _ _ _ Hd7 Hch6') as (d7' & Hch7' & _ & Hmono7 & _ & Hrw7 & _).
  rewrite Hch7 in Hch7'. injection Hch7' as <-.
  assert (requiredWidth d7 = w) as Hrw7'.
  { rewrite Hrw7; [congruence|]. congruence. }
  split_and!.
  - by apply (draw_inv_same_nodes s7).
  - eapply draws_trans; [exact Hd06|]. eapply draws_trans; [exact Hd7'|].
    apply draws_setViewport. by left.
  - exists d7, pb. split_and!.
    + done.
    + congruence.
    + by apply (Hmono7 RParentBar).
    + eapply (shows_visual s7); [done|].
      eapply (shows_draws _ _ s6 s7 c ch d2 RParentBar); [done|exact Hd7|done|done| |].
      * intros [_ Hno]. by apply Hno.
      * eapply (shows_visual s5); [done|exact Hshow5].
    + eapply (Drawn_frame f s7); [by destruct Hinv7|exact HD7|done|done].
    + simpl. rewrite lookup_insert_eq. by rewrite Hrw7'.
Qed.

Lemma widths_cons s ch cs d :
  nodes s !! ch = Some d ->
  widths s (ch :: cs) = requiredWidth d + NODE_MARGIN_X + widths s cs.
Proof. intros H. unfold widths. simpl. by rewrite H. Qed.

Lemma draw_children_spec n c vp y cs :
  forall s x s' dn,
    forM_ (draw_child f c vp) cs s = Some (tt, s') -> draw_inv s c ->
    viewports s !! vp = Some (x, y) -> (vp < nextViewport s)%nat ->
    nodes s !! n = Some dn -> (forall ch, ch ∈ cs -> ch ∈ children dn) -> NoDup cs ->
    draw_inv s' c /\
    draws (fun m _ => exists ch, ch ∈ cs /\ below s ch m) (vp_or_fresh s vp) s s' /\
    drawnChildren (Drawn f s' c) s' c cs x y /\
    viewports s' !! vp = Some (x + widths s' cs, y).
Proof.
  induction cs as [|ch cs IHcs]; intros s x s' dn Hrun Hinv Hvp Hlt Hn Hsub Hnd;
    simpl in Hrun.
  - injection Hrun as <-. split_and!; [done|apply draws_refl|done|].
    unfold widths. simpl. by rewrite Z.add_0_r.
  - apply bind_inv in Hrun as ([] & s1 & Hchild & Hrun).
    destruct (draw_child_spec _ _ _ _ _ _ _ Hchild Hinv Hvp Hlt)
      as (Hinv1 & Hd1 & dc & pb & Hch1 & Hrw1 & Hpb1 & Hshow1 & HD1 & Hvp1).
    destruct (draws_lookup _ _ _ _ _ _ Hd1 Hn) as (dn1 & Hn1 & Hsk1 & _).
    assert (children dn1 = children dn) as Hcs1 by (unfold skeleton in Hsk1; congruence).
    apply NoDup_cons in Hnd as [Hnotin Hnd].
    pose proof (draws_nextViewport _ _ _ _ Hd1) as HnV1.
    destruct (IHcs s1 _ s' dn1 Hrun Hinv1 Hvp1) as (Hinv' & Hd' & Hkids' & Hvp');
      [lia|done| |done|].
    { intros ch' Hch'. rewrite Hcs1. apply Hsub. by right. }
    pose proof Hinv1 as [Hwf1 Hok1].
    assert (forall m, below s1 ch m ->
              ~ exists ch', ch' ∈ cs /\ below s1 ch' m) as Hdisj.
    { intros m Hm (ch' & Hch' & Hm').
      eapply (siblings_disjoint s1 n dn1 ch ch' m); try done.
      - rewrite Hcs1. apply Hsub. by left.
      - rewrite Hcs1. apply Hsub. by right.
      - intros Heq. by subst ch'. }
    destruct (draws_lookup _ _ _ _ _ _ Hd' Hch1) as (dc' & Hch' & _ & _ & _ & _ & Hsame).
    rewrite Hsame in Hch'; cycle 1.
    { intros r Hex. eapply Hdisj; [|exact Hex]. constructor. }
    split_and!.
    + done.
    + eapply draws_trans.
      * eapply draws_mono; [| |exact Hd1]; [|done].
        intros m r Hm. exists ch. split; [by left|done].
      * eapply draws_mono; [| |exact Hd'].
        -- intros m r (ch' & Hch'' & Hm). exists ch'. split; [by right|].
           by apply (draws_below _ _ _ _ ch' m Hd1).
        -- intros w [->|Hw]; [by left|right; lia].
    + exists dc, pb. split_and!; try done.
      * eapply (shows_draws _ _ s1 s' c ch dc RParentBar); try done.
        intros Hex. eapply Hdisj; [|exact Hex]. constructor.
      * eapply Drawn_draws; [exact Hinv1|exact Hd'| |exact HD1].
        intros m r Hm Hex. by eapply Hdisj.
    + rewrite Hvp'. rewrite (widths_cons _ _ _ _ Hch'). f_equal. f_equal. lia.
Qed.
End DrawStep.

Lemma draw_unfold f this container viewport :
  draw (S f) this container viewport =
  (let* xy := getViewport viewport in
   let* lv := newViewport xy in
   modifyNode this (set_last (Some container) (Some lv)) ;;;
   let* d := getNode this in
   match representation d with
   | None => fail
   | Some element =>
       modifyElem element (set_className (nodeClass (isExpanded d))) ;;;
       let* xy := getViewport viewport in
       modifyElem element (set_styleLeft (px (fst xy))) ;;;
       let* xy := getViewport viewport in
       modifyElem element (set_styleTop (px (snd xy))) ;;;
       attach container element ;;;
       let* d := getNode this in
       match children d with
       | [] => ret tt
       | first :: _ =>
           let* firstWidth := getRequiredWidth f first in
           let* lastWidth := getRequiredWidth f (List.last (children d) first) in
           let* totalWidth := getRequiredWidth f this in
           let* vertical := getChildBar this in
           let* xy := getViewport viewport in
           modifyElem vertical (set_styleLeft (px_plus (fst xy) (half NODE_WIDTH))) ;;;
           let* xy := getViewport viewport in
           modifyElem vertical (set_styleTop (px (snd xy + NODE_HEIGHT))) ;;;
           attach container vertical ;;;
           let* horizontal := getHorizontalBar this in
           modifyElem horizontal (set_styleWidth (px (totalWidth - lastWidth))) ;;;
           let* xy := getViewport viewport in
           modifyElem horizontal (set_styleLeft (px_plus (fst xy) (half NODE_WIDTH))) ;;;
           let* xy := getViewport viewport in
           modifyElem horizontal
             (set_styleTop (px_plus (snd xy + NODE_HEIGHT) (half NODE_MARGIN_Y))) ;;;
           attach container horizontal ;;;
           let* xy := getViewport viewport in
           setViewport viewport (fst xy, snd xy + (NODE_HEIGHT + NODE_MARGIN_Y)) ;;;
           forM_ (draw_child f container viewport) (children d)
       end
   end).
Proof. reflexivity. Qed.

(** Positioning the element that node [n] holds in role [r]: a run of
    style assignments followed by [attach]. *)
Definition only (n : nat) (r : Role) : nat -> Role -> Prop := fun m r' => m = n /\ r' = r.

Lemma place_element V c s n d r e (g : Element -> Element) s1 s2 :
  draw_inv s c -> nodes s !! n = Some d -> handle d r = Some e ->
  (exists el, elems s !! e = Some el /\ elems s1 !! e = Some (g el)) ->
  draws (only n r) V s s1 -> elems_only s s1 ->
  attach c e s1 = Some (tt, s2) ->
  draw_inv s2 c /\ draws (only n r) V s s2 /\ elems_only s s2 /\
  exists el el', elems s !! e = Some el /\ elems s2 !! e = Some el' /\
    look el' = look (g el) /\ parentNode el' = Some c.
Proof.
  intros Hinv Hn Hr (el & Hel & Hel1) Hd1 Ho1 Hatt.
  assert (draw_inv s1 c) as Hinv1 by by eapply draw_inv_elems_only.
  assert (nodes s1 !! n = Some d) as Hn1 by (destruct Ho1 as (-> & _); done).
  destruct (attach_step (only n r) V c _ _ _ n d r Hatt Hinv1 Hn1 Hr)
    as (Hinv2 & Hd2 & Ho2 & el1 & el2 & Hel1' & Hel2 & Hlook & Hpar); [done|].
  rewrite Hel1 in Hel1'. injection Hel1' as <-.
  split_and!; [done|by eapply draws_trans|by eapply elems_only_trans|].
  by exists el, el2.
Qed.

Lemma style_chain V c s n d r e (g : Element -> Element) f s1 s2 :
  draw_inv s c -> nodes s !! n = Some d -> handle d r = Some e ->
  (exists el, elems s !! e = Some el /\ elems s1 !! e = Some (g el)) ->
  draws (only n r) V s s1 -> elems_only s s1 ->
  modifyElem e f s1 = Some (tt, s2) ->
  (exists el, elems s !! e = Some el /\ elems s2 !! e = Some (f (g el))) /\
  draws (only n r) V s s2 /\ elems_only s s2.
Proof.
  intros Hinv Hn Hr (el & Hel & Hel1) Hd1 Ho1 Hmod.
  assert (draw_inv s1 c) as Hinv1 by by eapply draw_inv_elems_only.
  assert (nodes s1 !! n = Some d) as Hn1 by (destruct Ho1 as (-> & _); done).
  destruct (style_step (only n r) V c _ _ _ _ n d r Hmod Hinv1 Hn1 Hr)
    as (Hinv2 & Hd2 & Ho2 & el1 & Hel1' & Hel2); [done|].
  rewrite Hel1 in Hel1'. injection Hel1' as <-.
  split_and!; [by exists el|by eapply draws_trans|by eapply elems_only_trans].
Qed.

Lemma only_subtree s n r : r <> RParentBar -> forall m r', only n r m r' -> subtree s n m r'.
Proof. intros Hr m r' [-> ->]. split; [constructor|]. intros [_ ?]. done. Qed.

Lemma shows_elems_only s s' e P : elems s' = elems s -> shows s e P -> shows s' e P.
Proof. intros He. apply shows_visual. by rewrite He. Qed.


Lemma subtree_child s n d ch m r :
  tree_wf s -> nodes s !! n = Some d -> ch ∈ children d -> below s ch m -> subtree s n m r.
Proof.
  intros Hwf Hn Hch Hb. split; [eapply below_trans; [by eapply below_child|done]|].
  intros [-> _]. pose proof (below_le _ _ _ Hwf Hb).
  destruct (tree_wf_child _ _ _ _ Hwf Hn Hch) as [Hlt _]. lia.
Qed.

Lemma shows_old s s' e P :
  (forall k, (k < nextElem s)%nat -> elems s' !! k = elems s !! k) -> (e < nextElem s)%nat ->
  shows s e P -> shows s' e P.
Proof. intros H Hlt. apply shows_visual. by rewrite H. Qed.

Section DrawInduction.
Context (f : nat).
Context (IH : forall s n c vp x y s',
  draw f n c vp s = Some (tt, s') -> draw_inv s c ->
  viewports s !! vp = Some (x, y) -> (vp < nextViewport s)%nat ->
  draw_post f s n c vp x y s').

Lemma draw_spec_step s n c vp x y s' :
  draw (S f) n c vp s = Some (tt, s') -> draw_inv s c ->
  viewports s !! vp = Some (x, y) -> (vp < nextViewport s)%nat ->
  draw_post (S f) s n c vp x y s'.
Proof.
  intros Hrun Hinv Hvp Hlt. rewrite draw_unfold in Hrun.
  set (T := subtree s n). set (V := vp_or_fresh s vp).
  apply bind_inv in Hrun as (xy & s0 & [-> Hxy]%getViewport_inv & Hrun).
  rewrite Hvp in Hxy. injection Hxy as <-.
  apply bind_inv in Hrun as (lv & s1 & [= <- <-] & Hrun).
  apply bind_inv in Hrun as ([] & s2 & (d & Hd & ->)%modifyNode_inv & Hrun).
  simpl in Hd.
  set (lv := nextViewport s) in *.
  set (d2 := set_last (Some c) (Some lv) d) in *.
  match type of Hrun with _ ?st = _ => set (s2 := st) in * end.
  assert (nodes s2 = <[n := d2]> (nodes s)) as Hn2 by done.
  assert (nodes s2 !! n = Some d2) as Hd2 by (by rewrite Hn2, lookup_insert_eq).
  assert (viewports s2 !! vp = Some (x, y)) as Hvp2.
  { unfold s2. simpl. by rewrite lookup_insert_ne by (unfold lv; lia). }
  assert (viewports s2 !! lv = Some (x, y)) as Hlv2.
  { unfold s2. simpl. by rewrite lookup_insert_eq. }
  assert (nextViewport s2 = S lv) as HnV2 by done.
  assert (draws T V s s2) as Hd02.
  { eapply draws_trans; [apply (draws_newViewport _ _ s (x, y))|].
    apply draws_modifyNode; try done. left. exists RRepresentation.
    split; [constructor|]. intros [_ ?]. done. }
  assert (draw_inv s2 c) as Hinv2.
  { eapply draw_inv_same_handles; [exact Hd02| |done].
    intros m dm dm' Hm Hm' r. rewrite Hn2 in Hm'. destruct (decide (n = m)) as [<-|Hne].
    - rewrite lookup_insert_eq in Hm'. rewrite Hd in Hm. injection Hm as <-.
      injection Hm' as <-. by destruct r.
    - rewrite lookup_insert_ne in Hm' by done. congruence. }
  apply bind_inv in Hrun as (d2' & s2' & [-> Hd2']%getNode_inv & Hrun).
  rewrite Hd2 in Hd2'. injection Hd2' as <-.
  destruct (representation d2) as [e|] eqn:He; [|done].
  (* the representation *)
  apply bind_inv in Hrun as ([] & s3 & Hcls & Hrun).
  destruct (style_step (only n RRepresentation) V c _ _ _ _ n d2 RRepresentation
              Hcls Hinv2 Hd2 He) as (_ & Hd3 & Ho3 & el & Hel & Hel3); [done|].
  apply bind_inv in Hrun as (xy & s3' & [-> Hxy]%getViewport_inv & Hrun).
  assert (viewports s3 = viewports s2) as Hv3 by (by destruct Ho3 as (_ & _ & -> & _)).
  rewrite Hv3, Hvp2 in Hxy. injection Hxy as <-.
  apply bind_inv in Hrun as ([] & s4 & Hleft & Hrun).
  destruct (style_chain V c s2 n d2 RRepresentation e _ _ s3 s4 Hinv2 Hd2 He
              (ex_intro _ el (conj Hel Hel3)) Hd3 Ho3 Hleft) as (Hel4 & Hd4 & Ho4).
  apply bind_inv in Hrun as (xy & s4' & [-> Hxy]%getViewport_inv & Hrun).
  assert (viewports s4 = viewports s2) as Hv4 by (by destruct Ho4 as (_ & _ & -> & _)).
  rewrite Hv4, Hvp2 in Hxy. injection Hxy as <-.
  apply bind_inv in Hrun as ([] & s5 & Htop & Hrun).
  destruct (style_chain V c s2 n d2 RRepresentation e _ _ s4 s5 Hinv2 Hd2 He
              Hel4 Hd4 Ho4 Htop) as (Hel5 & Hd5 & Ho5).
  apply bind_inv in Hrun as ([] & s6 & Hatt & Hrun).
  destruct (place_element V c s2 n d2 RRepresentation e _ s5 s6 Hinv2 Hd2 He
              Hel5 Hd5 Ho5 Hatt)
    as (Hinv6 & Hd6 & Ho6 & el0 & el6 & Hel0 & Hel6 & Hlook6 & Hpar6).
  assert (shows s6 e (rep_look (nodeClass (isExpanded d2)) x y c)) as Hrep6.
  { exists el6. split; [done|]. unfold look in Hlook6. simpl in Hlook6.
    injection Hlook6 as Hc Hl Ht _. unfold rep_look, visual. by rewrite Hc, Hl, Ht, Hpar6. }
  pose proof Ho6 as (Hn6 & _ & Hv6 & _ & _ & _ & HnV6).
  assert (draws T V s s6) as Hd06.
  { eapply draws_trans; [exact Hd02|]. eapply draws_mono; [| |exact Hd6]; [|done].
    by apply only_subtree. }
  apply bind_inv in Hrun as (d6 & s6' & [-> Hd6']%getNode_inv & Hrun).
  rewrite Hn6, Hd2 in Hd6'. injection Hd6' as <-.
  change (children d2) with (children d) in Hrun.
  destruct (children d) as [|first rest] eqn:Hcs.
  { injection Hrun as <-. split_and!.
    - done.
    - done.
    - exists d2, e. split_and!; [by rewrite Hn6|done|done|].
      change (children d2) with (children d). by rewrite Hcs.
    - by rewrite Hv6.
    - rewrite HnV6, HnV2. unfold lv. lia.
    - exists d, d2. split_and!; try done; [by rewrite Hn6|]. by rewrite Hv6, Hcs. }
  pose proof Hinv as [Hwf0 _].
  assert (forall sk ch m r, draws T V s sk -> ch ∈ first :: rest -> below sk ch m -> T m r)
    as Hkid.
  { intros sk ch m r Hdk Hch Hb. apply (draws_below _ _ _ _ _ _ Hdk) in Hb.
    eapply subtree_child; [done|exact Hd|by rewrite Hcs|done]. }
  assert (forall sk m, draws T V s sk -> below sk n m -> exists r, T m r) as Hself.
  { intros sk m Hdk Hb. apply (draws_below _ _ _ _ _ _ Hdk) in Hb.
    destruct (decide (m = n)) as [->|Hne].
    - exists RRepresentation. split; [done|]. intros [_ ?]. done.
    - exists RParentBar. split; [done|]. intros [? _]. done. }
  (* the three widths *)
  apply bind_inv in Hrun as (w1 & s7 & Hw1 & Hrun).
  destruct (getRequiredWidth_draws T V c _ _ _ _ _ Hw1 Hinv6) as (Hinv7 & Hd67 & Hs67 & _).
  { intros m Hm. exists RRepresentation. eapply Hkid; [exact Hd06|left|done]. }
  assert (draws T V s s7) as Hd07 by (by eapply draws_trans).
  apply bind_inv in Hrun as (wl & s8 & Hw2 & Hrun).
  destruct (getRequiredWidth_draws T V c _ _ _ _ _ Hw2 Hinv7)
    as (Hinv8 & Hd78 & Hs78 & dl8 & Hdl8 & Hrwl & Hwl).
  { intros m Hm. exists RRepresentation. eapply Hkid; [exact Hd07| |done].
    by apply last_elem_of. }
  assert (draws T V s s8) as Hd08 by (by eapply draws_trans).
  apply bind_inv in Hrun as (tw & s9 & Hw3 & Hrun).
  destruct (getRequiredWidth_draws T V c _ _ _ _ _ Hw3 Hinv8)
    as (Hinv9 & Hd89 & Hs89 & d9 & Hn9 & Hrw9 & Htw).
  { intros m Hm. by eapply Hself. }
  assert (draws T V s s9) as Hd09 by (by eapply draws_trans).
  assert (same_except_width s6 s9) as Hs69.
  { eapply same_except_width_trans; [exact Hs67|].
    eapply same_except_width_trans; [exact Hs78|exact Hs89]. }
  assert (nodes s6 !! n = Some d2) as Hn6' by (by rewrite Hn6).
  destruct (same_except_width_lookup _ _ _ _ Hs69 Hn6') as (w9 & Hn9').
  rewrite Hn9 in Hn9'. injection Hn9' as ->. simpl in Hrw9. subst w9.
  set (d9 := set_requiredWidth tw d2) in *.
  pose proof Hs69 as (He9 & _ & Hv9 & _ & _ & HnE9 & HnV9 & _).
  assert (viewports s9 !! vp = Some (x, y)) as Hvp9 by (by rewrite Hv9, Hv6).
  assert (shows s9 e (rep_look (nodeClass (isExpanded d2)) x y c)) as Hrep9
    by (by eapply shows_elems_only).
  (* the child bar *)
  apply bind_inv in Hrun as (vb & s9a & Hgvb & Hrun).
  destruct (getChildBar_draws T V c _ _ _ _ Hgvb Hinv9)
    as (Hinv9a & Hd9a & Hv9a & HnV9a & Hel9a & d9' & d9a & Hn9' & Hnodes9a & Hvb & Hothera &
        Hska & Hrwa & Hlca & Hlva).
  { split; [constructor|]. intros [_ ?]. done. }
  rewrite Hn9 in Hn9'. injection Hn9' as <-.
  assert (nodes s9a !! n = Some d9a) as Hn9a by (by rewrite Hnodes9a, lookup_insert_eq).
  assert (viewports s9a !! vp = Some (x, y)) as Hvp9a by (by rewrite Hv9a).
  assert (draws T V s s9a) as Hd09a by (by eapply draws_trans).
  pose proof Hinv6 as [_ Hok6].
  destruct (handles_ok_inv _ _ _ _ RRepresentation _ Hok6 Hn6' He) as (_ & Helt & _).
  assert (shows s9a e (rep_look (nodeClass (isExpanded d2)) x y c)) as Hrep9a.
  { eapply shows_old; [exact Hel9a|lia|done]. }
  apply bind_inv in Hrun as (xy & sx & [-> Hxy]%getViewport_inv & Hrun).
  rewrite Hvp9a in Hxy. injection Hxy as <-.
  apply bind_inv in Hrun as ([] & sb1 & Hb1 & Hrun).
  destruct (style_step (only n RChildBar) V c _ _ _ _ n d9a RChildBar
              Hb1 Hinv9a Hn9a Hvb) as (_ & Hdb1 & Hob1 & elb & Helb & Helb1); [done|].
  apply bind_inv in Hrun as (xy & sx & [-> Hxy]%getViewport_inv & Hrun).
  assert (viewports sb1 = viewports s9a) as Hvb1 by (by destruct Hob1 as (_ & _ & -> & _)).
  rewrite Hvb1, Hvp9a in Hxy. injection Hxy as <-.
  apply bind_inv in Hrun as ([] & sb2 & Hb2 & Hrun).
  destruct (style_chain V c s9a n d9a RChildBar vb _ _ sb1 sb2 Hinv9a Hn9a Hvb
              (ex_intro _ elb (conj Helb Helb1)) Hdb1 Hob1 Hb2) as (Helb2 & Hdb2 & Hob2).
  apply bind_inv in Hrun as ([] & s10 & Hb3 & Hrun).
  destruct (place_element V c s9a n d9a RChildBar vb _ sb2 s10 Hinv9a Hn9a Hvb
              Helb2 Hdb2 Hob2 Hb3)
    as (Hinv10 & Hd10 & Ho10 & elb0 & elb10 & Helb0 & Helb10 & Hlook10 & Hpar10).
  assert (shows s10 vb (bar_look (px_plus x (half NODE_WIDTH)) (px (y + NODE_HEIGHT)) c))
    as Hvb10.
  { exists elb10. split; [done|]. unfold look in Hlook10. simpl in Hlook10.
    injection Hlook10 as _ Hl Ht _. unfold bar_look, visual. by rewrite Hl, Ht, Hpar10. }
  pose proof Ho10 as (Hn10 & _ & Hv10 & _ & _ & HnE10 & HnV10).
  assert (nodes s10 !! n = Some d9a) as Hn10' by (by rewrite Hn10).
  assert (viewports s10 !! vp = Some (x, y)) as Hvp10 by (by rewrite Hv10).
  assert (representation d9a = Some e) as He9a.
  { unfold skeleton in Hska. assert (representation d9a = representation d9) as Hr by congruence.
    rewrite Hr. exact He. }
  assert (shows s10 e (rep_look (nodeClass (isExpanded d2)) x y c)) as Hrep10.
  { eapply (shows_draws _ _ _ _ _ n d9a RRepresentation); [exact Hinv9a|exact Hd10|done|done| |done].
    intros [_ ?]. done. }
  assert (draws T V s s10) as Hd010.
  { eapply draws_trans; [exact Hd09a|]. eapply draws_mono; [| |exact Hd10]; [|done].
    by apply only_subtree. }
  (* the horizontal bar *)
  apply bind_inv in Hrun as (hb & s10a & Hghb & Hrun).
  destruct (getHorizontalBar_draws T V c _ _ _ _ Hghb Hinv10)
    as (Hinv10a & Hd10a & Hv10a & HnV10a & Hel10a & d10' & d10a & Hn10'' & Hnodes10a & Hhb &
        Hotherh & Hskh & Hrwh & Hlch & Hlvh).
  { split; [constructor|]. intros [_ ?]. done. }
  rewrite Hn10' in Hn10''. injection Hn10'' as <-.
  assert (nodes s10a !! n = Some d10a) as Hn10a by (by rewrite Hnodes10a, lookup_insert_eq).
  assert (viewports s10a !! vp = Some (x, y)) as Hvp10a by (by rewrite Hv10a).
  assert (draws T V s s10a) as Hd010a by (by eapply draws_trans).
  pose proof (draws_nextElem _ _ _ _ Hd9a) as HnE9a.
  assert (shows s10a e (rep_look (nodeClass (isExpanded d2)) x y c)) as Hrep10a.
  { eapply shows_old; [exact Hel10a|lia|done]. }
  pose proof Hinv10 as [_ Hok10].
  destruct (handles_ok_inv _ _ _ _ RChildBar _ Hok10 Hn10' Hvb) as (_ & Hvblt & _).
  assert (shows s10a vb (bar_look (px_plus x (half NODE_WIDTH)) (px (y + NODE_HEIGHT)) c))
    as Hvb10a.
  { eapply shows_old; [exact Hel10a|lia|done]. }
  apply bind_inv in Hrun as ([] & sh0 & Hh0 & Hrun).
  destruct (style_step (only n RHorizontalBar) V c _ _ _ _ n d10a RHorizontalBar
              Hh0 Hinv10a Hn10a Hhb) as (_ & Hdh0 & Hoh0 & elh & Helh & Helh0); [done|].
  apply bind_inv in Hrun as (xy & sx & [-> Hxy]%getViewport_inv & Hrun).
  assert (viewports sh0 = viewports s10a) as Hvh0 by (by destruct Hoh0 as (_ & _ & -> & _)).
  rewrite Hvh0, Hvp10a in Hxy. injection Hxy as <-.
  apply bind_inv in Hrun as ([] & sh1 & Hh1 & Hrun).
  destruct (style_chain V c s10a n d10a RHorizontalBar hb _ _ sh0 sh1 Hinv10a Hn10a Hhb
              (ex_intro _ elh (conj Helh Helh0)) Hdh0 Hoh0 Hh1) as (Helh1 & Hdh1 & Hoh1).
  apply bind_inv in Hrun as (xy & sx & [-> Hxy]%getViewport_inv & Hrun).
  assert (viewports sh1 = viewports s10a) as Hvh1 by (by destruct Hoh1 as (_ & _ & -> & _)).
  rewrite Hvh1, Hvp10a in Hxy. injection Hxy as <-.
  apply bind_inv in Hrun as ([] & sh2 & Hh2 & Hrun).
  destruct (style_chain V c s10a n d10a RHorizontalBar hb _ _ sh1 sh2 Hinv10a Hn10a Hhb
              Helh1 Hdh1 Hoh1 Hh2) as (Helh2 & Hdh2 & Hoh2).
  apply bind_inv in Hrun as ([] & s11 & Hh3 & Hrun).
  destruct (place_element V c s10a n d10a RHorizontalBar hb _ sh2 s11 Hinv10a Hn10a Hhb
              Helh2 Hdh2 Hoh2 Hh3)
    as (Hinv11 & Hd11 & Ho11 & elh0 & elh11 & Helh0' & Helh11 & Hlook11 & Hpar11).
  assert (shows s11 hb (hbar_look (px (tw - wl)) (px_plus x (half NODE_WIDTH))
                          (px_plus (y + NODE_HEIGHT) (half NODE_MARGIN_Y)) c)) as Hhb11.
  { exists elh11. split; [done|]. unfold look in Hlook11. simpl in Hlook11.
    injection Hlook11 as _ Hl Ht Hw. unfold hbar_look, visual.
    by rewrite Hl, Ht, Hw, Hpar11. }
  pose proof Ho11 as (Hn11 & _ & Hv11 & _ & _ & HnE11 & HnV11).
  assert (nodes s11 !! n = Some d10a) as Hn11' by (by rewrite Hn11).
  assert (viewports s11 !! vp = Some (x, y)) as Hvp11 by (by rewrite Hv11).
  assert (representation d10a = Some e) as He10a.
  { unfold skeleton in Hskh. assert (representation d10a = representation d9a) as Hr
      by congruence. by rewrite Hr. }
  assert (childBar d10a = Some vb) as Hvb10a'.
  { change (handle d10a RChildBar = Some vb). by rewrite Hotherh. }
  assert (shows s11 e (rep_look (nodeClass (isExpanded d2)) x y c)) as Hrep11.
  { eapply (shows_draws _ _ _ _ _ n d10a RRepresentation);
      [exact Hinv10a|exact Hd11|done|done| |done].
    intros [_ ?]. done. }
  assert (shows s11 vb (bar_look (px_plus x (half NODE_WIDTH)) (px (y + NODE_HEIGHT)) c))
    as Hvb11.
  { eapply (shows_draws _ _ _ _ _ n d10a RChildBar);
      [exact Hinv10a|exact Hd11|done|done| |done].
    intros [_ ?]. done. }
  assert (draws T V s s11) as Hd011.
  { eapply draws_trans; [exact Hd010a|]. eapply draws_mono; [| |exact Hd11]; [|done].
    by apply only_subtree. }
  (* the cursor moves down one row, then the children *)
  apply bind_inv in Hrun as (xy & sx & [-> Hxy]%getViewport_inv & Hrun).
  rewrite Hvp11 in Hxy. injection Hxy as <-.
  apply bind_inv in Hrun as ([] & s12 & [_ ->]%setViewport_inv & Hrun).
  simpl fst in Hrun. simpl snd in Hrun.
  match type of Hrun with _ ?st = _ => set (s12 := st) in * end.
  assert (draws T V s11 s12) as Hd1112 by (apply draws_setViewport; by left).
  assert (draw_inv s12 c) as Hinv12.
  { eapply draw_inv_same_nodes; [| | |exact Hinv11]; done. }
  assert (viewports s12 !! vp = Some (x, y + (NODE_HEIGHT + NODE_MARGIN_Y))) as Hvp12.
  { unfold s12. simpl. by rewrite lookup_insert_eq. }
  assert (draws T V s s12) as Hd012 by (by eapply draws_trans).
  assert (nodes s12 !! n = Some d10a) as Hn12 by done.
  assert (children d10a = first :: rest) as Hcs10a.
  { unfold skeleton in Hskh, Hska.
    assert (children d10a = children d9a) as -> by congruence.
    assert (children d9a = children d9) as -> by congruence. exact Hcs. }
  pose proof (draws_nextViewport _ _ _ _ Hd012) as HnV012.
  destruct (draw_children_spec f IH n c vp _ (first :: rest) s12 x s' d10a Hrun Hinv12 Hvp12)
    as (Hinv' & Hdl & Hkids & Hvp'); [lia|done|by rewrite Hcs10a| |].
  { destruct (Hwf0 _ _ Hd) as (_ & _ & _ & Hnd). by rewrite Hcs in Hnd. }
  set (Tl := fun m (_ : Role) => exists ch, ch ∈ first :: rest /\ below s12 ch m) in *.
  assert (forall r, ~ Tl n r) as Hnot.
  { intros r (ch & Hch & Hb). by destruct (Hkid s12 ch n RParentBar Hd012 Hch Hb) as [_ []]. }
  assert (draws T V s12 s') as Hd12'.
  { eapply draws_mono; [| |exact Hdl].
    - intros m r (ch & Hch & Hb). by eapply Hkid.
    - intros v [->|Hv]; [by left|right; lia]. }
  destruct (draws_lookup _ _ _ _ _ _ Hdl Hn12) as (dn' & Hn' & _ & _ & _ & _ & Hsame).
  rewrite (Hsame Hnot) in Hn'. clear dn' Hsame.
  assert (isExpanded d10a = isExpanded d2) as Hexp.
  { unfold skeleton in Hskh, Hska.
    assert (isExpanded d10a = isExpanded d9a) as -> by congruence.
    assert (isExpanded d9a = isExpanded d9) as -> by congruence. done. }
  assert (requiredWidth d10a = tw) as Hrw10a by (by rewrite Hrwh, Hrwa).
  assert (exists dl', nodes s' !! List.last (first :: rest) first = Some dl' /\
                      requiredWidth dl' = wl) as (dl' & Hdl' & Hrwl').
  { assert (draws T V s8 s') as Hd8'.
    { eapply draws_trans; [exact Hd89|]. eapply draws_trans; [exact Hd9a|].
      eapply draws_trans; [eapply draws_mono; [| |exact Hd10]; [by apply only_subtree|done]|].
      eapply draws_trans; [exact Hd10a|].
      eapply draws_trans; [eapply draws_mono; [| |exact Hd11]; [by apply only_subtree|done]|].
      eapply draws_trans; [exact Hd1112|exact Hd12']. }
    destruct (draws_lookup _ _ _ _ _ _ Hd8' Hdl8) as (dl' & Hdl' & _ & _ & _ & Hclean & _).
    exists dl'. split; [done|]. rewrite Hclean; [done|]. by rewrite Hrwl. }
  assert (forall r h P, handle d10a r = Some h -> shows s11 h P -> shows s' h P) as Hkeep.
  { intros r h P Hr Hsh. eapply (shows_draws _ _ _ _ _ n d10a r);
      [exact Hinv12|exact Hdl|done|done|apply Hnot|]. by eapply shows_elems_only. }
  split_and!.
  - done.
  - by eapply draws_trans.
  - exists d10a, e. split_and!; [done|done| |].
    + rewrite Hexp. by apply (Hkeep RRepresentation).
    + rewrite Hcs10a. split; [by rewrite Hrw10a|]. exists dl', vb, hb.
      split_and!; [done|done|by apply (Hkeep RChildBar)|done| |done].
      rewrite Hrw10a, Hrwl'. by apply (Hkeep RHorizontalBar).
  - rewrite (draws_viewports _ _ _ _ Hdl); [|unfold s12; simpl; lia|].
    + unfold s12. simpl. rewrite lookup_insert_ne by (unfold lv in *; lia).
      by rewrite Hv11, Hv10a, Hv10, Hv9a, Hv9, Hv6.
    + intros [?|Hge]; [unfold lv in *; lia|]. unfold s12 in Hge. simpl in Hge. lia.
  - pose proof (draws_nextViewport _ _ _ _ Hdl) as HnVl. unfold s12 in HnVl.
    simpl in HnVl. unfold lv in *. lia.
  - exists d, d10a. split_and!; [done|done| | |].
    + by rewrite Hlch, Hlca.
    + by rewrite Hlvh, Hlva.
    + by rewrite Hcs.
Qed.
End DrawInduction.

(** The specification of [draw], by induction on the fuel. *)
Lemma draw_spec f :
  forall s n c vp x y s',
    draw f n c vp s = Some (tt, s') -> draw_inv s c ->
    viewports s !! vp = Some (x, y) -> (vp < nextViewport s)%nat ->
    draw_post f s n c vp x y s'.
Proof.
  induction f as [|f IH]; intros s n c vp x y s' Hrun; [done|].
  by apply draw_spec_step.
Qed.

(** ** Drawing what is already drawn *)

(** States with the same elements, whose nodes differ at most in the
    recorded container and viewport. *)
Definition same_picture (s s' : State) : Prop :=
  elems s' = elems s /\ nextElem s' = nextElem s /\
  (nextViewport s <= nextViewport s')%nat /\
  forall m, match nodes s !! m with
            | Some d => exists lc lv, nodes s' !! m = Some (set_last lc lv d)
            | None => nodes s' !! m = None
            end.

Lemma set_last_id d : set_last (lastContainer d) (lastViewport d) d = d.
Proof. by destruct d. Qed.

Lemma same_picture_nodes s s' :
  elems s' = elems s -> nextElem s' = nextElem s ->
  (nextViewport s <= nextViewport s')%nat -> nodes s' = nodes s -> same_picture s s'.
Proof.
  intros He HE HV Hn. split_and!; try done. intros m. rewrite Hn.
  destruct (nodes s !! m) as [d|]; [|done].
  exists (lastContainer d), (lastViewport d). by rewrite set_last_id.
Qed.

Lemma same_picture_refl s : same_picture s s.
Proof. by apply same_picture_nodes. Qed.

Lemma same_picture_trans s1 s2 s3 :
  same_picture s1 s2 -> same_picture s2 s3 -> same_picture s1 s3.
Proof.
  intros (He1 & HE1 & HV1 & H12) (He2 & HE2 & HV2 & H23).
  split_and!; [congruence|congruence|lia|]. intros m. specialize (H12 m). specialize (H23 m).
  destruct (nodes s1 !! m) as [d|].
  - destruct H12 as (lc & lv & Hm). rewrite Hm in H23. destruct H23 as (lc' & lv' & Hm').
    by exists lc', lv'.
  - by rewrite H12 in H23.
Qed.

Lemma same_picture_lookup s s' m d :
  same_picture s s' -> nodes s !! m = Some d ->
  exists lc lv, nodes s' !! m = Some (set_last lc lv d).
Proof. intros (_ & _ & _ & H) Hm. specialize (H m). by rewrite Hm in H. Qed.

Lemma same_picture_set_last s n d lc lv :
  nodes s !! n = Some d ->
  same_picture s (with_nodes (<[n := set_last lc lv d]> (nodes s)) s).
Proof.
  intros Hn. split_and!; try done. intros m. simpl. destruct (decide (n = m)) as [<-|Hne].
  - rewrite Hn, lookup_insert_eq. eauto.
  - rewrite lookup_insert_ne by done. destruct (nodes s !! m) as [dm|]; [|done].
    exists (lastContainer dm), (lastViewport dm). by rewrite set_last_id.
Qed.

Lemma shows_same_picture s s' e P : same_picture s s' -> shows s e P -> shows s' e P.
Proof. intros (He & _). by apply shows_elems_only. Qed.

Lemma drawnChildren_same_picture (D D' : nat -> Z -> Z -> Prop) s s' c cs :
  same_picture s s' -> (forall ch x y, D ch x y -> D' ch x y) ->
  forall x y, drawnChildren D s c cs x y -> drawnChildren D' s' c cs x y.
Proof.
  intros Hs HD. induction cs as [|ch cs IH]; intros x y H; [done|].
  destruct H as (dc & pb & Hdc & Hrw & Hpb & Hshow & Hch & Hrest).
  destruct (same_picture_lookup _ _ _ _ Hs Hdc) as (lc & lv & Hdc').
  exists (set_last lc lv dc), pb. split_and!; try done.
  - by eapply shows_same_picture.
  - by apply HD.
  - by apply IH.
Qed.

Lemma Drawn_same_picture f :
  forall s s' c n x y, same_picture s s' -> Drawn f s c n x y -> Drawn f s' c n x y.
Proof.
  induction f as [|f IH]; intros s s' c n x y Hs HD; [done|].
  destruct HD as (d & e & Hd & Hr & He & Hch).
  destruct (same_picture_lookup _ _ _ _ Hs Hd) as (lc & lv & Hd').
  exists (set_last lc lv d), e. split_and!; [done|done|by eapply shows_same_picture|].
  change (children (set_last lc lv d)) with (children d).
  destruct (children d) as [|first rest]; [done|].
  destruct Hch as (Hrw & dl & vb & hb & Hdl & Hvb & Hvb' & Hhb & Hhb' & Hkids).
  split; [done|].
  destruct (same_picture_lookup _ _ _ _ Hs Hdl) as (lcl & lvl & Hdl').
  exists (set_last lcl lvl dl), vb, hb.
  split_and!; try done; try (by eapply shows_same_picture).
  eapply drawnChildren_same_picture; [done| |exact Hkids].
  intros ch x' y'. by apply IH.
Qed.

Lemma Drawn_fuel f s c n x y : Drawn f s c n x y -> exists f', f = S f'.
Proof. destruct f; [done|eauto]. Qed.

Lemma drawnChildren_clean D s c cs ch :
  forall x y, drawnChildren D s c cs x y -> ch ∈ cs ->
  exists dc, nodes s !! ch = Some dc /\ requiredWidth dc <> -1.
Proof.
  induction cs as [|a cs IH]; intros x y H Hch; [by apply elem_of_nil in Hch|].
  destruct H as (dc & pb & Hdc & Hrw & _ & _ & _ & Hrest).
  apply elem_of_cons in Hch as [->|Hch]; [eauto|]. by eapply IH.
Qed.

Lemma set_className_id x : set_className (className x) x = x.
Proof. by destruct x. Qed.

Lemma set_styleLeft_id x : set_styleLeft (styleLeft x) x = x.
Proof. by destruct x. Qed.

Lemma set_styleTop_id x : set_styleTop (styleTop x) x = x.
Proof. by destruct x. Qed.

Lemma set_styleWidth_id x : set_styleWidth (styleWidth x) x = x.
Proof. by destruct x. Qed.

(** Writing a style its current value changes nothing. *)
Lemma modifyElem_same e f s x :
  elems s !! e = Some x -> f x = x -> modifyElem e f s = Some (tt, s).
Proof.
  intros Hx Hf. rewrite (modifyElem_eq _ _ _ _ Hx), Hf. by rewrite with_elems_insert_id.
Qed.

Lemma getChildBar_present n s d e :
  nodes s !! n = Some d -> childBar d = Some e -> getChildBar n s = Some (e, s).
Proof.
  intros Hd He. unfold getChildBar. rewrite (bind_eq _ _ _ _ _ (getNode_eq _ _ _ Hd)).
  by rewrite He.
Qed.

Lemma getHorizontalBar_present n s d e :
  nodes s !! n = Some d -> horizontalBar d = Some e -> getHorizontalBar n s = Some (e, s).
Proof.
  intros Hd He. unfold getHorizontalBar. rewrite (bind_eq _ _ _ _ _ (getNode_eq _ _ _ Hd)).
  by rewrite He.
Qed.

Lemma getParentBar_present n s d e :
  nodes s !! n = Some d -> parentBar d = Some e -> getParentBar n s = Some (e, s).
Proof.
  intros Hd He. unfold getParentBar. rewrite (bind_eq _ _ _ _ _ (getNode_eq _ _ _ Hd)).
  by rewrite He.
Qed.

(** What drawing again establishes: the run returns, the picture is the
    same, and only the viewport passed and new viewports are written. *)
Definition again_post (s : State) (vp : nat) (s' : State) : Prop :=
  same_picture s s' /\
  forall v, (v < nextViewport s)%nat -> v <> vp -> viewports s' !! v = viewports s !! v.

Section DrawAgain.
Context (f : nat).
Context (IH : forall s c n vp x y,
  Drawn f s c n x y -> viewports s !! vp = Some (x, y) -> (vp < nextViewport s)%nat ->
  exists s', draw f n c vp s = Some (tt, s') /\ again_post s vp s').

Lemma draw_child_again s c vp ch x y dc pb :
  nodes s !! ch = Some dc -> requiredWidth dc <> -1 -> parentBar dc = Some pb ->
  shows s pb (bar_look (px_plus x (half NODE_WIDTH)) (px_plus y (- half NODE_MARGIN_Y)) c) ->
  Drawn f s c ch x y -> viewports s !! vp = Some (x, y) -> (vp < nextViewport s)%nat ->
  exists s', draw_child f c vp ch s = Some (tt, s') /\ again_post s vp s' /\
    viewports s' !! vp = Some (x + (requiredWidth dc + NODE_MARGIN_X), y).
Proof.
  intros Hdc Hrw Hpb (el & Hel & Hlook) HD Hvp Hlt.
  unfold bar_look, visual in Hlook. destruct Hlook as (Hl & Ht & Hp).
  destruct (Drawn_fuel _ _ _ _ _ _ HD) as [f' Hf].
  assert (getRequiredWidth f ch s = Some (requiredWidth dc, s)) as Hw
    by (rewrite Hf; by apply getRequiredWidth_clean).
  assert (modifyElem pb (set_styleLeft (px_plus x (half NODE_WIDTH))) s = Some (tt, s)) as Hm1.
  { apply (modifyElem_same _ _ _ el); [done|]. rewrite <- Hl. apply set_styleLeft_id. }
  assert (modifyElem pb (set_styleTop (px_plus y (- half NODE_MARGIN_Y))) s = Some (tt, s))
    as Hm2.
  { apply (modifyElem_same _ _ _ el); [done|]. rewrite <- Ht. apply set_styleTop_id. }
  unfold draw_child.
  rewrite (bind_eq _ _ _ _ _ Hw).
  rewrite (bind_eq _ _ _ _ _ (getParentBar_present _ _ _ _ Hdc Hpb)).
  rewrite (bind_eq _ _ _ _ _ (getViewport_eq _ _ _ Hvp)). cbn [fst snd].
  rewrite (bind_eq _ _ _ _ _ Hm1).
  rewrite (bind_eq _ _ _ _ _ (getViewport_eq _ _ _ Hvp)). cbn [fst snd].
  rewrite (bind_eq _ _ _ _ _ Hm2).
  rewrite (bind_eq _ _ _ _ _ (attach_attached _ _ _ _ Hel Hp)).
  rewrite (bind_eq _ _ _ _ _ (getViewport_eq _ _ _ Hvp)).
  rewrite (bind_eq (newViewport (x, y)) _ s _ _ eq_refl).
  set (v := nextViewport s).
  match goal with |- context [bind (draw f ch c v) _ ?st] => set (s1 := st) end.
  assert (same_picture s s1) as Hs1 by (apply same_picture_nodes; simpl; try done; lia).
  destruct (IH s1 c ch v x y) as (s2 & Hrun & Hs2 & Hfr2).
  { by eapply Drawn_same_picture. }
  { unfold s1. simpl. by rewrite lookup_insert_eq. }
  { unfold s1. simpl. lia. }
  rewrite (bind_eq _ _ _ _ _ Hrun).
  assert (viewports s2 !! vp = Some (x, y)) as Hvp2.
  { rewrite Hfr2; [|unfold s1; simpl; lia|unfold v; lia].
    unfold s1. simpl. by rewrite lookup_insert_ne by (unfold v; lia). }
  rewrite (bind_eq _ _ _ _ _ (getViewport_eq _ _ _ Hvp2)).
  rewrite (setViewport_eq _ _ _ _ Hvp2). eexists. split; [reflexivity|].
  cbn [fst snd]. split; [split|].
  - eapply same_picture_trans; [exact Hs1|]. eapply same_picture_trans; [exact Hs2|].
    by apply same_picture_nodes.
  - intros v' Hv' Hne. simpl. rewrite lookup_insert_ne by done.
    rewrite Hfr2; [|unfold s1; simpl; lia|unfold v; lia].
    unfold s1. simpl. by rewrite lookup_insert_ne by (unfold v; lia).
  - simpl. by rewrite lookup_insert_eq.
Qed.

Lemma draw_children_again c vp y cs :
  forall s x, drawnChildren (Drawn f s c) s c cs x y ->
    viewports s !! vp = Some (x, y) -> (vp < nextViewport s)%nat ->
    exists s', forM_ (draw_child f c vp) cs s = Some (tt, s') /\ again_post s vp s'.
Proof.
  induction cs as [|ch cs IHcs]; intros s x H Hvp Hlt.
  - exists s. split; [done|]. split; [apply same_picture_refl|done].
  - destruct H as (dc & pb & Hdc & Hrw & Hpb & Hshow & HD & Hrest).
    destruct (draw_child_again s c vp ch x y dc pb Hdc Hrw Hpb Hshow HD Hvp Hlt)
      as (s1 & Hrun1 & [Hs1 Hfr1] & Hvp1).
    pose proof Hs1 as (_ & _ & HnV1 & _).
    destruct (IHcs s1 (x + (requiredWidth dc + NODE_MARGIN_X))) as (s2 & Hrun2 & Hs2 & Hfr2);
      [|done|lia|].
    { eapply drawnChildren_same_picture; [exact Hs1| |exact Hrest].
      intros ch' x' y'. by apply Drawn_same_picture. }
    exists s2. split; [|split].
    + simpl. by rewrite (bind_eq _ _ _ _ _ Hrun1).
    + by eapply same_picture_trans.
    + intros v Hv Hne. rewrite Hfr2 by (done || lia). by apply Hfr1.
Qed.

Lemma draw_again_step s c n vp x y :
  Drawn (S f) s c n x y -> viewports s !! vp = Some (x, y) -> (vp < nextViewport s)%nat ->
  exists s', draw (S f) n c vp s = Some (tt, s') /\ again_post s vp s'.
Proof.
  intros (d & e & Hd & Hr & (el & Hel & Hlook) & Hch) Hvp Hlt.
  unfold rep_look, visual in Hlook. destruct Hlook as (Hcl & Hl & Ht & Hp).
  rewrite draw_unfold.
  rewrite (bind_eq _ _ _ _ _ (getViewport_eq _ _ _ Hvp)).
  rewrite (bind_eq (newViewport (x, y)) _ s _ _ eq_refl).
  set (lv := nextViewport s).
  match goal with |- context [bind (modifyNode n _) _ ?st] => set (s1 := st) end.
  assert (same_picture s s1) as Hs1 by (apply same_picture_nodes; simpl; try done; lia).
  assert (nodes s1 !! n = Some d) as Hd1 by done.
  rewrite (bind_eq _ _ _ _ _ (modifyNode_eq _ _ _ _ Hd1)).
  set (d2 := set_last (Some c) (Some lv) d).
  set (s2 := with_nodes (<[n := d2]> (nodes s1)) s1).
  assert (same_picture s1 s2) as Hs12 by (by apply same_picture_set_last).
  assert (same_picture s s2) as Hs2 by (by eapply same_picture_trans).
  assert (nodes s2 !! n = Some d2) as Hd2 by (unfold s2; simpl; by rewrite lookup_insert_eq).
  assert (viewports s2 !! vp = Some (x, y)) as Hvp2.
  { unfold s2, s1. simpl. by rewrite lookup_insert_ne by (unfold lv; lia). }
  assert (elems s2 !! e = Some el) as Hel2 by done.
  assert (forall v, (v < nextViewport s)%nat -> v <> vp ->
            viewports s2 !! v = viewports s !! v) as Hfr2.
  { intros v Hv _. unfold s2, s1. simpl. by rewrite lookup_insert_ne by (unfold lv; lia). }
  rewrite (bind_eq _ _ _ _ _ (getNode_eq _ _ _ Hd2)).
  change (representation d2) with (representation d). rewrite Hr.
  change (isExpanded d2) with (isExpanded d).
  assert (modifyElem e (set_className (nodeClass (isExpanded d))) s2 = Some (tt, s2)) as Hm0.
  { apply (modifyElem_same _ _ _ el); [done|]. rewrite <- Hcl. apply set_className_id. }
  assert (modifyElem e (set_styleLeft (px x)) s2 = Some (tt, s2)) as Hm1.
  { apply (modifyElem_same _ _ _ el); [done|]. rewrite <- Hl. apply set_styleLeft_id. }
  assert (modifyElem e (set_styleTop (px y)) s2 = Some (tt, s2)) as Hm2.
  { apply (modifyElem_same _ _ _ el); [done|]. rewrite <- Ht. apply set_styleTop_id. }
  rewrite (bind_eq _ _ _ _ _ Hm0).
  rewrite (bind_eq _ _ _ _ _ (getViewport_eq _ _ _ Hvp2)). cbn [fst snd].
  rewrite (bind_eq _ _ _ _ _ Hm1).
  rewrite (bind_eq _ _ _ _ _ (getViewport_eq _ _ _ Hvp2)). cbn [fst snd].
  rewrite (bind_eq _ _ _ _ _ Hm2).
  rewrite (bind_eq _ _ _ _ _ (attach_attached _ _ _ _ Hel2 Hp)).
  rewrite (bind_eq _ _ _ _ _ (getNode_eq _ _ _ Hd2)).
  change (children d2) with (children d).
  destruct (children d) as [|first rest] eqn:Hcs.
  { exists s2. split; [done|]. by split. }
  destruct Hch as (Hrw & dl & vb & hb & Hdl & Hvb & (elv & Helv & Hlookv) & Hhb &
                   (elh & Helh & Hlookh) & Hkids).
  unfold bar_look, visual in Hlookv. destruct Hlookv as (Hlv & Htv & Hpv).
  unfold hbar_look, visual in Hlookh. destruct Hlookh as (Hwh & Hlh & Hth & Hph).
  (* the widths are cached *)
  pose proof Hkids as (dc & pb & Hdc & Hrwc & _ & _ & HDc & _).
  destruct (Drawn_fuel _ _ _ _ _ _ HDc) as [f' Hf].
  assert (forall m dm, nodes s !! m = Some dm -> requiredWidth dm <> -1 ->
            getRequiredWidth f m s2 = Some (requiredWidth dm, s2)) as Hclean.
  { intros m dm Hm Hrwm. destruct (same_picture_lookup _ _ _ _ Hs2 Hm) as (lc' & lv' & Hms).
    rewrite Hf. by apply (getRequiredWidth_clean _ _ _ _ Hms). }
  rewrite (bind_eq _ _ _ _ _ (Hclean _ _ Hdc Hrwc)).
  destruct (drawnChildren_clean _ _ _ _ (List.last (first :: rest) first) _ _ Hkids)
    as (dl0 & Hdl0 & Hrwl); [by apply last_elem_of|].
  rewrite Hdl in Hdl0. injection Hdl0 as <-.
  rewrite (bind_eq _ _ _ _ _ (Hclean _ _ Hdl Hrwl)).
  rewrite (bind_eq _ _ _ _ _ (Hclean _ _ Hd Hrw)).
  (* the connectors exist and are placed *)
  rewrite (bind_eq _ _ _ _ _ (getChildBar_present _ _ d2 vb Hd2 Hvb)).
  assert (modifyElem vb (set_styleLeft (px_plus x (half NODE_WIDTH))) s2 = Some (tt, s2))
    as Hv1.
  { apply (modifyElem_same _ _ _ elv); [done|]. rewrite <- Hlv. apply set_styleLeft_id. }
  assert (modifyElem vb (set_styleTop (px (y + NODE_HEIGHT))) s2 = Some (tt, s2)) as Hv2.
  { apply (modifyElem_same _ _ _ elv); [done|]. rewrite <- Htv. apply set_styleTop_id. }
  rewrite (bind_eq _ _ _ _ _ (getViewport_eq _ _ _ Hvp2)). cbn [fst snd].
  rewrite (bind_eq _ _ _ _ _ Hv1).
  rewrite (bind_eq _ _ _ _ _ (getViewport_eq _ _ _ Hvp2)). cbn [fst snd].
  rewrite (bind_eq _ _ _ _ _ Hv2).
  rewrite (bind_eq _ _ _ _ _ (attach_attached c vb s2 elv Helv Hpv)).
  rewrite (bind_eq _ _ _ _ _ (getHorizontalBar_present _ _ d2 hb Hd2 Hhb)).
  assert (modifyElem hb (set_styleWidth (px (requiredWidth d - requiredWidth dl))) s2 =
          Some (tt, s2)) as Hh0.
  { apply (modifyElem_same _ _ _ elh); [done|]. rewrite <- Hwh. apply set_styleWidth_id. }
  assert (modifyElem hb (set_styleLeft (px_plus x (half NODE_WIDTH))) s2 = Some (tt, s2))
    as Hh1.
  { apply (modifyElem_same _ _ _ elh); [done|]. rewrite <- Hlh. apply set_styleLeft_id. }
  assert (modifyElem hb (set_styleTop (px_plus (y + NODE_HEIGHT) (half NODE_MARGIN_Y))) s2 =
          Some (tt, s2)) as Hh2.
  { apply (modifyElem_same _ _ _ elh); [done|]. rewrite <- Hth. apply set_styleTop_id. }
  rewrite (bind_eq _ _ _ _ _ Hh0).
  rewrite (bind_eq _ _ _ _ _ (getViewport_eq _ _ _ Hvp2)). cbn [fst snd].
  rewrite (bind_eq _ _ _ _ _ Hh1).
  rewrite (bind_eq _ _ _ _ _ (getViewport_eq _ _ _ Hvp2)). cbn [fst snd].
  rewrite (bind_eq _ _ _ _ _ Hh2).
  rewrite (bind_eq _ _ _ _ _ (attach_attached c hb s2 elh Helh Hph)).
  (* the cursor, then the children *)
  rewrite (bind_eq _ _ _ _ _ (getViewport_eq _ _ _ Hvp2)). cbn [fst snd].
  rewrite (bind_eq _ _ _ _ _ (setViewport_eq _ _ _ _ Hvp2)).
  set (s3 := with_viewports _ s2).
  assert (same_picture s2 s3) as Hs23 by (by apply same_picture_nodes).
  assert (same_picture s s3) as Hs3 by (by eapply same_picture_trans).
  destruct (draw_children_again c vp (y + (NODE_HEIGHT + NODE_MARGIN_Y)) (first :: rest) s3 x)
    as (s4 & Hrun4 & Hs4 & Hfr4).
  { eapply drawnChildren_same_picture; [exact Hs3| |exact Hkids].
    intros ch x' y'. by apply Drawn_same_picture. }
  { unfold s3. simpl. by rewrite lookup_insert_eq. }
  { unfold s3, s2, s1. simpl. lia. }
  exists s4. split; [exact Hrun4|]. split; [by eapply same_picture_trans|].
  intros v Hv Hne. rewrite Hfr4; [|unfold s3, s2, s1; simpl; lia|done].
  unfold s3. simpl. rewrite lookup_insert_ne by done. by apply Hfr2.
Qed.

End DrawAgain.

(** Drawing a subtree that is drawn, at the origin it is drawn at, returns
    and changes no element. *)
Lemma draw_again f :
  forall s c n vp x y,
    Drawn f s c n x y -> viewports s !! vp = Some (x, y) -> (vp < nextViewport s)%nat ->
    exists s', draw f n c vp s = Some (tt, s') /\ again_post s vp s'.
Proof.
  induction f as [|f IH]; intros s c n vp x y HD; [done|].
  by apply draw_again_step.
Qed.

(** [redraw] is [draw] with the recorded container and viewport. *)
Lemma redraw_unfold f n s d c lv :
  nodes s !! n = Some d -> lastContainer d = Some c -> lastViewport d = Some lv ->
  redraw f n s = draw f n c lv s.
Proof.
  intros Hd Hc Hv. unfold redraw. rewrite (bind_eq _ _ _ _ _ (getNode_eq _ _ _ Hd)).
  by rewrite Hv, Hc.
Qed.

(** C7: once [draw] has drawn node [n] into container [c] at origin
    [(x, y)], a second [draw] of [n] into [c] from a viewport holding the
    same origin returns, creates no element and changes no element: every
    element keeps its parent, its class and its position, and the container
    keeps its list of children, so nothing is attached twice. *)
Theorem draw_twice_same_elements f s n c vp vp' x y s1 :
  draw_inv s c -> viewports s !! vp = Some (x, y) -> (vp < nextViewport s)%nat ->
  draw f n c vp s = Some (tt, s1) ->
  viewports s1 !! vp' = Some (x, y) -> (vp' < nextViewport s1)%nat ->
  exists s2, draw f n c vp' s1 = Some (tt, s2) /\
    elems s2 = elems s1 /\ nextElem s2 = nextElem s1.
Proof.
  intros Hinv Hvp Hlt Hrun Hvp' Hlt'.
  destruct (draw_spec f s n c vp x y s1 Hrun Hinv Hvp Hlt) as (_ & _ & HD & _).
  destruct (draw_again f s1 c n vp' x y HD Hvp' Hlt') as (s2 & Hrun2 & (He & HE & _) & _).
  by exists s2.
Qed.

(** C10: [draw] copies the origin it is given into a viewport object of the
    node's own before it moves the cursor it was passed: afterwards the
    node's last viewport is another object than the one passed and holds
    the origin [(x, y)], while the passed one has moved down one row and
    right by each child's width and margin (when the node has children).
    [redraw] is [draw] from that copy, so it returns and leaves every
    element where the first [draw] put it. *)
Theorem redraw_replays_origin f s n c vp x y s1 :
  draw_inv s c -> viewports s !! vp = Some (x, y) -> (vp < nextViewport s)%nat ->
  draw f n c vp s = Some (tt, s1) ->
  exists d d1 lv,
    nodes s !! n = Some d /\ nodes s1 !! n = Some d1 /\
    lastContainer d1 = Some c /\ lastViewport d1 = Some lv /\ lv <> vp /\
    viewports s1 !! lv = Some (x, y) /\
    viewports s1 !! vp =
      Some (if children d is [] then (x, y)
            else (x + widths s1 (children d), y + (NODE_HEIGHT + NODE_MARGIN_Y))) /\
    (forall f', redraw f' n s1 = draw f' n c lv s1) /\
    exists s2, redraw f n s1 = Some (tt, s2) /\ elems s2 = elems s1.
Proof.
  intros Hinv Hvp Hlt Hrun.
  destruct (draw_spec f s n c vp x y s1 Hrun Hinv Hvp Hlt)
    as (_ & _ & HD & Hlv & HnV & d & d1 & Hd & Hd1 & Hlc & Hlast & Hcur).
  exists d, d1, (nextViewport s). split_and!; try done; [lia| |].
  - intros f'. by apply (redraw_unfold _ _ _ d1).
  - destruct (draw_again f s1 c n (nextViewport s) x y HD Hlv HnV)
      as (s2 & Hrun2 & (He & _) & _).
    exists s2. split; [|done]. by rewrite (redraw_unfold _ _ _ d1 c (nextViewport s)).
Qed.

(** The example tree with its root expanded, drawn once more from the
    viewport [0]. *)
Definition firstDraw : State :=
  Eval vm_compute in
    match draw 4 0 0 0 Examples.expanded with
    | Some (_, s') => s'
    | None => Examples.expanded
    end.

Lemma draw_twice_same_elements_witness :
  exists s2, draw 4 0 0 1 firstDraw = Some (tt, s2) /\
    elems s2 = elems firstDraw /\ nextElem s2 = nextElem firstDraw.
Proof.
  assert (draw_inv Examples.expanded 0) as Hinv by (split; by_compute).
  apply (draw_twice_same_elements 4 Examples.expanded 0 0 0 1 0 0 firstDraw Hinv);
    [reflexivity|vm_compute; lia|vm_compute; reflexivity|reflexivity|vm_compute; lia].
Defined.

Lemma redraw_replays_origin_witness :
  exists d d1 lv,
    nodes Examples.expanded !! 0%nat = Some d /\ nodes firstDraw !! 0%nat = Some d1 /\
    lastContainer d1 = Some 0%nat /\ lastViewport d1 = Some lv /\ lv <> 0%nat /\
    viewports firstDraw !! lv = Some (0, 0) /\
    viewports firstDraw !! 0%nat =
      Some (if children d is [] then (0, 0)
            else (0 + widths firstDraw (children d), 0 + (NODE_HEIGHT + NODE_MARGIN_Y))) /\
    (forall f', redraw f' 0 firstDraw = draw f' 0 0 lv firstDraw) /\
    exists s2, redraw 4 0 firstDraw = Some (tt, s2) /\ elems s2 = elems firstDraw.
Proof.
  assert (draw_inv Examples.expanded 0) as Hinv by (split; by_compute).
  apply (redraw_replays_origin 4 Examples.expanded 0 0 0 0 0 firstDraw Hinv);
    [reflexivity|vm_compute; lia|vm_compute; reflexivity].
Defined.

(** * Further properties of tree.js *)

(** ** The width cache *)

(** X1: whatever [getRequiredWidth] returns is cached: a second call
    returns the same width and changes nothing. *)
Theorem getRequiredWidth_again f n s w s' f' :
  getRequiredWidth f n s = Some (w, s') ->
  getRequiredWidth (S f') n s' = Some (w, s').
Proof.
  intros Hrun. destruct (getRequiredWidth_result _ _ _ _ _ Hrun) as (d' & Hd' & <- & Hw).
  by apply getRequiredWidth_clean.
Qed.

(** X2: [getRequiredWidth] writes cached widths only, and only dirty ones
    of the subtree it is called on: elements, backing nodes, viewports and
    queued callbacks are the same, a node outside the subtree is the same,
    a node whose cache was clean is the same, and every other node differs
    in [requiredWidth] at most. *)
Theorem getRequiredWidth_writes_dirty_caches f n s w s' :
  tree_wf s -> getRequiredWidth f n s = Some (w, s') ->
  elems s' = elems s /\ backing s' = backing s /\ viewports s' = viewports s /\
  tasks s' = tasks s /\
  (forall m, ~ below s n m -> nodes s' !! m = nodes s !! m) /\
  (forall m d, nodes s !! m = Some d -> requiredWidth d <> -1 -> nodes s' !! m = Some d) /\
  (forall m d, nodes s !! m = Some d ->
     exists v, nodes s' !! m = Some (set_requiredWidth v d)) /\
  (forall m, nodes s !! m = None -> nodes s' !! m = None).
Proof.
  intros Hwf Hrun.
  destruct (getRequiredWidth_frame _ _ _ _ _ Hrun Hwf) as [Hs Hframe].
  pose proof Hs as (He & Hb & Hv & Ht & _ & _ & _ & Hn).
  split_and!; try done.
  - by eapply getRequiredWidth_keeps_clean.
  - intros m d Hm. by eapply same_except_width_lookup.
  - intros m Hm. specialize (Hn m). by rewrite Hm in Hn.
Qed.

(** X3: the width returned is at least [NODE_WIDTH] whenever the cache of
    the node is dirty or holds a value of at least [NODE_WIDTH]; a smaller
    cached value is returned as it is. *)
Theorem getRequiredWidth_floor f n s d w s' :
  nodes s !! n = Some d -> getRequiredWidth f n s = Some (w, s') ->
  (requiredWidth d = -1 \/ NODE_WIDTH <= requiredWidth d -> NODE_WIDTH <= w) /\
  (requiredWidth d <> -1 -> w = requiredWidth d).
Proof.
  intros Hn Hrun. destruct f as [|f]; [done|]. rewrite getRequiredWidth_unfold in Hrun.
  apply bind_inv in Hrun as (d0 & s0 & [-> Hd]%getNode_inv & Hrun).
  rewrite Hn in Hd. injection Hd as <-.
  apply bind_inv in Hrun as ([] & s4 & Hwhen & Hrun).
  apply bind_inv in Hrun as (d4 & s5 & [-> Hd4]%getNode_inv & [= <- <-]).
  destruct (Z.eqb_spec (requiredWidth d) (-1)) as [Hdirty|Hclean]; simpl in Hwhen.
  - split; [intros _|done].
    apply bind_inv in Hwhen as ([] & s1 & _ & Hwhen).
    apply bind_inv in Hwhen as ([] & s2 & _ & Hwhen).
    apply bind_inv in Hwhen as (d2 & s2' & _ & Hwhen).
    apply bind_inv in Hwhen as ([] & s3 & _ & Hwhen).
    apply bind_inv in Hwhen as (d3 & s3' & [-> Hd3]%getNode_inv & Hfloor).
    destruct (Z.ltb_spec (requiredWidth d3) NODE_WIDTH); simpl in Hfloor.
    + apply modifyNode_inv in Hfloor as (d3' & Hd3' & ->). simpl in Hd4.
      rewrite lookup_insert_eq in Hd4. injection Hd4 as <-. done.
    + injection Hfloor as <-. rewrite Hd3 in Hd4. by injection Hd4 as <-.
  - injection Hwhen as <-. rewrite Hn in Hd4. injection Hd4 as <-.
    split; [|done]. intros [?|?]; done.
Qed.

(** ** The width of a subtree *)

(** The width the layout asks for, as a function of the tree alone:
    [NODE_WIDTH] at least, and otherwise the widths of the children's
    subtrees with a margin between neighbours. *)
Fixpoint treeWidth (f : nat) (s : State) (n : nat) : Z :=
  match f with
  | O => NODE_WIDTH
  | S f' =>
      match nodes s !! n with
      | Some d =>
          Z.max NODE_WIDTH
            (sumZ (map (treeWidth f' s) (children d)) +
             (if children d is [] then 0
              else NODE_MARGIN_X * (Z.of_nat (length (children d)) - 1)))
      | None => NODE_WIDTH
      end
  end.

Definition subtreeWidth (s : State) (n : nat) : Z := treeWidth (nextNode s) s n.

(** A cache is valid when it is dirty or holds the width of the subtree. *)
Definition cache_valid (s : State) (m : nat) (d : DrawingTreeNode) : Prop :=
  requiredWidth d = -1 \/ requiredWidth d = subtreeWidth s m.

(** [inTree s a m]: node [m] is reached from [a] through child lists. *)
Inductive inTree (s : State) (a : nat) : nat -> Prop :=
  | inTree_refl : inTree s a a
  | inTree_step d c m :
      nodes s !! a = Some d -> c ∈ children d -> inTree s c m -> inTree s a m.

Definition caches_valid (s : State) (n : nat) : Prop :=
  forall m d, inTree s n m -> nodes s !! m = Some d -> cache_valid s m d.

Lemma inTree_below s a m : tree_wf s -> inTree s a m -> below s a m.
Proof.
  intros Hwf. induction 1 as [|a d c m Ha Hc _ IH]; [constructor|].
  eapply below_trans; [|exact IH]. by eapply below_child.
Qed.

Lemma inTree_same_children s s' a m :
  (forall k, children <$> nodes s' !! k = children <$> nodes s !! k) ->
  inTree s a m -> inTree s' a m.
Proof.
  intros Hsame. induction 1 as [|a d c m Ha Hc _ IH]; [constructor|].
  pose proof (Hsame a) as Hk. rewrite Ha in Hk. simpl in Hk.
  destruct (nodes s' !! a) as [d'|] eqn:Ha'; [|done]. simpl in Hk.
  eapply inTree_step; [exact Ha'| |exact IH]. congruence.
Qed.

Lemma same_except_width_children s s' k :
  same_except_width s s' -> children <$> nodes s' !! k = children <$> nodes s !! k.
Proof.
  intros (_&_&_&_&_&_&_&Hn). specialize (Hn k). destruct (nodes s !! k) as [d|].
  - destruct Hn as [w ->]. done.
  - by rewrite Hn.
Qed.

Lemma inTree_same_except_width s s' a m :
  same_except_width s s' -> inTree s a m <-> inTree s' a m.
Proof.
  intros Hs. split; apply inTree_same_children; intros k.
  - by apply same_except_width_children.
  - symmetry. by apply same_except_width_children.
Qed.

#[export] Instance cache_valid_dec s m d : Decision (cache_valid s m d).
Proof. unfold cache_valid. apply _. Defined.

Lemma treeWidth_fuel s :
  tree_wf s ->
  forall g g' m, (nextNode s <= g + m)%nat -> (nextNode s <= g' + m)%nat ->
    treeWidth g s m = treeWidth g' s m.
Proof.
  intros Hwf. induction g as [|g IH]; intros g' m Hg Hg'.
  - destruct g' as [|g']; [done|]. simpl. destruct (nodes s !! m) as [d|] eqn:Hd; [|done].
    destruct (Hwf _ _ Hd) as [? _]. lia.
  - destruct g' as [|g'].
    + simpl. destruct (nodes s !! m) as [d|] eqn:Hd; [|done].
      destruct (Hwf _ _ Hd) as [? _]. lia.
    + simpl. destruct (nodes s !! m) as [d|] eqn:Hd; [|done].
      do 3 f_equal. apply map_ext_in. intros c Hc%list_elem_of_In.
      destruct (tree_wf_child _ _ _ _ Hwf Hd Hc) as [Hlt _]. apply IH; lia.
Qed.

Lemma subtreeWidth_unfold s n d :
  tree_wf s -> nodes s !! n = Some d ->
  subtreeWidth s n =
  Z.max NODE_WIDTH
    (sumZ (map (subtreeWidth s) (children d)) +
     (if children d is [] then 0
      else NODE_MARGIN_X * (Z.of_nat (length (children d)) - 1))).
Proof.
  intros Hwf Hd. unfold subtreeWidth.
  rewrite (treeWidth_fuel s Hwf (nextNode s) (S (nextNode s)) n) by lia.
  simpl. by rewrite Hd.
Qed.

Lemma treeWidth_same_except_width s s' :
  same_except_width s s' -> forall f n, treeWidth f s' n = treeWidth f s n.
Proof.
  intros Hs. induction f as [|f IH]; intros n; [done|]. simpl.
  pose proof Hs as (_&_&_&_&_&_&_&Hn). specialize (Hn n).
  destruct (nodes s !! n) as [d|].
  - destruct Hn as [w ->]. simpl. do 3 f_equal. by apply map_ext.
  - by rewrite Hn.
Qed.

Lemma subtreeWidth_same_except_width s s' n :
  same_except_width s s' -> subtreeWidth s' n = subtreeWidth s n.
Proof.
  intros Hs. unfold subtreeWidth. pose proof Hs as (_&_&_&_&->&_).
  by apply treeWidth_same_except_width.
Qed.

(** What a run of [getRequiredWidth] leaves in the nodes when the caches of
    the subtree were valid: a node is as before, or its cache is valid. *)
Definition kept_or_valid (s s' : State) : Prop :=
  forall k dk, nodes s' !! k = Some dk -> nodes s !! k = Some dk \/ cache_valid s k dk.

Section WidthValid.
Context (f : nat) (this : nat) (d0 : DrawingTreeNode) (s0 : State).
Context (IH : forall s n w s', getRequiredWidth f n s = Some (w, s') -> tree_wf s ->
                caches_valid s n -> kept_or_valid s s').
Context (Hwf0 : tree_wf s0) (Hthis0 : nodes s0 !! this = Some d0).
Context (Hvalid0 : caches_valid s0 this).

Lemma width_loop_valid cs s acc s' :
  forM_ (width_body f this) cs s = Some (tt, s') ->
  same_except_width s0 s ->
  (forall c, c ∈ cs -> c ∈ children d0) ->
  nodes s !! this = Some (set_requiredWidth acc d0) ->
  (forall k dk, k <> this -> nodes s !! k = Some dk ->
     nodes s0 !! k = Some dk \/ cache_valid s0 k dk) ->
  same_except_width s0 s' /\
  nodes s' !! this = Some (set_requiredWidth (acc + sumZ (map (subtreeWidth s0) cs)) d0) /\
  (forall k dk, k <> this -> nodes s' !! k = Some dk ->
     nodes s0 !! k = Some dk \/ cache_valid s0 k dk).
Proof.
  revert s acc. induction cs as [|c cs IHcs]; intros s acc Hrun Hs Hcs Hthis HJ;
    simpl in Hrun.
  - injection Hrun as <-. simpl. by rewrite Z.add_0_r.
  - apply bind_inv in Hrun as ([] & s3 & Hbody & Hrun). unfold width_body in Hbody.
    apply bind_inv in Hbody as (d & s1' & [-> Hd]%getNode_inv & Hbody).
    apply bind_inv in Hbody as (w & s1 & Hw & Hbody).
    apply modifyNode_inv in Hbody as (d1 & Hd1 & ->).
    rewrite Hthis in Hd. injection Hd as <-.
    assert (tree_wf s) as Hwf by by eapply tree_wf_same_except_width.
    assert (c ∈ children d0) as Hc by (apply Hcs; left).
    destruct (tree_wf_child _ _ _ _ Hwf0 Hthis0 Hc) as [Hlt _].
    assert (forall n, subtreeWidth s n = subtreeWidth s0 n) as Hsw
      by (intros n; by apply subtreeWidth_same_except_width).
    assert (caches_valid s c) as Hvc.
    { intros m dm Hm Hdm. unfold cache_valid. rewrite Hsw.
      apply (inTree_same_except_width _ _ _ _ Hs) in Hm.
      assert (m <> this) as Hne.
      { intros ->. pose proof (below_le _ _ _ Hwf0 (inTree_below _ _ _ Hwf0 Hm)). lia. }
      destruct (HJ _ _ Hne Hdm) as [Hsame|Hv]; [|done].
      apply (Hvalid0 m dm); [|done]. by eapply inTree_step. }
    pose proof (IH _ _ _ _ Hw Hwf Hvc) as Hkv.
    destruct (getRequiredWidth_frame _ _ _ _ _ Hw Hwf) as [Hs1 Hf1].
    destruct (getRequiredWidth_result _ _ _ _ _ Hw) as (dc & Hdc & Hrw & Hne1).
    assert (nodes s1 !! this = Some (set_requiredWidth acc d0)) as Hthis1.
    { rewrite Hf1; [done|]. intros Hb. pose proof (below_le _ _ _ Hwf Hb). lia. }
    rewrite Hthis1 in Hd1. injection Hd1 as <-.
    assert (forall k dk, k <> this -> nodes s1 !! k = Some dk ->
              nodes s0 !! k = Some dk \/ cache_valid s0 k dk) as HJ1.
    { intros k dk Hne Hk. destruct (Hkv _ _ Hk) as [Hsame|Hv].
      - by apply HJ.
      - right. unfold cache_valid in *. by rewrite <- Hsw. }
    assert (w = subtreeWidth s0 c) as ->.
    { assert (c <> this) as Hne by lia.
      destruct (HJ1 _ _ Hne Hdc) as [Hsame|[Hv|Hv]]; [|congruence|congruence].
      destruct (Hvalid0 c dc) as [Hv|Hv]; [|done|congruence|congruence].
      eapply inTree_step; [done|done|constructor]. }
    simpl in Hrun.
    match type of Hrun with _ ?st = _ => set (s2 := st) in * end.
    assert (same_except_width s0 s2) as Hs2.
    { eapply same_except_width_trans; [exact Hs|].
      eapply same_except_width_trans; [exact Hs1|]. by apply same_except_width_set. }
    destruct (IHcs s2 (acc + subtreeWidth s0 c) Hrun Hs2) as (Hs' & Hthis' & HJ').
    + intros c' Hc'. apply Hcs. by right.
    + unfold s2. simpl. by rewrite lookup_insert_eq.
    + intros k dk Hne Hk. unfold s2 in Hk. simpl in Hk.
      rewrite lookup_insert_ne in Hk by done. by apply HJ1.
    + split_and!; [done| |done]. rewrite Hthis'. simpl. do 2 f_equal. lia.
Qed.

End WidthValid.

Lemma getRequiredWidth_kept_or_valid f :
  forall s n w s', getRequiredWidth f n s = Some (w, s') -> tree_wf s ->
    caches_valid s n -> kept_or_valid s s'.
Proof.
  induction f as [|f IH]; intros s n w s' Hrun Hwf Hvalid; [done|].
  rewrite getRequiredWidth_unfold in Hrun.
  apply bind_inv in Hrun as (d & s0 & [-> Hd]%getNode_inv & Hrun).
  apply bind_inv in Hrun as ([] & s4 & Hwhen & Hrun).
  apply bind_inv in Hrun as (d4 & s5 & [-> Hd4]%getNode_inv & [= <- <-]).
  destruct (Z.eqb_spec (requiredWidth d) (-1)) as [Hdirty|Hclean]; simpl in Hwhen; cycle 1.
  { injection Hwhen as <-. intros k dk Hk. by left. }
  apply bind_inv in Hwhen as ([] & s1 & (d0 & Hd0 & ->)%modifyNode_inv & Hwhen).
  rewrite Hd in Hd0. injection Hd0 as <-.
  set (s1 := with_nodes _ s) in *.
  assert (same_except_width s s1) as Hs1 by by apply same_except_width_set.
  apply bind_inv in Hwhen as ([] & s2 & Hloop & Hwhen).
  destruct (width_loop_valid f n d s IH Hwf Hd Hvalid (children d) s1 0 s2 Hloop Hs1)
    as (Hs2 & Hthis2 & HJ2); [done|unfold s1; simpl; by rewrite lookup_insert_eq| |].
  { intros k dk Hne Hk. unfold s1 in Hk. simpl in Hk.
    rewrite lookup_insert_ne in Hk by done. by left. }
  apply bind_inv in Hwhen as (d2 & s2' & [-> Hd2]%getNode_inv & Hwhen).
  rewrite Hthis2 in Hd2. injection Hd2 as <-.
  change (children (set_requiredWidth _ d)) with (children d) in Hwhen.
  change (requiredWidth (set_requiredWidth ?v d)) with v in Hwhen.
  set (total := sumZ (map (subtreeWidth s) (children d)) +
                (if children d is [] then 0
                 else NODE_MARGIN_X * (Z.of_nat (length (children d)) - 1))).
  apply bind_inv in Hwhen as ([] & s3 & Hmargin & Hwhen).
  assert (nodes s3 !! n = Some (set_requiredWidth total d) /\
          forall k, k <> n -> nodes s3 !! k = nodes s2 !! k) as [Hthis3 Hother3].
  { unfold total. destruct (children d) as [|c cs] eqn:Hcs; simpl in Hmargin.
    - injection Hmargin as <-. split; [|done]. rewrite Hthis2. do 2 f_equal; simpl; lia.
    - apply modifyNode_inv in Hmargin as (d3 & Hd3 & ->).
      rewrite Hthis2 in Hd3. injection Hd3 as <-. simpl. split.
      + rewrite lookup_insert_eq. unfold set_requiredWidth. simpl. do 3 f_equal; lia.
      + intros k Hk. by rewrite lookup_insert_ne. }
  apply bind_inv in Hwhen as (d3 & s3' & [-> Hd3]%getNode_inv & Hfloor).
  rewrite Hthis3 in Hd3. injection Hd3 as <-.
  change (requiredWidth (set_requiredWidth total d)) with total in Hfloor.
  assert (nodes s4 !! n = Some (set_requiredWidth (subtreeWidth s n) d) /\
          forall k, k <> n -> nodes s4 !! k = nodes s3 !! k) as [Hthis4 Hother4].
  { rewrite (subtreeWidth_unfold s n d Hwf Hd). fold total.
    destruct (Z.ltb_spec total NODE_WIDTH); simpl in Hfloor.
    - apply modifyNode_inv in Hfloor as (d3' & Hd3' & ->). simpl. split.
      + rewrite lookup_insert_eq. rewrite Hthis3 in Hd3'. injection Hd3' as <-.
        unfold set_requiredWidth. simpl. do 3 f_equal; lia.
      + intros k Hk. by rewrite lookup_insert_ne.
    - injection Hfloor as <-. split; [|done]. rewrite Hthis3. do 2 f_equal; lia. }
  intros k dk Hk. destruct (decide (k = n)) as [->|Hne].
  - right. rewrite Hthis4 in Hk. injection Hk as <-. by right.
  - rewrite Hother4, Hother3 in Hk by done. by apply HJ2.
Qed.

(** X4: when every cache in the subtree of a node is dirty or holds the
    width of its own subtree, [getRequiredWidth] returns the width of the
    subtree, [subtreeWidth], and the caches are valid afterwards too. *)
Theorem getRequiredWidth_subtreeWidth f s n :
  tree_wf s -> is_Some (nodes s !! n) -> (nextNode s <= f + n)%nat ->
  caches_valid s n ->
  exists s', getRequiredWidth f n s = Some (subtreeWidth s n, s') /\
    caches_valid s' n /\
    forall m, subtreeWidth s' m = subtreeWidth s m.
Proof.
  intros Hwf Hn Hfuel Hvalid. pose proof Hn as [d Hd].
  destruct (getRequiredWidth_total f s n Hwf Hn Hfuel) as (w & s' & Hrun & Hs & _).
  pose proof (getRequiredWidth_kept_or_valid _ _ _ _ _ Hrun Hwf Hvalid) as Hkv.
  assert (forall m, subtreeWidth s' m = subtreeWidth s m) as Hsw
    by (intros m; by apply subtreeWidth_same_except_width).
  assert (caches_valid s' n) as Hvalid'.
  { intros m dm Hm Hdm. unfold cache_valid. rewrite Hsw.
    destruct (Hkv _ _ Hdm) as [Hsame|Hv]; [|done].
    apply (Hvalid m dm); [|done]. by apply (inTree_same_except_width _ _ _ _ Hs). }
  destruct (getRequiredWidth_result _ _ _ _ _ Hrun) as (d' & Hd' & Hrw & Hne).
  assert (w = subtreeWidth s n) as ->.
  { destruct (Hvalid' n d') as [Hv|Hv]; [constructor|done|congruence|]. by rewrite <- Hsw, <- Hv. }
  by exists s'.
Qed.

Lemma caches_valid_all s n : map_Forall (cache_valid s) (nodes s) -> caches_valid s n.
Proof. intros H m d _ Hm. by apply (H m d). Qed.

(** ** [expand] and the width cache *)

(** X5: [expand] does not touch the cached width: on a node whose cache is
    clean, [getRequiredWidth] after [expand] still returns the width cached
    before, whatever children the node has now.  (The click handler calls
    [invalidate] after [expand] for this reason.) *)
Theorem expand_keeps_cached_width rank s this d r f f' :
  ids_fresh s -> backing_ranked rank s -> nodes s !! this = Some d ->
  is_Some (backing s !! innerNode d) ->
  Forall (fun x => is_Some (backing s !! x) /\ (2 * rank x + 3 <= f)%nat) (nodeChildren d) ->
  (1 <= f)%nat -> requiredWidth d <> -1 ->
  exists s' d',
    expand f this r s = Some (tt, s') /\ nodes s' !! this = Some d' /\
    length (children d') = length (nodeChildren d) /\
    requiredWidth d' = requiredWidth d /\
    getRequiredWidth (S f') this s' = Some (requiredWidth d, s').
Proof.
  intros Hfresh Hrank Hd Hb Hxs Hf Hclean.
  destruct (expand_children rank s this d r f Hfresh Hrank Hd Hb Hxs Hf)
    as (s' & cs & Hrun & _ & Hnew & Hcs & _).
  exists s', (set_isExpanded true (set_children cs d)). split_and!; try done.
  - simpl. by eapply Forall2_length.
  - by apply (getRequiredWidth_clean _ _ _ _ Hnew).
Qed.

(** ** The connectors *)

(** X6: each connector is created on first use and kept: [getChildBar],
    [getHorizontalBar] and [getParentBar] return the element stored in the
    node when there is one and change nothing; otherwise they create a
    detached [div] of class "vertical" ("horizontal" for the horizontal
    bar), store it, and the next call returns that same element without
    creating another. *)
Theorem connectors_created_once s n d :
  nodes s !! n = Some d ->
  let created cls get set (s' : State) :=
    nodes s' = <[n := set (Some (nextElem s)) d]> (nodes s) /\
    elems s' = <[nextElem s := set_className cls blankElement]> (elems s) /\
    nextElem s' = S (nextElem s) /\
    get n s' = Some (nextElem s, s') in
  (match childBar d with
   | Some e => getChildBar n s = Some (e, s)
   | None => exists s', getChildBar n s = Some (nextElem s, s') /\
                        created "vertical" getChildBar set_childBar s'
   end) /\
  (match horizontalBar d with
   | Some e => getHorizontalBar n s = Some (e, s)
   | None => exists s', getHorizontalBar n s = Some (nextElem s, s') /\
                        created "horizontal" getHorizontalBar set_horizontalBar s'
   end) /\
  (match parentBar d with
   | Some e => getParentBar n s = Some (e, s)
   | None => exists s', getParentBar n s = Some (nextElem s, s') /\
                        created "vertical" getParentBar set_parentBar s'
   end).
Proof.
  intros Hd. simpl. split_and!.
  - destruct (childBar d) as [e|] eqn:Hb; [by eapply getChildBar_present|].
    eexists. split.
    + unfold getChildBar, createElement. mstep. rewrite Hb. mstep. mstep. mstep. reflexivity.
    + simpl. split_and!; try done.
      apply (getChildBar_present _ _ (set_childBar (Some (nextElem s)) d)); [|done].
      simpl. by rewrite lookup_insert_eq.
  - destruct (horizontalBar d) as [e|] eqn:Hb; [by eapply getHorizontalBar_present|].
    eexists. split.
    + unfold getHorizontalBar, createElement. mstep. rewrite Hb. mstep. mstep. mstep.
      reflexivity.
    + simpl. split_and!; try done.
      apply (getHorizontalBar_present _ _ (set_horizontalBar (Some (nextElem s)) d)); [|done].
      simpl. by rewrite lookup_insert_eq.
  - destruct (parentBar d) as [e|] eqn:Hb; [by eapply getParentBar_present|].
    eexists. split.
    + unfold getParentBar, createElement. mstep. rewrite Hb. mstep. mstep. mstep. reflexivity.
    + simpl. split_and!; try done.
      apply (getParentBar_present _ _ (set_parentBar (Some (nextElem s)) d)); [|done].
      simpl. by rewrite lookup_insert_eq.
Qed.

(** ** Refreshing a node that is not shown *)

(** X7: when a node has no representation, or its representation is not
    attached to a parent, [updateRepresentation] replaces nothing: the
    state is unchanged except that the callback for the children is queued. *)
Theorem updateRepresentation_detached s this d :
  nodes s !! this = Some d ->
  match representation d with
  | None => True
  | Some r => exists x, elems s !! r = Some x /\ parentNode x = None
  end ->
  updateRepresentation this s = Some (tt, with_tasks (tasks s ++ [this]) s).
Proof.
  intros Hd Hr. unfold updateRepresentation.
  rewrite (bind_eq _ _ _ _ _ (getNode_eq _ _ _ Hd)).
  destruct (representation d) as [r|]; [|done].
  destruct Hr as (x & Hx & Hp).
  unfold bind at 1. unfold bind at 1. rewrite (getElem_eq _ _ _ Hx). by rewrite Hp.
Qed.

(** ** Invalidating before the first draw *)

(** X8: [invalidate] ends in [redraw] at the root, and [redraw] reads the
    viewport recorded by the last [draw]: when the root was never drawn
    there is none and the call fails ([draw] reads [viewport.x] of
    [undefined]), from every node of the tree. *)
Theorem invalidate_needs_drawn_root s n l r dr f :
  parent_chain s n l r -> nodes s !! r = Some dr -> lastViewport dr = None ->
  invalidate f n s = None.
Proof.
  intros Hl Hr Hlast. revert f.
  assert (forall f, invalidate (length l + f) n s = None) as Hfail.
  { intros f. rewrite (invalidate_chain _ _ _ _ _ Hl). unfold redraw.
    assert (exists dr', nodes (markDirty l s) !! r = Some dr' /\ lastViewport dr' = None)
      as (dr' & Hr' & Hlast').
    { rewrite markDirty_lookup. rewrite Hr. case_decide; simpl; eauto. }
    rewrite (bind_eq _ _ _ _ _ (getNode_eq _ _ _ Hr')). by rewrite Hlast'. }
  intros f. destruct (decide (length l <= f)%nat) as [Hle|Hgt].
  - replace f with (length l + (f - length l))%nat by lia. apply Hfail.
  - clear Hfail Hr Hlast. revert n s l Hl Hgt.
    induction f as [|f IH]; intros n s l Hl Hgt; [done|]. simpl.
    destruct Hl as [n d Hn Hp|n d p l r Hn Hp Hl]; [simpl in Hgt; lia|].
    rewrite (bind_eq _ _ _ _ _ (modifyNode_eq _ _ _ _ Hn)).
    match goal with |- bind _ _ ?st = _ => set (s1 := st) end.
    assert (nodes s1 !! n = Some (set_requiredWidth (-1) d)) as Hn1
      by (unfold s1; simpl; by rewrite lookup_insert_eq).
    rewrite (bind_eq _ _ _ _ _ (getNode_eq _ _ _ Hn1)).
    change (parent (set_requiredWidth (-1) d)) with (parent d). rewrite Hp.
    apply (IH p s1 l); [|simpl in Hgt; lia].
    eapply parent_chain_same_parents; [|exact Hl].
    intros m. unfold s1. simpl. destruct (decide (n = m)) as [->|Hne].
    + by rewrite lookup_insert_eq, Hn.
    + by rewrite lookup_insert_ne.
Qed.

(** ** What [draw] leaves on the page *)

Lemma last_default {A} (l : list A) (a : A) x : last l = Some x -> List.last l a = x.
Proof.
  revert a. induction l as [|b l IH]; intros a; [done|].
  destruct l as [|b' l']; [by intros [= <-]|]. intros H.
  change (List.last (b' :: l') a = x). by apply IH.
Qed.

(** After [draw] at origin [(x, y)] the representation of the node is
    in the container at [(x, y)] with class "node" or "node collapsed"
    according to [isExpanded]; when the node has children, its child bar
    is in the container at [(x + NODE_WIDTH / 2, y + NODE_HEIGHT)] and its
    horizontal bar at [(x + NODE_WIDTH / 2, y + NODE_HEIGHT + NODE_MARGIN_Y / 2)],
    as wide as the node's cached width less the cached width of the last
    child. *)
Lemma draw_node_placed f s n c vp x y s' :
  draw_inv s c -> viewports s !! vp = Some (x, y) -> (vp < nextViewport s)%nat ->
  draw f n c vp s = Some (tt, s') ->
  exists d e el,
    nodes s' !! n = Some d /\ representation d = Some e /\ elems s' !! e = Some el /\
    className el = nodeClass (isExpanded d) /\
    styleLeft el = px x /\ styleTop el = px y /\ parentNode el = Some c /\
    (children d <> [] ->
     exists vb hb elv elh lastChild dl,
       childBar d = Some vb /\ elems s' !! vb = Some elv /\
       styleLeft elv = px_plus x (half NODE_WIDTH) /\
       styleTop elv = px (y + NODE_HEIGHT) /\ parentNode elv = Some c /\
       horizontalBar d = Some hb /\ elems s' !! hb = Some elh /\
       last (children d) = Some lastChild /\ nodes s' !! lastChild = Some dl /\
       styleWidth elh = px (requiredWidth d - requiredWidth dl) /\
       styleLeft elh = px_plus x (half NODE_WIDTH) /\
       styleTop elh = px_plus (y + NODE_HEIGHT) (half NODE_MARGIN_Y) /\
       parentNode elh = Some c).
Proof.
  intros Hinv Hvp Hlt Hrun.
  destruct (draw_spec f s n c vp x y s' Hrun Hinv Hvp Hlt) as (_ & _ & HD & _).
  destruct f as [|f]; [done|].
  destruct HD as (d & e & Hd & Hr & (el & Hel & Hlook) & Hch).
  unfold rep_look, visual in Hlook. destruct Hlook as (Hcl & Hl & Ht & Hp).
  exists d, e, el. split_and!; try done. intros Hne.
  destruct (children d) as [|first rest] eqn:Hcs; [done|].
  destruct Hch as (_ & dl & vb & hb & Hdl & Hvb & (elv & Helv & Hlookv) & Hhb &
                   (elh & Helh & Hlookh) & _).
  unfold bar_look, visual in Hlookv. destruct Hlookv as (Hlv & Htv & Hpv).
  unfold hbar_look, visual in Hlookh. destruct Hlookh as (Hwh & Hlh & Hth & Hph).
  destruct (last (first :: rest)) as [lc|] eqn:Hlast; [|by apply last_None in Hlast].
  rewrite (last_default _ first lc Hlast) in Hdl.
  exists vb, hb, elv, elh, lc, dl. split_and!; done.
Qed.

Lemma drawnChildren_nth D s c cs :
  forall x y i ch, drawnChildren D s c cs x y -> cs !! i = Some ch ->
    exists dc pb,
      nodes s !! ch = Some dc /\ requiredWidth dc <> -1 /\ parentBar dc = Some pb /\
      shows s pb (bar_look (px_plus (x + widths s (take i cs)) (half NODE_WIDTH))
                           (px_plus y (- half NODE_MARGIN_Y)) c) /\
      D ch (x + widths s (take i cs)) y.
Proof.
  induction cs as [|a cs IH]; intros x y i ch H Hi; [done|].
  destruct H as (dc & pb & Hdc & Hrw & Hpb & Hshow & HD & Hrest).
  destruct i as [|i]; simpl in Hi.
  - injection Hi as <-. exists dc, pb. simpl. unfold widths. simpl. rewrite Z.add_0_r. done.
  - destruct (IH _ _ i ch Hrest Hi) as (dc' & pb' & H1 & H2 & H3 & H4 & H5).
    exists dc', pb'. simpl. rewrite (widths_cons _ _ _ _ Hdc).
    replace (x + (requiredWidth dc + NODE_MARGIN_X + widths s (take i cs)))
      with (x + (requiredWidth dc + NODE_MARGIN_X) + widths s (take i cs)) by lia.
    done.
Qed.

(** After [draw] at origin [(x, y)] the children stand in one row,
    [NODE_HEIGHT + NODE_MARGIN_Y] below the node, from left to right: child
    number [i] is at [x] plus the cached widths of the children before it,
    each with a margin of [NODE_MARGIN_X]; its cached width is clean, and
    its parent bar is in the container above its middle. *)
Lemma draw_children_placed f s n c vp x y s' :
  draw_inv s c -> viewports s !! vp = Some (x, y) -> (vp < nextViewport s)%nat ->
  draw f n c vp s = Some (tt, s') ->
  exists d, nodes s' !! n = Some d /\
    forall i ch, children d !! i = Some ch ->
      let xi := x + widths s' (take i (children d)) in
      let yi := y + (NODE_HEIGHT + NODE_MARGIN_Y) in
      exists dc e el pb elp,
        nodes s' !! ch = Some dc /\ requiredWidth dc <> -1 /\
        representation dc = Some e /\ elems s' !! e = Some el /\
        className el = nodeClass (isExpanded dc) /\
        styleLeft el = px xi /\ styleTop el = px yi /\ parentNode el = Some c /\
        parentBar dc = Some pb /\ elems s' !! pb = Some elp /\
        styleLeft elp = px_plus xi (half NODE_WIDTH) /\
        styleTop elp = px_plus yi (- half NODE_MARGIN_Y) /\ parentNode elp = Some c.
Proof.
  intros Hinv Hvp Hlt Hrun.
  destruct (draw_spec f s n c vp x y s' Hrun Hinv Hvp Hlt) as (_ & _ & HD & _).
  destruct f as [|f]; [done|].
  destruct HD as (d & e & Hd & Hr & _ & Hch).
  exists d. split; [done|]. intros i ch Hi. simpl.
  destruct (children d) as [|first rest] eqn:Hcs; [done|].
  destruct Hch as (_ & _ & _ & _ & _ & _ & _ & _ & _ & Hkids).
  destruct (drawnChildren_nth _ _ _ _ _ _ i ch Hkids Hi)
    as (dc & pb & Hdc & Hrw & Hpb & (elp & Help & Hlookp) & HDc).
  unfold bar_look, visual in Hlookp. destruct Hlookp as (Hlp & Htp & Hpp).
  destruct f as [|f]; [done|].
  destruct HDc as (dc' & ec & Hdc' & Hrc & (elc & Helc & Hlookc) & _).
  rewrite Hdc in Hdc'. injection Hdc' as <-.
  unfold rep_look, visual in Hlookc. destruct Hlookc as (Hcl & Hl & Ht & Hp).
  exists dc, ec, elc, pb, elp. split_and!; done.
Qed.

(** [draw] on a node stays inside its subtree: a node that is not
    below it is unchanged, no node is created, an element held by a node
    outside the subtree keeps its class, position, width and parent, and so
    does the parent bar of the node itself; of the viewports only the one
    passed is written. *)
Lemma draw_frame f s n c vp x y s' :
  draw_inv s c -> viewports s !! vp = Some (x, y) -> (vp < nextViewport s)%nat ->
  draw f n c vp s = Some (tt, s') ->
  nextNode s' = nextNode s /\
  (forall m, ~ below s n m -> nodes s' !! m = nodes s !! m) /\
  (forall m d r e, nodes s !! m = Some d -> handle d r = Some e ->
     ~ below s n m \/ (m = n /\ r = RParentBar) ->
     visual <$> elems s' !! e = visual <$> elems s !! e) /\
  (forall v, (v < nextViewport s)%nat -> v <> vp -> viewports s' !! v = viewports s !! v).
Proof.
  intros Hinv Hvp Hlt Hrun.
  destruct (draw_spec f s n c vp x y s' Hrun Hinv Hvp Hlt) as (_ & Hd & _).
  pose proof Hinv as [_ Hok]. split_and!.
  - apply (draws_nextNode _ _ _ _ Hd).
  - intros m Hm. pose proof (draws_nodes _ _ _ _ Hd m) as Hn.
    destruct (nodes s !! m) as [d|]; [|done].
    destruct Hn as (d' & -> & _ & _ & _ & _ & Hsame). f_equal. apply Hsame.
    intros r [Hb _]. done.
  - intros m d r e Hm Hr Hout.
    destruct (handles_ok_inv _ _ _ _ _ _ Hok Hm Hr) as (_ & He & Hinj).
    apply (draws_elems _ _ _ _ Hd); [done|]. intros m' d' r' [Hb Hnot] Hm' Hr'.
    destruct (Hinj _ _ _ Hm' Hr') as [<- <-]. destruct Hout as [Hout|Hout]; done.
  - intros v Hv Hne. apply (draws_viewports _ _ _ _ Hd); [done|].
    intros [?|?]; [done|lia].
Qed.

(** ** What [collapse] removes from the page *)

Definition detached (s : State) (e : nat) : Prop :=
  exists x, elems s !! e = Some x /\ parentNode x = None.

(** Node [n] holds an element in role [r], and it is off the page. *)
Definition off (s : State) (n : nat) (r : Role) : Prop :=
  exists d e, nodes s !! n = Some d /\ handle d r = Some e /\ detached s e.

Definition childless (s : State) (n : nat) : Prop :=
  exists d, nodes s !! n = Some d /\ children d = [].

(** A node that [collapse(true)] is done with: no children, and a
    representation and three connectors that are all off the page. *)
Definition removed (s : State) (m : nat) : Prop :=
  childless s m /\ forall r, off s m r.

(** What a step of [collapse] may do: a node keeps the handles it has, and
    loses its child list only when the children are [removed]; an element
    that is off the page stays off the page. *)
Definition drops (s s' : State) : Prop :=
  (forall m d, nodes s !! m = Some d ->
     exists d', nodes s' !! m = Some d' /\
       (forall r e, handle d r = Some e -> handle d' r = Some e) /\
       (children d' = children d \/
        (children d' = [] /\ forall c, c ∈ children d -> removed s' c))) /\
  (forall e, detached s e -> detached s' e).

Lemma drops_refl s : drops s s.
Proof. split; [|done]. intros m d Hm. exists d. auto. Qed.

Lemma off_drops s s' n r : drops s s' -> off s n r -> off s' n r.
Proof.
  intros [Hn He] (d & e & Hd & Hr & Hdet). destruct (Hn _ _ Hd) as (d' & Hd' & Hmono & _).
  exists d', e. auto.
Qed.

Lemma childless_drops s s' n : drops s s' -> childless s n -> childless s' n.
Proof.
  intros [Hn _] (d & Hd & Hch). destruct (Hn _ _ Hd) as (d' & Hd' & _ & Hch').
  exists d'. split; [done|]. destruct Hch' as [->|[-> _]]; done.
Qed.

Lemma removed_drops s s' m : drops s s' -> removed s m -> removed s' m.
Proof.
  intros Hd [Hc Hoff]. split; [by eapply childless_drops|].
  intros r. by eapply off_drops.
Qed.

Lemma drops_trans s1 s2 s3 : drops s1 s2 -> drops s2 s3 -> drops s1 s3.
Proof.
  intros H12 H23. pose proof H12 as [Hn12 He12]. pose proof H23 as [Hn23 He23].
  split; [|auto]. intros m d1 Hm.
  destruct (Hn12 _ _ Hm) as (d2 & Hd2 & Hmono2 & Hch2).
  destruct (Hn23 _ _ Hd2) as (d3 & Hd3 & Hmono3 & Hch3).
  exists d3. split_and!; [done|auto|].
  destruct Hch2 as [Hsame|[Hnil Hrem]].
  - rewrite Hsame in Hch3. done.
  - right. split; [destruct Hch3 as [->|[-> _]]; done|].
    intros c Hc. eapply removed_drops; [exact H23|]. by apply Hrem.
Qed.

(** Steps on elements that attach nothing. *)
Lemma drops_elems s s' :
  nodes s' = nodes s ->
  (forall e, detached s e -> detached s' e) -> drops s s'.
Proof.
  intros Hn He. split; [|done]. intros m d Hm. exists d. rewrite Hn. auto.
Qed.

Lemma remove_drops s e s' :
  remove (Some e) s = Some (tt, s') ->
  drops s s' /\ detached s' e /\ nodes s' = nodes s.
Proof.
  unfold remove. intros (x & s0 & [-> Hx]%getElem_inv & Hrun)%bind_inv.
  destruct (parentNode x) as [p|] eqn:Hp; cycle 1.
  { injection Hrun as <-. split_and!; [apply drops_refl|by exists x|done]. }
  unfold removeChild in Hrun.
  apply bind_inv in Hrun as (x' & s0 & [-> Hx']%getElem_inv & Hrun).
  rewrite Hx in Hx'. injection Hx' as <-. rewrite Hp, Nat.eqb_refl in Hrun.
  apply bind_inv in Hrun as ([] & s1 & (y & Hy & ->)%modifyElem_inv & Hrun).
  apply modifyElem_inv in Hrun as (x1 & Hx1 & ->). split_and!; [|  |done].
  - apply drops_elems; [done|]. intros e0 (x0 & Hx0 & Hp0). unfold detached. simpl.
    rewrite !lookup_insert. repeat case_decide; subst; eauto.
    rewrite Hy in Hx0. injection Hx0 as <-. eauto.
  - unfold detached. simpl. rewrite lookup_insert_eq. eauto.
Qed.

Lemma getBar_drops r0 get set cls n s e s' :
  bar_field r0 get set -> getBar get set cls n s = Some (e, s') ->
  drops s s' /\ exists d', nodes s' !! n = Some d' /\ handle d' r0 = Some e.
Proof.
  intros [Hget Hset] Hrun. unfold getBar, createElement in Hrun.
  apply bind_inv in Hrun as (d & s0 & [-> Hd]%getNode_inv & Hrun).
  rewrite Hget in Hrun. destruct (handle d r0) as [e0|] eqn:Hbar.
  - injection Hrun as <- <-. split; [apply drops_refl|eauto].
  - apply bind_inv in Hrun as (e1 & s1 & [= <- <-] & Hrun).
    apply bind_inv in Hrun as ([] & s2 & (d1 & Hd1 & ->)%modifyNode_inv & Hrun).
    apply bind_inv in Hrun as ([] & s3 & (x & Hx & ->)%modifyElem_inv & [= <- <-]).
    simpl in Hd1. rewrite Hd in Hd1. injection Hd1 as <-.
    destruct (Hset (Some (nextElem s)) d) as (Hnew & Hold & Hsk & _).
    split; [split|].
    + intros m dm Hm. simpl. destruct (decide (n = m)) as [<-|Hne].
      * rewrite lookup_insert_eq. eexists. split; [done|].
        rewrite Hd in Hm. injection Hm as <-. split.
        -- intros r e' Hr. rewrite Hold; [done|]. intros ->. congruence.
        -- left. unfold skeleton in Hsk. congruence.
      * rewrite lookup_insert_ne by done. exists dm. split_and!; auto.
    + intros e0 (x0 & Hx0 & Hp0). unfold detached. simpl. simpl in Hx.
      rewrite lookup_insert_eq in Hx. injection Hx as <-.
      rewrite !lookup_insert. repeat case_decide; subst; eauto.
    + simpl. rewrite lookup_insert_eq. eauto.
Qed.

(** A connector fetched and removed is off the page. *)
Lemma getBar_remove_drops r0 get set cls n s e s1 s' :
  bar_field r0 get set -> getBar get set cls n s = Some (e, s1) ->
  remove (Some e) s1 = Some (tt, s') ->
  drops s s' /\ off s' n r0.
Proof.
  intros Hf Hget Hrem. destruct (getBar_drops _ _ _ _ _ _ _ _ Hf Hget) as (H1 & d1 & Hd1 & Hr1).
  destruct (remove_drops _ _ _ Hrem) as (H2 & Hdet & Hn).
  split; [by eapply drops_trans|]. exists d1, e. by rewrite Hn.
Qed.

(** What [collapse] has done to the node it was called on. *)
Definition collapsed_node (s : State) (this : nat) (removeSelf : bool) : Prop :=
  childless s this /\
  forall r, (removeSelf = true \/ r = RChildBar \/ r = RHorizontalBar) -> off s this r.

Section CollapseDrops.
Context (f : nat).
Context (IH : forall s this rs s', collapse f this rs s = Some (tt, s') ->
                drops s s' /\ collapsed_node s' this rs).

Lemma collapse_children_drops cs s s' :
  forM_ (fun x => collapse f x true) cs s = Some (tt, s') ->
  drops s s' /\ forall c, c ∈ cs -> removed s' c.
Proof.
  revert s. induction cs as [|c cs IHcs]; intros s Hrun; simpl in Hrun.
  - injection Hrun as <-. split; [apply drops_refl|]. by intros c Hc%elem_of_nil.
  - apply bind_inv in Hrun as ([] & s1 & Hc & Hrun).
    destruct (IH _ _ _ _ Hc) as (H1 & Hcl & Hoff).
    destruct (IHcs _ Hrun) as [H2 Hrest]. split; [by eapply drops_trans|].
    intros c' [->|Hc']%elem_of_cons; [|by apply Hrest].
    eapply removed_drops; [exact H2|]. split; [done|]. intros r. apply Hoff. by left.
Qed.

Lemma collapse_drops_step s this rs s' :
  collapse (S f) this rs s = Some (tt, s') ->
  drops s s' /\ collapsed_node s' this rs.
Proof.
  intros Hrun. simpl in Hrun.
  apply bind_inv in Hrun as ([] & sa & Hself & Hrun).
  (* the node's own representation and parent bar *)
  assert (drops s sa /\
          (rs = true -> off sa this RRepresentation /\ off sa this RParentBar))
    as [Hda Hselfa].
  { destruct rs; simpl in Hself; cycle 1.
    { injection Hself as <-. split; [apply drops_refl|done]. }
    apply bind_inv in Hself as (d & s0 & [-> Hd]%getNode_inv & Hself).
    apply bind_inv in Hself as ([] & s1 & Hrem & Hself).
    destruct (representation d) as [e|] eqn:Hr; [|done].
    destruct (remove_drops _ _ _ Hrem) as (H1 & Hdet1 & Hn1).
    apply bind_inv in Hself as (pb & s2 & Hpb & Hself).
    destruct (getBar_remove_drops RParentBar _ _ _ _ _ _ _ _ parentBar_field Hpb Hself)
      as [H2 Hoff2].
    split; [by eapply drops_trans|]. intros _. split; [|done].
    eapply off_drops; [exact H2|]. exists d, e. by rewrite Hn1. }
  (* its child bar and horizontal bar *)
  apply bind_inv in Hrun as (cb & sb0 & Hcb & Hrun).
  apply bind_inv in Hrun as ([] & sb & Hcbr & Hrun).
  destruct (getBar_remove_drops RChildBar _ _ _ _ _ _ _ _ childBar_field Hcb Hcbr)
    as [Hdb Hoffb].
  apply bind_inv in Hrun as (hb & sc0 & Hhb & Hrun).
  apply bind_inv in Hrun as ([] & sc & Hhbr & Hrun).
  destruct (getBar_remove_drops RHorizontalBar _ _ _ _ _ _ _ _ horizontalBar_field Hhb Hhbr)
    as [Hdc Hoffc].
  (* the children *)
  apply bind_inv in Hrun as (d & sc' & [-> Hd]%getNode_inv & Hrun).
  apply bind_inv in Hrun as ([] & sd & Hloop & Hrun).
  destruct (collapse_children_drops _ _ _ Hloop) as [Hdd Hkids].
  destruct (proj1 Hdd _ _ Hd) as (dd & Hdd' & Hmonod & Hchd).
  (* the fields *)
  apply bind_inv in Hrun as ([] & s1 & (d1 & Hd1 & ->)%modifyNode_inv & Hrun).
  apply bind_inv in Hrun as ([] & s2 & (d2 & Hd2 & ->)%modifyNode_inv & Hrun).
  apply bind_inv in Hrun as ([] & s3 & (d3 & Hd3 & ->)%modifyNode_inv & Hrun).
  apply bind_inv in Hrun as (d4 & s4 & [-> Hd4]%getNode_inv & Hrun).
  apply modifyBacking_inv in Hrun as (b & Hb & ->).
  rewrite Hdd' in Hd1. injection Hd1 as <-.
  simpl in Hd2. rewrite lookup_insert_eq in Hd2. injection Hd2 as <-.
  simpl in Hd3. rewrite lookup_insert_eq in Hd3. injection Hd3 as <-.
  simpl in Hd4. rewrite lookup_insert_eq in Hd4. injection Hd4 as <-.
  match goal with |- drops _ ?st /\ _ => set (s' := st) end.
  assert (nodes s' !! this = Some (set_isExpanded (Nat.eqb (length (nodeChildren dd)) 0)
            (set_requiredWidth 0 (set_children [] dd)))) as Hthis'.
  { unfold s'. simpl. rewrite !insert_insert_eq. by rewrite lookup_insert_eq. }
  assert (forall m, m <> this -> nodes s' !! m = nodes sd !! m) as Hother'.
  { intros m Hne. unfold s'. simpl. by rewrite !lookup_insert_ne. }
  assert (forall e, detached sd e -> detached s' e) as Hdet' by done.
  assert (forall m r, off sd m r -> off s' m r) as Hoff'.
  { intros m r (dm & e & Hm & Hr & Hdet). destruct (decide (m = this)) as [->|Hne].
    - rewrite Hdd' in Hm. injection Hm as <-. eexists _, e. split; [exact Hthis'|].
      split; [|by apply Hdet']. by destruct r.
    - exists dm, e. by rewrite Hother'. }
  assert (forall c, c ∈ children dd -> removed s' c) as Hkids'.
  { intros c Hc. assert (removed sd c) as [(dc & Hdcn & Hnil) Hoffc'].
    { destruct Hchd as [Heq|[Hnil _]]; [|rewrite Hnil in Hc; by apply elem_of_nil in Hc].
      apply Hkids. by rewrite <- Heq. }
    split; [|intros r; by apply Hoff'].
    destruct (decide (c = this)) as [->|Hne].
    - rewrite Hdd' in Hdcn. injection Hdcn as <-. rewrite Hnil in Hc.
      by apply elem_of_nil in Hc.
    - exists dc. by rewrite Hother'. }
  assert (drops sd s') as Hd'.
  { split; [|done]. intros m dm Hm. destruct (decide (m = this)) as [->|Hne].
    - rewrite Hdd' in Hm. injection Hm as <-. eexists. split; [exact Hthis'|].
      split; [intros r e; by destruct r|]. right. split; [done|]. exact Hkids'.
    - exists dm. rewrite Hother' by done. auto. }
  assert (drops s sd) as H0d.
  { eapply drops_trans; [exact Hda|]. eapply drops_trans; [exact Hdb|].
    eapply drops_trans; [exact Hdc|exact Hdd]. }
  split; [by eapply drops_trans|]. split; [by eexists|].
  intros r Hr. apply Hoff'.
  assert (drops sb sd) as Hbd by (eapply drops_trans; [exact Hdc|exact Hdd]).
  destruct r.
  - destruct Hr as [->|[?|?]]; try done. eapply off_drops; [|apply Hselfa; done].
    eapply drops_trans; [exact Hdb|exact Hbd].
  - exact (off_drops _ _ _ _ Hbd Hoffb).
  - exact (off_drops _ _ _ _ Hdd Hoffc).
  - destruct Hr as [->|[?|?]]; try done. eapply off_drops; [|apply Hselfa; done].
    eapply drops_trans; [exact Hdb|exact Hbd].
Qed.
End CollapseDrops.

Lemma collapse_drops f :
  forall s this rs s', collapse f this rs s = Some (tt, s') ->
    drops s s' /\ collapsed_node s' this rs.
Proof.
  induction f as [|f IH]; intros s this rs s' Hrun; [done|].
  by apply (collapse_drops_step f IH).
Qed.

Lemma removed_below s s' a m :
  drops s s' -> inTree s a m -> childless s' a -> m = a \/ removed s' m.
Proof.
  intros Hd. induction 1 as [|a d c m Ha Hc _ IH]; intros Hnil; [by left|]. right.
  destruct Hnil as (d' & Hd' & Hch').
  destruct (proj1 Hd _ _ Ha) as (d'' & Hd'' & _ & Hch).
  rewrite Hd' in Hd''. injection Hd'' as <-.
  assert (removed s' c) as Hrc.
  { destruct Hch as [Heq|[_ Hrem]]; [|by apply Hrem].
    rewrite Hch' in Heq. rewrite <- Heq in Hc. by apply elem_of_nil in Hc. }
  destruct (IH (proj1 Hrc)) as [->|Hm]; done.
Qed.

(** [collapse] takes the whole subtree off the page. *)
Lemma collapse_detaches f s this removeSelf d :
  tree_wf s -> dom_wf s -> refs_ok s -> nodes s !! this = Some d ->
  (nextNode s <= f + this)%nat ->
  exists s',
    collapse f this removeSelf s = Some (tt, s') /\
    (forall m, inTree s this m -> m <> this -> removed s' m) /\
    childless s' this /\ off s' this RChildBar /\ off s' this RHorizontalBar /\
    (removeSelf = true -> removed s' this).
Proof.
  intros Htree Hwf Hok Hd Hfuel.
  destruct (collapse_ok f s this removeSelf d Htree Hwf Hok Hd Hfuel) as (s' & d' & Hrun & _).
  destruct (collapse_drops _ _ _ _ _ Hrun) as (Hdrops & Hnil & Hoff).
  exists s'. split_and!; try done.
  - intros m Hm Hne. destruct (removed_below _ _ _ _ Hdrops Hm Hnil); done.
  - apply Hoff. auto.
  - apply Hoff. auto.
  - intros ->. split; [done|]. intros r. apply Hoff. by left.
Qed.

(** ** Well-formed pages *)

(** What the operations of the library keep: parent and child links agree,
    elements know existing parents, every node has a representation and its
    handles exist, no element is held twice or is the container, and the
    container exists. *)
Definition Inv (s : State) (c : nat) : Prop :=
  tree_wf s /\ dom_wf s /\ refs_ok s /\ handles_ok s c /\ is_Some (elems s !! c).

#[export] Instance Inv_dec s c : Decision (Inv s c).
Proof. unfold Inv. apply _. Defined.

Lemma Inv_ids_fresh s c : Inv s c -> ids_fresh s.
Proof. intros (Ht & Hd & _). by apply ids_fresh_wf. Qed.

Lemma Inv_draw_inv s c : Inv s c -> draw_inv s c.
Proof. intros (Ht & _ & _ & Hh & _). by split. Qed.

(** The node record that the constructor starts from (lines 23-29). *)
Definition newRecord (b : nat) (x : BackingNode) (p : option nat) : DrawingTreeNode :=
  {| innerNode := b; nodeChildren := b_children x; parent := p;
     children := []; requiredWidth := -1; representation := None;
     isExpanded := Nat.eqb (length (b_children x)) 0;
     childBar := None; horizontalBar := None; parentBar := None;
     lastContainer := None; lastViewport := None |}.

(** Allocating a node without children, under an existing parent. *)
Lemma tree_wf_alloc s s' d0 :
  nodes s' = <[nextNode s := d0]> (nodes s) -> nextNode s' = S (nextNode s) ->
  children d0 = [] -> from_option (fun pn => is_Some (nodes s !! pn)) True (parent d0) ->
  tree_wf s -> tree_wf s'.
Proof.
  intros Hn HN Hch Hp Hwf m d. rewrite Hn, lookup_insert. case_decide as Hm.
  - subst m. intros [= <-]. unfold node_wf. rewrite HN, Hch, Hn. split; [lia|].
    split; [|split; [constructor|constructor]].
    destruct (parent d0) as [pn|]; [|done]. simpl in *. destruct Hp as [dp Hdp].
    destruct (Hwf _ _ Hdp) as [Hlt _]. split; [done|].
    rewrite lookup_insert_ne by lia. eauto.
  - intros Hd. destruct (Hwf _ _ Hd) as (H1 & H2 & H3 & H4).
    unfold node_wf. rewrite HN, Hn. split; [lia|]. split; [|split; [|done]].
    + destruct (parent d) as [pn|]; [|done]. simpl in *. destruct H2 as [Hlt [dp Hdp]].
      split; [done|]. rewrite lookup_insert_ne by lia. eauto.
    + eapply Forall_impl; [exact H3|]. intros ch Hc. simpl in *.
      destruct (nodes s !! ch) as [dc|] eqn:Hdc; [|done].
      destruct (Hwf _ _ Hdc) as [Hlt _]. rewrite lookup_insert_ne by lia. by rewrite Hdc.
Qed.

(** Adding elements with existing parents. *)
Lemma dom_wf_extend s s' :
  dom_wf s -> (nextElem s <= nextElem s')%nat ->
  (forall e, is_Some (elems s !! e) -> is_Some (elems s' !! e)) ->
  (forall e x, elems s' !! e = Some x ->
     (exists x0, elems s !! e = Some x0 /\ parentNode x = parentNode x0) \/
     ((e < nextElem s')%nat /\
      from_option (fun p => p <> e /\ is_Some (elems s' !! p)) True (parentNode x))) ->
  dom_wf s'.
Proof.
  intros Hwf HE Hkeep Hnew e x He.
  destruct (Hnew _ _ He) as [(x0 & Hx0 & Hp)|[Hlt Hp]]; [|by split].
  destruct (Hwf _ _ Hx0) as [Hlt Hpar]. split; [lia|]. rewrite Hp.
  destruct (parentNode x0) as [q|]; [|done]. simpl in *. destruct Hpar as [Hne Hq]. auto.
Qed.

Lemma construct_prefix_inv s c b x p :
  Inv s c -> backing s !! b = Some x ->
  from_option (fun pn => is_Some (nodes s !! pn)) True p ->
  exists s2,
    newNode (newRecord b x p) s = Some (nextNode s, alloc_node (newRecord b x p) s) /\
    createRepresentation (nextNode s) (alloc_node (newRecord b x p) s) = Some (tt, s2) /\
    Inv s2 c /\
    nodes s2 = <[nextNode s := set_representation (Some (nextElem s)) (newRecord b x p)]>
                 (nodes s) /\
    nextNode s2 = S (nextNode s) /\ backing s2 = backing s.
Proof.
  intros (Htree & Hdom & Hrefs & Hh & Hc) Hb Hp.
  pose proof (ids_fresh_wf _ Htree Hdom) as [HN HE].
  set (d0 := newRecord b x p). set (s1 := alloc_node d0 s).
  eexists. split; [done|]. split.
  { unfold createRepresentation, createElement, appendChild.
    do 12 mstep. mlast. reflexivity. }
  simpl. split_and!; try done.
  match goal with |- Inv ?st c => set (s2 := st) end.
  assert (forall e, (e < nextElem s)%nat -> elems s2 !! e = elems s !! e) as Hold.
  { intros e He. unfold s2. simpl. by rewrite !lookup_insert_ne by lia. }
  assert (forall m, m <> nextNode s -> nodes s2 !! m = nodes s !! m) as Holdn.
  { intros m Hm. unfold s2. simpl. by rewrite lookup_insert_ne. }
  assert (nodes s2 !! nextNode s = Some (set_representation (Some (nextElem s)) d0)) as Hnew
    by (unfold s2; simpl; by rewrite lookup_insert_eq).
  assert (forall e, is_Some (elems s !! e) -> is_Some (elems s2 !! e)) as Hkeep.
  { intros e [y Hy]. rewrite Hold; [eauto|]. apply (HE _ _ Hy). }
  split_and!.
  - by apply (tree_wf_alloc s s2 (set_representation (Some (nextElem s)) d0)).
  - apply (dom_wf_extend s s2 Hdom); [simpl; lia|done|].
    intros e y. unfold s2. simpl. rewrite !lookup_insert. repeat case_decide; subst.
    + intros [= <-]. right. simpl. split; [lia|done].
    + intros [= <-]. right. simpl. split; [lia|]. split; [lia|].
      rewrite lookup_insert_eq. eauto.
    + intros Hy. left. eauto.
  - intros m d Hm. destruct (decide (m = nextNode s)) as [->|Hne].
    + rewrite Hnew in Hm. injection Hm as <-. unfold node_refs_ok. simpl.
      split_and!; try done; try (by rewrite Hb).
      all: unfold s2; simpl; rewrite ?lookup_insert_eq; eauto.
    + rewrite Holdn in Hm by done. destruct (Hrefs _ _ Hm) as (H1 & H2 & H3 & H4 & H5 & H6).
      split_and!; try done; eapply handle_ok_mono; eauto.
  - pose proof Hh as [Hclt _]. apply handles_ok_intro; [simpl; lia|].
    assert (forall n d r e, nodes s2 !! n = Some d -> handle d r = Some e ->
              (n = nextNode s /\ r = RRepresentation /\ e = nextElem s) \/
              (nodes s !! n = Some d /\ (e < nextElem s)%nat)) as Hcases.
    { intros n d r e Hn Hr. destruct (decide (n = nextNode s)) as [->|Hne].
      - rewrite Hnew in Hn. injection Hn as <-. left. destruct r; simpl in Hr; try done.
        by injection Hr as <-.
      - rewrite Holdn in Hn by done. right. split; [done|].
        by destruct (handles_ok_inv _ _ _ _ _ _ Hh Hn Hr) as (_ & ? & _). }
    intros n d r e Hn Hr. destruct (Hcases _ _ _ _ Hn Hr) as [(-> & -> & ->)|[Hn0 Hlt]].
    + split_and!; [lia|simpl; lia|]. intros n' d' r' Hn' Hr'.
      destruct (Hcases _ _ _ _ Hn' Hr') as [(-> & -> & _)|[_ ?]]; [done|lia].
    + destruct (handles_ok_inv _ _ _ _ _ _ Hh Hn0 Hr) as (Hne & _ & Hinj).
      split_and!; [done|simpl; lia|]. intros n' d' r' Hn' Hr'.
      destruct (Hcases _ _ _ _ Hn' Hr') as [(_ & _ & ->)|[Hn0' _]]; [lia|]. eauto.
  - by apply Hkeep.
Qed.

(** Rewriting fields of nodes that are neither handles nor links, or
    giving a node a list of distinct children that point back to it. *)
Lemma Inv_relink s s' c :
  elems s' = elems s -> nextElem s' = nextElem s -> nextNode s' = nextNode s ->
  (forall b, is_Some (backing s !! b) -> is_Some (backing s' !! b)) ->
  (forall m, match nodes s !! m with
             | Some d => exists d', nodes s' !! m = Some d' /\
                 (forall r, handle d' r = handle d r) /\
                 parent d' = parent d /\ innerNode d' = innerNode d /\
                 (children d' = children d \/
                  (NoDup (children d') /\
                   Forall (fun ch => parent <$> nodes s !! ch = Some (Some m)) (children d')))
             | None => nodes s' !! m = None
             end) ->
  Inv s c -> Inv s' c.
Proof.
  intros He HE HN Hb Hn (Htree & Hdom & Hrefs & Hh & Hc).
  assert (forall m d', nodes s' !! m = Some d' ->
            exists d, nodes s !! m = Some d /\
              (forall r, handle d' r = handle d r) /\
              parent d' = parent d /\ innerNode d' = innerNode d /\
              (children d' = children d \/
               (NoDup (children d') /\
                Forall (fun ch => parent <$> nodes s !! ch = Some (Some m)) (children d'))))
    as Hinv.
  { intros m d' Hm. specialize (Hn m). destruct (nodes s !! m) as [d|]; [|congruence].
    destruct Hn as (d2 & Hd2 & Hrest). rewrite Hm in Hd2. injection Hd2 as <-. eauto. }
  assert (forall m, parent <$> nodes s' !! m = parent <$> nodes s !! m) as Hpar.
  { intros m. specialize (Hn m). destruct (nodes s !! m) as [d|].
    - destruct Hn as (d' & -> & _ & Hp & _). simpl. by rewrite Hp.
    - by rewrite Hn. }
  split_and!.
  - intros m d' Hm. destruct (Hinv _ _ Hm) as (d & Hd & _ & Hp & _ & Hch).
    destruct (Htree _ _ Hd) as (H1 & H2 & H3 & H4). unfold node_wf. rewrite HN, Hp.
    split; [done|]. split; [|split].
    + destruct (parent d) as [pn|]; [|done]. simpl in *. destruct H2 as [Hlt [dp Hdp]].
      split; [done|]. specialize (Hn pn). rewrite Hdp in Hn. destruct Hn as (? & -> & _). eauto.
    + destruct Hch as [->|[_ Hback]].
      * eapply Forall_impl; [exact H3|]. intros ch Hc'. simpl in *. by rewrite Hpar.
      * eapply Forall_impl; [exact Hback|]. intros ch Hc'. simpl in *. by rewrite Hpar.
    + destruct Hch as [->|[Hnd _]]; done.
  - intros e x. rewrite He. intros Hx. destruct (Hdom _ _ Hx) as [Hlt Hp].
    split; [lia|]. destruct (parentNode x) as [q|]; [|done]. simpl in *. by rewrite He.
  - intros m d' Hm. destruct (Hinv _ _ Hm) as (d & Hd & Hhd & _ & Hin & _).
    destruct (Hrefs _ _ Hd) as (H1 & H2 & H3 & H4 & H5 & H6).
    pose proof (Hhd RRepresentation) as Hr. pose proof (Hhd RChildBar) as Hcb.
    pose proof (Hhd RHorizontalBar) as Hhb. pose proof (Hhd RParentBar) as Hpb.
    simpl in *. unfold node_refs_ok. rewrite Hr, Hcb, Hhb, Hpb, Hin.
    split_and!; try done; try (eapply handle_ok_mono; [|eassumption]; intros ?; by rewrite He).
    by apply Hb.
  - destruct Hh as [Hclt Hown]. apply handles_ok_intro; [lia|].
    intros n d' r e Hn' Hr. destruct (Hinv _ _ Hn') as (d & Hd & Hhd & _).
    rewrite Hhd in Hr.
    destruct (handles_ok_inv s c n d r e (conj Hclt Hown) Hd Hr) as (Hne & Hlt & Hinj).
    split_and!; [done|lia|]. intros n2 d2' r2 Hn2 Hr2.
    destruct (Hinv _ _ Hn2) as (d2 & Hd2 & Hhd2 & _). rewrite Hhd2 in Hr2. eauto.
  - by rewrite He.
Qed.

Lemma expand_finish_inv s c this d cs y :
  Inv s c -> nodes s !! this = Some d -> backing s !! innerNode d = Some y ->
  NoDup cs -> Forall (fun ch => parent <$> nodes s !! ch = Some (Some this)) cs ->
  exists s',
    (modifyNode this (set_children cs) ;;;
     modifyNode this (set_isExpanded true) ;;;
     let* d := getNode this in
     modifyBacking (innerNode d) (set_flag (isExpanded d))) s = Some (tt, s') /\
    Inv s' c /\
    nodes s' = <[this := set_isExpanded true (set_children cs d)]> (nodes s) /\
    backing s' = <[innerNode d := set_flag true y]> (backing s) /\
    elems s' = elems s /\ nextNode s' = nextNode s /\ nextElem s' = nextElem s.
Proof.
  intros HI Hd Hy Hnd Hcs. eexists. split; [do 3 mstep; mlast; reflexivity|].
  simpl. split_and!; try done.
  eapply Inv_relink; [..|exact HI]; try done; simpl.
  - intros b. rewrite lookup_insert. case_decide; eauto.
  - intros m. rewrite lookup_insert. case_decide as Hm.
    + subst m. rewrite Hd. eexists. split; [done|]. simpl. split_and!; try done;
        try (by intros []). by right.
    + destruct (nodes s !! m) as [dm|]; [|done]. exists dm. split_and!; auto.
Qed.

(** What [construct] and [expand] do to the nodes: a node that existed
    changes in its child list and expansion flag at most, and a node that
    is new has a dirty width and was never drawn. *)
Record builds (s s' : State) : Prop := {
  builds_grows : grows s s';
  builds_nodes : forall m d, nodes s !! m = Some d ->
    exists cs e, nodes s' !! m = Some (set_isExpanded e (set_children cs d));
  builds_fresh : forall m d, nodes s' !! m = Some d -> (nextNode s <= m)%nat ->
    requiredWidth d = -1 /\ lastContainer d = None /\ lastViewport d = None
}.

Lemma set_expanded_children_id d : set_isExpanded (isExpanded d) (set_children (children d) d) = d.
Proof. by destruct d. Qed.

Lemma builds_refl s : ids_fresh s -> builds s s.
Proof.
  intros Hf. split; [by apply grows_refl| |].
  - intros m d Hm. exists (children d), (isExpanded d). by rewrite set_expanded_children_id.
  - intros m d Hm Hle. destruct Hf as [HN _]. specialize (HN _ _ Hm). simpl in HN. lia.
Qed.

Lemma builds_trans s1 s2 s3 : ids_fresh s2 -> builds s1 s2 -> builds s2 s3 -> builds s1 s3.
Proof.
  intros Hf [Hg12 Hn12 Hf12] [Hg23 Hn23 Hf23]. split.
  - exact (grows_trans _ _ _ Hf Hg12 Hg23).
  - intros m d Hm. destruct (Hn12 _ _ Hm) as (cs & e & Hm2).
    destruct (Hn23 _ _ Hm2) as (cs' & e' & Hm3). by exists cs', e'.
  - intros m d Hm Hle. destruct (decide (nextNode s2 <= m)%nat) as [Hge|Hlt]; [by apply (Hf23 m)|].
    destruct (nodes s2 !! m) as [d2|] eqn:E2.
    + destruct (Hn23 _ _ E2) as (cs & e & Hm3). rewrite Hm in Hm3. injection Hm3 as ->.
      by apply (Hf12 m d2).
    + rewrite (grows_absent _ _ Hg23 m) in Hm; [done|lia|done].
Qed.

Lemma builds_backing s s' b :
  builds s s' -> is_Some (backing s !! b) -> is_Some (backing s' !! b).
Proof.
  intros [Hg _ _] [x Hx]. pose proof (grows_backing _ _ Hg b) as Hb. rewrite Hx in Hb.
  destruct Hb as [fl ->]. eauto.
Qed.

Section BuildInv.
Context (rank : nat -> nat) (c : nat).

Definition construct_inv (f : nat) : Prop :=
  forall s b x p, Inv s c -> backing_ranked rank s -> backing s !! b = Some x ->
    from_option (fun pn => is_Some (nodes s !! pn)) True p ->
    (2 * rank b + 2 <= f)%nat ->
    exists s' dn,
      construct f b p s = Some (nextNode s, s') /\
      Inv s' c /\ builds s s' /\
      (forall m, (m < nextNode s)%nat -> nodes s' !! m = nodes s !! m) /\
      nodes s' !! nextNode s = Some dn /\
      innerNode dn = b /\ parent dn = p /\ nodeChildren dn = b_children x /\
      (if drawingTreeNodeIsExpanded x
       then isExpanded dn = true /\ length (children dn) = length (b_children x)
       else children dn = [] /\ isExpanded dn = Nat.eqb (length (b_children x)) 0).

Definition expand_inv (f : nat) : Prop :=
  forall s this d r, Inv s c -> backing_ranked rank s -> nodes s !! this = Some d ->
    (1 <= f)%nat ->
    Forall (fun x => is_Some (backing s !! x) /\ (2 * rank x + 3 <= f)%nat) (nodeChildren d) ->
    exists s' cs,
      expand f this r s = Some (tt, s') /\
      Inv s' c /\ builds s s' /\
      (forall m, (m < nextNode s)%nat -> m <> this -> nodes s' !! m = nodes s !! m) /\
      nodes s' !! this = Some (set_isExpanded true (set_children cs d)) /\
      NoDup cs /\
      Forall2 (fun ch x => (nextNode s <= ch)%nat /\
                 exists dc, nodes s' !! ch = Some dc /\ innerNode dc = x /\
                            parent dc = Some this) cs (nodeChildren d) /\
      exists y, backing s' !! innerNode d = Some y /\ drawingTreeNodeIsExpanded y = true.

Lemma expand_loop_inv f this r xs :
  construct_inv f -> expand_inv f ->
  forall s, Inv s c -> backing_ranked rank s -> is_Some (nodes s !! this) ->
    Forall (fun x => is_Some (backing s !! x) /\ (2 * rank x + 3 <= S f)%nat) xs ->
    exists s' cs,
      mapM (expand_body f this r) xs s = Some (cs, s') /\
      Inv s' c /\ builds s s' /\
      (forall m, (m < nextNode s)%nat -> nodes s' !! m = nodes s !! m) /\
      NoDup cs /\
      Forall2 (fun ch x => (nextNode s <= ch)%nat /\
                 exists dc, nodes s' !! ch = Some dc /\ innerNode dc = x /\
                            parent dc = Some this) cs xs.
Proof.
  intros Hc He. induction xs as [|x xs IH]; intros s HI Hrank Hthis Hxs.
  - exists s, []. simpl. pose proof (Inv_ids_fresh _ _ HI).
    split_and!; auto using builds_refl; constructor.
  - apply Forall_cons in Hxs as [[[bx Hbx] Hfuel] Hxs].
    destruct (Hc s x bx (Some this) HI Hrank Hbx Hthis ltac:(lia))
      as (s1 & dn & Hrun1 & HI1 & Hb1 & Hold1 & Hdn & Hin & Hpar & Hnc & _).
    assert (backing_ranked rank s1) as Hrank1
      by (eapply backing_ranked_grows; [done|apply Hb1]).
    assert (exists s2 dn', when r (expand f (nextNode s) true) s1 = Some (tt, s2) /\
              Inv s2 c /\ builds s1 s2 /\
              (forall m, (m < nextNode s)%nat -> nodes s2 !! m = nodes s1 !! m) /\
              nodes s2 !! nextNode s = Some dn' /\ innerNode dn' = x /\
              parent dn' = Some this)
      as (s2 & dn' & Hrun2 & HI2 & Hb2 & Hold2 & Hdn' & Hin' & Hpar').
    { destruct r; simpl.
      - destruct (He s1 (nextNode s) dn true HI1 Hrank1 Hdn)
          as (s2 & cs' & Hrun2 & HI2 & Hb2 & Hold2 & Hdn2 & _).
        + lia.
        + rewrite Hnc. eapply Forall_impl; [exact (Hrank _ _ Hbx)|].
          intros y [Hlt Hy]. split; [|lia]. by eapply builds_backing.
        + exists s2, (set_isExpanded true (set_children cs' dn)). split_and!; try done.
          intros m Hm. apply Hold2; [|lia].
          pose proof (grows_nextNode _ _ (builds_grows _ _ Hb1)). lia.
      - exists s1, dn. pose proof (Inv_ids_fresh _ _ HI1).
        split_and!; auto using builds_refl. }
    assert (builds s s2) as Hb12
      by exact (builds_trans _ _ _ (Inv_ids_fresh _ _ HI1) Hb1 Hb2).
    assert (nextNode s < nextNode s2)%nat as Hlt.
    { destruct (Inv_ids_fresh _ _ HI2) as [HN _]. apply (HN _ _ Hdn'). }
    destruct (IH s2 HI2) as (s' & cs & Hrun' & HI' & Hb' & Hold' & Hnd & Hcs).
    { eapply backing_ranked_grows; [exact Hrank|apply Hb12]. }
    { destruct Hthis as [dt Hdt]. destruct (Inv_ids_fresh _ _ HI) as [HN _].
      pose proof (HN _ _ Hdt) as Hlt'. simpl in Hlt'.
      rewrite Hold2, Hold1 by done. eauto. }
    { eapply Forall_impl; [exact Hxs|]. intros y [Hy ?]. split; [|done].
      by eapply builds_backing. }
    exists s', (nextNode s :: cs). split_and!.
    + simpl. unfold expand_body at 1. rewrite !bind_assoc.
      rewrite (bind_eq _ _ _ _ _ Hrun1). rewrite bind_assoc.
      rewrite (bind_eq _ _ _ _ _ Hrun2).
      rewrite (bind_eq (ret (nextNode s)) _ _ _ _ eq_refl).
      by rewrite (bind_eq _ _ _ _ _ Hrun').
    + done.
    + exact (builds_trans _ _ _ (Inv_ids_fresh _ _ HI2) Hb12 Hb').
    + intros m Hm. rewrite Hold' by lia. rewrite Hold2 by done. by apply Hold1.
    + constructor; [|done]. intros Hin''.
      assert (Forall (fun ch => (nextNode s2 <= ch)%nat) cs) as Hge
        by (eapply Forall2_left; [exact Hcs|]; by intros ch y [? _]).
      rewrite Forall_forall in Hge. specialize (Hge _ Hin''). lia.
    + constructor.
      * split; [done|]. exists dn'. split_and!; try done. by rewrite Hold'.
      * eapply Forall2_impl; [exact Hcs|]. intros ch y [Hle Hdc]. split; [lia|done].
Qed.

Lemma builds_prefix s s2 b x p :
  ids_fresh s -> grows s s2 ->
  nodes s2 = <[nextNode s := set_representation (Some (nextElem s)) (newRecord b x p)]>
               (nodes s) ->
  builds s s2.
Proof.
  intros [HN _] Hg Hn. split; [done| |].
  - intros m d Hm. specialize (HN _ _ Hm). simpl in HN.
    exists (children d), (isExpanded d).
    rewrite set_expanded_children_id, Hn, lookup_insert_ne by lia. done.
  - intros m d. rewrite Hn, lookup_insert. case_decide.
    + by intros [= <-] _.
    + intros Hm Hle. specialize (HN _ _ Hm). simpl in HN. lia.
Qed.

Lemma builds_finish s s2 this d cs :
  ids_fresh s -> grows s s2 -> nodes s !! this = Some d ->
  nodes s2 = <[this := set_isExpanded true (set_children cs d)]> (nodes s) ->
  builds s s2.
Proof.
  intros [HN _] Hg Hd Hn. split; [done| |].
  - intros m dm Hm. rewrite Hn, lookup_insert. case_decide.
    + subst. rewrite Hd in Hm. injection Hm as <-. eauto.
    + exists (children dm), (isExpanded dm). by rewrite set_expanded_children_id.
  - intros m dm. rewrite Hn, lookup_insert. case_decide.
    + subst. intros _ Hle. specialize (HN _ _ Hd). simpl in HN. lia.
    + intros Hm Hle. specialize (HN _ _ Hm). simpl in HN. lia.
Qed.

Lemma build_inv f : construct_inv f /\ expand_inv f.
Proof.
  induction f as [|f [IHc IHe]].
  { split.
    - intros s b x p _ _ _ _ Hf. lia.
    - intros s this d r _ _ _ Hf. lia. }
  split.
  - intros s b x p HI Hrank Hb Hp Hfuel.
    pose proof (Inv_ids_fresh _ _ HI) as Hfresh.
    destruct (construct_prefix_inv s c b x p HI Hb Hp)
      as (s2 & Hrun1 & Hrun2 & HI2 & Hn2 & HN2 & Hback2).
    destruct (construct_prefix s (newRecord b x p) x Hfresh Hb eq_refl eq_refl eq_refl)
      as (s2' & _ & Hrun2' & _ & Hg2 & _).
    rewrite Hrun2 in Hrun2'. injection Hrun2' as <-.
    assert (builds s s2) as Hb2 by by eapply builds_prefix.
    assert (backing_ranked rank s2) as Hrank2 by by eapply backing_ranked_grows.
    set (d2 := set_representation (Some (nextElem s)) (newRecord b x p)) in *.
    assert (nodes s2 !! nextNode s = Some d2) as Hnew2 by (by rewrite Hn2, lookup_insert_eq).
    assert (forall m, (m < nextNode s)%nat -> nodes s2 !! m = nodes s !! m) as Hold2.
    { intros m Hm. by rewrite Hn2, lookup_insert_ne by lia. }
    assert (exists s3 d3, when (drawingTreeNodeIsExpanded x) (expand f (nextNode s) false) s2
                          = Some (tt, s3) /\
              Inv s3 c /\ builds s2 s3 /\
              (forall m, (m < nextNode s)%nat -> nodes s3 !! m = nodes s2 !! m) /\
              nodes s3 !! nextNode s = Some d3 /\
              innerNode d3 = b /\ parent d3 = p /\ nodeChildren d3 = b_children x /\
              (if drawingTreeNodeIsExpanded x
               then isExpanded d3 = true /\ length (children d3) = length (b_children x)
               else children d3 = [] /\ isExpanded d3 = Nat.eqb (length (b_children x)) 0))
      as (s3 & d3 & Hrun3 & HI3 & Hb3 & Hold3 & Hnew3 & Hfields).
    { destruct (drawingTreeNodeIsExpanded x); simpl.
      - destruct (IHe s2 (nextNode s) d2 false HI2 Hrank2 Hnew2)
          as (s3 & cs & Hrun3 & HI3 & Hb3 & Hold3 & Hnew3 & _ & Hcs & _).
        + lia.
        + simpl. eapply Forall_impl; [exact (Hrank _ _ Hb)|].
          intros ch [Hlt Hc]. rewrite Hback2. split; [done|lia].
        + exists s3, (set_isExpanded true (set_children cs d2)). split_and!; try done.
          * intros m Hm. apply Hold3; [|lia]. lia.
          * simpl. by eapply Forall2_length.
      - exists s2, d2. pose proof (Inv_ids_fresh _ _ HI2).
        split_and!; auto using builds_refl. }
    exists s3, d3. split_and!; try apply Hfields.
    + rewrite construct_unfold. rewrite (bind_eq _ _ _ _ _ (getBacking_eq _ _ _ Hb)).
      change (newNode (newRecord b x p) s = Some (nextNode s, alloc_node (newRecord b x p) s))
        in Hrun1.
      unfold newRecord in Hrun1. rewrite (bind_eq _ _ _ _ _ Hrun1).
      fold (newRecord b x p). rewrite (bind_eq _ _ _ _ _ Hrun2).
      rewrite (bind_eq _ _ _ _ _ (getBacking_eq _ s2 x ltac:(by rewrite Hback2))).
      by rewrite (bind_eq _ _ _ _ _ Hrun3).
    + done.
    + exact (builds_trans _ _ _ (Inv_ids_fresh _ _ HI2) Hb2 Hb3).
    + intros m Hm. rewrite Hold3 by done. by apply Hold2.
    + done.
  - intros s this d r HI Hrank Hd _ Hxs.
    pose proof (Inv_ids_fresh _ _ HI) as Hfresh.
    destruct (expand_loop_inv f this r (nodeChildren d) IHc IHe s HI Hrank (mk_is_Some _ _ Hd) Hxs)
      as (s1 & cs & Hrun1 & HI1 & Hb1 & Hold1 & Hnd & Hcs).
    assert (this < nextNode s)%nat as Hlt by (destruct Hfresh as [HN _]; apply (HN _ _ Hd)).
    assert (nodes s1 !! this = Some d) as Hd1 by (by rewrite Hold1).
    assert (is_Some (backing s1 !! innerNode d)) as [y Hy].
    { eapply builds_backing; [exact Hb1|].
      destruct HI as (_ & _ & Hrefs & _). by destruct (Hrefs _ _ Hd) as (_&_&_&_&_&?). }
    destruct (expand_finish_inv s1 c this d cs y HI1 Hd1 Hy Hnd)
      as (s2 & Hrun2 & HI2 & Hn2 & Hback2 & _).
    { eapply Forall2_left; [exact Hcs|]. intros ch z [_ (dc & -> & _ & Hp)]. simpl. by rewrite Hp. }
    destruct (expand_finish s1 this d cs y (Inv_ids_fresh _ _ HI1) Hd1 Hy)
      as (s2' & Hrun2' & _ & Hg2 & _).
    rewrite Hrun2 in Hrun2'. injection Hrun2' as <-.
    assert (builds s1 s2) as Hb2 by (eapply builds_finish; eauto using Inv_ids_fresh).
    exists s2, cs. split_and!.
    + rewrite expand_unfold. rewrite (bind_eq _ _ _ _ _ (getNode_eq _ _ _ Hd)).
      by rewrite (bind_eq _ _ _ _ _ Hrun1).
    + done.
    + exact (builds_trans _ _ _ (Inv_ids_fresh _ _ HI1) Hb1 Hb2).
    + intros m Hm Hne. rewrite Hn2, lookup_insert_ne by done. by apply Hold1.
    + by rewrite Hn2, lookup_insert_eq.
    + done.
    + eapply Forall2_impl; [exact Hcs|]. intros ch z [Hle (dc & Hdc & ? & ?)].
      split; [done|]. exists dc. rewrite Hn2, lookup_insert_ne by lia. done.
    + exists (set_flag true y). rewrite Hback2, lookup_insert_eq. done.
Qed.
End BuildInv.

(** ** [draw] returns *)

(** What a drawing step keeps: no node, element or viewport disappears and
    no node is created. *)
Definition keeps (s s' : State) : Prop :=
  nextNode s' = nextNode s /\
  (forall m, is_Some (nodes s !! m) -> is_Some (nodes s' !! m)) /\
  (forall e, is_Some (elems s !! e) -> is_Some (elems s' !! e)) /\
  (forall v, is_Some (viewports s !! v) -> is_Some (viewports s' !! v)).

Lemma keeps_refl s : keeps s s.
Proof. by repeat split. Qed.

Lemma keeps_trans s1 s2 s3 : keeps s1 s2 -> keeps s2 s3 -> keeps s1 s3.
Proof. intros (?&?&?&?) (?&?&?&?). split_and!; [congruence|auto..]. Qed.

(** [runs c m s]: the computation [m] returns from [s], in a well-formed
    state that keeps what [s] had. *)
Definition runs (c : nat) {A} (m : M A) (s : State) : Prop :=
  exists a s', m s = Some (a, s') /\ Inv s' c /\ keeps s s'.

Lemma runs_ret c {A} (a : A) s : Inv s c -> runs c (ret a) s.
Proof. intros HI. exists a, s. auto using keeps_refl. Qed.

Lemma runs_bind c {A B} (m : M A) (k : A -> M B) s a s1 :
  m s = Some (a, s1) -> keeps s s1 -> runs c (k a) s1 -> runs c (bind m k) s.
Proof.
  intros Hm Hk (b & s' & Hrun & HI & Hk'). exists b, s'.
  rewrite (bind_eq _ _ _ _ _ Hm). eauto using keeps_trans.
Qed.

Lemma Inv_store s s' c :
  nodes s' = nodes s -> elems s' = elems s -> backing s' = backing s ->
  nextNode s' = nextNode s -> nextElem s' = nextElem s -> Inv s c -> Inv s' c.
Proof.
  intros Hn He Hb HN HE. apply Inv_relink; try done.
  - intros b. by rewrite Hb.
  - intros m. rewrite Hn. destruct (nodes s !! m) as [d|]; [|done]. exists d.
    split_and!; auto.
Qed.

(** Steps on elements that create none and give parents that exist. *)
Lemma Inv_elems s s' c :
  elems_only s s' ->
  (forall k, is_Some (elems s' !! k) <-> is_Some (elems s !! k)) ->
  (forall k x', elems s' !! k = Some x' ->
     from_option (fun p => p <> k /\ is_Some (elems s' !! p)) True (parentNode x')) ->
  Inv s c -> Inv s' c.
Proof.
  intros Ho Hk Hp (Htree & Hdom & Hrefs & Hh & Hc).
  pose proof Ho as (Hn & Hb & _ & _ & HN & HE & _).
  destruct (draw_inv_same_nodes s s' c Hn HN HE (conj Htree Hh)) as [Htree' Hh'].
  split_and!; try done.
  - intros k x' Hx'. split; [|by apply Hp].
    destruct (proj1 (Hk k) (mk_is_Some _ _ Hx')) as [x Hx]. rewrite HE. apply (Hdom _ _ Hx).
  - intros m d. rewrite Hn. intros Hd. destruct (Hrefs _ _ Hd) as (H1 & H2 & H3 & H4 & H5 & H6).
    split_and!; try done; try (eapply handle_ok_mono; [|eassumption]; intros ?; apply Hk).
    by rewrite Hb.
  - by apply Hk.
Qed.

Lemma keeps_elems_only s s' :
  elems_only s s' -> (forall k, is_Some (elems s !! k) -> is_Some (elems s' !! k)) ->
  keeps s s'.
Proof. intros (Hn & _ & Hv & _ & HN & _) Hk. split_and!; [done| |done|]; intros ?; congruence. Qed.

Lemma restyle_runs s c e f :
  Inv s c -> is_Some (elems s !! e) -> (forall x, parentNode (f x) = parentNode x) ->
  exists s', modifyElem e f s = Some (tt, s') /\ Inv s' c /\ keeps s s'.
Proof.
  intros HI [x Hx] Hf. eexists. split; [by apply modifyElem_eq|].
  assert (forall k, is_Some (elems (with_elems (<[e:=f x]> (elems s)) s) !! k) <->
                    is_Some (elems s !! k)) as Hk.
  { intros k. simpl. rewrite lookup_insert. case_decide; subst; split; eauto. }
  split.
  - eapply Inv_elems; [| |.. |exact HI]; [done|done|].
    intros k x'. simpl. rewrite lookup_insert. pose proof HI as (_ & Hdom & _).
    case_decide; subst.
    + intros [= <-]. rewrite Hf. destruct (Hdom _ _ Hx) as [_ Hp].
      destruct (parentNode x) as [p|]; [|done]. simpl in *. destruct Hp as [? Hp].
      split; [done|]. by apply (Hk p).
    + intros Hx'. destruct (Hdom _ _ Hx') as [_ Hp].
      destruct (parentNode x') as [p|]; [|done]. simpl in *. destruct Hp as [? Hp].
      split; [done|]. by apply (Hk p).
  - apply keeps_elems_only; [done|]. intros k. apply Hk.
Qed.

Lemma attach_runs s c e :
  Inv s c -> is_Some (elems s !! e) -> e <> c ->
  exists s', attach c e s = Some (tt, s') /\ Inv s' c /\ keeps s s'.
Proof.
  intros HI [x Hx] Hne. pose proof HI as (_ & Hdom & _ & _ & [y Hy]).
  assert (forall s', elems_only s s' ->
            (forall k, is_Some (elems s' !! k) <-> is_Some (elems s !! k)) ->
            (forall k x', elems s' !! k = Some x' ->
               (exists x0, elems s !! k = Some x0 /\ parentNode x' = parentNode x0) \/
               parentNode x' = None \/ (k = e /\ parentNode x' = Some c)) ->
            Inv s' c /\ keeps s s') as Hgo.
  { intros s' Ho Hk Hp. split.
    - eapply Inv_elems; [done|done| |exact HI]. intros k x' Hx'.
      destruct (Hp _ _ Hx') as [(x0 & Hx0 & Hpar)|[Hpar|[-> Hpar]]]; rewrite Hpar; simpl.
      + destruct (Hdom _ _ Hx0) as [_ Hq]. destruct (parentNode x0) as [q|]; [|done].
        simpl in *. destruct Hq as [? Hq]. split; [done|]. by apply Hk.
      + done.
      + split; [done|]. apply Hk. eauto.
    - apply keeps_elems_only; [done|]. intros k. apply Hk. }
  unfold attach. rewrite (bind_eq _ _ _ _ _ (getElem_eq _ _ _ Hx)).
  destruct (parentNode x) as [q|] eqn:Hq.
  - destruct (Nat.eqb_spec q c) as [->|Hqc].
    + exists s. split; [done|]. auto using keeps_refl.
    + destruct (dom_wf_parent _ _ _ _ Hdom Hx Hq) as (_ & Hqe & _ & [z Hz]).
      eexists. split.
      { unfold appendChild, removeChild. mstep. rewrite Hq. mstep. rewrite Hq, Nat.eqb_refl.
        mstep. mstep. mstep. mlast. reflexivity. }
      apply Hgo; [done| |]; simpl.
      * intros k. rewrite !lookup_insert. repeat case_decide; subst; split; eauto.
      * intros k x'. rewrite !lookup_insert. repeat case_decide; subst; intros Hx'.
        -- injection Hx' as <-. right. right. done.
        -- injection Hx' as <-. left. eauto.
        -- injection Hx' as <-. left. eauto.
        -- left. eauto.
  - eexists. split.
    { unfold appendChild. mstep. rewrite Hq. mstep. mstep. mlast. reflexivity. }
    apply Hgo; [done| |]; simpl.
    * intros k. rewrite !lookup_insert. repeat case_decide; subst; split; eauto.
    * intros k x'. rewrite !lookup_insert. repeat case_decide; subst; intros Hx'.
      -- injection Hx' as <-. right. right. done.
      -- injection Hx' as <-. left. eauto.
      -- left. eauto.
Qed.

Lemma Inv_same_except_width s s' c : same_except_width s s' -> Inv s c -> Inv s' c.
Proof.
  intros (He & Hb & _ & _ & HN & HE & _ & Hn). apply Inv_relink; try done.
  - intros b. by rewrite Hb.
  - intros m. specialize (Hn m). destruct (nodes s !! m) as [d|]; [|done].
    destruct Hn as [w Hw]. eexists. split; [done|]. split_and!; auto; by intros [].
Qed.

Lemma keeps_same_except_width s s' : same_except_width s s' -> keeps s s'.
Proof.
  intros (He & _ & Hv & _ & HN & _ & _ & Hn). split_and!; [done| |intros ?; congruence..].
  intros m [d Hd]. specialize (Hn m). rewrite Hd in Hn. destruct Hn as [w ->]. eauto.
Qed.

Lemma width_runs f s c n :
  Inv s c -> is_Some (nodes s !! n) -> (nextNode s <= f + n)%nat ->
  exists w s', getRequiredWidth f n s = Some (w, s') /\ Inv s' c /\ keeps s s'.
Proof.
  intros HI Hn Hfuel. pose proof HI as (Htree & _).
  destruct (getRequiredWidth_total f s n Htree Hn Hfuel) as (w & s' & Hrun & Hs & _).
  exists w, s'. split_and!; [done|by eapply Inv_same_except_width|
                             by apply keeps_same_except_width].
Qed.

Lemma keeps_collapses s s' :
  collapses s s' -> viewports s' = viewports s -> keeps s s'.
Proof.
  intros Hc Hv. split_and!.
  - apply (collapses_nextNode _ _ Hc).
  - intros m [d Hd]. destruct (collapses_lookup _ _ _ _ Hc Hd) as (d' & -> & _). eauto.
  - apply (collapses_elems _ _ Hc).
  - intros v. by rewrite Hv.
Qed.

(** A connector getter returns an element that exists and is not the
    container. *)
Lemma bar_runs r0 (get : nat -> M nat) s c n d :
  (forall s n d, dom_wf s -> refs_ok s -> nodes s !! n = Some d ->
     exists e s', get n s = Some (e, s') /\ bar_post s n e s') ->
  (forall s n e s', get n s = Some (e, s') -> draw_inv s c ->
     bar_drawn (fun _ _ => True) (fun _ => True) c r0 s n e s') ->
  Inv s c -> nodes s !! n = Some d ->
  exists e s', get n s = Some (e, s') /\ Inv s' c /\ keeps s s' /\
               is_Some (elems s' !! e) /\ e <> c.
Proof.
  intros Hok Hdraws HI Hd. pose proof HI as (Htree & Hdom & Hrefs & Hh & Hc).
  destruct (Hok s n d Hdom Hrefs Hd) as (e & s' & Hrun & Hdom' & Hrefs' & He & Hcol).
  destruct (Hdraws s n e s' Hrun (conj Htree Hh))
    as ([Htree' Hh'] & _ & Hv & _ & _ & d0 & d' & _ & Hn' & Hr & _).
  assert (Inv s' c) as HI'.
  { unfold Inv. split_and!; try done. by apply (collapses_elems _ _ Hcol). }
  exists e, s'. split; [done|]. split; [done|]. split; [|split; [done|]].
  - by apply keeps_collapses.
  - assert (nodes s' !! n = Some d') as Hd' by (by rewrite Hn', lookup_insert_eq).
    by destruct (handles_ok_inv _ _ _ _ _ _ Hh' Hd' Hr) as (? & _).
Qed.

Lemma getChildBar_runs s c n d :
  Inv s c -> nodes s !! n = Some d ->
  exists e s', getChildBar n s = Some (e, s') /\ Inv s' c /\ keeps s s' /\
               is_Some (elems s' !! e) /\ e <> c.
Proof.
  apply (bar_runs RChildBar); [apply getChildBar_ok|].
  intros s0 n0 e s' Hrun Hinv. by apply getChildBar_draws.
Qed.

Lemma getHorizontalBar_runs s c n d :
  Inv s c -> nodes s !! n = Some d ->
  exists e s', getHorizontalBar n s = Some (e, s') /\ Inv s' c /\ keeps s s' /\
               is_Some (elems s' !! e) /\ e <> c.
Proof.
  apply (bar_runs RHorizontalBar); [apply getHorizontalBar_ok|].
  intros s0 n0 e s' Hrun Hinv. by apply getHorizontalBar_draws.
Qed.

Lemma getParentBar_runs s c n d :
  Inv s c -> nodes s !! n = Some d ->
  exists e s', getParentBar n s = Some (e, s') /\ Inv s' c /\ keeps s s' /\
               is_Some (elems s' !! e) /\ e <> c.
Proof.
  apply (bar_runs RParentBar); [apply getParentBar_ok|].
  intros s0 n0 e s' Hrun Hinv. by apply getParentBar_draws.
Qed.

Lemma newViewport_runs s c xy :
  Inv s c ->
  exists s', newViewport xy s = Some (nextViewport s, s') /\ Inv s' c /\ keeps s s'.
Proof.
  intros HI. eexists. split; [reflexivity|]. split; [by eapply Inv_store|].
  split_and!; try done. intros v [z Hz]. simpl. rewrite lookup_insert. case_decide; eauto.
Qed.

Lemma setViewport_runs s c v xy :
  Inv s c -> is_Some (viewports s !! v) ->
  exists s', setViewport v xy s = Some (tt, s') /\ Inv s' c /\ keeps s s'.
Proof.
  intros HI [z Hz]. eexists. split; [by eapply setViewport_eq|].
  split; [by eapply Inv_store|]. split_and!; try done.
  intros v' [z' Hz']. simpl. rewrite lookup_insert. case_decide; eauto.
Qed.

Lemma setLast_runs s c n d lc lv :
  Inv s c -> nodes s !! n = Some d ->
  exists s', modifyNode n (set_last lc lv) s = Some (tt, s') /\ Inv s' c /\ keeps s s' /\
             nodes s' !! n = Some (set_last lc lv d).
Proof.
  intros HI Hd. eexists. split; [by apply modifyNode_eq|]. split_and!.
  - eapply Inv_relink; [..|exact HI]; try done. intros m. simpl.
    rewrite lookup_insert. case_decide as Hm.
    + subst m. rewrite Hd. eexists. split; [done|]. split_and!; auto; by intros [].
    + destruct (nodes s !! m) as [dm|]; [|done]. exists dm. split_and!; auto.
  - split_and!; try done. intros m [z Hz]. simpl. rewrite lookup_insert. case_decide; eauto.
  - simpl. by rewrite lookup_insert_eq.
Qed.

(** The three writes that place an element: two styles and the attach. *)
Lemma styles_pure :
  (forall v x, parentNode (set_className v x) = parentNode x) /\
  (forall v x, parentNode (set_styleLeft v x) = parentNode x) /\
  (forall v x, parentNode (set_styleTop v x) = parentNode x) /\
  (forall v x, parentNode (set_styleWidth v x) = parentNode x).
Proof. done. Qed.

(** Facts about the current state are carried along a step. *)
Ltac advance Hk :=
  repeat match goal with
  | H : is_Some (nodes ?sa !! _), Hk' : keeps ?sa _ |- _ =>
      constr_eq Hk Hk'; apply (proj1 (proj2 Hk)) in H
  | H : is_Some (elems ?sa !! _), Hk' : keeps ?sa _ |- _ =>
      constr_eq Hk Hk'; apply (proj1 (proj2 (proj2 Hk))) in H
  | H : is_Some (viewports ?sa !! _), Hk' : keeps ?sa _ |- _ =>
      constr_eq Hk Hk'; apply (proj2 (proj2 (proj2 Hk))) in H
  | H : context [nextNode ?sa], Hk' : keeps ?sa _ |- _ =>
      constr_eq Hk Hk'; rewrite <- (proj1 Hk) in H
  | H : keeps _ ?sa, Hk' : keeps ?sa _ |- _ =>
      constr_eq Hk Hk'; apply (fun h => keeps_trans _ _ _ h Hk) in H
  end.

Ltac run_with lem :=
  let s' := fresh "s" in let Hrun := fresh "Hrun" in
  let HI' := fresh "HI" in let Hk := fresh "Hk" in
  destruct lem as (s' & Hrun & HI' & Hk);
  eapply runs_bind; [exact Hrun|exact Hk|]; advance Hk; clear Hrun.

Ltac run_restyle HI He :=
  match goal with
  | |- runs ?c (bind (modifyElem ?e ?f) _) ?s =>
      run_with (restyle_runs s c e f HI He ltac:(done))
  end.

Ltac run_getViewport Hv :=
  let xy := fresh "xy" in let Hxy := fresh "Hxy" in
  pose proof Hv as [xy Hxy];
  eapply runs_bind; [exact (getViewport_eq _ _ _ Hxy)|apply keeps_refl|]; clear Hxy.

Section DrawRuns.
Context (f : nat) (c : nat).
Context (IH : forall s n vp, Inv s c -> is_Some (nodes s !! n) ->
                is_Some (viewports s !! vp) -> (nextNode s < f + n)%nat ->
                runs c (draw f n c vp) s).

Lemma draw_child_runs s ch vp :
  Inv s c -> is_Some (nodes s !! ch) -> is_Some (viewports s !! vp) ->
  (nextNode s < f + ch)%nat -> runs c (draw_child f c vp ch) s.
Proof.
  intros HI Hch Hvp Hfuel. unfold draw_child.
  destruct (width_runs f s c ch HI Hch ltac:(lia)) as (w & s1 & Hrun1 & HI1 & Hk1).
  eapply runs_bind; [exact Hrun1|exact Hk1|]. advance Hk1.
  pose proof Hch as [d1 Hd1].
  destruct (getParentBar_runs s1 c ch d1 HI1 Hd1) as (pb & s2 & Hrun2 & HI2 & Hk2 & Hpb & Hpbc).
  eapply runs_bind; [exact Hrun2|exact Hk2|]. advance Hk2.
  run_getViewport Hvp. run_restyle HI2 Hpb.
  run_getViewport Hvp. run_restyle HI0 Hpb.
  run_with (attach_runs _ c pb HI3 Hpb Hpbc).
  run_getViewport Hvp.
  destruct (newViewport_runs s4 c xy1 HI4) as (s5 & Hrun5 & HI5 & Hk5).
  eapply runs_bind; [exact Hrun5|exact Hk5|]. advance Hk5.
  assert (is_Some (viewports s5 !! nextViewport s4)) as Hv5.
  { injection Hrun5 as <-. simpl. rewrite lookup_insert_eq. eauto. }
  destruct (IH s5 ch (nextViewport s4) HI5 Hch Hv5 Hfuel) as ([] & s6 & Hrun6 & HI6 & Hk6).
  eapply runs_bind; [exact Hrun6|exact Hk6|]. advance Hk6.
  run_getViewport Hvp.
  destruct (setViewport_runs s6 c vp (xy2.1 + (w + NODE_MARGIN_X), xy2.2) HI6 Hvp)
    as (s7 & Hrun7 & HI7 & Hk7).
  exists tt, s7. done.
Qed.

Lemma draw_children_runs vp cs :
  forall s, Inv s c -> is_Some (viewports s !! vp) ->
    Forall (fun ch => is_Some (nodes s !! ch) /\ (nextNode s < f + ch)%nat) cs ->
    runs c (forM_ (draw_child f c vp) cs) s.
Proof.
  induction cs as [|ch cs IHcs]; intros s HI Hvp Hcs; simpl.
  - by apply runs_ret.
  - apply Forall_cons in Hcs as [[Hch Hfuel] Hcs].
    destruct (draw_child_runs s ch vp HI Hch Hvp Hfuel) as ([] & s1 & Hrun & HI1 & Hk1).
    eapply runs_bind; [exact Hrun|exact Hk1|]. apply IHcs; [done| |].
    + by apply Hk1.
    + eapply Forall_impl; [exact Hcs|]. intros ch' [Hc' Hf']. split; [by apply Hk1|].
      by rewrite (proj1 Hk1).
Qed.

Lemma draw_runs_step s n vp :
  Inv s c -> is_Some (nodes s !! n) -> is_Some (viewports s !! vp) ->
  (nextNode s < S f + n)%nat -> runs c (draw (S f) n c vp) s.
Proof.
  intros HI Hn Hvp Hfuel. rewrite draw_unfold.
  run_getViewport Hvp.
  destruct (newViewport_runs s c xy HI) as (s1 & Hrun1 & HI1 & Hk1).
  eapply runs_bind; [exact Hrun1|exact Hk1|]. advance Hk1. clear Hrun1.
  pose proof Hn as [d1 Hd1].
  destruct (setLast_runs s1 c n d1 (Some c) (Some (nextViewport s)) HI1 Hd1)
    as (s2 & Hrun2 & HI2 & Hk2 & Hd2).
  eapply runs_bind; [exact Hrun2|exact Hk2|]. advance Hk2. clear Hrun2.
  eapply runs_bind; [exact (getNode_eq _ _ _ Hd2)|apply keeps_refl|].
  pose proof HI2 as (Htree2 & _ & Hrefs2 & Hh2 & _).
  destruct (Hrefs2 _ _ Hd2) as ([e He] & Hee & _).
  rewrite He in Hee |- *. simpl in Hee.
  destruct (handles_ok_inv _ _ _ _ RRepresentation _ Hh2 Hd2 He) as (Hec & _).
  run_restyle HI2 Hee. run_getViewport Hvp. run_restyle HI0 Hee.
  run_getViewport Hvp. run_restyle HI3 Hee.
  run_with (attach_runs _ c e HI4 Hee Hec).
  pose proof Hn as [d6 Hd6].
  eapply runs_bind; [exact (getNode_eq _ _ _ Hd6)|apply keeps_refl|].
  destruct (children d6) as [|first rest] eqn:Hcs; [by apply runs_ret|].
  pose proof HI5 as (Htree5 & _).
  assert (Forall (fun ch => is_Some (nodes s5 !! ch) /\ (nextNode s5 < f + ch)%nat)
            (first :: rest)) as Hkids.
  { rewrite <- Hcs. apply Forall_forall. intros ch Hch.
    destruct (tree_wf_child _ _ _ _ Htree5 Hd6 Hch) as [Hlt (dc & Hdc & _)].
    split; [eauto|lia]. }
  assert (is_Some (nodes s5 !! first) /\ (nextNode s5 < f + first)%nat) as [Hfirst Hffirst]
    by (rewrite Forall_forall in Hkids; apply Hkids; left).
  assert (is_Some (nodes s5 !! List.last (first :: rest) first) /\
          (nextNode s5 < f + List.last (first :: rest) first)%nat) as [Hlast Hflast]
    by (rewrite Forall_forall in Hkids; apply Hkids; by apply last_elem_of).
  (* the widths *)
  destruct (width_runs f s5 c first HI5 Hfirst ltac:(lia)) as (w1 & s6 & Hrun6 & HI6 & Hk6).
  eapply runs_bind; [exact Hrun6|exact Hk6|]. clear Hrun6.
  destruct (width_runs f s6 c (List.last (first :: rest) first) HI6)
    as (w2 & s7 & Hrun7 & HI7 & Hk7); [by apply Hk6|rewrite (proj1 Hk6); lia|].
  eapply runs_bind; [exact Hrun7|exact Hk7|]. clear Hrun7.
  pose proof (keeps_trans _ _ _ Hk6 Hk7) as Hk57.
  destruct (width_runs f s7 c n HI7) as (w3 & s8 & Hrun8 & HI8 & Hk8);
    [by apply Hk57|rewrite (proj1 Hk57); lia|].
  eapply runs_bind; [exact Hrun8|exact Hk8|]. clear Hrun8.
  pose proof (keeps_trans _ _ _ Hk57 Hk8) as Hk58. advance Hk58.
  (* the child bar *)
  pose proof Hn as [d8 Hd8].
  destruct (getChildBar_runs s8 c n d8 HI8 Hd8) as (vb & s9 & Hrun9 & HI9 & Hk9 & Hvb & Hvbc).
  eapply runs_bind; [exact Hrun9|exact Hk9|]. advance Hk9. clear Hrun9 Hd8.
  run_getViewport Hvp. run_restyle HI9 Hvb. run_getViewport Hvp. run_restyle HI10 Hvb.
  run_with (attach_runs _ c vb HI11 Hvb Hvbc).
  (* the horizontal bar *)
  pose proof Hn as [d12 Hd12].
  destruct (getHorizontalBar_runs _ c n d12 HI12 Hd12)
    as (hb & s13 & Hrun13 & HI13 & Hk13 & Hhb & Hhbc).
  eapply runs_bind; [exact Hrun13|exact Hk13|]. advance Hk13. clear Hrun13 Hd12.
  run_restyle HI13 Hhb. run_getViewport Hvp. run_restyle HI14 Hhb.
  run_getViewport Hvp. run_restyle HI15 Hhb.
  run_with (attach_runs _ c hb HI16 Hhb Hhbc).
  (* the cursor and the children *)
  run_getViewport Hvp.
  match goal with
  | |- runs _ (bind (setViewport _ ?xy') _) ?st =>
      run_with (setViewport_runs st c vp xy' HI17 Hvp)
  end.
  apply draw_children_runs; [done|done|].
  eapply Forall_impl; [exact Hkids|]. intros ch [Hch Hf]. split; [|done].
  by apply Hk58.
Qed.
End DrawRuns.

Lemma draw_runs c f : forall s n vp,
  Inv s c -> is_Some (nodes s !! n) -> is_Some (viewports s !! vp) ->
  (nextNode s < f + n)%nat -> runs c (draw f n c vp) s.
Proof.
  induction f as [|f IHf]; intros s n vp HI [d Hd] Hvp Hfuel.
  - destruct HI as (Htree & _). destruct (Htree _ _ Hd) as (Hlt & _). simpl in Hfuel. lia.
  - by apply draw_runs_step.
Qed.


(** ** More fuel gives the same result *)

Definition le_M {A} (m m' : M A) : Prop := forall s r, m s = Some r -> m' s = Some r.

Lemma le_M_refl {A} (m : M A) : le_M m m.
Proof. by intros s r. Qed.

Lemma le_M_bind {A B} (m m' : M A) (k k' : A -> M B) :
  le_M m m' -> (forall a, le_M (k a) (k' a)) -> le_M (bind m k) (bind m' k').
Proof.
  intros Hm Hk s r. unfold bind. destruct (m s) as [[a s1]|] eqn:E; [|done].
  rewrite (Hm _ _ E). apply Hk.
Qed.

Lemma le_M_when b (m m' : M unit) : le_M m m' -> le_M (when b m) (when b m').
Proof. intros Hm. destruct b; [done|apply le_M_refl]. Qed.

Lemma le_M_mapM {A B} (g g' : A -> M B) l :
  (forall a, le_M (g a) (g' a)) -> le_M (mapM g l) (mapM g' l).
Proof.
  intros Hg. induction l as [|a l IH]; simpl; [apply le_M_refl|].
  apply le_M_bind; [done|]. intros b. apply le_M_bind; [done|]. intros bs. apply le_M_refl.
Qed.

Lemma le_M_forM {A} (g g' : A -> M unit) l :
  (forall a, le_M (g a) (g' a)) -> le_M (forM_ g l) (forM_ g' l).
Proof.
  intros Hg. induction l as [|a l IH]; simpl; [apply le_M_refl|].
  apply le_M_bind; [done|]. by intros [].
Qed.

Ltac le_M_step :=
  first [ apply le_M_refl
        | apply le_M_when
        | apply le_M_mapM; intros ?
        | apply le_M_forM; intros ?
        | apply le_M_bind; [|intros ?] ].

Lemma build_fuel f :
  (forall f' b p, (f <= f')%nat -> le_M (construct f b p) (construct f' b p)) /\
  (forall f' n r, (f <= f')%nat -> le_M (expand f n r) (expand f' n r)).
Proof.
  induction f as [|f [IHc IHe]]; [split; intros; by intros s0 r0|].
  split.
  - intros [|f'] b p Hle; [lia|]. rewrite !construct_unfold.
    apply le_M_bind; [apply le_M_refl|intros x].
    apply le_M_bind; [apply le_M_refl|intros this].
    apply le_M_bind; [apply le_M_refl|intros _].
    apply le_M_bind; [apply le_M_refl|intros y].
    apply le_M_bind; [|intros; apply le_M_refl].
    apply le_M_when. apply IHe. lia.
  - intros [|f'] n r Hle; [lia|]. rewrite !expand_unfold.
    apply le_M_bind; [apply le_M_refl|intros d].
    apply le_M_bind; [|intros; apply le_M_refl].
    apply le_M_mapM. intros x. unfold expand_body.
    apply le_M_bind; [apply IHc; lia|intros node].
    apply le_M_bind; [|intros; apply le_M_refl].
    apply le_M_when. apply IHe. lia.
Qed.

Ltac le_M_go IH :=
  repeat first
    [ apply IH; lia
    | apply le_M_refl
    | apply le_M_when
    | apply le_M_forM; intros ?
    | apply le_M_mapM; intros ?
    | apply le_M_bind; [|intros ?]
    | match goal with
      | |- le_M (match ?x with _ => _ end) _ => destruct x
      | |- le_M (if ?x then _ else _) _ => destruct x
      end ].

Lemma getRequiredWidth_fuel f :
  forall f' n, (f <= f')%nat -> le_M (getRequiredWidth f n) (getRequiredWidth f' n).
Proof.
  induction f as [|f IH]; intros f' n Hf; [by intros s r|].
  destruct f' as [|f']; [lia|]. rewrite !getRequiredWidth_unfold.
  le_M_go IH.
Qed.

Lemma collapse_fuel f :
  forall f' n r, (f <= f')%nat -> le_M (collapse f n r) (collapse f' n r).
Proof.
  induction f as [|f IH]; intros f' n r Hf; [by intros s r0|].
  destruct f' as [|f']; [lia|]. cbn [collapse]. le_M_go IH.
Qed.

Ltac le_M_keep := apply le_M_bind; [apply le_M_refl|intros ?].

Lemma draw_fuel f :
  forall f' n c v, (f <= f')%nat -> le_M (draw f n c v) (draw f' n c v).
Proof.
  induction f as [|f IH]; intros f' n c v Hf; [by intros s r|].
  destruct f' as [|f']; [lia|]. rewrite !draw_unfold.
  pose proof (getRequiredWidth_fuel f f') as Hw.
  repeat le_M_keep.
  match goal with |- le_M (match ?x with _ => _ end) _ => destruct x end; [|apply le_M_refl].
  repeat le_M_keep.
  match goal with |- le_M (match ?x with _ => _ end) _ => destruct x end; [apply le_M_refl|].
  apply le_M_bind; [apply Hw; lia|intros ?].
  apply le_M_bind; [apply Hw; lia|intros ?].
  apply le_M_bind; [apply Hw; lia|intros ?].
  repeat le_M_keep.
  apply le_M_forM. intros ch. unfold draw_child.
  apply le_M_bind; [apply Hw; lia|intros ?].
  repeat le_M_keep.
  apply le_M_bind; [apply IH; lia|intros ?].
  apply le_M_refl.
Qed.

Lemma redraw_fuel f f' n : (f <= f')%nat -> le_M (redraw f n) (redraw f' n).
Proof.
  intros Hf. unfold redraw. apply le_M_bind; [apply le_M_refl|intros d].
  destruct (lastViewport d), (lastContainer d); try apply le_M_refl. by apply draw_fuel.
Qed.

Lemma invalidate_fuel f :
  forall f' n, (f <= f')%nat -> le_M (invalidate f n) (invalidate f' n).
Proof.
  induction f as [|f IH]; intros f' n Hf; [by intros s r|].
  destruct f' as [|f']; [lia|]. cbn [invalidate].
  apply le_M_bind; [apply le_M_refl|intros _].
  apply le_M_bind; [apply le_M_refl|intros d].
  destruct (parent d); [apply IH; lia|apply redraw_fuel; lia].
Qed.

Lemma click_fuel f f' n k : (f <= f')%nat -> le_M (click f n k) (click f' n k).
Proof.
  intros Hf. unfold click. apply le_M_bind; [apply le_M_refl|intros d].
  destruct (negb (isExpanded d)); [|destruct k; [|apply le_M_refl]].
  - apply le_M_bind; [by apply (proj2 (build_fuel f))|intros _]. by apply invalidate_fuel.
  - apply le_M_bind; [by apply collapse_fuel|intros _]. by apply invalidate_fuel.
Qed.

Lemma BuildTree_fuel f f' c b : (f <= f')%nat -> le_M (BuildTree f c b) (BuildTree f' c b).
Proof.
  intros Hf. unfold BuildTree.
  apply le_M_bind; [apply le_M_refl|intros _].
  apply le_M_bind; [apply le_M_refl|intros _].
  apply le_M_bind; [by apply (proj1 (build_fuel f))|intros r].
  apply le_M_bind; [apply le_M_refl|intros v].
  apply le_M_bind; [by apply draw_fuel|intros _]. apply le_M_refl.
Qed.

Lemma run_fuel f f' op : (f <= f')%nat -> le_M (run f op) (run f' op).
Proof.
  intros Hf. destruct op; cbn [run].
  - apply le_M_bind; [by apply BuildTree_fuel|intros ?; apply le_M_refl].
  - apply le_M_bind; [by apply (proj1 (build_fuel f))|intros ?; apply le_M_refl].
  - by apply (proj2 (build_fuel f)).
  - by apply collapse_fuel.
  - by apply invalidate_fuel.
  - apply le_M_bind; [by apply getRequiredWidth_fuel|intros ?; apply le_M_refl].
  - by apply draw_fuel.
  - by apply redraw_fuel.
  - apply le_M_refl.
  - apply le_M_refl.
  - by apply click_fuel.
Qed.

(** ** The operations return on well-formed pages *)

(** X9: on a well-formed page, [draw] of an existing node at an existing
    viewport object returns, the page stays well-formed, no node is created
    and none, no element and no viewport object disappears, and the subtree
    of the node is laid out at the origin the viewport object gave. *)
Theorem draw_returns f s n c vp x y :
  Inv s c -> is_Some (nodes s !! n) -> viewports s !! vp = Some (x, y) ->
  (vp < nextViewport s)%nat -> (nextNode s < f + n)%nat ->
  exists s', draw f n c vp s = Some (tt, s') /\ Inv s' c /\ keeps s s' /\
             Drawn f s' c n x y.
Proof.
  intros HI Hn Hvp Hlt Hfuel.
  destruct (draw_runs c f s n vp HI Hn ltac:(eauto) Hfuel) as ([] & s' & Hrun & HI' & Hk).
  exists s'. split_and!; try done.
  by destruct (draw_spec f s n c vp x y s' Hrun (Inv_draw_inv _ _ HI) Hvp Hlt) as (_ & _ & HD & _).
Qed.

(** X10: on a well-formed page whose backing data is closed and acyclic,
    the constructor returns the next free node identity, keeps the page
    well-formed and the older nodes as they are, and the new node wraps the
    backing node under the given parent; when the backing node remembers
    being expanded the new node gets one child per backing child at once,
    otherwise it has no children and counts as expanded only if the backing
    node has none. *)
Theorem construct_restores_expansion rank c f s b x p :
  Inv s c -> backing_ranked rank s -> backing s !! b = Some x ->
  from_option (fun pn => is_Some (nodes s !! pn)) True p -> (2 * rank b + 2 <= f)%nat ->
  exists s' dn,
    construct f b p s = Some (nextNode s, s') /\ Inv s' c /\
    (forall m, (m < nextNode s)%nat -> nodes s' !! m = nodes s !! m) /\
    nodes s' !! nextNode s = Some dn /\ innerNode dn = b /\ parent dn = p /\
    nodeChildren dn = b_children x /\ requiredWidth dn = -1 /\ lastViewport dn = None /\
    (if drawingTreeNodeIsExpanded x
     then isExpanded dn = true /\ length (children dn) = length (b_children x)
     else children dn = [] /\ isExpanded dn = Nat.eqb (length (b_children x)) 0).
Proof.
  intros HI Hrank Hb Hp Hfuel.
  destruct (proj1 (build_inv rank c f) s b x p HI Hrank Hb Hp Hfuel)
    as (s' & dn & Hrun & HI' & Hbuilds & Hold & Hnew & Hi & Hpar & Hnc & Hexp).
  destruct (builds_fresh _ _ Hbuilds _ _ Hnew ltac:(lia)) as (Hw & _ & Hlv).
  exists s', dn. split_and!; done.
Qed.

(** X11: on a well-formed page, [expand] of a node whose backing children
    exist returns and keeps the page well-formed; every other node that
    existed is unchanged, the node keeps its fields except for the child
    list and the flag, which is now true, the children are distinct new
    nodes, one per backing child in order and pointing back to the node,
    and the backing node remembers the expansion. *)
Theorem expand_keeps_page_well_formed rank c f s this d r :
  Inv s c -> backing_ranked rank s -> nodes s !! this = Some d -> (1 <= f)%nat ->
  Forall (fun x => is_Some (backing s !! x) /\ (2 * rank x + 3 <= f)%nat) (nodeChildren d) ->
  exists s' cs,
    expand f this r s = Some (tt, s') /\ Inv s' c /\
    (forall m, (m < nextNode s)%nat -> m <> this -> nodes s' !! m = nodes s !! m) /\
    nodes s' !! this = Some (set_isExpanded true (set_children cs d)) /\ NoDup cs /\
    Forall2 (fun ch x => (nextNode s <= ch)%nat /\
               exists dc, nodes s' !! ch = Some dc /\ innerNode dc = x /\
                          parent dc = Some this) cs (nodeChildren d) /\
    exists y, backing s' !! innerNode d = Some y /\ drawingTreeNodeIsExpanded y = true.
Proof.
  intros HI Hrank Hd Hf Hkids.
  destruct (proj2 (build_inv rank c f) s this d r HI Hrank Hd Hf Hkids)
    as (s' & cs & Hrun & HI' & _ & Hold & Hthis & Hnd & Hcs & Hy).
  exists s', cs. split_and!; done.
Qed.

Lemma draw_runs_spec f s n c vp x y :
  Inv s c -> is_Some (nodes s !! n) -> viewports s !! vp = Some (x, y) ->
  (vp < nextViewport s)%nat -> (nextNode s < f + n)%nat ->
  exists s', draw f n c vp s = Some (tt, s') /\ draw_inv s c.
Proof.
  intros HI Hn Hvp Hlt Hfuel.
  destruct (draw_runs c f s n vp HI Hn ltac:(eauto) Hfuel) as ([] & s' & Hrun & _).
  exists s'. split; [done|]. by apply Inv_draw_inv.
Qed.

(** X13: on a well-formed page [draw] at origin [(x, y)] returns, and then
    the children stand in one row, [NODE_HEIGHT + NODE_MARGIN_Y] below the
    node, from left to right: child number [i] is at [x] plus the cached
    widths of the children before it, each with a margin of
    [NODE_MARGIN_X]; its cached width is clean, and its parent bar is in
    the container above its middle. *)
Theorem draw_places_children f s n c vp x y :
  Inv s c -> is_Some (nodes s !! n) -> viewports s !! vp = Some (x, y) ->
  (vp < nextViewport s)%nat -> (nextNode s < f + n)%nat ->
  exists s' d,
    draw f n c vp s = Some (tt, s') /\ nodes s' !! n = Some d /\
    forall i ch, children d !! i = Some ch ->
      let xi := x + widths s' (take i (children d)) in
      let yi := y + (NODE_HEIGHT + NODE_MARGIN_Y) in
      exists dc e el pb elp,
        nodes s' !! ch = Some dc /\ requiredWidth dc <> -1 /\
        representation dc = Some e /\ elems s' !! e = Some el /\
        className el = nodeClass (isExpanded dc) /\
        styleLeft el = px xi /\ styleTop el = px yi /\ parentNode el = Some c /\
        parentBar dc = Some pb /\ elems s' !! pb = Some elp /\
        styleLeft elp = px_plus xi (half NODE_WIDTH) /\
        styleTop elp = px_plus yi (- half NODE_MARGIN_Y) /\ parentNode elp = Some c.
Proof.
  intros HI Hn Hvp Hlt Hfuel.
  destruct (draw_runs_spec f s n c vp x y HI Hn Hvp Hlt Hfuel) as (s' & Hrun & Hinv).
  destruct (draw_children_placed f s n c vp x y s' Hinv Hvp Hlt Hrun) as (d & H).
  by exists s', d.
Qed.

(** X14: [draw] on a node stays inside its subtree: a node that is not
    below it is unchanged, no node is created, an element held by a node
    outside the subtree keeps its class, position, width and parent, and so
    does the parent bar of the node itself; of the viewports only the one
    passed is written. *)
Theorem draw_stays_in_subtree f s n c vp x y :
  Inv s c -> is_Some (nodes s !! n) -> viewports s !! vp = Some (x, y) ->
  (vp < nextViewport s)%nat -> (nextNode s < f + n)%nat ->
  exists s',
    draw f n c vp s = Some (tt, s') /\ nextNode s' = nextNode s /\
    (forall m, ~ below s n m -> nodes s' !! m = nodes s !! m) /\
    (forall m d r e, nodes s !! m = Some d -> handle d r = Some e ->
       ~ below s n m \/ (m = n /\ r = RParentBar) ->
       visual <$> elems s' !! e = visual <$> elems s !! e) /\
    (forall v, (v < nextViewport s)%nat -> v <> vp -> viewports s' !! v = viewports s !! v).
Proof.
  intros HI Hn Hvp Hlt Hfuel.
  destruct (draw_runs_spec f s n c vp x y HI Hn Hvp Hlt Hfuel) as (s' & Hrun & Hinv).
  exists s'. split; [done|]. by apply (draw_frame f s n c vp x y s').
Qed.

(** ** [BuildTree] *)

(** One write to an element that keeps its parent or detaches it. *)
Lemma modifyElem_Inv s c e g x :
  Inv s c -> elems s !! e = Some x ->
  (parentNode (g x) = parentNode x \/ parentNode (g x) = None) ->
  modifyElem e g s = Some (tt, with_elems (<[e := g x]> (elems s)) s) /\
  Inv (with_elems (<[e := g x]> (elems s)) s) c.
Proof.
  intros HI Hx Hg. split; [by apply modifyElem_eq|].
  assert (forall k, is_Some (elems (with_elems (<[e:=g x]> (elems s)) s) !! k) <->
                    is_Some (elems s !! k)) as Hk.
  { intros k. simpl. rewrite lookup_insert. case_decide; subst; split; eauto. }
  eapply Inv_elems; [| |.. |exact HI]; [done|done|].
  intros k x'. simpl. rewrite lookup_insert. pose proof HI as (_ & Hdom & _).
  assert (forall k0 x0, elems s !! k0 = Some x0 ->
            from_option (fun p => p <> k0 /\
              is_Some (elems (with_elems (<[e:=g x]> (elems s)) s) !! p)) True (parentNode x0))
    as Hold.
  { intros k0 x0 Hx0. destruct (Hdom _ _ Hx0) as [_ Hp].
    destruct (parentNode x0) as [p|]; [|done]. simpl in *. destruct Hp as [? Hp].
    split; [done|]. by apply (Hk p). }
  case_decide; subst.
  - intros [= <-]. destruct Hg as [-> | ->]; [by apply Hold|done].
  - apply Hold.
Qed.

Lemma detached_insert s e x k :
  (e = k -> parentNode x = None) ->
  detached s k -> detached (with_elems (<[e := x]> (elems s)) s) k.
Proof.
  intros Hx (y & Hy & Hp). unfold detached. simpl. rewrite lookup_insert.
  case_decide; subst; eauto.
Qed.

Lemma clear_loop_runs c l : forall s,
  Inv s c -> Forall (fun e => is_Some (elems s !! e)) l ->
  exists s',
    forM_ (fun e => modifyElem e (set_parentNode None)) l s = Some (tt, s') /\
    Inv s' c /\ elems_only s s' /\
    (forall k, is_Some (elems s' !! k) <-> is_Some (elems s !! k)) /\
    (forall k, k ∈ l \/ detached s k -> detached s' k).
Proof.
  induction l as [|e l IH]; intros s HI Hl; simpl.
  - exists s. split_and!; try done. intros k [Hk|Hk]; [by apply elem_of_nil in Hk|done].
  - apply Forall_cons in Hl as [[x Hx] Hl].
    destruct (modifyElem_Inv s c e (set_parentNode None) x HI Hx ltac:(by right))
      as [Hrun HI1].
    set (s1 := with_elems (<[e := set_parentNode None x]> (elems s)) s) in *.
    assert (forall k, is_Some (elems s1 !! k) <-> is_Some (elems s !! k)) as Hk1.
    { intros k. simpl. rewrite lookup_insert. case_decide; subst; split; eauto. }
    destruct (IH s1 HI1) as (s' & Hrun' & HI' & Ho & Hk & Hdet).
    { eapply Forall_impl; [exact Hl|]. intros k. apply Hk1. }
    exists s'. rewrite (bind_eq _ _ _ _ _ Hrun). split_and!; try done.
    + intros k. rewrite Hk. apply Hk1.
    + intros k Hin. apply Hdet.
      destruct (decide (k = e)) as [->|Hne].
      { right. eexists. simpl. rewrite lookup_insert_eq. done. }
      destruct Hin as [[->|Hin]%elem_of_cons|Hin]; [done|by left|right].
      apply detached_insert; done.
Qed.

Lemma clearChildren_runs s c xc :
  Inv s c -> elems s !! c = Some xc ->
  Forall (fun e => is_Some (elems s !! e)) (childNodes xc) ->
  exists s',
    (clearChildren c ;;; modifyElem c (set_className "node-container")) s = Some (tt, s') /\
    Inv s' c /\ elems_only s s' /\
    (forall k, is_Some (elems s' !! k) <-> is_Some (elems s !! k)) /\
    (forall k, k ∈ childNodes xc -> detached s' k) /\
    exists xc', elems s' !! c = Some xc' /\ className xc' = "node-container" /\
                childNodes xc' = [].
Proof.
  intros HI Hc Hkids. unfold clearChildren.
  destruct (clear_loop_runs c (childNodes xc) s HI Hkids) as (s1 & Hrun1 & HI1 & Ho1 & Hk1 & Hdet1).
  destruct (proj2 (Hk1 c) ltac:(eauto)) as [x1 Hx1].
  destruct (modifyElem_Inv s1 c c (set_childNodes []) x1 HI1 Hx1 ltac:(by left)) as [Hrun2 HI2].
  set (s2 := with_elems (<[c := set_childNodes [] x1]> (elems s1)) s1) in *.
  assert (elems s2 !! c = Some (set_childNodes [] x1)) as Hx2 by (simpl; by rewrite lookup_insert_eq).
  destruct (modifyElem_Inv s2 c c (set_className "node-container") _ HI2 Hx2 ltac:(by left))
    as [Hrun3 HI3].
  eexists. split.
  { rewrite !bind_assoc. rewrite (bind_eq _ _ _ _ _ (getElem_eq _ _ _ Hc)).
    rewrite ?bind_assoc.
    rewrite (bind_eq _ _ _ _ _ Hrun1). rewrite (bind_eq _ _ _ _ _ Hrun2). exact Hrun3. }
  split_and!; try done.
  - intros k. simpl. rewrite !lookup_insert. rewrite <- Hk1.
    repeat case_decide; subst; split; eauto.
  - intros k Hk. specialize (Hdet1 k (or_introl Hk)). destruct Hdet1 as (y & Hy & Hp).
    unfold detached. simpl. rewrite !lookup_insert. repeat case_decide; subst; eauto.
    rewrite Hx1 in Hy. injection Hy as <-. eauto.
  - eexists. simpl. rewrite lookup_insert_eq. done.
Qed.

(** ** What building and collapsing leave of a drawing *)

(** Steps that draw nothing: the viewport objects and what each node
    recorded at its last [draw] are unchanged. *)
Definition layout_kept (s s' : State) : Prop :=
  nextViewport s' = nextViewport s /\ viewports s' = viewports s /\
  forall m d, nodes s !! m = Some d ->
    exists d', nodes s' !! m = Some d' /\
      lastContainer d' = lastContainer d /\ lastViewport d' = lastViewport d.

Lemma layout_kept_refl s : layout_kept s s.
Proof. split_and!; eauto. Qed.

Lemma layout_kept_trans s1 s2 s3 :
  layout_kept s1 s2 -> layout_kept s2 s3 -> layout_kept s1 s3.
Proof.
  intros (H1 & H2 & H3) (H4 & H5 & H6). split_and!; [congruence..|].
  intros m d Hm. destruct (H3 _ _ Hm) as (d2 & Hd2 & ? & ?).
  destruct (H6 _ _ Hd2) as (d3 & Hd3 & ? & ?). exists d3. split_and!; congruence.
Qed.

Definition nodes_below (s : State) : Prop :=
  forall m, is_Some (nodes s !! m) -> (m < nextNode s)%nat.

Lemma kept_modifyNode n g :
  (forall d, lastContainer (g d) = lastContainer d /\ lastViewport (g d) = lastViewport d) ->
  sound nodes_below layout_kept (modifyNode n g).
Proof.
  intros Hg s u s' HI (d & Hd & ->)%modifyNode_inv. split.
  - intros m. simpl. rewrite lookup_insert. case_decide; subst; intros ?; apply HI; eauto.
  - split_and!; try done. intros m dm Hm. simpl. rewrite lookup_insert. case_decide.
    + subst. rewrite Hd in Hm. injection Hm as <-. destruct (Hg d). eauto.
    + eauto.
Qed.

Lemma kept_newNode d : sound nodes_below layout_kept (newNode d).
Proof.
  intros s u s' HI [= <- <-]. split.
  - intros m. simpl. rewrite lookup_insert. case_decide; [lia|]. intros Hm.
    specialize (HI m Hm). lia.
  - split_and!; try done. intros m dm Hm. simpl. rewrite lookup_insert_ne; [eauto|].
    specialize (HI m ltac:(eauto)). lia.
Qed.

Lemma kept_modifyElem e g : sound nodes_below layout_kept (modifyElem e g).
Proof.
  intros s u s' HI (d & Hd & ->)%modifyElem_inv. split; [done|]. split_and!; eauto.
Qed.

Lemma kept_newElem x : sound nodes_below layout_kept (newElem x).
Proof. intros s u s' HI [= <- <-]. split; [done|]. split_and!; eauto. Qed.

Lemma kept_modifyBacking b g : sound nodes_below layout_kept (modifyBacking b g).
Proof.
  intros s u s' HI (d & Hd & ->)%modifyBacking_inv. split; [done|]. split_and!; eauto.
Qed.

Ltac kept_prim :=
  first
    [ apply kept_modifyNode; intros ?; simpl; done
    | apply kept_newNode | apply kept_modifyElem | apply kept_newElem
    | apply kept_modifyBacking
    | progress unfold_ops
    | solve [auto] ].

Ltac kept_go := sound_go layout_kept_refl layout_kept_trans kept_prim.

Lemma kept_construct_expand fuel :
  (forall b p, sound nodes_below layout_kept (construct fuel b p)) /\
  (forall n r, sound nodes_below layout_kept (expand fuel n r)).
Proof.
  induction fuel as [|f [IHc IHe]]; (split; [intros b p|intros n r]); simpl;
    try apply sound_fail.
  - kept_go.
  - kept_go.
Qed.

Lemma kept_collapse fuel n r : sound nodes_below layout_kept (collapse fuel n r).
Proof.
  revert n r. induction fuel as [|f IH]; intros n r; simpl; [apply sound_fail|].
  kept_go.
Qed.

Lemma Inv_nodes_below s c : Inv s c -> nodes_below s.
Proof. intros (Htree & _) m [d Hd]. by destruct (Htree _ _ Hd). Qed.

(** ** [invalidate] and the click handler *)

Lemma markDirty_same_except_width l s : same_except_width s (markDirty l s).
Proof.
  unfold same_except_width. split_and!; try done. intros m. rewrite markDirty_lookup.
  destruct (nodes s !! m) as [d|] eqn:E; case_decide; simpl; eauto.
  exists (requiredWidth d). by rewrite set_requiredWidth_id.
Qed.

Lemma parent_chain_last s n l r : parent_chain s n l r -> r ∈ l.
Proof. induction 1; [left|by right]. Qed.

Lemma parent_chain_local s s' n l r :
  (forall m, m ∈ l -> parent <$> nodes s' !! m = parent <$> nodes s !! m) ->
  parent_chain s n l r -> parent_chain s' n l r.
Proof.
  intros Hsame H. induction H as [n d Hn Hp|n d p l r Hn Hp _ IH].
  - specialize (Hsame n ltac:(left)). rewrite Hn in Hsame.
    destruct (nodes s' !! n) as [d'|] eqn:E; [|done]. simpl in Hsame.
    apply (chain_root _ _ d'); [done|congruence].
  - pose proof (Hsame n ltac:(left)) as Hsn. rewrite Hn in Hsn.
    destruct (nodes s' !! n) as [d'|] eqn:E; [|done]. simpl in Hsn.
    apply (chain_step _ _ d' p); [done|congruence|]. apply IH. intros m Hm. apply Hsame.
    by right.
Qed.


(** * Valid width caches *)

(** A node is attached when it is a root or its parent lists it as a
    child.  (The nodes that [collapse] or a second [expand] leaves behind
    still point to their former parent, but are in no child list.) *)
Definition attached (s : State) (m : nat) (d : DrawingTreeNode) : Prop :=
  match parent d with
  | None => True
  | Some p => match nodes s !! p with
              | Some dp => m ∈ children dp
              | None => False
              end
  end.

#[export] Instance attached_dec s m d : Decision (attached s m d).
Proof. unfold attached. destruct (parent d); [destruct (nodes s !! _)|]; apply _. Defined.

(** The cache of every attached node is dirty or holds the width of the
    node's subtree. *)
Definition cache_ok (s : State) (m : nat) (d : DrawingTreeNode) : Prop :=
  attached s m d -> cache_valid s m d.

Definition caches_ok (s : State) : Prop := map_Forall (cache_ok s) (nodes s).

#[export] Instance caches_ok_dec s : Decision (caches_ok s).
Proof. unfold caches_ok, cache_ok. apply _. Defined.

Definition layout_ok (s : State) : Prop := tree_wf s /\ caches_ok s.

(** The width of a subtree depends on the child lists below the node only. *)
Lemma treeWidth_local s s' f :
  forall m,
    (forall k, inTree s m k -> children <$> nodes s' !! k = children <$> nodes s !! k) ->
    treeWidth f s' m = treeWidth f s m.
Proof.
  induction f as [|f IH]; intros m Hsame; [done|]. simpl.
  pose proof (Hsame m (inTree_refl _ _)) as Hm.
  destruct (nodes s !! m) as [d|] eqn:Hd; simpl in Hm.
  - destruct (nodes s' !! m) as [d'|]; [|done]. simpl in Hm. injection Hm as ->.
    do 2 f_equal. f_equal. apply map_ext_in. intros ch Hch%list_elem_of_In. apply IH.
    intros k Hk. apply Hsame. by eapply inTree_step.
  - destruct (nodes s' !! m); done.
Qed.

Lemma inTree_attached s n m dm :
  tree_wf s -> inTree s n m -> m <> n -> nodes s !! m = Some dm -> attached s m dm.
Proof.
  intros Hwf. induction 1 as [|a d ch m Ha Hch Hin IH]; intros Hne Hm; [done|].
  destruct (decide (m = ch)) as [->|Hne']; [|by apply IH].
  destruct (tree_wf_child _ _ _ _ Hwf Ha Hch) as [_ (dc & Hdc & Hp)].
  rewrite Hm in Hdc. injection Hdc as <-. unfold attached. by rewrite Hp, Ha.
Qed.

(** States whose nodes agree in links, children and cached widths. *)
Definition same_layout (s s' : State) : Prop :=
  nextNode s' = nextNode s /\
  forall m, match nodes s !! m with
            | Some d => exists d', nodes s' !! m = Some d' /\ children d' = children d /\
                          parent d' = parent d /\ requiredWidth d' = requiredWidth d
            | None => nodes s' !! m = None
            end.

Lemma same_layout_children s s' k :
  same_layout s s' -> children <$> nodes s' !! k = children <$> nodes s !! k.
Proof.
  intros [_ Hn]. specialize (Hn k). destruct (nodes s !! k) as [d|].
  - destruct Hn as (d' & -> & Hc & _). simpl. by rewrite Hc.
  - by rewrite Hn.
Qed.

Lemma same_layout_inv s s' m d' :
  same_layout s s' -> nodes s' !! m = Some d' ->
  exists d, nodes s !! m = Some d /\ children d' = children d /\
            parent d' = parent d /\ requiredWidth d' = requiredWidth d.
Proof.
  intros [_ Hn] Hm. specialize (Hn m). destruct (nodes s !! m) as [d|]; [|congruence].
  destruct Hn as (d2 & Hd2 & Hrest). rewrite Hm in Hd2. injection Hd2 as <-. eauto.
Qed.

Lemma layout_ok_same s s' : same_layout s s' -> layout_ok s -> layout_ok s'.
Proof.
  intros Hs [Hwf Hok]. pose proof Hs as [HN Hn].
  assert (forall m, parent <$> nodes s' !! m = parent <$> nodes s !! m) as Hpar.
  { intros m. specialize (Hn m). destruct (nodes s !! m) as [d|].
    - destruct Hn as (d' & -> & _ & Hp & _). simpl. by rewrite Hp.
    - by rewrite Hn. }
  split.
  - intros m d' Hm. destruct (same_layout_inv _ _ _ _ Hs Hm) as (d & Hd & Hc & Hp & _).
    destruct (Hwf _ _ Hd) as (H1 & H2 & H3 & H4). unfold node_wf. rewrite HN, Hc, Hp.
    split_and!; try done.
    + destruct (parent d) as [p|]; [|done]. simpl in *. destruct H2 as [? [dp Hdp]].
      split; [done|]. specialize (Hn p). rewrite Hdp in Hn. destruct Hn as (? & -> & _). eauto.
    + eapply Forall_impl; [exact H3|]. intros ch Hch. simpl in *. by rewrite Hpar.
  - intros m d' Hm Hatt. destruct (same_layout_inv _ _ _ _ Hs Hm) as (d & Hd & Hc & Hp & Hw).
    assert (attached s m d) as Hatt0.
    { unfold attached in *. rewrite Hp in Hatt. destruct (parent d) as [p|]; [|done].
      pose proof (same_layout_children s s' p Hs) as Hcp.
      destruct (nodes s' !! p) as [dp'|]; [|done]. simpl in Hcp.
      destruct (nodes s !! p) as [dp|]; [|done]. simpl in Hcp. congruence. }
    destruct (Hok _ _ Hd Hatt0) as [Hdirty|Hv]; [left; congruence|right].
    rewrite Hw, Hv. unfold subtreeWidth. rewrite HN. symmetry. apply treeWidth_local.
    intros k _. by apply same_layout_children.
Qed.

Lemma same_layout_nodes s s' :
  nodes s' = nodes s -> nextNode s' = nextNode s -> same_layout s s'.
Proof.
  intros Hn HN. split; [done|]. intros m. rewrite Hn.
  destruct (nodes s !! m) as [d|]; eauto.
Qed.

(** ** [draw] keeps the caches valid *)

Lemma valid_modifyNode n g :
  (forall d, children (g d) = children d /\ parent (g d) = parent d /\
             requiredWidth (g d) = requiredWidth d) ->
  sound layout_ok any (modifyNode n g).
Proof.
  intros Hg s u s' HI (d & Hd & ->)%modifyNode_inv. split; [|done].
  eapply layout_ok_same; [|exact HI]. split; [done|]. intros m. simpl.
  rewrite lookup_insert. case_decide.
  - subst. rewrite Hd. exists (g d). destruct (Hg d) as (? & ? & ?). done.
  - destruct (nodes s !! m); eauto.
Qed.

Lemma valid_modifyElem e g : sound layout_ok any (modifyElem e g).
Proof.
  intros s u s' HI (d & Hd & ->)%modifyElem_inv. split; [|done].
  eapply layout_ok_same; [|exact HI]. by apply same_layout_nodes.
Qed.

Lemma valid_newElem x : sound layout_ok any (newElem x).
Proof.
  intros s u s' HI [= <- <-]. split; [|done].
  eapply layout_ok_same; [|exact HI]. by apply same_layout_nodes.
Qed.

Lemma valid_newViewport xy : sound layout_ok any (newViewport xy).
Proof.
  intros s u s' HI [= <- <-]. split; [|done].
  eapply layout_ok_same; [|exact HI]. by apply same_layout_nodes.
Qed.

Lemma valid_setViewport v xy : sound layout_ok any (setViewport v xy).
Proof.
  intros s u s' HI (Hd & ->)%setViewport_inv. split; [|done].
  eapply layout_ok_same; [|exact HI]. by apply same_layout_nodes.
Qed.

Lemma valid_getRequiredWidth f n : sound layout_ok any (getRequiredWidth f n).
Proof.
  intros s w s' [Hwf Hok] Hrun. split; [|done].
  destruct (getRequiredWidth_frame _ _ _ _ _ Hrun Hwf) as [Hs _].
  split; [by eapply tree_wf_same_except_width|].
  destruct f as [|f]; [done|].
  assert (exists d, nodes s !! n = Some d) as [d Hd].
  { rewrite getRequiredWidth_unfold in Hrun.
    apply bind_inv in Hrun as (d & s0 & [-> Hd]%getNode_inv & _). eauto. }
  destruct (decide (requiredWidth d = -1)) as [Hdirty|Hclean]; cycle 1.
  { rewrite (getRequiredWidth_clean f n s d Hd Hclean) in Hrun. by injection Hrun as _ <-. }
  assert (caches_valid s n) as Hvalid.
  { intros m dm Hm Hdm. destruct (decide (m = n)) as [->|Hne].
    - rewrite Hd in Hdm. injection Hdm as <-. by left.
    - apply (Hok _ _ Hdm). by eapply inTree_attached. }
  pose proof (getRequiredWidth_kept_or_valid _ _ _ _ _ Hrun Hwf Hvalid) as Hkv.
  intros k dk Hk Hatt.
  assert (cache_valid s k dk) as Hv.
  { destruct (Hkv _ _ Hk) as [Hsame|Hv]; [|done]. apply (Hok _ _ Hsame).
    unfold attached in *. destruct (parent dk) as [p|]; [|done].
    pose proof (same_except_width_children s s' p Hs) as Hcp.
    destruct (nodes s' !! p) as [dp'|]; [|done]. simpl in Hcp.
    destruct (nodes s !! p) as [dp|]; [|done]. simpl in Hcp. congruence. }
  unfold cache_valid. by rewrite (subtreeWidth_same_except_width s s' k Hs).
Qed.

Ltac valid_prim :=
  first
    [ apply valid_modifyNode; intros ?; simpl; done
    | apply valid_modifyElem | apply valid_newElem
    | apply valid_newViewport | apply valid_setViewport
    | apply valid_getRequiredWidth
    | progress unfold_ops
    | solve [auto] ].

Ltac valid_go := sound_go any_refl any_trans valid_prim.

Lemma valid_draw fuel n c v : sound layout_ok any (draw fuel n c v).
Proof.
  revert n c v. induction fuel as [|f IH]; intros n c v; simpl; [apply sound_fail|].
  valid_go.
Qed.

(** ** Subtrees *)

Lemma inTree_trans s a b m : inTree s a b -> inTree s b m -> inTree s a m.
Proof. induction 1; [done|]. intros Hm. eapply inTree_step; eauto. Qed.

Lemma inTree_child s a d ch :
  nodes s !! a = Some d -> ch ∈ children d -> inTree s a ch.
Proof. intros Ha Hch. eapply inTree_step; [done|done|constructor]. Qed.

(** A node of a subtree other than its root has its parent in the subtree. *)
Lemma inTree_parent s a m :
  tree_wf s -> inTree s a m -> m <> a ->
  exists dm p dp, nodes s !! m = Some dm /\ parent dm = Some p /\ inTree s a p /\
                  nodes s !! p = Some dp /\ m ∈ children dp.
Proof.
  intros Hwf. induction 1 as [|a d ch m Ha Hch Hin IH]; intros Hne; [done|].
  destruct (decide (m = ch)) as [->|Hne'].
  - destruct (tree_wf_child _ _ _ _ Hwf Ha Hch) as [_ (dc & Hdc & Hp)].
    exists dc, a, d. split_and!; try done. constructor.
  - destruct (IH Hne') as (dm & p & dp & H1 & H2 & H3 & H4 & H5).
    exists dm, p, dp. split_and!; try done. by eapply inTree_step.
Qed.

(** Two subtrees that share a node are nested. *)
Lemma inTree_overlap s a b k :
  tree_wf s -> inTree s a k -> inTree s b k -> inTree s a b \/ inTree s b a.
Proof.
  intros Hwf. induction 1 as [|a d ch k Ha Hch Hin IH]; intros Hb; [by right|].
  destruct (IH Hb) as [Hcb|Hbc].
  - left. by eapply inTree_step.
  - destruct (decide (ch = b)) as [->|Hne]; [left; by eapply inTree_child|].
    right. destruct (inTree_parent _ _ _ Hwf Hbc Hne) as (dc & p & dp & H1 & H2 & H3 & _).
    destruct (tree_wf_child _ _ _ _ Hwf Ha Hch) as [_ (dc' & Hdc' & Hp')].
    congruence.
Qed.

Lemma below_chain s a n l r : below s a n -> parent_chain s n l r -> a ∈ l.
Proof.
  intros Hb. revert l. induction Hb as [|n x p Hn Hp _ IH]; intros l Hl.
  - inversion Hl; subst; left.
  - inversion Hl as [? d' Hd' Hp'|? d' p' l' ? Hd' Hp' Hl']; subst.
    + congruence.
    + right. apply IH. assert (p' = p) as -> by congruence. done.
Qed.

(** The ancestors of a node are the nodes whose subtree contains it. *)
Lemma inTree_chain s m n l r :
  tree_wf s -> inTree s m n -> parent_chain s n l r -> m ∈ l.
Proof. intros Hwf Hin. apply below_chain. by apply inTree_below. Qed.

Lemma inTree_exists s a m :
  tree_wf s -> is_Some (nodes s !! a) -> inTree s a m -> is_Some (nodes s !! m).
Proof.
  intros Hwf Ha. induction 1 as [|a d ch m Hd Hch _ IH]; [done|]. apply IH.
  destruct (tree_wf_child _ _ _ _ Hwf Hd Hch) as [_ (dc & Hdc & _)]. eauto.
Qed.

(** ** What [collapse] leaves alone *)

(** Steps that create no node and add no child to a child list. *)
Definition shrinks (s s' : State) : Prop :=
  forall m d', nodes s' !! m = Some d' ->
    exists d, nodes s !! m = Some d /\ (children d' = children d \/ children d' = []).

Lemma shrinks_refl s : shrinks s s.
Proof. intros m d Hm. eauto. Qed.

Lemma shrinks_trans s1 s2 s3 : shrinks s1 s2 -> shrinks s2 s3 -> shrinks s1 s3.
Proof.
  intros H1 H2 m d3 Hm. destruct (H2 _ _ Hm) as (d2 & Hd2 & Hc2).
  destruct (H1 _ _ Hd2) as (d1 & Hd1 & Hc1). exists d1. split; [done|].
  destruct Hc2 as [->|?]; auto.
Qed.

Definition always : State -> Prop := fun _ => True.

Lemma shrinks_modifyNode n g :
  (forall d, children (g d) = children d \/ children (g d) = []) ->
  sound always shrinks (modifyNode n g).
Proof.
  intros Hg s u s' _ (d & Hd & ->)%modifyNode_inv. split; [done|]. intros m dm. simpl.
  rewrite lookup_insert. case_decide; subst.
  - intros [= <-]. eauto.
  - eauto.
Qed.

Lemma shrinks_modifyElem e g : sound always shrinks (modifyElem e g).
Proof.
  intros s u s' _ (d & Hd & ->)%modifyElem_inv. split; [done|]. intros m dm Hm. eauto.
Qed.

Lemma shrinks_newElem x : sound always shrinks (newElem x).
Proof. intros s u s' _ [= <- <-]. split; [done|]. intros m dm Hm. eauto. Qed.

Lemma shrinks_modifyBacking b g : sound always shrinks (modifyBacking b g).
Proof.
  intros s u s' _ (d & Hd & ->)%modifyBacking_inv. split; [done|]. intros m dm Hm. eauto.
Qed.

Ltac shrinks_prim :=
  first
    [ apply shrinks_modifyNode; intros ?; simpl; auto; fail
    | apply shrinks_modifyElem | apply shrinks_newElem
    | apply shrinks_modifyBacking
    | progress unfold_ops
    | solve [auto] ].

Ltac shrinks_go := sound_go shrinks_refl shrinks_trans shrinks_prim.

Lemma shrinks_remove e : sound always shrinks (remove e).
Proof. shrinks_go. Qed.

Lemma shrinks_getChildBar n : sound always shrinks (getChildBar n).
Proof. shrinks_go. Qed.

Lemma shrinks_getHorizontalBar n : sound always shrinks (getHorizontalBar n).
Proof. shrinks_go. Qed.

Lemma shrinks_getParentBar n : sound always shrinks (getParentBar n).
Proof. shrinks_go. Qed.

Lemma shrinks_collapse fuel n r : sound always shrinks (collapse fuel n r).
Proof.
  revert n r. induction fuel as [|f IH]; intros n r; simpl; [apply sound_fail|].
  shrinks_go.
Qed.

Lemma inTree_shrinks s s' a m : shrinks s s' -> inTree s' a m -> inTree s a m.
Proof.
  intros Hs. induction 1 as [|a d' ch m Ha Hch _ IH]; [constructor|].
  destruct (Hs _ _ Ha) as (d & Hd & [Heq|Hnil]).
  - eapply inTree_step; [exact Hd| |exact IH]. by rewrite <- Heq.
  - rewrite Hnil in Hch. by apply elem_of_nil in Hch.
Qed.

Lemma getBar_outside get set cls n s e s' :
  getBar get set cls n s = Some (e, s') ->
  forall m, m <> n -> nodes s' !! m = nodes s !! m.
Proof.
  intros Hrun m Hne. unfold getBar, createElement in Hrun.
  apply bind_inv in Hrun as (d & s0 & [-> Hd]%getNode_inv & Hrun).
  destruct (get d) as [e0|]; [by injection Hrun as <- <-|].
  apply bind_inv in Hrun as (e1 & s1 & [= <- <-] & Hrun).
  apply bind_inv in Hrun as ([] & s2 & (d1 & Hd1 & ->)%modifyNode_inv & Hrun).
  apply bind_inv in Hrun as ([] & s3 & (x & Hx & ->)%modifyElem_inv & [= <- <-]).
  simpl. by rewrite lookup_insert_ne.
Qed.

Lemma getBar_remove_outside get set cls n s e s1 s' :
  getBar get set cls n s = Some (e, s1) -> remove (Some e) s1 = Some (tt, s') ->
  forall m, m <> n -> nodes s' !! m = nodes s !! m.
Proof.
  intros Hget Hrem m Hne. destruct (remove_drops _ _ _ Hrem) as (_ & _ & ->).
  by eapply getBar_outside.
Qed.

Section CollapseOutside.
Context (f : nat).
Context (IH : forall s this rs s', collapse f this rs s = Some (tt, s') ->
                forall m, ~ inTree s this m -> nodes s' !! m = nodes s !! m).

Lemma collapse_children_outside cs : forall s s',
  forM_ (fun x => collapse f x true) cs s = Some (tt, s') ->
  forall m, (forall c, c ∈ cs -> ~ inTree s c m) -> nodes s' !! m = nodes s !! m.
Proof.
  induction cs as [|c cs IHcs]; intros s s' Hrun m Hm; simpl in Hrun.
  - by injection Hrun as <-.
  - apply bind_inv in Hrun as ([] & s1 & Hc & Hrun).
    rewrite (IHcs _ _ Hrun m).
    + apply (IH _ _ _ _ Hc). apply Hm. left.
    + intros c' Hc' Hin. apply (Hm c'); [by right|].
      eapply inTree_shrinks; [|exact Hin].
      by destruct (shrinks_collapse f c true s tt s1 I Hc).
Qed.

Lemma collapse_outside_step s this rs s' :
  collapse (S f) this rs s = Some (tt, s') ->
  forall m, ~ inTree s this m -> nodes s' !! m = nodes s !! m.
Proof.
  intros Hrun m Hm.
  assert (m <> this) as Hne by (intros ->; apply Hm; constructor).
  simpl in Hrun.
  apply bind_inv in Hrun as ([] & sa & Hself & Hrun).
  assert (nodes sa !! m = nodes s !! m /\ shrinks s sa) as (Ha & Hsa).
  { destruct rs; simpl in Hself; cycle 1.
    { injection Hself as <-. split; [done|apply shrinks_refl]. }
    apply bind_inv in Hself as (d & s0 & [-> Hd]%getNode_inv & Hself).
    apply bind_inv in Hself as ([] & s1 & Hrem & Hself).
    destruct (representation d) as [e|] eqn:Hr; [|done].
    destruct (remove_drops _ _ _ Hrem) as (_ & _ & Hn1).
    destruct (shrinks_remove (Some e) _ _ _ I Hrem) as [_ Hs1].
    apply bind_inv in Hself as (pb & s2 & Hpb & Hself).
    destruct (shrinks_getParentBar _ _ _ _ I Hpb) as [_ Hs2].
    destruct (shrinks_remove (Some pb) _ _ _ I Hself) as [_ Hs3].
    split; [|eauto using shrinks_trans].
    rewrite (getBar_remove_outside _ _ _ _ _ _ _ _ Hpb Hself m Hne). by rewrite Hn1. }
  apply bind_inv in Hrun as (cb & sb0 & Hcb & Hrun).
  apply bind_inv in Hrun as ([] & sb & Hcbr & Hrun).
  pose proof (getBar_remove_outside _ _ _ _ _ _ _ _ Hcb Hcbr m Hne) as Hb.
  destruct (shrinks_getChildBar _ _ _ _ I Hcb) as [_ Hsb0].
  destruct (shrinks_remove (Some cb) _ _ _ I Hcbr) as [_ Hsb].
  apply bind_inv in Hrun as (hb & sc0 & Hhb & Hrun).
  apply bind_inv in Hrun as ([] & sc & Hhbr & Hrun).
  pose proof (getBar_remove_outside _ _ _ _ _ _ _ _ Hhb Hhbr m Hne) as Hc.
  destruct (shrinks_getHorizontalBar _ _ _ _ I Hhb) as [_ Hsc0].
  destruct (shrinks_remove (Some hb) _ _ _ I Hhbr) as [_ Hsc].
  assert (shrinks s sc) as Hs by eauto using shrinks_trans.
  apply bind_inv in Hrun as (d & sc' & [-> Hd]%getNode_inv & Hrun).
  apply bind_inv in Hrun as ([] & sd & Hloop & Hrun).
  pose proof (collapse_children_outside _ _ _ Hloop m) as Hd'.
  apply bind_inv in Hrun as ([] & s1 & (d1 & Hd1 & ->)%modifyNode_inv & Hrun).
  apply bind_inv in Hrun as ([] & s2 & (d2 & Hd2 & ->)%modifyNode_inv & Hrun).
  apply bind_inv in Hrun as ([] & s3 & (d3 & Hd3 & ->)%modifyNode_inv & Hrun).
  apply bind_inv in Hrun as (d4 & s4 & [-> Hd4]%getNode_inv & Hrun).
  apply modifyBacking_inv in Hrun as (b & Hb' & ->).
  simpl. rewrite !lookup_insert_ne by done. rewrite Hd', Hc, Hb, Ha; [done|].
  intros c Hc' Hin. apply Hm.
  destruct (Hs _ _ Hd) as (d0 & Hd0 & [Heq|Hnil]).
  - eapply inTree_step; [exact Hd0|by rewrite <- Heq|]. by eapply inTree_shrinks.
  - rewrite Hnil in Hc'. by apply elem_of_nil in Hc'.
Qed.
End CollapseOutside.

Lemma collapse_outside f :
  forall s this rs s', collapse f this rs s = Some (tt, s') ->
    forall m, ~ inTree s this m -> nodes s' !! m = nodes s !! m.
Proof.
  induction f as [|f IH]; intros s this rs s' Hrun; [done|].
  exact (collapse_outside_step f IH s this rs s' Hrun).
Qed.

(** ** Caches across a change of the tree *)

Lemma cache_valid_transfer s s' m d d' :
  tree_wf s -> (nextNode s <= nextNode s')%nat -> requiredWidth d' = requiredWidth d ->
  (forall k, inTree s m k -> children <$> nodes s' !! k = children <$> nodes s !! k) ->
  cache_valid s m d -> cache_valid s' m d'.
Proof.
  intros Hwf HN Hw Hsame [Hdirty|Hv]; [left; congruence|right].
  rewrite Hw, Hv. unfold subtreeWidth. rewrite (treeWidth_local s s' _ m Hsame).
  apply treeWidth_fuel; [done|lia..].
Qed.

(** Every attached node of the new state is dirty, or is an attached node
    of the old state with the same cache and the same subtree. *)
Lemma caches_ok_step s s' :
  tree_wf s -> caches_ok s -> (nextNode s <= nextNode s')%nat ->
  (forall m d', nodes s' !! m = Some d' -> attached s' m d' ->
     requiredWidth d' = -1 \/
     exists d, nodes s !! m = Some d /\ requiredWidth d' = requiredWidth d /\
       attached s m d /\
       forall k, inTree s m k -> children <$> nodes s' !! k = children <$> nodes s !! k) ->
  caches_ok s'.
Proof.
  intros Hwf Hok HN Hstep m d' Hm Hatt.
  destruct (Hstep _ _ Hm Hatt) as [Hdirty|(d & Hd & Hw & Hatt0 & Hsame)]; [by left|].
  eapply cache_valid_transfer; [done|done|exact Hw|exact Hsame|]. by apply (Hok _ _ Hd).
Qed.

Lemma markDirty_children l s k :
  children <$> nodes (markDirty l s) !! k = children <$> nodes s !! k.
Proof. apply same_except_width_children, markDirty_same_except_width. Qed.

Lemma attached_children s s' m d :
  (forall p, children <$> nodes s' !! p = children <$> nodes s !! p) ->
  attached s' m d -> attached s m d.
Proof.
  intros Hc. unfold attached. destruct (parent d) as [p|]; [|done].
  specialize (Hc p). destruct (nodes s' !! p) as [dp'|]; [|done]. simpl in Hc.
  destruct (nodes s !! p) as [dp|]; [|done]. simpl in Hc. congruence.
Qed.

Lemma parent_chain_head s n l r : parent_chain s n l r -> n ∈ l.
Proof. destruct 1; left. Qed.

(** New nodes are dirty and old nodes are as they were. *)
Lemma caches_ok_grow s s' :
  tree_wf s -> caches_ok s -> (nextNode s <= nextNode s')%nat ->
  (forall m, (m < nextNode s)%nat -> nodes s' !! m = nodes s !! m) ->
  (forall m d, nodes s' !! m = Some d -> (nextNode s <= m)%nat -> requiredWidth d = -1) ->
  caches_ok s'.
Proof.
  intros Hwf Hok HN Hold Hnew. apply (caches_ok_step s); try done.
  intros m d' Hm Hatt. destruct (decide (nextNode s <= m)%nat) as [Hge|Hlt]; [left; eauto|].
  right. rewrite Hold in Hm by lia. exists d'. split_and!; try done.
  - unfold attached in *. destruct (parent d') as [p|] eqn:Hp; [|done].
    destruct (Hwf _ _ Hm) as (_ & Hpar & _). rewrite Hp in Hpar. simpl in Hpar.
    rewrite Hold in Hatt by lia. done.
  - intros k Hk. destruct (inTree_exists _ _ _ Hwf ltac:(eauto) Hk) as [dk Hdk].
    destruct (Hwf _ _ Hdk) as (Hklt & _). by rewrite Hold.
Qed.

(** [expand] on a node, then every cache on the way to the root dirty. *)
Lemma expand_markDirty_ok s s1 that d cs l r :
  tree_wf s -> caches_ok s -> nodes s !! that = Some d -> parent_chain s that l r ->
  (nextNode s <= nextNode s1)%nat ->
  (forall m, (m < nextNode s)%nat -> m <> that -> nodes s1 !! m = nodes s !! m) ->
  (forall m dm, nodes s1 !! m = Some dm -> (nextNode s <= m)%nat -> requiredWidth dm = -1) ->
  nodes s1 !! that = Some (set_isExpanded true (set_children cs d)) ->
  Forall (fun ch => (nextNode s <= ch)%nat) cs ->
  caches_ok (markDirty l s1).
Proof.
  intros Hwf Hok Hd Hl HN Hold Hnew Hthat Hcs. apply (caches_ok_step s); try done.
  intros m d' Hm Hatt. rewrite markDirty_lookup in Hm.
  destruct (decide (m ∈ l)) as [Hin|Hout].
  { left. destruct (nodes s1 !! m); [|done]. by injection Hm as <-. }
  destruct (decide (nextNode s <= m)%nat) as [Hge|Hlt]; [left; eauto|].
  assert (m <> that) as Hne by (intros ->; apply Hout; by eapply parent_chain_head).
  right. rewrite Hold in Hm by (done || lia). exists d'. split_and!; try done.
  - apply (attached_children _ _ _ _ (markDirty_children l s1)) in Hatt.
    unfold attached in *. destruct (parent d') as [p|] eqn:Hp; [|done].
    destruct (Hwf _ _ Hm) as (_ & Hpar & _). rewrite Hp in Hpar. simpl in Hpar.
    destruct (decide (p = that)) as [->|Hpne].
    + rewrite Hthat in Hatt. simpl in Hatt. rewrite Forall_forall in Hcs.
      specialize (Hcs _ Hatt). lia.
    + rewrite Hold in Hatt by (done || lia). done.
  - intros k Hk. rewrite markDirty_children.
    destruct (inTree_exists _ _ _ Hwf ltac:(eauto) Hk) as [dk Hdk].
    destruct (Hwf _ _ Hdk) as (Hklt & _). rewrite Hold; [done|done|].
    intros ->. apply Hout. by eapply inTree_chain.
Qed.

(** [collapse] on a node, then every cache on the way to the root dirty. *)
Lemma collapse_markDirty_ok f s s1 that rs l r :
  tree_wf s -> caches_ok s -> parent_chain s that l r ->
  collapse f that rs s = Some (tt, s1) -> collapses s s1 ->
  (forall m, inTree s that m -> childless s1 m) ->
  caches_ok (markDirty l s1).
Proof.
  intros Hwf Hok Hl Hrun Hcol Hnil. apply (caches_ok_step s); try done.
  { simpl. rewrite (collapses_nextNode _ _ Hcol). lia. }
  intros m d' Hm Hatt. rewrite markDirty_lookup in Hm.
  destruct (decide (m ∈ l)) as [Hin|Hout].
  { left. destruct (nodes s1 !! m); [|done]. by injection Hm as <-. }
  apply (attached_children _ _ _ _ (markDirty_children l s1)) in Hatt.
  assert (forall p dp, nodes s1 !! p = Some dp -> m ∈ children dp -> ~ inTree s that p)
    as Hlisted.
  { intros p dp Hp Hmp Hin. destruct (Hnil _ Hin) as (dp' & Hdp' & Hch).
    rewrite Hp in Hdp'. injection Hdp' as <-. rewrite Hch in Hmp.
    by apply elem_of_nil in Hmp. }
  assert (~ inTree s that m) as Hnot.
  { intros Hin. assert (m <> that) as Hne by (intros ->; apply Hout; by eapply parent_chain_head).
    destruct (inTree_parent _ _ _ Hwf Hin Hne) as (dm & p & dp & Hdm & Hp & Hinp & _).
    destruct (collapses_lookup _ _ _ _ Hcol Hdm) as (dm' & Hdm' & _ & _ & Hp' & _).
    rewrite Hm in Hdm'. injection Hdm' as <-. unfold attached in Hatt.
    rewrite Hp', Hp in Hatt. destruct (nodes s1 !! p) as [dp1|] eqn:Hp1; [|done].
    by apply (Hlisted p dp1). }
  right. rewrite (collapse_outside _ _ _ _ _ Hrun m Hnot) in Hm.
  exists d'. split_and!; try done.
  - unfold attached in *. destruct (parent d') as [p|] eqn:Hp; [|done].
    destruct (nodes s1 !! p) as [dp1|] eqn:Hp1; [|done].
    rewrite <- (collapse_outside _ _ _ _ _ Hrun p (Hlisted p dp1 Hp1 Hatt)). by rewrite Hp1.
  - intros k Hk. rewrite markDirty_children.
    rewrite (collapse_outside _ _ _ _ _ Hrun k); [done|]. intros Hin.
    destruct (inTree_overlap _ _ _ _ Hwf Hk Hin) as [Hmt|Htm]; [|done].
    apply Hout. by eapply inTree_chain.
Qed.

(** [BuildTree] on a well-formed page, step by step. *)
Lemma BuildTree_runs rank s c b x xc :
  Inv s c -> backing_ranked rank s -> backing s !! b = Some x ->
  elems s !! c = Some xc -> Forall (fun e => is_Some (elems s !! e)) (childNodes xc) ->
  exists f0, forall f, (f0 <= f)%nat ->
    exists s' dr xc',
      BuildTree f c b s = Some (nextNode s, s') /\ Inv s' c /\
      nodes s' !! nextNode s = Some dr /\ innerNode dr = b /\ parent dr = None /\
      lastContainer dr = Some c /\ Drawn f s' c (nextNode s) 0 0 /\
      elems s' !! c = Some xc' /\ className xc' = "node-container" /\
      (forall e, e ∈ childNodes xc -> detached s' e) /\
      (forall m, (m < nextNode s)%nat -> nodes s' !! m = nodes s !! m) /\
      (caches_ok s -> caches_ok s') /\
      exists lv, lastViewport dr = Some lv /\ (lv < nextViewport s')%nat /\
                 is_Some (viewports s' !! lv).
Proof.
  intros HI Hrank Hb Hc Hkids.
  destruct (clearChildren_runs s c xc HI Hc Hkids)
    as (s2 & Hrun2 & HI2 & Ho2 & Hk2 & Hdet2 & xc2 & Hxc2 & Hcls2 & _).
  pose proof Ho2 as (Hn2 & Hb2 & Hv2 & _ & HN2 & HE2 & HV2).
  assert (backing_ranked rank s2) as Hrank2 by (unfold backing_ranked; by rewrite Hb2).
  destruct (proj1 (build_inv rank c (2 * rank b + 2)) s2 b x None HI2 Hrank2
              ltac:(by rewrite Hb2) I ltac:(lia))
    as (s3 & dn & Hrun3 & HI3 & Hbuilds & Hold3 & Hnew3 & Hi3 & Hp3 & _).
  exists (Nat.max (2 * rank b + 2) (S (nextNode s3))). intros f Hf.
  apply (proj1 (build_fuel (2 * rank b + 2)%nat) f b None) in Hrun3; [|lia]. rewrite HN2 in *.
  destruct (newViewport_runs s3 c (0, 0) HI3) as (s4 & Hrun4 & HI4 & Hk4).
  assert (viewports s4 !! nextViewport s3 = Some (0, 0)) as Hv4.
  { injection Hrun4 as <-. simpl. by rewrite lookup_insert_eq. }
  assert (nextViewport s3 < nextViewport s4)%nat as HV4 by (injection Hrun4 as <-; simpl; lia).
  assert (nodes s4 = nodes s3 /\ elems s4 = elems s3 /\ nextElem s4 = nextElem s3)
    as (Hn4 & He4 & HE4) by (injection Hrun4 as <-; done).
  destruct (draw_runs c f s4 (nextNode s) (nextViewport s3) HI4) as ([] & s5 & Hrun5 & HI5 & Hk5).
  { rewrite Hn4. eauto. }
  { eauto. }
  { rewrite (proj1 Hk4). lia. }
  destruct (draw_spec f s4 (nextNode s) c _ 0 0 s5 Hrun5 (Inv_draw_inv _ _ HI4) Hv4 HV4)
    as (_ & Hdraws & HD & Hlvv & HlvV & d4 & d5 & Hd4 & Hd5 & Hlc & Hlvd & _).
  pose proof HI4 as (Htree4 & Hdom4 & _ & Hh4 & _).
  pose proof (builds_grows _ _ Hbuilds) as Hgrows.
  (* elements that existed before the call are no handles of the new tree *)
  assert (forall e, (e < nextElem s)%nat ->
            visual <$> elems s5 !! e = visual <$> elems s3 !! e) as Hvis.
  { intros e He. rewrite <- He4. apply (draws_elems _ _ _ _ Hdraws).
    - rewrite HE4. pose proof (grows_nextElem _ _ Hgrows). lia.
    - intros m d r [Hbelow _] Hm Hr. pose proof (below_le _ _ _ Htree4 Hbelow) as Hle.
      rewrite Hn4 in Hm. destruct (grows_new _ _ Hgrows m d Hm ltac:(lia))
        as (H1 & H2 & H3 & e' & H4 & H5).
      destruct r; simpl in Hr; [|congruence..]. rewrite H4 in Hr. injection Hr as ->. lia. }
  rewrite Hn4, Hnew3 in Hd4. injection Hd4 as <-.
  destruct (draws_lookup _ _ _ _ _ _ Hdraws ltac:(by rewrite Hn4)) as (d5' & Hd5' & Hsk & _).
  rewrite Hd5 in Hd5'. injection Hd5' as <-. unfold skeleton in Hsk.
  pose proof HI as (_ & Hdom & _ & [HcE _] & _).
  pose proof (Hvis c HcE) as Hvc.
  rewrite (grows_elems _ _ Hgrows _ _ Hxc2) in Hvc. simpl in Hvc.
  destruct (elems s5 !! c) as [xc5|] eqn:Hxc5; [|done]. simpl in Hvc.
  exists s5, d5, xc5. split_and!; try done.
  - unfold BuildTree. apply bind_inv in Hrun2 as ([] & s1 & Hrun1 & Hrun2).
    rewrite (bind_eq _ _ _ _ _ Hrun1), (bind_eq _ _ _ _ _ Hrun2), (bind_eq _ _ _ _ _ Hrun3).
    rewrite (bind_eq _ _ _ _ _ Hrun4), (bind_eq _ _ _ _ _ Hrun5). done.
  - congruence.
  - congruence.
  - unfold visual in Hvc. congruence.
  - intros e He. destruct (Hdet2 e He) as (y & Hy & Hpy).
    assert (e < nextElem s)%nat as Hlt.
    { destruct (proj1 (Hk2 e) ltac:(eauto)) as [y0 Hy0]. by destruct (Hdom _ _ Hy0). }
    pose proof (Hvis e Hlt) as Hve. rewrite (grows_elems _ _ Hgrows _ _ Hy) in Hve.
    simpl in Hve. destruct (elems s5 !! e) as [y5|] eqn:Hy5; [|done]. simpl in Hve.
    exists y5. split; [done|]. unfold visual in Hve. congruence.
  - intros m Hm. rewrite <- Hn2, <- (Hold3 m Hm), <- Hn4.
    destruct (nodes s4 !! m) as [dm|] eqn:Hdm.
    + destruct (draws_lookup _ _ _ _ _ _ Hdraws Hdm) as (dm' & Hdm' & _ & _ & _ & _ & Hsame).
      rewrite Hdm'. f_equal. apply Hsame. intros r [Hbelow _].
      pose proof (below_le _ _ _ Htree4 Hbelow). lia.
    + pose proof (draws_nodes _ _ _ _ Hdraws m) as Hm'. by rewrite Hdm in Hm'.
  - intros Hok. pose proof HI as (Htree & _). pose proof HI2 as (Htree2 & _).
    assert (layout_ok s2) as [_ Hok2].
    { eapply layout_ok_same; [|exact (conj Htree Hok)]. by apply same_layout_nodes. }
    assert (caches_ok s3) as Hok3.
    { apply (caches_ok_grow s2); try done.
      - apply (grows_nextNode _ _ Hgrows).
      - intros m Hm. apply Hold3. by rewrite <- HN2.
      - intros m dm Hm Hge. by destruct (builds_fresh _ _ Hbuilds m dm Hm Hge). }
    assert (layout_ok s4) as Hok4.
    { eapply layout_ok_same; [|exact (conj (proj1 HI3) Hok3)].
      apply same_layout_nodes; [done|]. apply (proj1 Hk4). }
    by destruct (valid_draw f _ c _ s4 tt s5 Hok4 Hrun5) as [[_ ?] _].
  - exists (nextViewport s4). split_and!; [done|done|eauto].
Qed.

(** X15: on a well-formed page [BuildTree] returns once the fuel is large
    enough.  The root it returns is the next free node identity, wraps the
    given backing node and has no parent; the tree is laid out in the
    container from the origin [(0, 0)]; the container carries the class
    node-container, what it contained before is detached, and the page
    stays well-formed with its older nodes unchanged and, if the width
    caches were valid, with valid width caches. *)
Theorem BuildTree_draws_root rank s c b x xc :
  Inv s c -> backing_ranked rank s -> backing s !! b = Some x ->
  elems s !! c = Some xc -> Forall (fun e => is_Some (elems s !! e)) (childNodes xc) ->
  exists f0, forall f, (f0 <= f)%nat ->
    exists s' dr xc',
      BuildTree f c b s = Some (nextNode s, s') /\ Inv s' c /\
      nodes s' !! nextNode s = Some dr /\ innerNode dr = b /\ parent dr = None /\
      lastContainer dr = Some c /\ Drawn f s' c (nextNode s) 0 0 /\
      elems s' !! c = Some xc' /\ className xc' = "node-container" /\
      (forall e, e ∈ childNodes xc -> detached s' e) /\
      (forall m, (m < nextNode s)%nat -> nodes s' !! m = nodes s !! m) /\
      (caches_ok s -> caches_ok s').
Proof.
  intros HI Hrank Hb Hc Hkids.
  destruct (BuildTree_runs rank s c b x xc HI Hrank Hb Hc Hkids) as [f0 H].
  exists f0. intros f Hf.
  destruct (H f Hf) as (s' & dr & xc' & H1 & H2 & H3 & H4 & H5 & H6 & H7 & H8 & H9 & H10 &
                        H11 & H12 & _).
  exists s', dr, xc'. split_and!; done.
Qed.

Lemma invalidate_runs f s c n l r dr lv x y :
  Inv s c -> parent_chain s n l r -> nodes s !! r = Some dr ->
  lastContainer dr = Some c -> lastViewport dr = Some lv ->
  viewports s !! lv = Some (x, y) -> (lv < nextViewport s)%nat ->
  (length l + nextNode s < f + r)%nat ->
  exists s', invalidate f n s = Some (tt, s') /\ Inv s' c /\ keeps s s' /\
    Drawn (f - length l) s' c r x y /\
    forall m d, nodes s !! m = Some d ->
      exists d', nodes s' !! m = Some d' /\ skeleton d' = skeleton d.
Proof.
  intros HI Hl Hr Hlc Hlv Hvp Hlt Hfuel.
  pose proof (markDirty_same_except_width l s) as Hsame.
  pose proof (Inv_same_except_width _ _ c Hsame HI) as HI1.
  pose proof (keeps_same_except_width _ _ Hsame) as Hk1.
  pose proof Hsame as (_ & _ & Hv1 & _ & HN1 & _ & HV1 & Hn1).
  assert (nodes (markDirty l s) !! r = Some (set_requiredWidth (-1) dr)) as Hr1.
  { rewrite markDirty_lookup, decide_True by (by eapply parent_chain_last). by rewrite Hr. }
  pose proof HI as (Htree & _). destruct (Htree _ _ Hr) as (Hrlt & _).
  set (g := (f - length l)%nat). assert (f = length l + g)%nat as Hf by lia.
  clearbody g. subst f.
  rewrite (invalidate_chain s n l r _ Hl). unfold redraw.
  rewrite (bind_eq _ _ _ _ _ (getNode_eq _ _ _ Hr1)). simpl. rewrite Hlv, Hlc.
  destruct (draw_runs c g (markDirty l s) r lv HI1) as ([] & s' & Hrun & HI' & Hk');
    [eauto|rewrite Hv1; eauto|rewrite HN1; lia|].
  destruct (draw_spec _ _ r c lv x y s' Hrun (Inv_draw_inv _ _ HI1)) as (_ & Hdraws & HD & _);
    [by rewrite Hv1|by rewrite HV1|].
  exists s'. split_and!; try done; [by eapply keeps_trans|].
  intros m d Hm. specialize (Hn1 m). rewrite Hm in Hn1. destruct Hn1 as [w Hw].
  destruct (draws_lookup _ _ _ _ _ _ Hdraws Hw) as (d' & Hd' & Hsk & _).
  exists d'. split; [done|]. by rewrite Hsk.
Qed.

(** X16: on a well-formed page, when the root above a node has been drawn,
    [invalidate] on the node returns, keeps the page well-formed, and
    leaves the whole tree laid out from the root at the origin that the
    root's recorded viewport object holds; no node changes its links, its
    children or its representation. *)
Theorem invalidate_lays_out_tree f s c n l r dr lv x y :
  Inv s c -> parent_chain s n l r -> nodes s !! r = Some dr ->
  lastContainer dr = Some c -> lastViewport dr = Some lv ->
  viewports s !! lv = Some (x, y) -> (lv < nextViewport s)%nat ->
  (length l + nextNode s < f + r)%nat ->
  exists s', invalidate f n s = Some (tt, s') /\ Inv s' c /\
    Drawn (f - length l) s' c r x y /\
    forall m d, nodes s !! m = Some d ->
      exists d', nodes s' !! m = Some d' /\ skeleton d' = skeleton d.
Proof.
  intros HI Hl Hr Hlc Hlv Hvp Hlt Hfuel.
  destruct (invalidate_runs f s c n l r dr lv x y HI Hl Hr Hlc Hlv Hvp Hlt Hfuel)
    as (s' & Hrun & HI' & _ & HD & Hsk).
  by exists s'.
Qed.

(** X17: a click on a collapsed node of a drawn tree returns once the fuel
    is large enough: the node is expanded with one child per backing child,
    the page stays well-formed, and the whole tree is laid out again from
    the root at the origin of the root's recorded viewport object. *)
Theorem click_expands_and_redraws rank s c that d ctrlKey l r dr lv x y :
  Inv s c -> backing_ranked rank s -> nodes s !! that = Some d -> isExpanded d = false ->
  Forall (fun b => is_Some (backing s !! b)) (nodeChildren d) ->
  parent_chain s that l r -> nodes s !! r = Some dr ->
  lastContainer dr = Some c -> lastViewport dr = Some lv ->
  viewports s !! lv = Some (x, y) -> (lv < nextViewport s)%nat ->
  exists f0, forall f, (f0 <= f)%nat ->
    exists s' d' g,
      click f that ctrlKey s = Some (tt, s') /\ Inv s' c /\
      nodes s' !! that = Some d' /\ isExpanded d' = true /\
      length (children d') = length (nodeChildren d) /\
      Drawn g s' c r x y.
Proof.
  intros HI Hrank Hd Hexp Hkids Hl Hr Hlc Hlv Hvp Hlt.
  set (f1 := (2 * max_list (rank <$> nodeChildren d) + 3)%nat).
  destruct (proj2 (build_inv rank c f1) s that d ctrlKey HI Hrank Hd ltac:(unfold f1; lia))
    as (s1 & cs & Hrun1 & HI1 & Hbuilds & Hold1 & Hthat1 & _ & Hcs & _).
  { rewrite Forall_forall in Hkids |- *. intros b Hb. split; [by apply Hkids|].
    assert (rank b <= max_list (rank <$> nodeChildren d))%nat; [|unfold f1; lia].
    apply max_list_elem_of_le. apply list_elem_of_fmap. eauto. }
  pose proof (builds_grows _ _ Hbuilds) as Hgrows.
  pose proof Hrun1 as Hrun0.
  pose proof HI as (Htree & _).
  assert (forall m dm, nodes s !! m = Some dm ->
            exists dm', nodes s1 !! m = Some dm' /\ parent dm' = parent dm /\
              lastContainer dm' = lastContainer dm /\ lastViewport dm' = lastViewport dm)
    as Hsame.
  { intros m dm Hm. destruct (Htree _ _ Hm) as (Hmlt & _).
    destruct (decide (m = that)) as [->|Hne].
    - rewrite Hd in Hm. injection Hm as <-. eauto.
    - rewrite (Hold1 m Hmlt Hne). eauto. }
  assert (parent_chain s1 that l r) as Hl1.
  { eapply parent_chain_local; [|exact Hl]. intros m Hm.
    assert (is_Some (nodes s !! m)) as [dm Hdm].
    { clear -Hl Hm. induction Hl as [n d Hn Hp|n d p l r Hn Hp _ IH].
      - apply list_elem_of_singleton in Hm as ->. eauto.
      - apply elem_of_cons in Hm as [->|Hm]; eauto. }
    destruct (Hsame _ _ Hdm) as (dm' & Hdm' & Hp' & _). rewrite Hdm, Hdm'. simpl.
    by rewrite Hp'. }
  destruct (Hsame _ _ Hr) as (dr1 & Hr1 & _ & Hlc1 & Hlv1).
  exists (Nat.max f1 (S (length l + nextNode s1))). intros f Hf.
  apply (proj2 (build_fuel f1) f that ctrlKey) in Hrun1; [|lia].
  destruct (invalidate_runs f s1 c that l r dr1 lv x y HI1 Hl1 Hr1)
    as (s2 & Hrun2 & HI2 & _ & HD & Hsk); try congruence.
  { by rewrite (grows_viewports _ _ Hgrows). }
  { destruct (proj2 (kept_construct_expand f1) that ctrlKey s tt s1 (Inv_nodes_below _ _ HI)
                Hrun0) as (_ & -> & _). done. }
  { lia. }
  destruct (Hsk _ _ Hthat1) as (d2 & Hd2 & Hsk2). unfold skeleton in Hsk2. simpl in Hsk2.
  exists s2, d2, (f - length l)%nat. split_and!; try done.
  - unfold click. rewrite (bind_eq _ _ _ _ _ (getNode_eq _ _ _ Hd)). rewrite Hexp. simpl.
    by rewrite (bind_eq _ _ _ _ _ Hrun1).
  - congruence.
  - assert (children d2 = cs) as -> by congruence. by apply Forall2_length in Hcs.
Qed.

(** ** [collapse] returns *)

Lemma modifyElem_runs s c e g x :
  Inv s c -> elems s !! e = Some x ->
  (parentNode (g x) = parentNode x \/ parentNode (g x) = None) ->
  exists s', modifyElem e g s = Some (tt, s') /\ Inv s' c /\ keeps s s'.
Proof.
  intros HI Hx Hg. destruct (modifyElem_Inv s c e g x HI Hx Hg) as [Hrun HI'].
  eexists. split_and!; [done|done|]. apply keeps_elems_only; [done|].
  intros k Hk. simpl. rewrite lookup_insert. case_decide; eauto.
Qed.

Lemma remove_runs s c e :
  Inv s c -> is_Some (elems s !! e) -> runs c (remove (Some e)) s.
Proof.
  intros HI [x Hx]. unfold remove.
  eapply runs_bind; [exact (getElem_eq _ _ _ Hx)|apply keeps_refl|].
  destruct (parentNode x) as [p|] eqn:Hp; [|by apply runs_ret].
  unfold removeChild.
  eapply runs_bind; [exact (getElem_eq _ _ _ Hx)|apply keeps_refl|].
  rewrite Hp, Nat.eqb_refl.
  pose proof HI as (_ & Hdom & _).
  destruct (dom_wf_parent _ _ _ _ Hdom Hx Hp) as (_ & Hpe & _ & [z Hz]).
  destruct (modifyElem_runs s c p
              (fun y => set_childNodes (filter (fun c0 => c0 <> e) (childNodes y)) y) z HI Hz
              ltac:(by left)) as (s1 & Hrun1 & HI1 & Hk1).
  eapply runs_bind; [exact Hrun1|exact Hk1|].
  destruct (proj1 (proj2 (proj2 Hk1)) e ltac:(eauto)) as [x1 Hx1].
  destruct (modifyElem_runs s1 c e (set_parentNode None) x1 HI1 Hx1 ltac:(by right))
    as (s2 & Hrun2 & HI2 & Hk2).
  by exists tt, s2.
Qed.

Lemma modifyNode_runs s c n g d :
  Inv s c -> nodes s !! n = Some d ->
  (forall r, handle (g d) r = handle d r) -> parent (g d) = parent d ->
  innerNode (g d) = innerNode d -> (children (g d) = children d \/ children (g d) = []) ->
  exists s', modifyNode n g s = Some (tt, s') /\ Inv s' c /\ keeps s s' /\
             nodes s' !! n = Some (g d).
Proof.
  intros HI Hd Hh Hp Hi Hch. eexists. split; [by apply modifyNode_eq|]. split_and!.
  - eapply Inv_relink; [..|exact HI]; try done. intros m. simpl.
    rewrite lookup_insert. case_decide as Hm.
    + subst m. rewrite Hd. eexists. split; [done|]. split_and!; auto.
      destruct Hch as [->| ->]; [by left|right]. split; constructor.
    + destruct (nodes s !! m) as [dm|]; [|done]. exists dm. split_and!; auto.
  - split_and!; try done. intros m [z Hz]. simpl. rewrite lookup_insert. case_decide; eauto.
  - simpl. by rewrite lookup_insert_eq.
Qed.

Lemma modifyBacking_runs s c b g :
  Inv s c -> is_Some (backing s !! b) ->
  exists s', modifyBacking b g s = Some (tt, s') /\ Inv s' c /\ keeps s s'.
Proof.
  intros HI [x Hx]. eexists. split; [by apply modifyBacking_eq|]. split.
  - eapply Inv_relink; [..|exact HI]; try done.
    + intros b' Hb'. simpl. rewrite lookup_insert. case_decide; eauto.
    + intros m. simpl. destruct (nodes s !! m) as [dm|]; [|done]. exists dm.
      split_and!; auto.
  - by split_and!.
Qed.

Section CollapseRuns.
Context (f : nat) (c : nat).
Context (IH : forall s this rs, Inv s c -> is_Some (nodes s !! this) ->
                (nextNode s <= f + this)%nat -> runs c (collapse f this rs) s).

Lemma collapse_children_runs cs :
  forall s, Inv s c ->
    Forall (fun ch => is_Some (nodes s !! ch) /\ (nextNode s <= f + ch)%nat) cs ->
    runs c (forM_ (fun x => collapse f x true) cs) s.
Proof.
  induction cs as [|ch cs IHcs]; intros s HI Hcs; simpl.
  - by apply runs_ret.
  - apply Forall_cons in Hcs as [[Hch Hfuel] Hcs].
    destruct (IH s ch true HI Hch Hfuel) as ([] & s1 & Hrun & HI1 & Hk1).
    eapply runs_bind; [exact Hrun|exact Hk1|]. apply IHcs; [done|].
    eapply Forall_impl; [exact Hcs|]. intros ch' [Hc' Hf']. split; [by apply Hk1|].
    by rewrite (proj1 Hk1).
Qed.

Lemma collapse_runs_step s this rs :
  Inv s c -> is_Some (nodes s !! this) -> (nextNode s <= S f + this)%nat ->
  runs c (collapse (S f) this rs) s.
Proof.
  intros HI Hn Hfuel. simpl.
  assert (runs c (when rs (let* d := getNode this in
                           remove (representation d) ;;;
                           let* pb := getParentBar this in remove (Some pb))) s)
    as ([] & s1 & Hrun1 & HI1 & Hk1).
  { destruct rs; [|by apply runs_ret]. simpl. pose proof Hn as [d Hd].
    eapply runs_bind; [exact (getNode_eq _ _ _ Hd)|apply keeps_refl|].
    pose proof HI as (_ & _ & Hrefs & _). destruct (Hrefs _ _ Hd) as ([e He] & Hee & _).
    rewrite He in Hee |- *. simpl in Hee.
    destruct (remove_runs s c e HI Hee) as ([] & s1 & Hrun1 & HI1 & Hk1).
    eapply runs_bind; [exact Hrun1|exact Hk1|]. advance Hk1.
    pose proof Hn as [d1 Hd1].
    destruct (getParentBar_runs s1 c this d1 HI1 Hd1) as (pb & s2 & Hrun2 & HI2 & Hk2 & Hpb & _).
    eapply runs_bind; [exact Hrun2|exact Hk2|]. by apply remove_runs. }
  eapply runs_bind; [exact Hrun1|exact Hk1|]. advance Hk1. clear Hrun1.
  pose proof Hn as [d1 Hd1].
  destruct (getChildBar_runs s1 c this d1 HI1 Hd1) as (cb & s2 & Hrun2 & HI2 & Hk2 & Hcb & _).
  eapply runs_bind; [exact Hrun2|exact Hk2|]. advance Hk2. clear Hrun2 Hd1.
  destruct (remove_runs s2 c cb HI2 Hcb) as ([] & s3 & Hrun3 & HI3 & Hk3).
  eapply runs_bind; [exact Hrun3|exact Hk3|]. advance Hk3. clear Hrun3.
  pose proof Hn as [d3 Hd3].
  destruct (getHorizontalBar_runs s3 c this d3 HI3 Hd3) as (hb & s4 & Hrun4 & HI4 & Hk4 & Hhb & _).
  eapply runs_bind; [exact Hrun4|exact Hk4|]. advance Hk4. clear Hrun4 Hd3.
  destruct (remove_runs s4 c hb HI4 Hhb) as ([] & s5 & Hrun5 & HI5 & Hk5).
  eapply runs_bind; [exact Hrun5|exact Hk5|]. advance Hk5. clear Hrun5.
  pose proof Hn as [d5 Hd5].
  eapply runs_bind; [exact (getNode_eq _ _ _ Hd5)|apply keeps_refl|].
  pose proof HI5 as (Htree5 & _).
  destruct (collapse_children_runs (children d5) s5 HI5) as ([] & s6 & Hrun6 & HI6 & Hk6).
  { apply Forall_forall. intros ch Hch.
    destruct (tree_wf_child _ _ _ _ Htree5 Hd5 Hch) as [Hlt (dc & Hdc & _)].
    split; [eauto|lia]. }
  eapply runs_bind; [exact Hrun6|exact Hk6|]. advance Hk6. clear Hrun6 Hd5.
  pose proof Hn as [d6 Hd6].
  destruct (modifyNode_runs s6 c this (set_children []) d6 HI6 Hd6)
    as (s7 & Hrun7 & HI7 & Hk7 & Hd7); try done; try (by intros []); try (by left); try (by right).
  eapply runs_bind; [exact Hrun7|exact Hk7|]. clear Hrun7.
  destruct (modifyNode_runs s7 c this (set_requiredWidth 0) _ HI7 Hd7)
    as (s8 & Hrun8 & HI8 & Hk8 & Hd8); try done; try (by intros []); try (by left); try (by right).
  eapply runs_bind; [exact Hrun8|exact Hk8|]. clear Hrun8.
  destruct (modifyNode_runs s8 c this
              (fun d => set_isExpanded (Nat.eqb (length (nodeChildren d)) 0) d) _ HI8 Hd8)
    as (s9 & Hrun9 & HI9 & Hk9 & Hd9); try done; try (by intros []); try (by left); try (by right).
  eapply runs_bind; [exact Hrun9|exact Hk9|]. clear Hrun9.
  eapply runs_bind; [exact (getNode_eq _ _ _ Hd9)|apply keeps_refl|].
  pose proof HI9 as (_ & _ & Hrefs9 & _). destruct (Hrefs9 _ _ Hd9) as (_ & _ & _ & _ & _ & Hb9).
  destruct (modifyBacking_runs s9 c _ (set_flag (isExpanded
              (set_isExpanded (Nat.eqb (length (nodeChildren (set_requiredWidth 0
                 (set_children [] d6)))) 0) (set_requiredWidth 0 (set_children [] d6))))) HI9 Hb9)
    as (s10 & Hrun10 & HI10 & Hk10).
  by exists tt, s10.
Qed.
End CollapseRuns.

Lemma collapse_runs c f : forall s this rs,
  Inv s c -> is_Some (nodes s !! this) -> (nextNode s <= f + this)%nat ->
  runs c (collapse f this rs) s.
Proof.
  induction f as [|f IHf]; intros s this rs HI [d Hd] Hfuel.
  - destruct HI as (Htree & _). destruct (Htree _ _ Hd) as (Hlt & _). simpl in Hfuel. lia.
  - by apply collapse_runs_step.
Qed.

(** X18: on a well-formed page [collapse] returns, keeps the page
    well-formed and takes the whole subtree off the page: every node reached
    from the collapsed node through child lists ends without children and
    with its representation and its three connectors detached (connectors
    it did not have are created for that); the node itself ends without
    children and with its child bar and horizontal bar detached, and with
    [removeSelf] its representation and parent bar too.  The viewport
    objects and what the nodes recorded at their last [draw] stay, and a
    node outside the subtree is not changed at all. *)
Theorem collapse_detaches_subtree f s c this removeSelf d :
  Inv s c -> nodes s !! this = Some d -> (nextNode s <= f + this)%nat ->
  exists s',
    collapse f this removeSelf s = Some (tt, s') /\ Inv s' c /\
    (forall m, inTree s this m -> m <> this -> removed s' m) /\
    childless s' this /\ off s' this RChildBar /\ off s' this RHorizontalBar /\
    (removeSelf = true -> removed s' this) /\ layout_kept s s' /\
    (forall m, ~ inTree s this m -> nodes s' !! m = nodes s !! m).
Proof.
  intros HI Hd Hfuel. pose proof HI as (Htree & Hdom & Hrefs & _).
  destruct (collapse_detaches f s this removeSelf d Htree Hdom Hrefs Hd Hfuel)
    as (s' & Hrun & H1 & H2 & H3 & H4 & H5).
  destruct (collapse_runs c f s this removeSelf HI ltac:(eauto) Hfuel)
    as ([] & s'' & Hrun' & HI' & _).
  rewrite Hrun in Hrun'. injection Hrun' as <-.
  exists s'. split_and!; try done.
  - by destruct (kept_collapse f this removeSelf s tt s' (Inv_nodes_below _ _ HI) Hrun).
  - by apply (collapse_outside f s this removeSelf s').
Qed.

(** X19: a click with the control key on an expanded node of a drawn tree
    returns: the node ends without children, its flag is true only if its
    snapshot of backing children is empty, the page stays well-formed, and
    the whole tree is laid out again from the root at the origin of the
    root's recorded viewport object. *)
Theorem click_collapses_and_redraws f s c that d l r dr lv x y :
  Inv s c -> nodes s !! that = Some d -> isExpanded d = true ->
  parent_chain s that l r -> nodes s !! r = Some dr ->
  lastContainer dr = Some c -> lastViewport dr = Some lv ->
  viewports s !! lv = Some (x, y) -> (lv < nextViewport s)%nat ->
  (length l + nextNode s < f + r)%nat ->
  exists s' d',
    click f that true s = Some (tt, s') /\ Inv s' c /\
    nodes s' !! that = Some d' /\ children d' = [] /\
    isExpanded d' = Nat.eqb (length (nodeChildren d)) 0 /\
    Drawn (f - length l) s' c r x y.
Proof.
  intros HI Hd Hexp Hl Hr Hlc Hlv Hvp Hlt Hfuel.
  pose proof HI as (Htree & Hdom & Hrefs & _).
  assert (r <= that)%nat as Hle.
  { clear -Hl Htree. induction Hl as [n d Hn Hp|n d p l r Hn Hp _ IH]; [done|].
    destruct (Htree _ _ Hn) as (_ & Hpar & _). rewrite Hp in Hpar. simpl in Hpar. lia. }
  destruct (collapse_ok f s that false d Htree Hdom Hrefs Hd ltac:(lia))
    as (s1 & d1 & Hrun1 & _ & _ & Hcol & Hd1 & Hch1 & _ & He1).
  destruct (collapse_runs c f s that false HI ltac:(eauto) ltac:(lia))
    as ([] & s1' & Hrun1' & HI1 & _).
  rewrite Hrun1 in Hrun1'. injection Hrun1' as <-.
  destruct (kept_collapse f that false s tt s1 (Inv_nodes_below _ _ HI) Hrun1)
    as (_ & HV1 & Hv1 & Hkept).
  assert (parent_chain s1 that l r) as Hl1.
  { eapply parent_chain_local; [|exact Hl]. intros m Hm.
    pose proof (collapses_nodes _ _ Hcol m) as Hcm.
    destruct (nodes s !! m) as [dm|]; [|by rewrite Hcm].
    destruct Hcm as (dm' & -> & _ & _ & Hp & _). simpl. by rewrite Hp. }
  destruct (Hkept _ _ Hr) as (dr1 & Hr1 & Hlc1 & Hlv1).
  destruct (invalidate_runs f s1 c that l r dr1 lv x y HI1 Hl1 Hr1)
    as (s2 & Hrun2 & HI2 & _ & HD & Hsk); try congruence.
  { rewrite (collapses_nextNode _ _ Hcol). lia. }
  destruct (Hsk _ _ Hd1) as (d2 & Hd2 & Hsk2). unfold skeleton in Hsk2.
  exists s2, d2. split_and!; try done.
  - unfold click. rewrite (bind_eq _ _ _ _ _ (getNode_eq _ _ _ Hd)). rewrite Hexp. simpl.
    by rewrite (bind_eq _ _ _ _ _ Hrun1).
  - congruence.
  - congruence.
Qed.

(** ** Valid caches after drawing and after a click *)

Lemma invalidate_valid f s n l r s' :
  parent_chain s n l r -> (length l <= f)%nat -> layout_ok (markDirty l s) ->
  invalidate f n s = Some (tt, s') -> layout_ok s'.
Proof.
  intros Hl Hf Hok Hrun.
  replace f with (length l + (f - length l))%nat in Hrun by lia.
  rewrite (invalidate_chain s n l r _ Hl) in Hrun. unfold redraw in Hrun.
  apply bind_inv in Hrun as (d & s0 & [-> Hd]%getNode_inv & Hrun).
  destruct (lastViewport d) as [lv|]; [|done]. destruct (lastContainer d) as [c|]; [|done].
  by destruct (valid_draw _ _ _ _ _ _ _ Hok Hrun).
Qed.

(** X20: on a well-formed page whose width caches are valid (dirty, or the
    width of the subtree), [draw] returns and leaves the caches valid; the
    cached width of every child of the drawn node is then the width of the
    child's subtree, and so is the cached width of the node itself if it is
    attached and has children.  So the row of children that [draw] lays out
    gives each child exactly the width of its subtree. *)
Theorem draw_keeps_caches_valid f s n c vp x y :
  Inv s c -> caches_ok s -> is_Some (nodes s !! n) -> viewports s !! vp = Some (x, y) ->
  (vp < nextViewport s)%nat -> (nextNode s < f + n)%nat ->
  exists s' d,
    draw f n c vp s = Some (tt, s') /\ caches_ok s' /\ nodes s' !! n = Some d /\
    (forall ch dc, ch ∈ children d -> nodes s' !! ch = Some dc ->
                   requiredWidth dc = subtreeWidth s' ch) /\
    (attached s' n d -> children d <> [] -> requiredWidth d = subtreeWidth s' n).
Proof.
  intros HI Hok Hn Hvp Hlt Hfuel. pose proof HI as (Htree & _).
  destruct (draw_runs c f s n vp HI Hn ltac:(eauto) Hfuel) as ([] & s' & Hrun & HI' & _).
  destruct (valid_draw f n c vp s tt s' (conj Htree Hok) Hrun) as [[Htree' Hok'] _].
  destruct (draw_spec f s n c vp x y s' Hrun (Inv_draw_inv _ _ HI) Hvp Hlt) as (_ & _ & HD & _).
  destruct (draw_children_placed f s n c vp x y s' (Inv_draw_inv _ _ HI) Hvp Hlt Hrun)
    as (d & Hd & Hkids).
  exists s', d. split_and!; try done.
  - intros ch dc Hch Hdc. apply list_elem_of_lookup in Hch as [i Hi].
    destruct (Hkids i ch Hi) as (dc' & _ & _ & _ & _ & Hdc' & Hclean & _).
    rewrite Hdc in Hdc'. injection Hdc' as <-.
    destruct (Hok' _ _ Hdc) as [Hdirty|Hv]; [|done|done].
    destruct (tree_wf_child _ _ _ _ Htree' Hd ltac:(by eapply list_elem_of_lookup_2))
      as [_ (dc' & Hdc' & Hp)].
    rewrite Hdc in Hdc'. injection Hdc' as <-. unfold attached. rewrite Hp, Hd.
    by eapply list_elem_of_lookup_2.
  - intros Hatt Hne. destruct f as [|f]; [done|].
    destruct HD as (d0 & e & Hd0 & _ & _ & Hch). rewrite Hd in Hd0. injection Hd0 as <-.
    destruct (children d) as [|first rest]; [done|]. destruct Hch as [Hclean _].
    destruct (Hok' _ _ Hd Hatt) as [Hdirty|Hv]; done.
Qed.

Lemma subtreeWidth_floor s n : tree_wf s -> NODE_WIDTH <= subtreeWidth s n.
Proof.
  intros Hwf. destruct (nodes s !! n) as [d|] eqn:Hd.
  - rewrite (subtreeWidth_unfold s n d Hwf Hd). lia.
  - unfold subtreeWidth. destruct (nextNode s); simpl; [done|]. by rewrite Hd.
Qed.

Lemma sumZ_elem (g : nat -> Z) l x :
  (forall y, 0 <= g y) -> x ∈ l -> g x <= sumZ (map g l).
Proof.
  intros Hg. induction l as [|a l IH]; intros Hx; [by apply elem_of_nil in Hx|].
  unfold sumZ in *. simpl. apply elem_of_cons in Hx as [->|Hx].
  - assert (0 <= foldr Z.add 0 (map g l)) as H0.
    { clear -Hg. induction l as [|b l IH]; simpl; [done|]. pose proof (Hg b). lia. }
    lia.
  - specialize (IH Hx). pose proof (Hg a). lia.
Qed.

(** The subtree of a node is at least as wide as that of any child. *)
Lemma subtreeWidth_child s n d ch :
  tree_wf s -> nodes s !! n = Some d -> ch ∈ children d ->
  subtreeWidth s ch <= subtreeWidth s n.
Proof.
  intros Hwf Hd Hch. rewrite (subtreeWidth_unfold s n d Hwf Hd).
  pose proof (sumZ_elem (subtreeWidth s) (children d) ch) as Hsum.
  assert (forall y, 0 <= subtreeWidth s y) as Hpos.
  { intros y. pose proof (subtreeWidth_floor s y Hwf). unfold NODE_WIDTH in *. lia. }
  specialize (Hsum Hpos Hch).
  destruct (children d) as [|a l] eqn:Hcs; [by apply elem_of_nil in Hch|].
  assert (0 <= NODE_MARGIN_X * (Z.of_nat (length (a :: l)) - 1)).
  { unfold NODE_MARGIN_X. simpl length. lia. }
  lia.
Qed.


(** X12: on a well-formed page with valid width caches, [draw] of an
    attached node at origin [(x, y)] returns, and then the representation
    of the node is in the container at [(x, y)] with class "node" or
    "node collapsed" according to [isExpanded]; when the node has children,
    its child bar is in the container at
    [(x + NODE_WIDTH / 2, y + NODE_HEIGHT)] and its horizontal bar at
    [(x + NODE_WIDTH / 2, y + NODE_HEIGHT + NODE_MARGIN_Y / 2)], as wide as
    the subtree of the node less the subtree of its last child, which is
    what the two caches hold then and is not negative. *)
Theorem draw_places_node f s n c vp x y d0 :
  Inv s c -> caches_ok s -> nodes s !! n = Some d0 -> attached s n d0 ->
  viewports s !! vp = Some (x, y) ->
  (vp < nextViewport s)%nat -> (nextNode s < f + n)%nat ->
  exists s' d e el,
    draw f n c vp s = Some (tt, s') /\
    nodes s' !! n = Some d /\ representation d = Some e /\ elems s' !! e = Some el /\
    className el = nodeClass (isExpanded d) /\
    styleLeft el = px x /\ styleTop el = px y /\ parentNode el = Some c /\
    (children d <> [] ->
     exists vb hb elv elh lastChild dl,
       childBar d = Some vb /\ elems s' !! vb = Some elv /\
       styleLeft elv = px_plus x (half NODE_WIDTH) /\
       styleTop elv = px (y + NODE_HEIGHT) /\ parentNode elv = Some c /\
       horizontalBar d = Some hb /\ elems s' !! hb = Some elh /\
       last (children d) = Some lastChild /\ nodes s' !! lastChild = Some dl /\
       requiredWidth d = subtreeWidth s' n /\
       requiredWidth dl = subtreeWidth s' lastChild /\
       0 <= requiredWidth d - requiredWidth dl /\
       styleWidth elh = px (requiredWidth d - requiredWidth dl) /\
       styleLeft elh = px_plus x (half NODE_WIDTH) /\
       styleTop elh = px_plus (y + NODE_HEIGHT) (half NODE_MARGIN_Y) /\
       parentNode elh = Some c).
Proof.
  intros HI Hok Hd0 Hatt Hvp Hlt Hfuel. pose proof HI as (Htree & _).
  destruct (draw_runs c f s n vp HI ltac:(eauto) ltac:(eauto) Hfuel)
    as ([] & s' & Hrun & HI' & _).
  destruct (valid_draw f n c vp s tt s' (conj Htree Hok) Hrun) as [[Htree' Hok'] _].
  pose proof (Inv_draw_inv _ _ HI) as Hinv.
  destruct (draw_spec f s n c vp x y s' Hrun Hinv Hvp Hlt) as (_ & Hdraws & HD & _).
  destruct (draw_node_placed f s n c vp x y s' Hinv Hvp Hlt Hrun)
    as (d & e & el & Hd & He & Hel & Hcl & Hl & Ht & Hp & Hbars).
  exists s', d, e, el. split_and!; try done. intros Hne.
  destruct (Hbars Hne) as (vb & hb & elv & elh & lc & dl & H1 & H2 & H3 & H4 & H5 & H6 & H7 &
                           Hlast & Hdl & Hw & H8 & H9 & H10).
  assert (attached s' n d) as Hatt'.
  { destruct (draws_lookup _ _ _ _ _ _ Hdraws Hd0) as (d' & Hd' & Hsk & _).
    rewrite Hd in Hd'. injection Hd' as <-.
    assert (parent d = parent d0) as Hpar by (unfold skeleton in Hsk; congruence).
    unfold attached in *. rewrite Hpar. destruct (parent d0) as [p|]; [|done].
    destruct (nodes s !! p) as [dp|] eqn:Hdp; [|done].
    destruct (draws_lookup _ _ _ _ _ _ Hdraws Hdp) as (dp' & -> & Hskp & _).
    assert (children dp' = children dp) as -> by (unfold skeleton in Hskp; congruence).
    done. }
  assert (lc ∈ children d) as Hlc.
  { apply last_Some in Hlast as [l' ->]. apply elem_of_app. right. by left. }
  assert (requiredWidth d = subtreeWidth s' n) as Hwn.
  { destruct f as [|f]; [done|].
    destruct HD as (d1 & e1 & Hd1 & _ & _ & Hch). rewrite Hd in Hd1. injection Hd1 as <-.
    destruct (children d) as [|first rest]; [done|]. destruct Hch as [Hclean _].
    destruct (Hok' _ _ Hd Hatt') as [Hdirty|Hv]; done. }
  assert (requiredWidth dl = subtreeWidth s' lc) as Hwl.
  { destruct (draw_children_placed f s n c vp x y s' Hinv Hvp Hlt Hrun)
      as (d1 & Hd1 & Hkids). rewrite Hd in Hd1. injection Hd1 as <-.
    apply list_elem_of_lookup in Hlc as [i Hi].
    destruct (Hkids i lc Hi) as (dc' & _ & _ & _ & _ & Hdc' & Hclean & _).
    rewrite Hdl in Hdc'. injection Hdc' as <-.
    destruct (Hok' _ _ Hdl) as [Hdirty|Hv]; [|done|done].
    destruct (tree_wf_child _ _ _ _ Htree' Hd ltac:(by eapply list_elem_of_lookup_2))
      as [_ (dc' & Hdc' & Hpc)].
    rewrite Hdl in Hdc'. injection Hdc' as <-. unfold attached. rewrite Hpc, Hd.
    by eapply list_elem_of_lookup_2. }
  exists vb, hb, elv, elh, lc, dl. split_and!; try done.
  rewrite Hwn, Hwl. pose proof (subtreeWidth_child s' n d lc Htree' Hd Hlc). lia.
Qed.

(** The click handler on a well-formed drawn tree with valid caches. *)
Lemma click_runs rank s c that d ctrlKey l r dr lv x y :
  Inv s c -> caches_ok s -> backing_ranked rank s -> nodes s !! that = Some d ->
  Forall (fun b => is_Some (backing s !! b)) (nodeChildren d) ->
  parent_chain s that l r -> nodes s !! r = Some dr ->
  lastContainer dr = Some c -> lastViewport dr = Some lv ->
  viewports s !! lv = Some (x, y) -> (lv < nextViewport s)%nat ->
  exists f0, forall f, (f0 <= f)%nat ->
    exists s', click f that ctrlKey s = Some (tt, s') /\ Inv s' c /\ caches_ok s'.
Proof.
  intros HI Hok Hrank Hd Hkids Hl Hr Hlc Hlv Hvp Hlt.
  pose proof HI as (Htree & Hdom & Hrefs & _).
  assert (r <= that)%nat as Hle.
  { clear -Hl Htree. induction Hl as [n d Hn Hp|n d p l r Hn Hp _ IH]; [done|].
    destruct (Htree _ _ Hn) as (_ & Hpar & _). rewrite Hp in Hpar. simpl in Hpar. lia. }
  destruct (isExpanded d) eqn:Hexp; [destruct ctrlKey|].
  - (* collapse *)
    exists (S (length l + nextNode s)). intros f Hf.
    destruct (collapse_ok f s that false d Htree Hdom Hrefs Hd ltac:(lia))
      as (s1 & d1 & Hrun1 & _ & _ & Hcol & Hd1 & Hch1 & _).
    destruct (collapse_runs c f s that false HI ltac:(eauto) ltac:(lia))
      as ([] & s1' & Hrun1' & HI1 & _).
    rewrite Hrun1 in Hrun1'. injection Hrun1' as <-.
    destruct (kept_collapse f that false s tt s1 (Inv_nodes_below _ _ HI) Hrun1)
      as (_ & HV1 & Hv1 & Hkept).
    destruct (collapse_detaches f s that false d Htree Hdom Hrefs Hd ltac:(lia))
      as (s1' & Hrun1' & Hrem & Hnil & _).
    rewrite Hrun1 in Hrun1'. injection Hrun1' as <-.
    assert (parent_chain s1 that l r) as Hl1.
    { eapply parent_chain_local; [|exact Hl]. intros m Hm.
      pose proof (collapses_nodes _ _ Hcol m) as Hcm.
      destruct (nodes s !! m) as [dm|]; [|by rewrite Hcm].
      destruct Hcm as (dm' & -> & _ & _ & Hp & _). simpl. by rewrite Hp. }
    destruct (Hkept _ _ Hr) as (dr1 & Hr1 & Hlc1 & Hlv1).
    destruct (invalidate_runs f s1 c that l r dr1 lv x y HI1 Hl1 Hr1)
      as (s2 & Hrun2 & HI2 & _); try congruence.
    { rewrite (collapses_nextNode _ _ Hcol). lia. }
    assert (caches_ok (markDirty l s1)) as Hok1.
    { eapply collapse_markDirty_ok; try done. intros m Hm.
      destruct (decide (m = that)) as [->|Hne]; [done|]. by apply Hrem. }
    exists s2. split_and!; try done.
    + unfold click. rewrite (bind_eq _ _ _ _ _ (getNode_eq _ _ _ Hd)). rewrite Hexp. simpl.
      by rewrite (bind_eq _ _ _ _ _ Hrun1).
    + eapply (invalidate_valid f s1 that l r s2 Hl1); [lia| |done].
      split; [|done]. eapply tree_wf_same_except_width; [apply markDirty_same_except_width|].
      by destruct HI1.
  - (* nothing to do *)
    exists 0%nat. intros f _. exists s. split_and!; try done.
    unfold click. rewrite (bind_eq _ _ _ _ _ (getNode_eq _ _ _ Hd)). by rewrite Hexp.
  - (* expand *)
    set (f1 := (2 * max_list (rank <$> nodeChildren d) + 3)%nat).
    destruct (proj2 (build_inv rank c f1) s that d ctrlKey HI Hrank Hd ltac:(unfold f1; lia))
      as (s1 & cs & Hrun1 & HI1 & Hbuilds & Hold1 & Hthat1 & _ & Hcs & _).
    { rewrite Forall_forall in Hkids |- *. intros b Hb. split; [by apply Hkids|].
      assert (rank b <= max_list (rank <$> nodeChildren d))%nat; [|unfold f1; lia].
      apply max_list_elem_of_le. apply list_elem_of_fmap. eauto. }
    pose proof (builds_grows _ _ Hbuilds) as Hgrows. pose proof Hrun1 as Hrun0.
    assert (forall m dm, nodes s !! m = Some dm ->
              exists dm', nodes s1 !! m = Some dm' /\ parent dm' = parent dm /\
                lastContainer dm' = lastContainer dm /\ lastViewport dm' = lastViewport dm)
      as Hsame.
    { intros m dm Hm. destruct (Htree _ _ Hm) as (Hmlt & _).
      destruct (decide (m = that)) as [->|Hne].
      - rewrite Hd in Hm. injection Hm as <-. eauto.
      - rewrite (Hold1 m Hmlt Hne). eauto. }
    assert (parent_chain s1 that l r) as Hl1.
    { eapply parent_chain_local; [|exact Hl]. intros m Hm.
      assert (is_Some (nodes s !! m)) as [dm Hdm].
      { clear -Hl Hm. induction Hl as [n d Hn Hp|n d p l r Hn Hp _ IH].
        - apply list_elem_of_singleton in Hm as ->. eauto.
        - apply elem_of_cons in Hm as [->|Hm]; eauto. }
      destruct (Hsame _ _ Hdm) as (dm' & Hdm' & Hp' & _). rewrite Hdm, Hdm'. simpl.
      by rewrite Hp'. }
    destruct (Hsame _ _ Hr) as (dr1 & Hr1 & _ & Hlc1 & Hlv1).
    exists (Nat.max f1 (S (length l + nextNode s1))). intros f Hf.
    apply (proj2 (build_fuel f1) f that ctrlKey) in Hrun1; [|lia].
    destruct (invalidate_runs f s1 c that l r dr1 lv x y HI1 Hl1 Hr1)
      as (s2 & Hrun2 & HI2 & _); try congruence.
    { by rewrite (grows_viewports _ _ Hgrows). }
    { destruct (proj2 (kept_construct_expand f1) that ctrlKey s tt s1 (Inv_nodes_below _ _ HI)
                  Hrun0) as (_ & -> & _). done. }
    { lia. }
    assert (caches_ok (markDirty l s1)) as Hok1.
    { eapply (expand_markDirty_ok s s1 that d cs l r); try done.
      - apply (grows_nextNode _ _ Hgrows).
      - intros m dm Hm Hge. by destruct (builds_fresh _ _ Hbuilds m dm Hm Hge).
      - eapply Forall2_left; [exact Hcs|]. by intros ch b [? _]. }
    exists s2. split_and!; try done.
    + unfold click. rewrite (bind_eq _ _ _ _ _ (getNode_eq _ _ _ Hd)). rewrite Hexp. simpl.
      by rewrite (bind_eq _ _ _ _ _ Hrun1).
    + eapply (invalidate_valid f s1 that l r s2 Hl1); [lia| |done].
      split; [|done]. eapply tree_wf_same_except_width; [apply markDirty_same_except_width|].
      by destruct HI1.
Qed.

(** * A page that stays usable *)

(** Every node's snapshot of backing children refers to backing nodes. *)
Definition snapshots_ok (s : State) : Prop :=
  map_Forall (fun _ d => Forall (fun b => is_Some (backing s !! b)) (nodeChildren d))
             (nodes s).

(** Nodes are drawn into the container [c] only. *)
Definition containers_ok (c : nat) (s : State) : Prop :=
  map_Forall (fun _ d => lastContainer d = None \/ lastContainer d = Some c) (nodes s).

(** Every root has been drawn into [c], and the viewport object it
    recorded exists. *)
Definition root_drawn (c : nat) (s : State) (d : DrawingTreeNode) : Prop :=
  lastContainer d = Some c /\
  from_option (fun lv => (lv < nextViewport s)%nat /\ is_Some (viewports s !! lv)) False
              (lastViewport d).

Definition roots_drawn (c : nat) (s : State) : Prop :=
  map_Forall (fun _ d => parent d = None -> root_drawn c s d) (nodes s).

#[export] Instance root_drawn_dec c s d : Decision (root_drawn c s d).
Proof. unfold root_drawn. destruct (lastViewport d); simpl; apply _. Defined.

#[export] Instance snapshots_ok_dec s : Decision (snapshots_ok s).
Proof. unfold snapshots_ok. apply _. Defined.

#[export] Instance containers_ok_dec c s : Decision (containers_ok c s).
Proof. unfold containers_ok. apply _. Defined.

#[export] Instance roots_drawn_dec c s : Decision (roots_drawn c s).
Proof. unfold roots_drawn. apply _. Defined.

(** What the page needs for the next click to work. *)
Definition ready (rank : nat -> nat) (c : nat) (s : State) : Prop :=
  Inv s c /\ caches_ok s /\ backing_ranked rank s /\ snapshots_ok s /\
  containers_ok c s /\ roots_drawn c s.

#[export] Instance ready_dec rank c s : Decision (ready rank c s).
Proof. unfold ready. apply _. Defined.

(** The part of [ready] that every primitive step keeps. *)
Definition stable (rank : nat -> nat) (c : nat) (s : State) : Prop :=
  nodes_below s /\ backing_ranked rank s /\ snapshots_ok s /\ containers_ok c s.

(** What a step does to the roots: no root appears, and a root keeps what
    it recorded at its last [draw] or has just been drawn into [c]. *)
Definition roots_kept (c : nat) (s s' : State) : Prop :=
  (nextViewport s <= nextViewport s')%nat /\
  (forall v, is_Some (viewports s !! v) -> is_Some (viewports s' !! v)) /\
  forall m d', nodes s' !! m = Some d' -> parent d' = None ->
    exists d, nodes s !! m = Some d /\ parent d = None /\
      ((lastContainer d' = lastContainer d /\ lastViewport d' = lastViewport d) \/
       root_drawn c s' d').

Lemma roots_kept_refl c s : roots_kept c s s.
Proof. split_and!; [done|done|]. intros m d Hm Hp. exists d. auto. Qed.

Lemma root_drawn_mono c s s' d :
  (nextViewport s <= nextViewport s')%nat ->
  (forall v, is_Some (viewports s !! v) -> is_Some (viewports s' !! v)) ->
  root_drawn c s d -> root_drawn c s' d.
Proof.
  intros HV Hv [Hc Hl]. split; [done|]. destruct (lastViewport d) as [lv|]; [|done].
  simpl in *. destruct Hl. split; [lia|auto].
Qed.

Lemma root_drawn_same c s d d' :
  lastContainer d' = lastContainer d -> lastViewport d' = lastViewport d ->
  root_drawn c s d -> root_drawn c s d'.
Proof. unfold root_drawn. by intros -> ->. Qed.

Lemma roots_kept_trans c s1 s2 s3 :
  roots_kept c s1 s2 -> roots_kept c s2 s3 -> roots_kept c s1 s3.
Proof.
  intros (HV1 & Hv1 & H1) (HV2 & Hv2 & H2). split_and!; [lia|auto|].
  intros m d3 Hm Hp. destruct (H2 _ _ Hm Hp) as (d2 & Hd2 & Hp2 & Hcase2).
  destruct (H1 _ _ Hd2 Hp2) as (d1 & Hd1 & Hp1 & Hcase1).
  exists d1. split_and!; try done.
  destruct Hcase2 as [[Hc Hl]|Hfresh]; [|by right].
  destruct Hcase1 as [[Hc1 Hl1]|Hfresh1]; [left; split; congruence|right].
  eapply root_drawn_same; [done|done|]. by eapply root_drawn_mono.
Qed.

Lemma roots_drawn_kept c s s' :
  roots_kept c s s' -> roots_drawn c s -> roots_drawn c s'.
Proof.
  intros (HV & Hv & H) Hr m d' Hm Hp. destruct (H _ _ Hm Hp) as (d & Hd & Hpd & Hcase).
  destruct Hcase as [[Hc Hl]|Hfresh]; [|done].
  eapply root_drawn_same; [done|done|]. eapply root_drawn_mono; [done|done|].
  by apply (Hr _ _ Hd).
Qed.

Section Stable.
Context (rank : nat -> nat) (c : nat).

Lemma stable_nodes s s' :
  nodes s' = nodes s -> backing s' = backing s -> nextNode s' = nextNode s ->
  stable rank c s -> stable rank c s'.
Proof.
  intros Hn Hb HN (H1 & H2 & H3 & H4). unfold stable, nodes_below, backing_ranked,
    snapshots_ok, containers_ok in *. rewrite Hn, Hb, HN. done.
Qed.

Lemma roots_kept_nodes s s' :
  nodes s' = nodes s -> (nextViewport s <= nextViewport s')%nat ->
  (forall v, is_Some (viewports s !! v) -> is_Some (viewports s' !! v)) ->
  roots_kept c s s'.
Proof.
  intros Hn HV Hv. split_and!; [done|done|]. intros m d. rewrite Hn. intros Hm Hp.
  exists d. auto.
Qed.

Lemma ready_modifyNode n g :
  (forall d, nodeChildren (g d) = nodeChildren d /\ parent (g d) = parent d /\
             lastContainer (g d) = lastContainer d /\ lastViewport (g d) = lastViewport d) ->
  sound (stable rank c) (roots_kept c) (modifyNode n g).
Proof.
  intros Hg s u s' (H1 & H2 & H3 & H4) (d & Hd & ->)%modifyNode_inv.
  destruct (Hg d) as (Hg1 & Hg2 & Hg3 & Hg4). split; [split_and!|split_and!]; try done.
  - intros m. simpl. rewrite lookup_insert. case_decide; subst; intros ?; apply H1; eauto.
  - intros m dm. simpl. rewrite lookup_insert. case_decide; subst.
    + intros [= <-]. rewrite Hg1. by apply (H3 _ _ Hd).
    + apply H3.
  - intros m dm. simpl. rewrite lookup_insert. case_decide; subst.
    + intros [= <-]. rewrite Hg3. by apply (H4 _ _ Hd).
    + apply H4.
  - intros m dm. simpl. rewrite lookup_insert. case_decide; subst.
    + intros [= <-] Hp. exists d. split_and!; [done|congruence|auto].
    + intros Hm Hp. exists dm. auto.
Qed.

Lemma ready_modifyElem e g : sound (stable rank c) (roots_kept c) (modifyElem e g).
Proof.
  intros s u s' HI (d & Hd & ->)%modifyElem_inv.
  split; [by eapply stable_nodes|by apply roots_kept_nodes].
Qed.

Lemma ready_newElem x : sound (stable rank c) (roots_kept c) (newElem x).
Proof.
  intros s u s' HI [= <- <-]. split; [by eapply stable_nodes|by apply roots_kept_nodes].
Qed.

Lemma ready_newViewport xy : sound (stable rank c) (roots_kept c) (newViewport xy).
Proof.
  intros s u s' HI [= <- <-]. split; [by eapply stable_nodes|].
  apply roots_kept_nodes; [done|simpl; lia|]. intros v Hv. simpl.
  rewrite lookup_insert. case_decide; eauto.
Qed.

Lemma ready_setViewport v xy : sound (stable rank c) (roots_kept c) (setViewport v xy).
Proof.
  intros s u s' HI (Hd & ->)%setViewport_inv. split; [by eapply stable_nodes|].
  apply roots_kept_nodes; [done|simpl; lia|]. intros v' Hv. simpl.
  rewrite lookup_insert. case_decide; eauto.
Qed.

Lemma ready_modifyBacking b v :
  sound (stable rank c) (roots_kept c) (modifyBacking b (set_flag v)).
Proof.
  intros s u s' (H1 & H2 & H3 & H4) (x & Hx & ->)%modifyBacking_inv.
  assert (forall k, is_Some (backing s !! k) ->
                    is_Some (<[b := set_flag v x]> (backing s) !! k)) as Hk.
  { intros k Hk. rewrite lookup_insert. case_decide; eauto. }
  split; [split_and!|by apply roots_kept_nodes]; try done.
  - intros k y. simpl. rewrite lookup_insert. case_decide; subst.
    + intros [= <-]. simpl. eapply Forall_impl; [exact (H2 _ _ Hx)|].
      intros k' [? ?]. split; [done|]. by apply Hk.
    + intros Hy. eapply Forall_impl; [exact (H2 _ _ Hy)|].
      intros k' [? ?]. split; [done|]. by apply Hk.
  - intros m dm Hm. simpl. eapply Forall_impl; [exact (H3 _ _ Hm)|]. intros k'. apply Hk.
Qed.

(** A node created under a parent, with a snapshot read from the backing
    data. *)
Lemma ready_newNode d s n s' :
  is_Some (parent d) -> lastContainer d = None -> stable rank c s ->
  Forall (fun b => is_Some (backing s !! b)) (nodeChildren d) ->
  newNode d s = Some (n, s') -> stable rank c s' /\ roots_kept c s s'.
Proof.
  intros [p Hp] Hlc (H1 & H2 & H3 & H4) Hd [= <- <-]. split; [split_and!|split_and!]; try done.
  - intros m. simpl. rewrite lookup_insert. case_decide; [lia|]. intros Hm.
    specialize (H1 m Hm). lia.
  - intros m dm. simpl. rewrite lookup_insert. case_decide; subst.
    + by intros [= <-].
    + apply H3.
  - intros m dm. simpl. rewrite lookup_insert. case_decide; subst.
    + intros [= <-]. by left.
    + apply H4.
  - intros m dm. simpl. rewrite lookup_insert. case_decide; subst.
    + intros [= <-]. congruence.
    + intros Hm Hpm. exists dm. auto.
Qed.
End Stable.

Ltac ready_prim :=
  first
    [ apply ready_modifyNode; intros ?; simpl; done
    | apply ready_modifyElem | apply ready_newElem
    | apply ready_newViewport | apply ready_setViewport
    | apply ready_modifyBacking
    | solve [auto]
    | progress unfold_ops ].

Ltac ready_go_in c := sound_go (roots_kept_refl c) (roots_kept_trans c) ready_prim.

Section StableRuns.
Context (rank : nat -> nat) (c : nat).

Ltac ready_go := ready_go_in c.

Lemma ready_getRequiredWidth f n :
  sound (stable rank c) (roots_kept c) (getRequiredWidth f n).
Proof.
  revert n. induction f as [|f IH]; intros n; simpl; [apply sound_fail|].
  ready_go.
Qed.

Lemma ready_collapse f n r : sound (stable rank c) (roots_kept c) (collapse f n r).
Proof.
  revert n r. induction f as [|f IH]; intros n r; simpl; [apply sound_fail|].
  ready_go.
Qed.

Lemma ready_createRepresentation n :
  sound (stable rank c) (roots_kept c) (createRepresentation n).
Proof. ready_go. Qed.

Lemma ready_build f :
  (forall b p, sound (stable rank c) (roots_kept c) (construct f b (Some p))) /\
  (forall n r, sound (stable rank c) (roots_kept c) (expand f n r)).
Proof.
  induction f as [|f [IHc IHe]]; (split; [intros b p|intros n r]); try apply sound_fail.
  - intros s a s' HI Hrun. rewrite construct_unfold in Hrun.
    apply bind_inv in Hrun as (x & s0 & [-> Hx]%getBacking_inv & Hrun).
    apply bind_inv in Hrun as (this & s1 & Hnew & Hrun).
    eapply (ready_newNode rank c) in Hnew as [HI1 HR1];
      [|simpl; eauto|done|exact HI|].
    2:{ simpl. destruct HI as (_ & Hrank & _). eapply Forall_impl; [exact (Hrank _ _ Hx)|].
        by intros k [_ ?]. }
    assert (sound (stable rank c) (roots_kept c)
              (createRepresentation this ;;;
               let* b0 := getBacking b in
               when (drawingTreeNodeIsExpanded b0) (expand f this false) ;;; ret this))
      as Hrest.
    { pose proof ready_createRepresentation. ready_go. }
    destruct (Hrest _ _ _ HI1 Hrun) as [HI' HR']. split; [done|].
    by eapply roots_kept_trans.
  - rewrite expand_unfold. unfold expand_body. ready_go.
Qed.

(** [draw] records the container and a viewport object of its own. *)
Lemma ready_draw_head xy this (k : M unit) :
  sound (stable rank c) (roots_kept c) k ->
  sound (stable rank c) (roots_kept c)
    (let* lv := newViewport xy in
     modifyNode this (set_last (Some c) (Some lv)) ;;; k).
Proof.
  intros Hk s a s' HI Hrun.
  apply bind_inv in Hrun as (lv & s1 & [= <- <-] & Hrun).
  apply bind_inv in Hrun as ([] & s2 & (d & Hd & ->)%modifyNode_inv & Hrun).
  simpl in Hd. destruct HI as (H1 & H2 & H3 & H4).
  match type of Hrun with k ?st = _ => set (s2 := st) in * end.
  assert (stable rank c s2) as HI2.
  { split_and!; try done.
    - intros m. simpl. rewrite lookup_insert. case_decide; subst; intros ?; apply H1; eauto.
    - intros m dm. simpl. rewrite lookup_insert. case_decide; subst.
      + intros [= <-]. simpl. by apply (H3 _ _ Hd).
      + apply H3.
    - intros m dm. simpl. rewrite lookup_insert. case_decide; subst.
      + intros [= <-]. by right.
      + apply H4. }
  assert (roots_kept c s s2) as HR2.
  { split_and!.
    - simpl. lia.
    - intros v Hv. simpl. rewrite lookup_insert. case_decide; eauto.
    - intros m dm. simpl. rewrite lookup_insert. case_decide; subst.
      + intros [= <-] Hp. exists d. split_and!; try done. right. split; [done|]. simpl.
        split; [lia|]. rewrite lookup_insert_eq. eauto.
      + intros Hm Hp. exists dm. auto. }
  destruct (Hk _ _ _ HI2 Hrun) as [HI' HR']. split; [done|]. by eapply roots_kept_trans.
Qed.

Lemma ready_draw f : forall n v, sound (stable rank c) (roots_kept c) (draw f n c v).
Proof.
  induction f as [|f IH]; intros n v; [apply sound_fail|]. rewrite draw_unfold.
  apply (sound_bind _ _ (roots_kept_trans c)); [apply (sound_getViewport _ _ (roots_kept_refl c))|].
  intros xy. apply ready_draw_head. pose proof ready_getRequiredWidth. unfold draw_child.
  ready_go.
Qed.

Lemma ready_redraw f n : sound (stable rank c) (roots_kept c) (redraw f n).
Proof.
  intros s a s' HI Hrun. unfold redraw in Hrun.
  apply bind_inv in Hrun as (d & s0 & [-> Hd]%getNode_inv & Hrun).
  destruct (lastViewport d) as [lv|]; [|done].
  destruct (proj2 (proj2 (proj2 HI)) _ _ Hd) as [Hc|Hc]; rewrite Hc in Hrun; [done|].
  by apply (ready_draw f n lv s a s').
Qed.

Lemma ready_invalidate f n : sound (stable rank c) (roots_kept c) (invalidate f n).
Proof.
  revert n. induction f as [|f IH]; intros n; [apply sound_fail|].
  change (sound (stable rank c) (roots_kept c)
            (modifyNode n (set_requiredWidth (-1)) ;;;
             let* d := getNode n in
             match parent d with
             | Some p => invalidate f p
             | None => redraw f n
             end)).
  apply (sound_bind _ _ (roots_kept_trans c)); [by apply ready_modifyNode|intros _].
  apply (sound_bind _ _ (roots_kept_trans c));
    [apply (sound_getNode _ _ (roots_kept_refl c))|intros d].
  destruct (parent d); [apply IH|apply ready_redraw].
Qed.

Lemma ready_click f that k : sound (stable rank c) (roots_kept c) (click f that k).
Proof.
  pose proof ready_invalidate. pose proof ready_collapse. pose proof (proj2 (ready_build f)).
  unfold click. ready_go.
Qed.
End StableRuns.

Lemma parent_chain_root s n l r :
  parent_chain s n l r -> exists dr, nodes s !! r = Some dr /\ parent dr = None.
Proof. induction 1; eauto. Qed.

Lemma ready_stable rank c s : ready rank c s -> stable rank c s.
Proof. intros (HI & _ & H2 & H3 & H4 & _). split_and!; try done. by eapply Inv_nodes_below. Qed.

Lemma click_ready rank c s that ctrlKey :
  ready rank c s -> is_Some (nodes s !! that) ->
  exists f0, forall f, (f0 <= f)%nat ->
    exists s', click f that ctrlKey s = Some (tt, s') /\ ready rank c s'.
Proof.
  intros Hready [d Hd]. pose proof (ready_stable _ _ _ Hready) as Hstable.
  destruct Hready as (HI & Hok & Hrank & Hsnap & Hcont & Hroots).
  pose proof HI as (Htree & _).
  destruct (parent_chain_exists s that Htree ltac:(eauto)) as (l & r & Hl).
  destruct (parent_chain_root _ _ _ _ Hl) as (dr & Hr & Hp).
  destruct (Hroots _ _ Hr Hp) as [Hlc Hlv].
  destruct (lastViewport dr) as [lv|] eqn:E; [|done]. simpl in Hlv.
  destruct Hlv as [Hlt [[x y] Hxy]].
  destruct (click_runs rank s c that d ctrlKey l r dr lv x y HI Hok Hrank Hd
              (Hsnap _ _ Hd) Hl Hr Hlc E Hxy Hlt) as [f0 H].
  exists f0. intros f Hf. destruct (H f Hf) as (s' & Hrun & HI' & Hok').
  destruct (ready_click rank c f that ctrlKey s tt s' Hstable Hrun)
    as [(H1 & H2 & H3 & H4) HR].
  exists s'. split; [done|]. split_and!; try done. by eapply roots_drawn_kept.
Qed.

(** X21: a page that is ready stays ready under clicks.  On a page that
    is well-formed, with valid width caches, closed and acyclic backing
    data, and every root drawn into the container, a click on any node
    (with or without the control key) returns once the fuel is large
    enough, and the page is ready for the next click.  So no sequence of
    clicks makes the click handler throw, and the widths used by the
    layout stay the widths of the subtrees. *)
Theorem click_keeps_page_ready rank c s that ctrlKey :
  ready rank c s -> is_Some (nodes s !! that) ->
  exists f0, forall f, (f0 <= f)%nat ->
    exists s', click f that ctrlKey s = Some (tt, s') /\ ready rank c s'.
Proof. apply click_ready. Qed.

Section ReadyBuildTree.
Context (rank : nat -> nat) (c : nat).

Lemma ready_clearChildren e : sound (stable rank c) (roots_kept c) (clearChildren e).
Proof.
  unfold clearChildren. ready_go_in c.
Qed.

Lemma ready_BuildTree f b s root s' :
  stable rank c s -> BuildTree f c b s = Some (root, s') ->
  stable rank c s' /\ (nextViewport s <= nextViewport s')%nat /\
  (forall v, is_Some (viewports s !! v) -> is_Some (viewports s' !! v)) /\
  forall m d', nodes s' !! m = Some d' -> parent d' = None ->
    m = nextNode s \/
    exists d, nodes s !! m = Some d /\ parent d = None /\
      ((lastContainer d' = lastContainer d /\ lastViewport d' = lastViewport d) \/
       root_drawn c s' d').
Proof.
  intros HI Hrun. unfold BuildTree in Hrun.
  apply bind_inv in Hrun as ([] & s1 & Hclear & Hrun).
  destruct (ready_clearChildren c _ _ _ HI Hclear) as [HI1 HR1].
  apply bind_inv in Hrun as ([] & s2 & Hcls & Hrun).
  destruct (ready_modifyElem rank c _ _ _ _ _ HI1 Hcls) as [HI2 HR2].
  pose proof (roots_kept_trans _ _ _ _ HR1 HR2) as HR02.
  assert (nodes s2 = nodes s /\ nextNode s2 = nextNode s) as [Hn2 HN2].
  { clear -Hclear Hcls. apply modifyElem_inv in Hcls as (x & _ & ->). simpl.
    unfold clearChildren in Hclear.
    apply bind_inv in Hclear as (xc & s0 & [-> _]%getElem_inv & Hclear).
    apply bind_inv in Hclear as ([] & s0' & Hloop & (y & _ & ->)%modifyElem_inv). simpl.
    revert s Hloop. generalize (childNodes xc). intros l. induction l as [|e l IH]; intros s Hloop.
    - by injection Hloop as <-.
    - simpl in Hloop. apply bind_inv in Hloop as ([] & sa & (z & _ & ->)%modifyElem_inv & Hloop).
      by destruct (IH _ Hloop). }
  apply bind_inv in Hrun as (root' & s3 & Hcons & Hrun).
  apply bind_inv in Hrun as (v & s4 & Hv & Hrun).
  apply bind_inv in Hrun as ([] & s5 & Hdraw & [= <- <-]).
  destruct f as [|f]; [done|]. rewrite construct_unfold in Hcons.
  apply bind_inv in Hcons as (x & s0 & [-> Hx]%getBacking_inv & Hcons).
  apply bind_inv in Hcons as (this & s2a & [= <- <-] & Hcons).
  match type of Hcons with _ ?st = _ => set (s2a := st) in * end.
  assert (stable rank c s2a) as HI2a.
  { destruct HI2 as (H1 & H2 & H3 & H4). split_and!; try done.
    - intros m. simpl. rewrite lookup_insert. case_decide; [lia|]. intros Hm.
      specialize (H1 m Hm). lia.
    - intros m dm. simpl. rewrite lookup_insert. case_decide; subst.
      + intros [= <-]. simpl. eapply Forall_impl; [exact (H2 _ _ Hx)|]. by intros k [_ ?].
      + apply H3.
    - intros m dm. simpl. rewrite lookup_insert. case_decide; subst.
      + intros [= <-]. by left.
      + apply H4. }
  assert (sound (stable rank c) (roots_kept c)
            (createRepresentation (nextNode s2) ;;;
             let* b0 := getBacking b in
             when (drawingTreeNodeIsExpanded b0) (expand f (nextNode s2) false) ;;;
             ret (nextNode s2)))
    as Hrest.
  { pose proof (ready_createRepresentation rank c). pose proof (proj2 (ready_build rank c f)).
    ready_go_in c. }
  destruct (Hrest _ _ _ HI2a Hcons) as [HI3 HR3].
  destruct (ready_newViewport rank c _ _ _ _ HI3 Hv) as [HI4 HR4].
  destruct (ready_draw rank c (S f) _ _ _ _ _ HI4 Hdraw) as [HI5 HR5].
  pose proof (roots_kept_trans _ _ _ _ HR3 (roots_kept_trans _ _ _ _ HR4 HR5))
    as (HV & Hvk & Hroots).
  destruct HR02 as (HV02 & Hvk02 & _).
  split; [done|]. split; [simpl in HV; lia|]. split; [intros w Hw; apply Hvk, Hvk02, Hw|].
  intros m d' Hm Hp. destruct (Hroots _ _ Hm Hp) as (d & Hd & Hpd & Hcase).
  simpl in Hd. rewrite lookup_insert in Hd. case_decide; [left; congruence|right].
  exists d. rewrite <- Hn2. done.
Qed.
End ReadyBuildTree.

Lemma BuildTree_ready rank c s b xc :
  ready rank c s -> is_Some (backing s !! b) -> elems s !! c = Some xc ->
  Forall (fun e => is_Some (elems s !! e)) (childNodes xc) ->
  exists f0, forall f, (f0 <= f)%nat ->
    exists s', BuildTree f c b s = Some (nextNode s, s') /\ ready rank c s'.
Proof.
  intros Hready [x Hb] Hc Hkids. pose proof (ready_stable _ _ _ Hready) as Hstable.
  destruct Hready as (HI & Hok & Hrank & Hsnap & Hcont & Hroots).
  destruct (BuildTree_runs rank s c b x xc HI Hrank Hb Hc Hkids) as [f0 H].
  exists f0. intros f Hf.
  destruct (H f Hf) as (s' & dr & xc' & Hrun & HI' & Hdr & _ & _ & Hlc & _ & _ & _ & _ & _ &
                        Hok' & lv & Hlv & Hlt & Hvp).
  destruct (ready_BuildTree rank c f b s _ s' Hstable Hrun)
    as ((H1 & H2 & H3 & H4) & HV & Hvk & Hr).
  exists s'. split; [done|]. split_and!; try done; [by apply Hok'|].
  intros m d' Hm Hp. destruct (Hr _ _ Hm Hp) as [->|(d & Hd & Hpd & Hcase)].
  - rewrite Hdr in Hm. injection Hm as <-. split; [done|]. by rewrite Hlv.
  - destruct Hcase as [[Hc' Hl']|Hfresh]; [|done].
    eapply root_drawn_same; [done|done|]. eapply root_drawn_mono; [done|done|].
    by apply (Hroots _ _ Hd).
Qed.

(** X22: [BuildTree] on a page that is ready (in particular on a page
    without any tree yet) returns once the fuel is large enough, returns
    the next free node as the root, and leaves the page ready: well-formed,
    with valid width caches and every root drawn, so that every click that
    follows returns. *)
Theorem BuildTree_makes_page_ready rank c s b xc :
  ready rank c s -> is_Some (backing s !! b) -> elems s !! c = Some xc ->
  Forall (fun e => is_Some (elems s !! e)) (childNodes xc) ->
  exists f0, forall f, (f0 <= f)%nat ->
    exists s', BuildTree f c b s = Some (nextNode s, s') /\ ready rank c s'.
Proof. apply BuildTree_ready. Qed.

(** * Refreshing representations on a ready page *)

Lemma tree_wf_same_layout s s' : same_layout s s' -> tree_wf s -> tree_wf s'.
Proof.
  intros Hs Hwf. pose proof Hs as [HN Hn].
  assert (forall m, parent <$> nodes s' !! m = parent <$> nodes s !! m) as Hpar.
  { intros m. specialize (Hn m). destruct (nodes s !! m) as [d|].
    - destruct Hn as (d' & -> & _ & Hp & _). simpl. by rewrite Hp.
    - by rewrite Hn. }
  intros m d' Hm. destruct (same_layout_inv _ _ _ _ Hs Hm) as (d & Hd & Hc & Hp & _).
  destruct (Hwf _ _ Hd) as (H1 & H2 & H3 & H4). unfold node_wf. rewrite HN, Hc, Hp.
  split_and!; try done.
  - destruct (parent d) as [p|]; [|done]. simpl in *. destruct H2 as [? [dp Hdp]].
    split; [done|]. specialize (Hn p). rewrite Hdp in Hn. destruct Hn as (? & -> & _). eauto.
  - eapply Forall_impl; [exact H3|]. intros ch Hch. simpl in *. by rewrite Hpar.
Qed.

(** What a refresh keeps of an element that existed: its content and its
    listener; its parent is the same, or the element has been taken off. *)
Definition refreshes (s s' : State) : Prop :=
  (nextElem s <= nextElem s')%nat /\ backing s' = backing s /\
  forall e z, elems s !! e = Some z ->
    exists z', elems s' !! e = Some z' /\ innerHTML z' = innerHTML z /\
               listener z' = listener z /\
               (parentNode z' = parentNode z \/ parentNode z' = None).

(** Node [m] has been refreshed since [s0]: in [s] its representation is off
    the page, or it is an element created after [s0] that shows the content
    of the backing node and reports clicks to [m]. *)
Definition refreshedNode (s0 s : State) (m : nat) : Prop :=
  exists d e z,
    nodes s !! m = Some d /\ representation d = Some e /\ elems s !! e = Some z /\
    (parentNode z = None \/
     ((nextElem s0 <= e)%nat /\ listener z = Some m /\
      exists b, backing s !! innerNode d = Some b /\ innerHTML z = HtmlText (b_html b))).

(** The representation of a node in [s'] has the class, position and
    parent that its representation had in [s]. *)
Definition rep_kept (s s' : State) (d d' : DrawingTreeNode) : Prop :=
  forall e x, representation d = Some e -> elems s !! e = Some x ->
    exists e' x', representation d' = Some e' /\ elems s' !! e' = Some x' /\
                  className x' = className x /\ styleLeft x' = styleLeft x /\
                  styleTop x' = styleTop x /\ parentNode x' = parentNode x.

(** [s'] shows the picture of [s]: the same nodes with the same children,
    widths and flags, the same connectors looking the same, and
    representations of the same class at the same place. *)
Definition same_drawing (s s' : State) : Prop :=
  forall m, match nodes s !! m with
            | Some d =>
                exists d', nodes s' !! m = Some d' /\ innerNode d' = innerNode d /\
                  children d' = children d /\
                  requiredWidth d' = requiredWidth d /\ isExpanded d' = isExpanded d /\
                  rep_kept s s' d d' /\
                  forall r e, r <> RRepresentation -> handle d r = Some e ->
                    handle d' r = Some e /\
                    visual <$> elems s' !! e = visual <$> elems s !! e
            | None => nodes s' !! m = None
            end.

Lemma refreshes_elems s s' :
  elems s' = elems s -> backing s' = backing s -> nextElem s' = nextElem s ->
  refreshes s s'.
Proof.
  intros He Hb HE. split_and!; [lia|done|]. intros e z Hz. exists z. rewrite He. eauto.
Qed.

Lemma refreshes_trans s1 s2 s3 : refreshes s1 s2 -> refreshes s2 s3 -> refreshes s1 s3.
Proof.
  intros (HE1 & Hb1 & H1) (HE2 & Hb2 & H2). split_and!; [lia|congruence|].
  intros e z Hz. destruct (H1 _ _ Hz) as (z' & Hz' & Hh1 & Hl1 & Hp1).
  destruct (H2 _ _ Hz') as (z'' & Hz'' & Hh2 & Hl2 & Hp2).
  exists z''. split_and!; [done|congruence|congruence|].
  destruct Hp2 as [Hp2|Hp2]; [|by right]. rewrite Hp2. exact Hp1.
Qed.

Lemma same_drawing_nodes s s' :
  nodes s' = nodes s -> elems s' = elems s -> same_drawing s s'.
Proof.
  intros Hn He m. rewrite Hn. destruct (nodes s !! m) as [d|]; [|done].
  exists d. split_and!; try done.
  - intros e x Hr Hx. exists e, x. rewrite He. done.
  - intros r e _ Hr. by rewrite He.
Qed.

Lemma same_drawing_trans s1 s2 s3 :
  same_drawing s1 s2 -> same_drawing s2 s3 -> same_drawing s1 s3.
Proof.
  intros H12 H23 m. specialize (H12 m). specialize (H23 m).
  destruct (nodes s1 !! m) as [d1|]; [|by rewrite H12 in H23].
  destruct H12 as (d2 & Hd2 & Hi2 & Hc2 & Hw2 & Hx2 & Hr2 & Hb2). rewrite Hd2 in H23.
  destruct H23 as (d3 & Hd3 & Hi3 & Hc3 & Hw3 & Hx3 & Hr3 & Hb3).
  exists d3. split_and!; try congruence.
  - intros e x He Hx. destruct (Hr2 _ _ He Hx) as (e2 & x2 & He2 & Hx2' & ? & ? & ? & ?).
    destruct (Hr3 _ _ He2 Hx2') as (e3 & x3 & He3 & Hx3' & ? & ? & ? & ?).
    exists e3, x3. split_and!; congruence.
  - intros r e Hne Hr. destruct (Hb2 _ _ Hne Hr) as [Hr' Hv2].
    destruct (Hb3 _ _ Hne Hr') as [Hr'' Hv3]. split; [done|congruence].
Qed.

Lemma shows_rep_kept s s' d d' e cls x y c :
  rep_kept s s' d d' -> representation d = Some e -> shows s e (rep_look cls x y c) ->
  exists e', representation d' = Some e' /\ shows s' e' (rep_look cls x y c).
Proof.
  intros Hk Hr (el & Hel & HP). destruct (Hk _ _ Hr Hel) as (e' & x' & Hr' & Hx' & H1 & H2 & H3 & H4).
  exists e'. split; [done|]. exists x'. split; [done|].
  unfold visual, rep_look in *. by rewrite H1, H2, H3, H4.
Qed.

(** A tree laid out in [s] is laid out the same way in a state that shows
    the picture of [s]. *)
Lemma Drawn_same_drawing f :
  forall s s' c n x y, same_drawing s s' -> Drawn f s c n x y -> Drawn f s' c n x y.
Proof.
  induction f as [|f IH]; intros s s' c n x y Hs HD; [done|].
  destruct HD as (d & e & Hd & Hr & He & Hch).
  pose proof (Hs n) as Hn. rewrite Hd in Hn.
  destruct Hn as (d' & Hd' & _ & Hc' & Hw' & Hx' & Hrep & Hbars).
  destruct (shows_rep_kept _ _ _ _ _ _ _ _ _ Hrep Hr He) as (e' & Hr' & He').
  exists d', e'. rewrite Hx', Hc', Hw'. split_and!; try done.
  destruct (children d) as [|first rest]; [done|].
  destruct Hch as (Hrw & dl & vb & hb & Hdl & Hvb & Hvb' & Hhb & Hhb' & Hkids).
  split; [done|].
  pose proof (Hs (List.last (first :: rest) first)) as Hl. rewrite Hdl in Hl.
  destruct Hl as (dl' & Hdl' & _ & _ & Hwl & _).
  destruct (Hbars RChildBar vb ltac:(done) Hvb) as [Hvb2 Hvbv].
  destruct (Hbars RHorizontalBar hb ltac:(done) Hhb) as [Hhb2 Hhbv].
  exists dl', vb, hb. rewrite Hwl. split_and!; try done.
  - by eapply shows_visual.
  - by eapply shows_visual.
  - clear Hdl Hdl' Hc'. revert Hkids. generalize (y + (NODE_HEIGHT + NODE_MARGIN_Y)).
    generalize x. induction (first :: rest) as [|ch cs IHcs]; intros x' y' Hkids; [done|].
    destruct Hkids as (dc & pb & Hdc & Hrwc & Hpb & Hpb' & Hdrawn & Hrest).
    pose proof (Hs ch) as Hch. rewrite Hdc in Hch.
    destruct Hch as (dc' & Hdc' & _ & _ & Hwc & _ & _ & Hbc).
    destruct (Hbc RParentBar pb ltac:(done) Hpb) as [Hpb2 Hpbv].
    exists dc', pb. rewrite Hwc. split_and!; try done.
    + by eapply shows_visual.
    + by eapply IH.
    + by apply IHcs.
Qed.

Lemma refreshedNode_older s0 s1 s m :
  (nextElem s0 <= nextElem s1)%nat -> refreshedNode s1 s m -> refreshedNode s0 s m.
Proof.
  intros Hle (d & e & z & Hd & Hr & Hz & H). exists d, e, z. split_and!; try done.
  destruct H as [H|(H1 & H2 & H3)]; [by left|right]. split_and!; [lia|done|done].
Qed.

Lemma refreshedNode_step s0 s1 s2 m :
  refreshes s1 s2 -> nodes s2 !! m = nodes s1 !! m ->
  refreshedNode s0 s1 m -> refreshedNode s0 s2 m.
Proof.
  intros (_ & Hb & He) Hn (d & e & z & Hd & Hr & Hz & H).
  destruct (He _ _ Hz) as (z' & Hz' & Hh & Hl & Hp).
  exists d, e, z'. split_and!; try done; [by rewrite Hn|].
  destruct Hp as [Hp|Hp]; [|by left]. rewrite Hp, Hl, Hh, Hb. exact H.
Qed.

(** The representation that node [m] had on the page in [s] has been
    replaced in [s']: by a new element that shows the content of the backing
    node and reports clicks to [m], with the class, the position and the
    parent of the old one. *)
Definition replaced (s s' : State) (m : nat) : Prop :=
  forall d e x,
    nodes s !! m = Some d -> representation d = Some e -> elems s !! e = Some x ->
    is_Some (parentNode x) ->
    exists d' e' x' b,
      nodes s' !! m = Some d' /\ representation d' = Some e' /\
      elems s' !! e' = Some x' /\ (nextElem s <= e')%nat /\
      backing s !! innerNode d = Some b /\ innerHTML x' = HtmlText (b_html b) /\
      listener x' = Some m /\ className x' = className x /\
      styleLeft x' = styleLeft x /\ styleTop x' = styleTop x /\
      parentNode x' = parentNode x.

Lemma replaced_intro s s' m :
  same_drawing s s' -> refreshes s s' -> refreshedNode s s' m -> replaced s s' m.
Proof.
  intros Hdraw (_ & Hb & _) (d2 & e2 & z2 & Hd2 & Hr2 & Hz2 & H) d e x Hd Hr Hx [p Hp].
  specialize (Hdraw m). rewrite Hd in Hdraw.
  destruct Hdraw as (d' & Hd' & Hi & _ & _ & _ & Hrep & _).
  destruct (Hrep _ _ Hr Hx) as (e' & x' & Hr' & Hx' & H1 & H2 & H3 & H4).
  assert (d2 = d') as -> by congruence. assert (e2 = e') as -> by congruence.
  assert (z2 = x') as -> by congruence.
  destruct H as [H|(Hle & Hl & b & Hbk & Hh)]; [congruence|].
  exists d', e', x', b. rewrite <- Hb, <- Hi. split_and!; done.
Qed.

Lemma updateRepresentation_runs s c this d :
  Inv s c -> nodes s !! this = Some d ->
  exists s', updateRepresentation this s = Some (tt, s') /\ Inv s' c /\ same_layout s s' /\
             tasks s' = tasks s ++ [this] /\
             refreshes s s' /\ same_drawing s s' /\ refreshedNode s s' this /\
             forall m, m <> this -> nodes s' !! m = nodes s !! m.
Proof.
  intros HI Hd. pose proof HI as (Htree & Hdom & Hrefs & Hh & Hc).
  destruct (Hrefs _ _ Hd) as ([r Hr] & Hre & Hcb & Hhb & Hpb & [b Hb]).
  rewrite Hr in Hre. simpl in Hre. destruct Hre as [x Hx].
  destruct (parentNode x) as [p|] eqn:Hp; cycle 1.
  { exists (with_tasks (tasks s ++ [this]) s). split_and!.
    - unfold updateRepresentation. rewrite (bind_eq _ _ _ _ _ (getNode_eq _ _ _ Hd)).
      rewrite Hr. unfold bind at 1. unfold bind at 1. rewrite (getElem_eq _ _ _ Hx).
      by rewrite Hp.
    - by eapply Inv_store.
    - by apply same_layout_nodes.
    - done.
    - by apply refreshes_elems.
    - by apply same_drawing_nodes.
    - exists d, r, x. split_and!; try done. by left.
    - done. }
  destruct (dom_wf_parent _ _ _ _ Hdom Hx Hp) as (Hrlt & Hne & Hplt & [y Hy]).
  pose proof (ids_fresh_wf _ Htree Hdom) as [HN HE].
  eexists. split.
  { unfold updateRepresentation.
    mstep. rewrite Hr. mstep. rewrite Hp.
    unfold removeChild. mstep. rewrite Hp, Nat.eqb_refl.
    mstep. mstep. mstep. unfold createRepresentation.
    mstep. mstep. mstep. mstep. unfold createElement. mstep. mstep. mstep. mstep.
    unfold appendChild. mstep. mstep. mstep. mstep. mstep. mstep. mstep. mstep. mstep. mstep. mstep.
    mstep. mstep. reflexivity. }
  match goal with |- Inv ?st c /\ _ => set (s2 := st) end.
  assert (nodes s2 = <[this := set_representation (Some (nextElem s)) d]> (nodes s)) as Hn2
    by done.
  assert (forall e, is_Some (elems s !! e) -> is_Some (elems s2 !! e)) as Hkeep.
  { intros e He. unfold s2. simpl. rewrite !lookup_insert. repeat case_decide; eauto. }
  assert (same_layout s s2) as Hsame.
  { split; [done|]. intros m. rewrite Hn2, lookup_insert. case_decide; subst.
    - rewrite Hd. eauto.
    - destruct (nodes s !! m); eauto. }
  assert (forall n dn r0 e, nodes s2 !! n = Some dn -> handle dn r0 = Some e ->
            (n = this /\ r0 = RRepresentation /\ e = nextElem s) \/
            (exists d0, nodes s !! n = Some d0 /\ handle d0 r0 = Some e /\
                        (e < nextElem s)%nat)) as Hcases.
  { intros n dn r0 e Hn Hr0. rewrite Hn2, lookup_insert in Hn. case_decide; subst.
    - injection Hn as <-. destruct r0; simpl in Hr0.
      + left. by injection Hr0 as <-.
      + right. exists d. by destruct (handles_ok_inv _ _ _ _ RChildBar _ Hh Hd Hr0) as (_ & ? & _).
      + right. exists d.
        by destruct (handles_ok_inv _ _ _ _ RHorizontalBar _ Hh Hd Hr0) as (_ & ? & _).
      + right. exists d. by destruct (handles_ok_inv _ _ _ _ RParentBar _ Hh Hd Hr0) as (_ & ? & _).
    - right. exists dn. by destruct (handles_ok_inv _ _ _ _ _ _ Hh Hn Hr0) as (_ & ? & _). }
  assert (forall e z, elems s !! e = Some z ->
            exists z', elems s2 !! e = Some z' /\ visual z' = visual (if decide (e = r) then set_parentNode None z else z) /\
                       innerHTML z' = innerHTML z /\ listener z' = listener z) as Hold.
  { intros e z Hz. pose proof (HE _ _ Hz) as Hlt. simpl in Hlt. unfold s2. simpl.
    rewrite !lookup_insert. repeat case_decide; subst; try lia; eexists; (split; [done|]);
      try done; try (rewrite Hy in Hz; by injection Hz as <-).
    all: rewrite Hx in Hz; by injection Hz as <-. }
  assert (exists z, elems s2 !! nextElem s = Some z /\ className z = className x /\
                    styleLeft z = styleLeft x /\ styleTop z = styleTop x /\
                    parentNode z = Some p /\ listener z = Some this /\
                    innerHTML z = HtmlText (b_html b)) as (zn & Hzn & Hzc & Hzl & Hzt & Hzp & Hzs & Hzh).
  { eexists. split; [unfold s2; simpl; by rewrite lookup_insert_eq|]. done. }
  split; [|split; [done|]]; cycle 1.
  { split; [done|]. split_and!.
    - split_and!; [simpl; lia|done|]. intros e z Hz.
      destruct (Hold _ _ Hz) as (z' & Hz' & Hv & Hih & Hl). exists z'. split_and!; try done.
      case_decide; [right|left]; by injection Hv.
    - intros m. rewrite Hn2, lookup_insert. case_decide as Hm.
      + subst m. rewrite Hd. eexists. split; [done|]. split_and!; try done.
        * intros e0 x0 He0 Hx0. assert (e0 = r) as -> by congruence.
          assert (x0 = x) as -> by congruence.
          exists (nextElem s), zn. rewrite Hp. done.
        * intros r0 e0 Hrole Hr0. split; [by destruct r0|].
          destruct (handles_ok_inv _ _ _ _ _ _ Hh Hd Hr0) as (_ & Hlt0 & Hinj).
          assert (e0 <> r) as Hner.
          { intros ->. destruct (Hinj this d RRepresentation Hd Hr) as [_ ?]. done. }
          destruct (elems s !! e0) as [z0|] eqn:Hz0.
          -- destruct (Hold _ _ Hz0) as (z' & -> & Hv & _). simpl.
             rewrite decide_False in Hv by done. by rewrite Hv.
          -- unfold s2. simpl. rewrite !lookup_insert.
             repeat case_decide; subst; try lia; try congruence. by rewrite Hz0.
      + destruct (nodes s !! m) as [dm|] eqn:Hdm; [|done].
        exists dm. split_and!; try done.
        * intros e0 x0 He0 Hx0.
          assert (e0 <> r) as Hner.
          { intros ->. destruct (handles_ok_inv _ _ _ _ RRepresentation _ Hh Hd Hr)
              as (_ & _ & Hinj). destruct (Hinj m dm RRepresentation Hdm He0). done. }
          destruct (Hold _ _ Hx0) as (z' & Hz' & Hv & _).
          rewrite decide_False in Hv by done. exists e0, z'.
          injection Hv as -> -> -> _ ->. done.
        * intros r0 e0 Hrole Hr0. split; [done|].
          assert (e0 <> r) as Hner.
          { intros ->. destruct (handles_ok_inv _ _ _ _ RRepresentation _ Hh Hd Hr)
              as (_ & _ & Hinj). destruct (Hinj m dm r0 Hdm Hr0). done. }
          destruct (handles_ok_inv _ _ _ _ _ _ Hh Hdm Hr0) as (_ & Hlt0 & _).
          destruct (elems s !! e0) as [z0|] eqn:Hz0.
          -- destruct (Hold _ _ Hz0) as (z' & -> & Hv & _). simpl.
             rewrite decide_False in Hv by done. by rewrite Hv.
          -- unfold s2. simpl. rewrite !lookup_insert.
             repeat case_decide; subst; try lia; try congruence. by rewrite Hz0.
    - exists (set_representation (Some (nextElem s)) d), (nextElem s), zn.
      split_and!; [by rewrite Hn2, lookup_insert_eq|done|done|].
      right. split_and!; [lia|done|]. exists b. done.
    - intros m Hm. by rewrite Hn2, lookup_insert_ne. }
  split_and!.
  - by eapply tree_wf_same_layout.
  - apply (dom_wf_extend s s2 Hdom); [simpl; lia|done|].
    intros e z. unfold s2. simpl. rewrite !lookup_insert. repeat case_decide; subst;
      try lia; intros Hz; try (injection Hz as <-); simpl.
    all: try (left; eauto; fail).
    all: right; (split; [lia|]); simpl; try done.
    all: split; [lia|]; unfold s2; simpl; rewrite !lookup_insert; repeat case_decide;
      try done; try lia; eauto.
  - intros m dm Hm. rewrite Hn2, lookup_insert in Hm. case_decide; subst.
    + injection Hm as <-. unfold node_refs_ok. simpl.
      split_and!; try done; try (eapply handle_ok_mono; eauto; fail); try (by rewrite Hb).
      all: unfold s2; simpl; rewrite !lookup_insert; repeat case_decide; try done; try lia; eauto.
    + destruct (Hrefs _ _ Hm) as (H1 & H2 & H3 & H4 & H5 & H6).
      split_and!; try done; eapply handle_ok_mono; eauto.
  - pose proof Hh as [Hclt _]. apply handles_ok_intro; [simpl; lia|].
    intros n dn r0 e Hn Hr0.
    destruct (Hcases _ _ _ _ Hn Hr0) as [(-> & -> & ->)|(d0 & Hn0 & Hr00 & Hlt)].
    + split_and!; [lia|simpl; lia|]. intros n' d' r' Hn' Hr'.
      destruct (Hcases _ _ _ _ Hn' Hr') as [(-> & -> & _)|(? & _ & _ & ?)]; [done|lia].
    + destruct (handles_ok_inv _ _ _ _ _ _ Hh Hn0 Hr00) as (Hnec & _ & Hinj).
      split_and!; [done|simpl; lia|]. intros n' d' r' Hn' Hr'.
      destruct (Hcases _ _ _ _ Hn' Hr') as [(_ & _ & ->)|(d0' & Hn0' & Hr0' & _)]; [lia|].
      eauto.
  - by apply Hkeep.
Qed.

Lemma ready_defer rank c n : sound (stable rank c) (roots_kept c) (defer n).
Proof.
  intros s u s' HI [= _ <-]. split; [by eapply stable_nodes|by apply roots_kept_nodes].
Qed.

Lemma ready_updateRepresentation rank c n :
  sound (stable rank c) (roots_kept c) (updateRepresentation n).
Proof.
  pose proof (ready_defer rank c). pose proof (ready_createRepresentation rank c).
  unfold updateRepresentation. ready_go_in c.
Qed.

(** What a step adds to the refreshed nodes: the nodes of [ns], and every
    node refreshed before stays refreshed. *)
Definition adds (s s' : State) (ns : list nat) : Prop :=
  forall s0 m, (nextElem s0 <= nextElem s)%nat ->
    refreshedNode s0 s m \/ m ∈ ns -> refreshedNode s0 s' m.

Lemma updateRepresentation_step rank c s this :
  ready rank c s -> is_Some (nodes s !! this) ->
  exists s', updateRepresentation this s = Some (tt, s') /\ ready rank c s' /\
             same_layout s s' /\ tasks s' = tasks s ++ [this] /\
             refreshes s s' /\ same_drawing s s' /\ adds s s' [this].
Proof.
  intros Hready [d Hd]. pose proof (ready_stable _ _ _ Hready) as Hstable.
  destruct Hready as (HI & Hok & Hrank & Hsnap & Hcont & Hroots).
  destruct (updateRepresentation_runs s c this d HI Hd)
    as (s' & Hrun & HI' & Hsame & Ht & Hrefr & Hdraw & Hnew & Hframe).
  destruct (ready_updateRepresentation rank c this s tt s' Hstable Hrun)
    as [(H1 & H2 & H3 & H4) HR].
  exists s'. split; [done|]. split; [|split_and!; try done].
  - split_and!; try done.
    + by destruct (layout_ok_same s s' Hsame (conj (proj1 HI) Hok)).
    + by eapply roots_drawn_kept.
  - intros s0 m Hle [Hm|Hm].
    + destruct (decide (m = this)) as [->|Hne].
      * by eapply refreshedNode_older.
      * eapply refreshedNode_step; [done|by apply Hframe|done].
    + apply list_elem_of_singleton in Hm as ->. by eapply refreshedNode_older.
Qed.

Lemma updateRepresentation_ready rank c s this :
  ready rank c s -> is_Some (nodes s !! this) ->
  exists s', updateRepresentation this s = Some (tt, s') /\ ready rank c s' /\
             same_layout s s' /\ tasks s' = tasks s ++ [this] /\
             forall f r x y, Drawn f s c r x y -> Drawn f s' c r x y.
Proof.
  intros Hready Hthis.
  destruct (updateRepresentation_step rank c s this Hready Hthis)
    as (s' & Hrun & Hready' & Hsame & Ht & _ & Hdraw & _).
  exists s'. split_and!; try done. intros f r x y. by apply Drawn_same_drawing.
Qed.

(** X23: refreshing a representation keeps the page ready and the picture
    in place.  On a ready page [updateRepresentation] returns for every
    node, leaves the page ready for clicks, changes no link, child list or
    cached width, queues exactly one callback, for the node itself, and
    every tree that was laid out is still laid out from the same origin. *)
Theorem updateRepresentation_keeps_page_ready rank c s this :
  ready rank c s -> is_Some (nodes s !! this) ->
  exists s', updateRepresentation this s = Some (tt, s') /\ ready rank c s' /\
             same_layout s s' /\ tasks s' = tasks s ++ [this] /\
             forall f r x y, Drawn f s c r x y -> Drawn f s' c r x y.
Proof. apply updateRepresentation_ready. Qed.

Lemma ready_with_tasks rank c q s : ready rank c s -> ready rank c (with_tasks q s).
Proof.
  intros (HI & Hok & Hrank & Hsnap & Hcont & Hroots). split_and!; try done.
  by destruct (layout_ok_same s (with_tasks q s) ltac:(by apply same_layout_nodes)
                 (conj (proj1 HI) Hok)).
Qed.

Lemma same_layout_trans s1 s2 s3 :
  same_layout s1 s2 -> same_layout s2 s3 -> same_layout s1 s3.
Proof.
  intros [HN1 Hn1] [HN2 Hn2]. split; [congruence|].
  intros m. specialize (Hn1 m). specialize (Hn2 m). destruct (nodes s1 !! m) as [dm|].
  - destruct Hn1 as (d1 & Hd1 & ? & ? & ?). rewrite Hd1 in Hn2.
    destruct Hn2 as (d2 & Hd2 & ? & ? & ?). exists d2. split_and!; congruence.
  - by rewrite Hn1 in Hn2.
Qed.

Lemma same_layout_is_Some s s' k :
  same_layout s s' -> is_Some (nodes s !! k) -> is_Some (nodes s' !! k).
Proof.
  intros [_ Hn] [dk Hdk]. specialize (Hn k). rewrite Hdk in Hn.
  destruct Hn as (? & -> & _). eauto.
Qed.

Lemma adds_refl s : adds s s [].
Proof. intros s0 m _ [H|H]; [done|]. by apply elem_of_nil in H. Qed.

Lemma adds_cons s s1 s' ch cs :
  refreshes s s1 -> adds s s1 [ch] -> adds s1 s' cs -> adds s s' (ch :: cs).
Proof.
  intros (HE & _) H1 H2 s0 m Hle Hm. apply H2; [lia|].
  destruct Hm as [Hm|Hm].
  - left. apply H1; [done|by left].
  - apply elem_of_cons in Hm as [->|Hm]; [|by right].
    left. apply H1; [done|]. right. by apply list_elem_of_singleton.
Qed.

Lemma refresh_children_step rank c cs : forall s,
  ready rank c s -> Forall (fun ch => is_Some (nodes s !! ch)) cs ->
  exists s', forM_ updateRepresentation cs s = Some (tt, s') /\ ready rank c s' /\
             same_layout s s' /\ tasks s' = tasks s ++ cs /\
             refreshes s s' /\ same_drawing s s' /\ adds s s' cs.
Proof.
  induction cs as [|ch cs IH]; intros s Hready Hcs; simpl.
  - exists s. split_and!; try done.
    + by apply same_layout_nodes.
    + by rewrite app_nil_r.
    + by apply refreshes_elems.
    + by apply same_drawing_nodes.
    + apply adds_refl.
  - apply Forall_cons in Hcs as [Hch Hcs].
    destruct (updateRepresentation_step rank c s ch Hready Hch)
      as (s1 & Hrun1 & Hready1 & Hsame1 & Ht1 & Hrefr1 & Hdraw1 & Hadds1).
    destruct (IH s1 Hready1) as (s' & Hrun' & Hready' & Hsame' & Ht' & Hrefr' & Hdraw' & Hadds').
    { eapply Forall_impl; [exact Hcs|]. intros k. by apply same_layout_is_Some. }
    exists s'. rewrite (bind_eq _ _ _ _ _ Hrun1). split_and!; try done.
    + by eapply same_layout_trans.
    + rewrite Ht', Ht1. by rewrite <- app_assoc.
    + by eapply refreshes_trans.
    + by eapply same_drawing_trans.
    + by eapply adds_cons.
Qed.

Lemma runTask_step rank c s n q d :
  ready rank c s -> tasks s = n :: q -> nodes s !! n = Some d ->
  exists s', runTask s = Some (tt, s') /\ ready rank c s' /\ same_layout s s' /\
             tasks s' = q ++ children d /\
             refreshes s s' /\ same_drawing s s' /\ adds s s' (children d).
Proof.
  intros Hready Ht Hd. pose proof (ready_with_tasks rank c q s Hready) as Hready0.
  destruct (refresh_children_step rank c (children d) (with_tasks q s) Hready0)
    as (s' & Hrun & Hready' & Hsame & Ht' & Hrefr & Hdraw & Hadds).
  { apply Forall_forall. intros ch Hch. destruct Hready as ((Htree & _) & _).
    destruct (tree_wf_child _ _ _ _ Htree Hd Hch) as [_ (dc & Hdc & _)]. simpl. eauto. }
  exists s'. split_and!; try done.
  unfold runTask. rewrite Ht.
  by rewrite (bind_eq _ _ (with_tasks q s) _ _ (getNode_eq n (with_tasks q s) d Hd)).
Qed.

(** X24: the deferred refresh walks one level down.  On a ready page whose
    oldest queued callback belongs to an existing node, running it returns,
    replaces the representation of each child of that node that is on the
    page (by a new element with the backing node's content in the same
    place), queues one callback per child in order behind the callbacks
    that were waiting, and leaves the page ready with every tree laid out
    where it was. *)
Theorem runTask_refreshes_children rank c s n q d :
  ready rank c s -> tasks s = n :: q -> nodes s !! n = Some d ->
  exists s', runTask s = Some (tt, s') /\ ready rank c s' /\ same_layout s s' /\
             tasks s' = q ++ children d /\
             Forall (replaced s s') (children d) /\
             forall f r x y, Drawn f s c r x y -> Drawn f s' c r x y.
Proof.
  intros Hready Ht Hd.
  destruct (runTask_step rank c s n q d Hready Ht Hd)
    as (s' & Hrun & Hready' & Hsame & Ht' & Hrefr & Hdraw & Hadds).
  exists s'. split_and!; try done.
  - apply Forall_forall. intros ch Hch. apply replaced_intro; try done.
    apply Hadds; [done|by right].
  - intros f r x y. by apply Drawn_same_drawing.
Qed.

(** * The refresh cascade *)

(** [k] turns of the event loop, each running the oldest queued callback. *)
Fixpoint runTasks (k : nat) : M unit :=
  match k with
  | O => ret tt
  | S k => runTask ;;; runTasks k
  end.

(** The callbacks queued by running the callbacks of [q]: the children of
    each node of [q], in order. *)
Definition childrenOf (s : State) (q : list nid) : list nid :=
  mjoin ((fun n => from_option children [] (nodes s !! n)) <$> q).

(** The refresh started at [a] in [s0] has reached [m], or a callback that
    leads to [m] is waiting. *)
Definition covered (s0 s : State) (a : nat) : Prop :=
  forall m, inTree s0 a m ->
    refreshedNode s0 s m \/
    exists n d ch, n ∈ tasks s /\ nodes s0 !! n = Some d /\ ch ∈ children d /\
                   inTree s0 ch m.

Lemma childrenOf_same_layout s s' q :
  same_layout s s' -> childrenOf s' q = childrenOf s q.
Proof.
  intros Hs. unfold childrenOf. f_equal. apply list_fmap_ext. intros _ n _.
  pose proof (same_layout_children s s' n Hs) as Hc.
  destruct (nodes s' !! n), (nodes s !! n); simpl in *; congruence.
Qed.

Lemma runTasks_add a b s :
  runTasks (a + b) s = (runTasks a ;;; runTasks b) s.
Proof.
  revert s. induction a as [|a IH]; intros s; simpl; [done|].
  rewrite bind_assoc. unfold bind. destruct (runTask s) as [[u s1]|]; [|done].
  specialize (IH s1). unfold bind in IH. exact IH.
Qed.

Lemma childrenOf_deeper s q h :
  tree_wf s -> Forall (fun n => is_Some (nodes s !! n) /\ (nextNode s <= S h + n)%nat) q ->
  Forall (fun n => is_Some (nodes s !! n) /\ (nextNode s <= h + n)%nat) (childrenOf s q).
Proof.
  intros Htree Hq. unfold childrenOf. apply Forall_forall. intros ch Hch.
  apply list_elem_of_join in Hch as (l & Hch & Hl).
  apply list_elem_of_fmap in Hl as (n & -> & Hn).
  rewrite Forall_forall in Hq. destruct (Hq n Hn) as [[d Hd] Hle].
  rewrite Hd in Hch. simpl in Hch.
  destruct (tree_wf_child _ _ _ _ Htree Hd Hch) as [Hlt (dc & Hdc & _)].
  split; [eauto|lia].
Qed.

Section Drain.
Variables (rank : nat -> nat) (c : nat) (J : State -> Prop).
Hypothesis J_step : forall s n q d s',
  ready rank c s -> J s -> tasks s = n :: q -> nodes s !! n = Some d ->
  runTask s = Some (tt, s') -> J s'.

(** One pass over the callbacks that are waiting: each runs in its turn and
    queues the children of its node behind the rest. *)
Lemma runTasks_pass q : forall r s,
  ready rank c s -> J s -> tasks s = q ++ r -> Forall (fun n => is_Some (nodes s !! n)) q ->
  exists s', runTasks (length q) s = Some (tt, s') /\ ready rank c s' /\ J s' /\
             same_layout s s' /\ tasks s' = r ++ childrenOf s q.
Proof.
  induction q as [|n q IH]; intros r s Hready HJ Ht Hq.
  - exists s. split_and!; try done.
    + by apply same_layout_nodes.
    + unfold childrenOf. simpl. by rewrite app_nil_r.
  - apply Forall_cons in Hq as [[d Hd] Hq].
    destruct (runTask_step rank c s n (q ++ r) d Hready Ht Hd)
      as (s1 & Hrun1 & Hready1 & Hsame1 & Ht1 & _).
    pose proof (J_step s n (q ++ r) d s1 Hready HJ Ht Hd Hrun1) as HJ1.
    destruct (IH (r ++ children d) s1 Hready1 HJ1)
      as (s' & Hrun' & Hready' & HJ' & Hsame' & Ht').
    { by rewrite Ht1, <- app_assoc. }
    { eapply Forall_impl; [exact Hq|]. intros k. by apply same_layout_is_Some. }
    exists s'. split_and!; try done.
    + simpl. by rewrite (bind_eq _ _ _ _ _ Hrun1).
    + by eapply same_layout_trans.
    + rewrite Ht', (childrenOf_same_layout s s1 q Hsame1). unfold childrenOf. simpl.
      rewrite Hd. simpl. by rewrite <- app_assoc.
Qed.

(** Every queued node lies at most [h] above the deepest node; a pass
    lowers that bound by one. *)
Lemma runTasks_drain h : forall s,
  ready rank c s -> J s ->
  Forall (fun n => is_Some (nodes s !! n) /\ (nextNode s <= h + n)%nat) (tasks s) ->
  exists k s', runTasks k s = Some (tt, s') /\ ready rank c s' /\ J s' /\ tasks s' = [].
Proof.
  induction h as [|h IH]; intros s Hready HJ Hq.
  - exists 0%nat, s. split_and!; try done.
    destruct (tasks s) as [|n q]; [done|]. apply Forall_cons in Hq as [[[d Hd] Hle] _].
    destruct Hready as ((Htree & _) & _). destruct (Htree _ _ Hd) as [Hlt _]. lia.
  - destruct (runTasks_pass (tasks s) [] s Hready HJ)
      as (s1 & Hrun1 & Hready1 & HJ1 & Hsame1 & Ht1).
    { by rewrite app_nil_r. }
    { eapply Forall_impl; [exact Hq|]. by intros n [? _]. }
    simpl in Ht1. pose proof Hready as ((Htree & _) & _).
    pose proof (childrenOf_deeper s (tasks s) h Htree Hq) as Hdeep.
    destruct (IH s1 Hready1 HJ1) as (k & s' & Hrun' & Hready' & HJ' & Ht').
    { rewrite Ht1. eapply Forall_impl; [exact Hdeep|]. intros n [Hn Hle].
      split; [by eapply same_layout_is_Some|]. destruct Hsame1 as [-> _]. lia. }
    exists (length (tasks s) + k)%nat, s'. split_and!; try done.
    by rewrite runTasks_add, (bind_eq _ _ _ _ _ Hrun1).
Qed.
End Drain.

(** What holds of every state of the refresh started at [a] in [s0]. *)
Definition refreshing (s0 : State) (a : nat) (s : State) : Prop :=
  same_layout s0 s /\ refreshes s0 s /\ same_drawing s0 s /\ covered s0 s a.

Lemma refreshing_step rank c s0 a s n q d s' :
  ready rank c s -> refreshing s0 a s -> tasks s = n :: q -> nodes s !! n = Some d ->
  runTask s = Some (tt, s') -> refreshing s0 a s'.
Proof.
  intros Hready (Hsame & Hrefr & Hdraw & Hcov) Ht Hd Hrun.
  destruct (runTask_step rank c s n q d Hready Ht Hd)
    as (s2 & Hrun2 & _ & Hsame2 & Ht2 & Hrefr2 & Hdraw2 & Hadds).
  rewrite Hrun in Hrun2. injection Hrun2 as <-.
  split_and!.
  - by eapply same_layout_trans.
  - by eapply refreshes_trans.
  - by eapply same_drawing_trans.
  - intros m Hm. destruct (Hcov m Hm) as [Hdone|(n' & d' & ch & Hn' & Hd' & Hch & Hin)].
    + left. apply Hadds; [by destruct Hrefr|by left].
    + rewrite Ht in Hn'. apply elem_of_cons in Hn' as [->|Hn'].
      * pose proof (same_layout_children s0 s n Hsame) as Hc.
        rewrite Hd, Hd' in Hc. simpl in Hc. injection Hc as Hc.
        inversion Hin as [|dch c2 m' Hdch Hc2 Hin2]; subst.
        -- left. apply Hadds; [by destruct Hrefr|]. right. by rewrite Hc.
        -- right. exists ch, dch, c2. split_and!; try done.
           rewrite Ht2, elem_of_app. right. by rewrite Hc.
      * right. exists n', d', ch. split_and!; try done.
        rewrite Ht2, elem_of_app. by left.
Qed.

Lemma refresh_cascade rank c s a :
  ready rank c s -> tasks s = [] -> is_Some (nodes s !! a) ->
  exists k s', (updateRepresentation a ;;; runTasks k) s = Some (tt, s') /\
               ready rank c s' /\ tasks s' = [] /\ refreshing s a s'.
Proof.
  intros Hready Ht Ha.
  destruct (updateRepresentation_step rank c s a Hready Ha)
    as (s1 & Hrun1 & Hready1 & Hsame1 & Ht1 & Hrefr1 & Hdraw1 & Hadds1).
  rewrite Ht in Ht1. simpl in Ht1.
  assert (refreshing s a s1) as HJ1.
  { split_and!; try done. intros m Hm.
    inversion Hm as [|d ch m' Hd Hch Hin]; subst.
    - left. apply Hadds1; [done|]. right. by apply list_elem_of_singleton.
    - right. exists a, d, ch. split_and!; try done. rewrite Ht1.
      by apply list_elem_of_singleton. }
  destruct (runTasks_drain rank c (refreshing s a) (refreshing_step rank c s a)
              (nextNode s1) s1 Hready1 HJ1)
    as (k & s' & Hrun' & Hready' & HJ' & Ht').
  { rewrite Ht1. apply Forall_singleton.
    split; [by eapply same_layout_is_Some|lia]. }
  exists k, s'. split_and!; try done.
  by rewrite (bind_eq _ _ _ _ _ Hrun1).
Qed.

(** X25: the refresh started through the handle that [BuildTree] returns
    reaches the whole subtree and comes to an end.  On a ready page with no
    callback waiting, [updateRepresentation] on a node returns and, after
    finitely many turns of the event loop, each running the oldest queued
    callback, no callback is waiting and none has failed.  Then for every
    node reached from the node through child lists whose representation
    was on the page, the representation is a new element that shows the
    content of the backing node and reports clicks to the node, with the
    class, position and parent of the old one; every tree that was laid out
    is still laid out from the same origin; no link, child list or cached
    width has changed, and the page is ready. *)
Theorem refresh_reaches_subtree rank c s a :
  ready rank c s -> tasks s = [] -> is_Some (nodes s !! a) ->
  exists k s', (updateRepresentation a ;;; runTasks k) s = Some (tt, s') /\
               ready rank c s' /\ tasks s' = [] /\ same_layout s s' /\
               (forall m, inTree s a m -> replaced s s' m) /\
               (forall f r x y, Drawn f s c r x y -> Drawn f s' c r x y).
Proof.
  intros Hready Ht Ha.
  destruct (refresh_cascade rank c s a Hready Ht Ha)
    as (k & s' & Hrun & Hready' & Ht' & Hsame & Hrefr & Hdraw & Hcov).
  exists k, s'. split_and!; try done.
  - intros m Hm. apply replaced_intro; try done.
    destruct (Hcov m Hm) as [H|(n & _ & _ & Hn & _)]; [done|].
    rewrite Ht' in Hn. by apply elem_of_nil in Hn.
  - intros f r x y. by apply Drawn_same_drawing.
Qed.

(** * The width the layout is given (claim C3) *)

(** tree.js exports [BuildTree] alone.  From outside, the library is
    entered through [BuildTree], through the click handler that
    [createRepresentation] registers (lines 47-58), through
    [updateRepresentation] on the handle that [BuildTree] returns, and
    through the callbacks it defers.  The constructor, [expand],
    [collapse] and [invalidate] run inside these only: the constructor in
    [BuildTree] and in [expand], [expand] and [collapse(false)] in the
    click handler with [invalidate] right after them, [collapse(true)] in
    [collapse] on children that are dropped from the list. *)
Definition entry (c : eid) (op : Op) : bool :=
  match op with
  | OpBuildTree c' _ => bool_decide (c' = c)
  | OpClick _ _ | OpUpdateRepresentation _ | OpRunTask => true
  | _ => false
  end.

(** The states between two calls from outside, on a page that starts
    without any drawing node, with a well-formed DOM and closed, acyclic
    backing data ([ready] with no node), and whose trees are built into
    container [c]. *)
Inductive visited (rank : nat -> nat) (c : eid) : State -> Prop :=
  | visited_init s : nodes s = ∅ -> ready rank c s -> visited rank c s
  | visited_step s fuel op s' :
      visited rank c s -> entry c op = true -> run fuel op s = Some (tt, s') ->
      visited rank c s'.







(** * Expanding a node that is expanded (claim C8) *)

(** Node [c] is a materialized child of [this] for the snapshot entry [x]:
    a drawing node built for backing node [x] with [this] as its parent,
    holding a representation element. *)
Definition child_for (s : State) (this : nat) (c x : nat) : Prop :=
  exists dc e, nodes s !! c = Some dc /\ innerNode dc = x /\ parent dc = Some this /\
               representation dc = Some e /\ is_Some (elems s !! e).

(** C8: [expand] on a node that is expanded already, with one child per
    snapshot entry, builds a second child for every entry and does not
    collapse the first: afterwards each snapshot entry has two different
    materialized child nodes, the one that was in the child list before
    and a new one.  Only the new ones are in the child list; the earlier
    ones are unchanged, still point to the node as their parent, and every
    element that existed is as it was, so what was drawn of them stays on
    the page. *)
Theorem expand_twice_duplicates rank c f s this d r :
  Inv s c -> backing_ranked rank s -> nodes s !! this = Some d -> (1 <= f)%nat ->
  Forall (fun x => is_Some (backing s !! x) /\ (2 * rank x + 3 <= f)%nat) (nodeChildren d) ->
  isExpanded d = true -> Forall2 (child_for s this) (children d) (nodeChildren d) ->
  exists s' cs,
    expand f this r s = Some (tt, s') /\
    nodes s' !! this = Some (set_isExpanded true (set_children cs d)) /\
    (forall i x, nodeChildren d !! i = Some x ->
       exists c1 c2, children d !! i = Some c1 /\ cs !! i = Some c2 /\ c1 <> c2 /\
                     child_for s' this c1 x /\ child_for s' this c2 x /\
                     nodes s' !! c1 = nodes s !! c1 /\ nodes s !! c2 = None) /\
    (forall e x, elems s !! e = Some x -> elems s' !! e = Some x).
Proof.
  intros HI Hrank Hd Hf Hxs Hexp Hold.
  destruct (proj2 (build_inv rank c f) s this d r HI Hrank Hd Hf Hxs)
    as (s' & cs & Hrun & HI' & Hbuilds & Hkeep & Hthis & Hnd & Hcs & _).
  pose proof (grows_elems _ _ (builds_grows _ _ Hbuilds)) as Helems.
  pose proof (Inv_ids_fresh _ _ HI) as Hfresh. pose proof HI as (Htree & _).
  exists s', cs. split_and!; try done.
  intros i x Hx.
  destruct (Forall2_lookup_r _ _ _ _ _ Hold Hx)
    as (c1 & Hc1 & dc & e & Hdc & Hin & Hp & He & [xe Hxe]).
  destruct (Forall2_lookup_r _ _ _ _ _ Hcs Hx) as (c2 & Hc2 & Hle & dc2 & Hdc2 & Hin2 & Hp2).
  assert (nodes s !! c2 = None) as Hnone by by apply ids_fresh_node.
  assert (c1 <> this) as Hne.
  { intros ->. destruct (Htree _ _ Hdc) as (_ & Hpar & _). rewrite Hp in Hpar.
    simpl in Hpar. lia. }
  assert (c1 < nextNode s)%nat as Hlt by (by destruct (Htree _ _ Hdc)).
  exists c1, c2. split_and!; try done.
  - intros ->. congruence.
  - exists dc, e. rewrite Hkeep by done. split_and!; try done. rewrite (Helems _ _ Hxe). eauto.
  - destruct HI' as (_ & _ & Hrefs' & _).
    destruct (Hrefs' _ _ Hdc2) as ([e2 He2] & Hre2 & _). rewrite He2 in Hre2.
    exists dc2, e2. split_and!; done.
  - by apply Hkeep.
Qed.

(** * The further properties on the example page *)

(** [Examples.built] after a click on the root, which expands it and draws
    the tree again, and after a second click with the control key, which
    collapses it and draws again. *)
Definition clickedOpen : State :=
  Eval vm_compute in Examples.after 5 (OpClick 0 false) Examples.built.



Lemma expand_twice_duplicates_witness :
  exists s' (cs : list nat),
    expand 5 0 false Examples.drawn = Some (tt, s') /\
    (forall i x, [1%nat; 2%nat] !! i = Some x ->
       exists c1 c2, [1%nat; 2%nat] !! i = Some c1 /\ cs !! i = Some c2 /\ c1 <> c2 /\
                     child_for s' 0 c1 x /\ child_for s' 0 c2 x).
Proof.
  assert (Inv Examples.drawn 0) as HI by by_compute.
  assert (backing_ranked exampleRank Examples.drawn) as HR by by_compute.
  assert (Forall (fun x => is_Some (backing Examples.drawn !! x) /\
                           (2 * exampleRank x + 3 <= 5)%nat) [1%nat; 2%nat]) as H4
    by by_compute.
  assert (1 <= 5)%nat as H5 by lia.
  assert (Forall2 (child_for Examples.drawn 0) [1%nat; 2%nat] [1%nat; 2%nat]) as H6.
  { repeat constructor; eexists _, _; (split_and!; [reflexivity..|by_compute]). }
  destruct (expand_twice_duplicates exampleRank 0 5 Examples.drawn 0 _ false
              HI HR eq_refl H5 H4 eq_refl H6)
    as (s' & cs & H1 & _ & H2 & _).
  exists s', cs. split; [exact H1|]. intros i x Hx.
  destruct (H2 i x Hx) as (c1 & c2 & Ha & Hb & Hc & Hd & He & _).
  exists c1, c2. split; [exact Ha|]. split; [exact Hb|]. split; [exact Hc|].
  split; [exact Hd|exact He].
Defined.

(** The second [expand] arises in runs of the code itself.  A click with the
    control key calls [expand(true)], whose loop (lines 98-101) builds each
    child with [new DrawingTreeNode] and then calls [node.expand(true)] on
    it; the constructor (lines 33-35) has expanded the child already when
    its backing node remembers being expanded.  Here backing node 2 is
    first shown as the root of a tree and expanded by a click; then a tree
    is built from backing node 0 and its root is clicked with the control
    key.  The node built for backing node 2 (node 4) is expanded twice: its
    child list holds node 6, and node 5, built by the first of the two
    calls, is a second child node for the same snapshot entry. *)
Definition shownAlone : State :=
  Eval vm_compute in Examples.after 4 (OpBuildTree 0 2) Examples.page.
Definition shownOpen : State :=
  Eval vm_compute in Examples.after 5 (OpClick 0 false) shownAlone.
Definition builtAgain : State :=
  Eval vm_compute in Examples.after 5 (OpBuildTree 0 0) shownOpen.
Definition rememberedTwice : State :=
  Eval vm_compute in Examples.after 8 (OpClick 2 true) builtAgain.

Lemma visited_rememberedTwice : visited exampleRank 0 rememberedTwice.
Proof.
  apply (visited_step _ _ builtAgain 8 (OpClick 2 true)); [|done|vm_compute; reflexivity].
  apply (visited_step _ _ shownOpen 5 (OpBuildTree 0 0)); [|done|vm_compute; reflexivity].
  apply (visited_step _ _ shownAlone 5 (OpClick 0 false)); [|done|vm_compute; reflexivity].
  apply (visited_step _ _ Examples.page 4 (OpBuildTree 0 2)); [|done|vm_compute; reflexivity].
  apply visited_init; [done|by_compute].
Qed.

Lemma ctrl_click_expands_remembered_child_twice :
  visited exampleRank 0 rememberedTwice /\
  (children <$> nodes rememberedTwice !! 4%nat) = Some [6%nat] /\
  (nodeChildren <$> nodes rememberedTwice !! 4%nat) = Some [3%nat] /\
  child_for rememberedTwice 4 5 3 /\ child_for rememberedTwice 4 6 3.
Proof.
  split; [exact visited_rememberedTwice|]. split; [reflexivity|]. split; [reflexivity|].
  split.
  - eexists _, _. split; [reflexivity|]. split; [reflexivity|]. split; [reflexivity|].
    split; [reflexivity|]. by_compute.
  - eexists _, _. split; [reflexivity|]. split; [reflexivity|]. split; [reflexivity|].
    split; [reflexivity|]. by_compute.
Qed.

(** [clickedOpen] after the source has pushed backing node 3 onto the array
    of backing node 0. *)
Definition pushed : State :=
  Eval vm_compute in
    match sourceWrites 0 [1%nat; 2%nat; 3%nat] clickedOpen with
    | Some (_, s') => s'
    | None => clickedOpen
    end.

(** C6, refuted as stated: the root of the example is constructed with the
    snapshot [1; 2]; the source then pushes backing node 3 onto that array,
    and [collapse] followed by [expand] gives the root three children,
    backed by 1, 2 and 3.  The same happens through the click handler
    (a click with the control key, then a click). *)
Lemma snapshot_follows_source_array :
  nodeChildren <$> nodes Examples.built !! 0%nat = Some [1%nat; 2%nat] /\
  sourceWrites 0 [1%nat; 2%nat; 3%nat] clickedOpen = Some (tt, pushed) /\
  (exists s1 s2 d2,
     collapse 5 0 false pushed = Some (tt, s1) /\ expand 5 0 false s1 = Some (tt, s2) /\
     nodes s2 !! 0%nat = Some d2 /\ length (children d2) = 3%nat /\
     length (children d2) <> length [1%nat; 2%nat] /\
     Forall2 (fun ch x => innerNode <$> nodes s2 !! ch = Some x) (children d2)
             [1%nat; 2%nat; 3%nat]) /\
  (exists s1 s2 d2,
     click 5 0 true pushed = Some (tt, s1) /\ click 5 0 false s1 = Some (tt, s2) /\
     nodes s2 !! 0%nat = Some d2 /\ length (children d2) = 3%nat /\
     Forall2 (fun ch x => innerNode <$> nodes s2 !! ch = Some x) (children d2)
             [1%nat; 2%nat; 3%nat]).
Proof.
  split; [reflexivity|]. split; [vm_compute; reflexivity|]. split.
  - eexists _, _, _. split; [vm_compute; reflexivity|]. split; [vm_compute; reflexivity|].
    split; [vm_compute; reflexivity|]. split; [reflexivity|]. split; [done|].
    repeat constructor.
  - eexists _, _, _. split; [vm_compute; reflexivity|]. split; [vm_compute; reflexivity|].
    split; [vm_compute; reflexivity|]. split; [reflexivity|]. repeat constructor.
Qed.

(** [Examples.expanded] after [getRequiredWidth] on the root. *)
Definition widthsCached : State :=
  Eval vm_compute in
    match getRequiredWidth 4 0 Examples.expanded with
    | Some (_, s') => s'
    | None => Examples.expanded
    end.

(** The example page after [new DrawingTreeNode(root, null)] alone: a root
    that was never drawn. *)
Definition constructed : State :=
  Eval vm_compute in Examples.after 4 (OpConstruct 0 None) Examples.page.

Lemma getRequiredWidth_again_witness :
  getRequiredWidth 5 0 widthsCached = Some (160, widthsCached).
Proof.
  apply (getRequiredWidth_again 4 0 Examples.expanded 160 widthsCached 4).
  vm_compute. reflexivity.
Defined.

Lemma getRequiredWidth_writes_dirty_caches_witness :
  elems widthsCached = elems Examples.expanded /\
  forall m, ~ below Examples.expanded 0 m ->
            nodes widthsCached !! m = nodes Examples.expanded !! m.
Proof.
  destruct (getRequiredWidth_writes_dirty_caches 4 0 Examples.expanded 160 widthsCached)
    as (H1 & _ & _ & _ & H2 & _); [by_compute|vm_compute; reflexivity|].
  split; [exact H1|exact H2].
Defined.

Lemma getRequiredWidth_floor_witness :
  getRequiredWidth 4 0 Examples.expanded = Some (160, widthsCached) /\ NODE_WIDTH <= 160.
Proof.
  assert (getRequiredWidth 4 0 Examples.expanded = Some (160, widthsCached)) as Hrun
    by (vm_compute; reflexivity).
  split; [exact Hrun|].
  destruct (getRequiredWidth_floor 4 0 Examples.expanded _ 160 widthsCached eq_refl Hrun)
    as [H _].
  apply H. left. reflexivity.
Defined.

Lemma getRequiredWidth_subtreeWidth_witness :
  exists s', getRequiredWidth 4 0 Examples.expanded
             = Some (subtreeWidth Examples.expanded 0, s').
Proof.
  destruct (getRequiredWidth_subtreeWidth 4 Examples.expanded 0) as (s' & H & _).
  - by_compute.
  - by_compute.
  - vm_compute. lia.
  - apply caches_valid_all. by_compute.
  - exists s'. exact H.
Defined.

Lemma expand_keeps_cached_width_witness :
  exists s' d',
    expand 5 2 false Examples.drawn = Some (tt, s') /\ nodes s' !! 2%nat = Some d' /\
    length (children d') = 1%nat /\
    getRequiredWidth 1 2 s' = Some (75, s').
Proof.
  assert (ids_fresh Examples.drawn) as H1 by by_compute.
  assert (backing_ranked exampleRank Examples.drawn) as H2 by by_compute.
  assert (is_Some (backing Examples.drawn !! 2%nat)) as H3 by by_compute.
  assert (Forall (fun x => is_Some (backing Examples.drawn !! x) /\
                           (2 * exampleRank x + 3 <= 5)%nat) [3%nat]) as H4 by by_compute.
  assert (1 <= 5)%nat as H5 by lia.
  destruct (expand_keeps_cached_width exampleRank Examples.drawn 2 _ false 5 0
              H1 H2 eq_refl H3 H4 H5)
    as (s' & d' & Hrun & Hd' & Hlen & _ & Hw); [vm_compute; discriminate|].
  exists s', d'. split; [exact Hrun|]. split; [exact Hd'|]. split; [exact Hlen|exact Hw].
Defined.

Lemma connectors_created_once_witness :
  exists s', getChildBar 0 Examples.expanded = Some (7%nat, s') /\
             getChildBar 0 s' = Some (7%nat, s').
Proof.
  destruct (connectors_created_once Examples.expanded 0 _ eq_refl) as [(s' & H1 & H2) _].
  exists s'. split; [exact H1|]. apply H2.
Defined.

Lemma updateRepresentation_detached_witness :
  updateRepresentation 1 Examples.collapsed
  = Some (tt, with_tasks (tasks Examples.collapsed ++ [1%nat]) Examples.collapsed).
Proof.
  apply (updateRepresentation_detached Examples.collapsed 1 _ eq_refl).
  eexists. split; [vm_compute; reflexivity|reflexivity].
Defined.

Lemma invalidate_needs_drawn_root_witness : invalidate 4 0 constructed = None.
Proof.
  eapply (invalidate_needs_drawn_root constructed 0 [0%nat] 0 _ 4); [|reflexivity|reflexivity].
  eapply chain_root; reflexivity.
Defined.

Lemma draw_places_node_witness :
  exists s' d e el,
    draw 4 0 0 0 clickedOpen = Some (tt, s') /\
    nodes s' !! 0%nat = Some d /\ representation d = Some e /\ elems s' !! e = Some el /\
    className el = nodeClass (isExpanded d) /\
    styleLeft el = px 0 /\ styleTop el = px 0 /\ parentNode el = Some 0%nat.
Proof.
  assert (Inv clickedOpen 0) as HI by by_compute.
  assert (caches_ok clickedOpen) as HC by by_compute.
  assert (0 < nextViewport clickedOpen)%nat as HV by (vm_compute; lia).
  assert (nextNode clickedOpen < 4 + 0)%nat as HF by (vm_compute; lia).
  destruct (draw_places_node 4 clickedOpen 0 0 0 0 0 _ HI HC eq_refl I eq_refl HV HF)
    as (s' & d & e & el & H1 & H2 & H3 & H4 & H5 & H6 & H7 & H8 & _).
  exists s', d, e, el. repeat (split; [assumption|]). assumption.
Defined.

Lemma draw_places_children_witness :
  exists s' d,
    draw 4 0 0 0 Examples.expanded = Some (tt, s') /\ nodes s' !! 0%nat = Some d /\
    forall i ch, children d !! i = Some ch ->
      exists dc e el,
        nodes s' !! ch = Some dc /\ representation dc = Some e /\
        elems s' !! e = Some el /\
        styleLeft el = px (0 + widths s' (take i (children d))) /\
        styleTop el = px (0 + (NODE_HEIGHT + NODE_MARGIN_Y)).
Proof.
  destruct (draw_places_children 4 Examples.expanded 0 0 0 0 0) as (s' & d & H1 & H2 & H3).
  - by_compute.
  - by_compute.
  - reflexivity.
  - vm_compute. lia.
  - vm_compute. lia.
  - exists s', d. split; [exact H1|]. split; [exact H2|]. intros i ch Hi.
    destruct (H3 i ch Hi) as (dc & e & el & pb & elp & A1 & _ & A3 & A4 & _ & A6 & A7 & _).
    exists dc, e, el. repeat (split; [assumption|]). assumption.
Defined.

Lemma draw_stays_in_subtree_witness :
  exists s',
    draw 4 2 0 0 Examples.expanded = Some (tt, s') /\ nextNode s' = 3%nat /\
    nodes s' !! 1%nat = nodes Examples.expanded !! 1%nat.
Proof.
  destruct (draw_stays_in_subtree 4 Examples.expanded 2 0 0 0 0) as (s' & H1 & H2 & H3 & _).
  - by_compute.
  - by_compute.
  - reflexivity.
  - vm_compute. lia.
  - vm_compute. lia.
  - exists s'. split; [exact H1|]. split; [exact H2|]. apply H3.
    intros Hb. pose proof (below_le _ _ _ Examples.tree_wf_expanded Hb). lia.
Defined.

Lemma collapse_detaches_subtree_witness :
  exists s',
    collapse 4 0 false Examples.drawn = Some (tt, s') /\ Inv s' 0 /\
    removed s' 1 /\ removed s' 2 /\ childless s' 0.
Proof.
  assert (Inv Examples.drawn 0) as HI by by_compute.
  destruct (collapse_detaches_subtree 4 Examples.drawn 0 0 false _ HI eq_refl) as
    (s' & H1 & H2 & H3 & H4 & _).
  - vm_compute. lia.
  - exists s'. split; [exact H1|]. split; [exact H2|]. split; [|split; [|exact H4]].
    + apply H3; [|lia]. eapply inTree_step; [reflexivity| |apply inTree_refl].
      vm_compute. left.
    + apply H3; [|lia]. eapply inTree_step; [reflexivity| |apply inTree_refl].
      vm_compute. right. left.
Defined.

Lemma draw_returns_witness :
  exists s', draw 4 0 0 0 Examples.expanded = Some (tt, s') /\ Inv s' 0 /\
             Drawn 4 s' 0 0 0 0.
Proof.
  destruct (draw_returns 4 Examples.expanded 0 0 0 0 0) as (s' & H1 & H2 & _ & H3).
  - by_compute.
  - by_compute.
  - reflexivity.
  - vm_compute. lia.
  - vm_compute. lia.
  - exists s'. split; [exact H1|]. split; [exact H2|exact H3].
Defined.

Lemma construct_restores_expansion_witness :
  exists s' dn,
    construct 6 0 None Examples.page = Some (0%nat, s') /\ Inv s' 0 /\
    nodes s' !! 0%nat = Some dn /\ children dn = [] /\ isExpanded dn = false.
Proof.
  assert (Inv Examples.page 0) as HI by by_compute.
  assert (backing_ranked exampleRank Examples.page) as HR by by_compute.
  destruct (construct_restores_expansion exampleRank 0 6 Examples.page 0 _ None HI HR eq_refl I)
    as (s' & dn & H1 & H2 & _ & H3 & _ & _ & _ & _ & _ & H4).
  - vm_compute. lia.
  - simpl in H4. destruct H4 as [H4 H5].
    exists s', dn. split; [exact H1|]. split; [exact H2|]. split; [exact H3|].
    split; [exact H4|exact H5].
Defined.

Lemma expand_keeps_page_well_formed_witness :
  exists s' (cs : list nat),
    expand 5 0 false Examples.built = Some (tt, s') /\ Inv s' 0 /\
    nodes s' !! 0%nat = (set_isExpanded true ∘ set_children cs) <$> nodes Examples.built !! 0%nat /\
    length cs = 2%nat /\ NoDup cs.
Proof.
  assert (Forall (fun x => is_Some (backing Examples.built !! x) /\
                           (2 * exampleRank x + 3 <= 5)%nat) [1%nat; 2%nat]) as H4
    by by_compute.
  assert (Inv Examples.built 0) as HI by by_compute.
  assert (backing_ranked exampleRank Examples.built) as HR by by_compute.
  assert (1 <= 5)%nat as H6 by lia.
  destruct (expand_keeps_page_well_formed exampleRank 0 5 Examples.built 0 _ false
              HI HR eq_refl H6 H4)
    as (s' & cs & H1 & H2 & _ & H7 & H3 & H5 & _).
  exists s', cs. split; [exact H1|]. split; [exact H2|]. split; [exact H7|]. split; [|exact H3].
    apply Forall2_length in H5. exact H5.
Defined.

Lemma BuildTree_draws_root_witness :
  exists f0, forall f, (f0 <= f)%nat ->
    exists s' dr,
      BuildTree f 0 0 Examples.page = Some (0%nat, s') /\ Inv s' 0 /\
      nodes s' !! 0%nat = Some dr /\ lastContainer dr = Some 0%nat /\
      Drawn f s' 0 0 0 0 /\ caches_ok s'.
Proof.
  assert (Inv Examples.page 0) as HI by by_compute.
  assert (backing_ranked exampleRank Examples.page) as HR by by_compute.
  destruct (BuildTree_draws_root exampleRank Examples.page 0 0 _ _ HI HR eq_refl eq_refl)
    as [f0 H].
  - constructor.
  - exists f0. intros f Hf.
    destruct (H f Hf) as (s' & dr & xc' & H1 & H2 & H3 & _ & _ & H4 & H5 & _ & _ & _ & _ & H6).
    exists s', dr. split; [exact H1|]. split; [exact H2|]. split; [exact H3|].
    split; [exact H4|]. split; [exact H5|]. apply H6. by_compute.
Defined.

Lemma invalidate_lays_out_tree_witness :
  exists s', invalidate 6 2 Examples.expanded = Some (tt, s') /\ Inv s' 0 /\
             Drawn 4 s' 0 0 0 0.
Proof.
  assert (Inv Examples.expanded 0) as HI by by_compute.
  assert (parent_chain Examples.expanded 2 [2%nat; 0%nat] 0) as HL.
  { eapply chain_step; [reflexivity|reflexivity|]. eapply chain_root; reflexivity. }
  destruct (invalidate_lays_out_tree 6 Examples.expanded 0 2 [2%nat; 0%nat] 0 _ 1 0 0
              HI HL eq_refl eq_refl eq_refl eq_refl)
    as (s' & H1 & H2 & H3 & _).
  - vm_compute. lia.
  - vm_compute. lia.
  - exists s'. split; [exact H1|]. split; [exact H2|exact H3].
Defined.

Lemma click_expands_and_redraws_witness :
  exists f0, forall f, (f0 <= f)%nat ->
    exists s' d',
      click f 0 false Examples.built = Some (tt, s') /\ Inv s' 0 /\
      nodes s' !! 0%nat = Some d' /\ isExpanded d' = true /\
      length (children d') = 2%nat.
Proof.
  assert (Inv Examples.built 0) as HI by by_compute.
  assert (backing_ranked exampleRank Examples.built) as HR by by_compute.
  assert (Forall (fun b => is_Some (backing Examples.built !! b)) [1%nat; 2%nat]) as HB
    by by_compute.
  assert (parent_chain Examples.built 0 [0%nat] 0) as HL
    by (eapply chain_root; reflexivity).
  destruct (click_expands_and_redraws exampleRank Examples.built 0 0 _ false
              [0%nat] 0 _ 1 0 0 HI HR eq_refl eq_refl HB HL eq_refl eq_refl eq_refl eq_refl)
    as [f0 H].
  - vm_compute. lia.
  - exists f0. intros f Hf. destruct (H f Hf) as (s' & d' & g & H1 & H2 & H3 & H4 & H5 & _).
    exists s', d'. split; [exact H1|]. split; [exact H2|]. split; [exact H3|].
    split; [exact H4|exact H5].
Defined.

Lemma click_collapses_and_redraws_witness :
  exists s' d',
    click 5 0 true Examples.drawn = Some (tt, s') /\ Inv s' 0 /\
    nodes s' !! 0%nat = Some d' /\ children d' = [] /\ isExpanded d' = false /\
    Drawn 4 s' 0 0 0 0.
Proof.
  assert (Inv Examples.drawn 0) as HI by by_compute.
  assert (parent_chain Examples.drawn 0 [0%nat] 0) as HL
    by (eapply chain_root; reflexivity).
  destruct (click_collapses_and_redraws 5 Examples.drawn 0 0 _ [0%nat] 0 _ 2 0 0
              HI eq_refl eq_refl HL eq_refl eq_refl eq_refl eq_refl)
    as (s' & d' & H1 & H2 & H3 & H4 & H5 & H6).
  - vm_compute. lia.
  - vm_compute. lia.
  - exists s', d'. split; [exact H1|]. split; [exact H2|]. split; [exact H3|].
    split; [exact H4|]. split; [exact H5|exact H6].
Defined.

Lemma draw_keeps_caches_valid_witness :
  exists s' d,
    draw 4 0 0 0 Examples.expanded = Some (tt, s') /\ caches_ok s' /\
    nodes s' !! 0%nat = Some d /\
    forall ch dc, ch ∈ children d -> nodes s' !! ch = Some dc ->
                  requiredWidth dc = subtreeWidth s' ch.
Proof.
  destruct (draw_keeps_caches_valid 4 Examples.expanded 0 0 0 0 0)
    as (s' & d & H1 & H2 & H3 & H4 & _).
  - by_compute.
  - by_compute.
  - by_compute.
  - reflexivity.
  - vm_compute. lia.
  - vm_compute. lia.
  - exists s', d. split; [exact H1|]. split; [exact H2|]. split; [exact H3|exact H4].
Defined.

Lemma click_keeps_page_ready_witness :
  exists f0, forall f, (f0 <= f)%nat ->
    exists s', click f 1 true Examples.drawn = Some (tt, s') /\ ready exampleRank 0 s'.
Proof.
  apply (click_keeps_page_ready exampleRank 0 Examples.drawn 1 true); by_compute.
Defined.

Lemma BuildTree_makes_page_ready_witness :
  exists f0, forall f, (f0 <= f)%nat ->
    exists s', BuildTree f 0 0 Examples.page = Some (0%nat, s') /\ ready exampleRank 0 s'.
Proof.
  apply (BuildTree_makes_page_ready exampleRank 0 Examples.page 0 blankElement).
  - by_compute.
  - by_compute.
  - reflexivity.
  - constructor.
Defined.

(** The page after [drawingRoot.updateRepresentation()] on the drawn example:
    one [work] closure of the root is queued. *)
Definition refreshed : State :=
  Eval vm_compute in Examples.after 0 (OpUpdateRepresentation 0) Examples.drawn.

Lemma updateRepresentation_keeps_page_ready_witness :
  exists s', updateRepresentation 0 Examples.drawn = Some (tt, s') /\
             ready exampleRank 0 s' /\ same_layout Examples.drawn s' /\
             tasks s' = [0%nat].
Proof.
  destruct (updateRepresentation_keeps_page_ready exampleRank 0 Examples.drawn 0)
    as (s' & H1 & H2 & H3 & H4 & _); [by_compute|by_compute|].
  exists s'. split; [exact H1|]. split; [exact H2|]. split; [exact H3|exact H4].
Defined.

Lemma runTask_refreshes_children_witness :
  exists s', runTask refreshed = Some (tt, s') /\ ready exampleRank 0 s' /\
             tasks s' = [1%nat; 2%nat] /\ Forall (replaced refreshed s') [1%nat; 2%nat].
Proof.
  assert (ready exampleRank 0 refreshed) as H1 by by_compute.
  destruct (runTask_refreshes_children exampleRank 0 refreshed 0 [] _ H1 eq_refl eq_refl)
    as (s' & H2 & H3 & _ & H4 & H5 & _).
  exists s'. split; [exact H2|]. split; [exact H3|]. split; [exact H4|exact H5].
Defined.

Lemma refresh_reaches_subtree_witness :
  exists k s', (updateRepresentation 0 ;;; runTasks k) Examples.drawn = Some (tt, s') /\
               ready exampleRank 0 s' /\ tasks s' = [] /\
               replaced Examples.drawn s' 2.
Proof.
  assert (ready exampleRank 0 Examples.drawn) as H1 by by_compute.
  assert (is_Some (nodes Examples.drawn !! 0%nat)) as H2 by by_compute.
  assert (inTree Examples.drawn 0 2) as H3.
  { eapply inTree_step; [reflexivity| |constructor]. by_compute. }
  destruct (refresh_reaches_subtree exampleRank 0 Examples.drawn 0 H1 eq_refl H2)
    as (k & s' & H5 & H6 & H7 & _ & H8 & _).
  exists k, s'. split; [exact H5|]. split; [exact H6|]. split; [exact H7|].
  exact (H8 2%nat H3).
Defined.
